(** * emacsclient: the session protocol layer of lib-src/emacsclient.c

    A shallow embedding of the wire codec ([quote_argument],
    [unquote_argument]), the buffered transmit path ([send_to_emacs]), the
    endpoint resolver ([socket_status], [set_local_socket],
    [get_server_config], [set_tcp_socket], [set_socket]) and the session
    controller (the command stream and the receive/dispatch loop of [main]).

    C strings are lists of characters without their terminating NUL where
    the code only reads them, and regions of an explicit byte memory where
    the code writes them in place. *)

From Stdlib Require Import ZArith Ascii String Lia DecimalString.
From stdpp Require Import base list strings.

Local Open Scope Z_scope.
Local Open Scope nat_scope.

(** ** Characters and C strings *)

Definition NUL : ascii := "000"%char.
Definition LF : ascii := "010"%char.
Definition SPC : ascii := " "%char.
Definition AMP : ascii := "&"%char.
Definition DASH : ascii := "-"%char.
Definition USCORE : ascii := "_"%char.
Definition LOWER_N : ascii := "n"%char.

(** The characters of a string literal, as the C compiler lays them out
    (without the final NUL). *)
Definition cs (s : string) : list ascii := list_ascii_of_string s.

(** The outcome of code that indexes memory: a value, an access outside the
    object, or an exhausted iteration budget. *)
Inductive access (A : Type) : Type :=
| Ok (a : A)
| OutOfBounds
| OutOfFuel.
Arguments Ok {A} a.
Arguments OutOfBounds {A}.
Arguments OutOfFuel {A}.

Definition access_bind {A B} (m : access A) (k : A -> access B) : access B :=
  match m with
  | Ok a => k a
  | OutOfBounds => OutOfBounds
  | OutOfFuel => OutOfFuel
  end.

(** [*p] *)
Definition load (mem : list ascii) (p : nat) : access ascii :=
  match mem !! p with
  | Some c => Ok c
  | None => OutOfBounds
  end.

(** [*p = c] *)
Definition store (mem : list ascii) (p : nat) (c : ascii) : access (list ascii) :=
  if decide (p < length mem) then Ok (<[p := c]> mem) else OutOfBounds.

(** The C string that starts at the head of [l]: the characters before the
    first NUL, when there is one. *)
Fixpoint c_str (l : list ascii) : option (list ascii) :=
  match l with
  | [] => None
  | c :: l' => if bool_decide (c = NUL) then Some [] else (c ::.) <$> c_str l'
  end.

(** The C string at address [a] of [mem]. *)
Definition cstring_at (mem : list ascii) (a : nat) : option (list ascii) :=
  c_str (drop a mem).

(** ** Wire codec *)

Module Codec.

(** The loop of [quote_argument]: [off] is [p - str], so [p == str] is
    [off = 0]; the result is what the loop writes to [copy]. *)
Fixpoint quote_loop (off : nat) (p : list ascii) : list ascii :=
  match p with
  | [] => []
  | c :: p' =>
      if bool_decide (c = SPC) then AMP :: USCORE :: quote_loop (S off) p'
      else if bool_decide (c = LF) then AMP :: LOWER_N :: quote_loop (S off) p'
      else
        (if bool_decide (c = AMP) || (bool_decide (c = DASH) && bool_decide (off = 0))
         then [AMP] else [])
        ++ c :: quote_loop (S off) p'
  end.

(** The text [quote_argument] hands to [send_to_emacs]. *)
Definition quote_text (str : list ascii) : list ascii := quote_loop 0 str.

(** The loop of [unquote_argument] over the memory that holds the string:
    [p] and [q] are addresses. *)
Fixpoint unquote_loop (fuel : nat) (mem : list ascii) (p q : nat) : access (list ascii) :=
  match fuel with
  | 0 => OutOfFuel
  | S fuel' =>
      access_bind (load mem p) (fun c =>
      if bool_decide (c = NUL) then store mem q NUL
      else if bool_decide (c = AMP) then
        let p1 := S p in
        access_bind (load mem p1) (fun d =>
        access_bind
          (if bool_decide (d = AMP) then store mem p1 AMP
           else if bool_decide (d = USCORE) then store mem p1 SPC
           else if bool_decide (d = LOWER_N) then store mem p1 LF
           else if bool_decide (d = DASH) then store mem p1 DASH
           else Ok mem) (fun mem1 =>
        access_bind (load mem1 p1) (fun e =>
        access_bind (store mem1 q e) (fun mem2 =>
        unquote_loop fuel' mem2 (S p1) (S q)))))
      else
        access_bind (store mem q c) (fun mem1 =>
        unquote_loop fuel' mem1 (S p) (S q)))
  end.

(** [unquote_argument]: [str] is [None] for a null pointer.  The result is
    the memory after the call; the returned pointer is [str] itself.  Every
    iteration advances [p], so [S (length mem)] iterations are enough. *)
Definition unquote_argument (mem : list ascii) (str : option nat) : access (list ascii) :=
  match str with
  | None => Ok mem
  | Some a => unquote_loop (S (length mem)) mem a a
  end.

(** What one escape stands for, in the words of the decoding rule. *)
Definition unescape (d : ascii) : ascii :=
  if bool_decide (d = AMP) then AMP
  else if bool_decide (d = USCORE) then SPC
  else if bool_decide (d = LOWER_N) then LF
  else if bool_decide (d = DASH) then DASH
  else d.

(** The decoding rule as the specification words it: on [&] consume the next
    character and map it, copy every other character.  (A final lone [&] has
    no next character; the rule gives it no meaning.) *)
Fixpoint decode_spec (s : list ascii) : list ascii :=
  match s with
  | [] => []
  | c :: t =>
      if bool_decide (c = AMP) then
        match t with
        | [] => []
        | d :: t' => unescape d :: decode_spec t'
        end
      else c :: decode_spec t
  end.

(** The text ends in an [&] that is not itself the payload of an escape. *)
Fixpoint dangling (s : list ascii) : bool :=
  match s with
  | [] => false
  | c :: t =>
      if bool_decide (c = AMP) then
        match t with
        | [] => true
        | _ :: t' => dangling t'
        end
      else dangling t
  end.

(** isprint of the C locale, space included. *)
Definition printable (c : ascii) : Prop := 32 <= nat_of_ascii c <= 126.

End Codec.

(** ** The operating system and the process state *)

(** Constants of the C library headers (POSIX build: no WINDOWSNT, no
    DARWIN_OS, sockets in the file system). *)
Definition EXIT_SUCCESS : Z := 0%Z.
Definition EXIT_FAILURE : Z := 1%Z.
Definition INVALID_SOCKET : Z := (-1)%Z.
Definition ENOENT : Z := 2%Z.
Definition EINTR : Z := 4%Z.
Definition SIGSTOP : Z := 19%Z.
Definition AUTH_KEY_LENGTH : nat := 64.
Definition SEND_BUFFER_SIZE : nat := 4096.

(** The conversion of a [long] to [int] (32 bits, two's complement). *)
Definition to_int (z : Z) : Z :=
  ((z + 2 ^ 31) mod 2 ^ 32 - 2 ^ 31)%Z.

Inductive stream := Stdout | Stderr.

Inductive domain := AF_UNIX | AF_INET.

Inductive sockaddr :=
| sockaddr_un (sun_path : list ascii)
| sockaddr_in (sin_addr : Z) (sin_port : Z).

(** stat(2): an error number, or the owner of the file. *)
Inductive stat_result := StatErr (e : Z) | StatOk (st_uid : Z).

(** A system call that yields a descriptor or an error number. *)
Inductive sys_result := SysErr (e : Z) | SysOk (v : Z).

(** recv(2): an error number, or the bytes read (none at end of stream). *)
Inductive recv_result := RecvErr (e : Z) | RecvBytes (b : list ascii).

(** What the process does that the outside can see, in order. *)
Inductive event :=
| EvWrite (f : stream) (text : list ascii)
| EvStat (path : list ascii)
| EvGetpwnam (name : list ascii)
| EvFopen (path : list ascii)
| EvSocket (d : domain)
| EvConnect (s : Z) (a : sockaddr)
| EvLinger (s : Z)
| EvSend (s : Z) (data : list ascii) (sent : Z)
| EvRecv (s : Z)
| EvInitSignals
| EvKill (pid : Z) (sig : Z)
| EvClose (s : Z).

(** The services of the system the client calls into. *)
Record OS := {
  os_getenv : string -> option (list ascii);
  os_environ : list (list ascii);
  os_geteuid : Z;
  os_stat : list ascii -> stat_result;
  os_getpwnam : list ascii -> option Z;
  os_fopen : list ascii -> option (list ascii);
  os_socket : domain -> sys_result;
  os_connect : sockaddr -> option Z;
  os_ttyname : option (list ascii);
  os_strerror : Z -> list ascii;
  os_inet_addr : list ascii -> Z;
  os_inet_ntoa : Z -> list ascii;
  os_atoi : list ascii -> Z;
  os_htons : Z -> Z;
  os_strtol : list ascii -> Z;
  os_sun_path_size : nat;
  os_BUFSIZ : nat;
  os_send_rest : Z
}.

(** The file-scope variables [decode_options] leaves fixed. *)
Record options := {
  progname : list ascii;
  quiet : bool;
  suppress_output : bool;
  eval : bool;
  create_frame : bool;
  parent_id : option (list ascii);
  alternate_editor : option (list ascii);
  server_file : option (list ascii);
  tramp_prefix : option (list ascii);
  frame_parameters : option (list ascii);
  args : list (list ascii)
}.

(** The file-scope variables that change after option decoding. *)
Record globals := {
  nowait : bool;
  display : option (list ascii);
  alt_display : option (list ascii);
  tty : bool;
  socket_name : option (list ascii);
  emacs_pid : Z;
  emacs_socket : Z
}.

(** The automatic variables of [main] that live across the loops. *)
Record locals := {
  rl : Z;
  skiplf : bool;
  string_buf : list ascii;
  exit_status : Z
}.

(** The static buffer of [send_to_emacs] (its first [sblen] bytes), [errno],
    and the outside world: the trace so far, the results the next calls of
    send(2) and recv(2) will give, and what is left on standard input.  An
    answer of send(2) is the number of bytes the peer takes at most, or,
    if it is negative, the negated error number of a failed call.  When the
    scripted answers of send(2) run out, every further call is answered by
    [os_send_rest]; when those of recv(2) run out, recv reads end of
    stream. *)
Record io := {
  send_buffer : list ascii;
  errno : Z;
  trace : list event;
  send_script : list Z;
  recv_script : list recv_result;
  stdin : list ascii
}.

Record state := {
  os : OS;
  opt : options;
  g : globals;
  l : locals;
  w : io
}.

Definition upd_g (f : globals -> globals) (st : state) : state :=
  {| os := os st; opt := opt st; g := f (g st); l := l st; w := w st |}.
Definition upd_l (f : locals -> locals) (st : state) : state :=
  {| os := os st; opt := opt st; g := g st; l := f (l st); w := w st |}.
Definition upd_w (f : io -> io) (st : state) : state :=
  {| os := os st; opt := opt st; g := g st; l := l st; w := f (w st) |}.

Definition with_nowait (v : bool) (x : globals) : globals :=
  {| nowait := v; display := display x; alt_display := alt_display x;
     tty := tty x; socket_name := socket_name x; emacs_pid := emacs_pid x;
     emacs_socket := emacs_socket x |}.
Definition with_display (v : option (list ascii)) (x : globals) : globals :=
  {| nowait := nowait x; display := v; alt_display := alt_display x;
     tty := tty x; socket_name := socket_name x; emacs_pid := emacs_pid x;
     emacs_socket := emacs_socket x |}.
Definition with_alt_display (v : option (list ascii)) (x : globals) : globals :=
  {| nowait := nowait x; display := display x; alt_display := v;
     tty := tty x; socket_name := socket_name x; emacs_pid := emacs_pid x;
     emacs_socket := emacs_socket x |}.
Definition with_tty (v : bool) (x : globals) : globals :=
  {| nowait := nowait x; display := display x; alt_display := alt_display x;
     tty := v; socket_name := socket_name x; emacs_pid := emacs_pid x;
     emacs_socket := emacs_socket x |}.
Definition with_socket_name (v : option (list ascii)) (x : globals) : globals :=
  {| nowait := nowait x; display := display x; alt_display := alt_display x;
     tty := tty x; socket_name := v; emacs_pid := emacs_pid x;
     emacs_socket := emacs_socket x |}.
Definition with_emacs_pid (v : Z) (x : globals) : globals :=
  {| nowait := nowait x; display := display x; alt_display := alt_display x;
     tty := tty x; socket_name := socket_name x; emacs_pid := v;
     emacs_socket := emacs_socket x |}.
Definition with_emacs_socket (v : Z) (x : globals) : globals :=
  {| nowait := nowait x; display := display x; alt_display := alt_display x;
     tty := tty x; socket_name := socket_name x; emacs_pid := emacs_pid x;
     emacs_socket := v |}.

Definition with_rl (v : Z) (x : locals) : locals :=
  {| rl := v; skiplf := skiplf x; string_buf := string_buf x;
     exit_status := exit_status x |}.
Definition with_skiplf (v : bool) (x : locals) : locals :=
  {| rl := rl x; skiplf := v; string_buf := string_buf x;
     exit_status := exit_status x |}.
Definition with_string_buf (v : list ascii) (x : locals) : locals :=
  {| rl := rl x; skiplf := skiplf x; string_buf := v;
     exit_status := exit_status x |}.
Definition with_exit_status (v : Z) (x : locals) : locals :=
  {| rl := rl x; skiplf := skiplf x; string_buf := string_buf x;
     exit_status := v |}.

Definition with_send_buffer (v : list ascii) (x : io) : io :=
  {| send_buffer := v; errno := errno x; trace := trace x;
     send_script := send_script x; recv_script := recv_script x;
     stdin := stdin x |}.
Definition with_errno (v : Z) (x : io) : io :=
  {| send_buffer := send_buffer x; errno := v; trace := trace x;
     send_script := send_script x; recv_script := recv_script x;
     stdin := stdin x |}.
Definition with_trace (v : list event) (x : io) : io :=
  {| send_buffer := send_buffer x; errno := errno x; trace := v;
     send_script := send_script x; recv_script := recv_script x;
     stdin := stdin x |}.
Definition with_send_script (v : list Z) (x : io) : io :=
  {| send_buffer := send_buffer x; errno := errno x; trace := trace x;
     send_script := v; recv_script := recv_script x; stdin := stdin x |}.
Definition with_recv_script (v : list recv_result) (x : io) : io :=
  {| send_buffer := send_buffer x; errno := errno x; trace := trace x;
     send_script := send_script x; recv_script := v; stdin := stdin x |}.
Definition with_stdin (v : list ascii) (x : io) : io :=
  {| send_buffer := send_buffer x; errno := errno x; trace := trace x;
     send_script := send_script x; recv_script := recv_script x;
     stdin := v |}.

(** How a computation of the client ends. *)
Inductive outcome (A : Type) : Type :=
| Ret (a : A)          (* it returns [a] *)
| Exited (status : Z)  (* exit (status) *)
| Failed               (* fail (): run the alternate editor, or exit (EXIT_FAILURE) *)
| Undefined            (* an access outside an object, or a negative count *)
| Starved.             (* the iteration budget of the model ran out *)
Arguments Ret {A} a.
Arguments Exited {A} status.
Arguments Failed {A}.
Arguments Undefined {A}.
Arguments Starved {A}.

Definition M (A : Type) : Type := state -> outcome A * state.

Definition ret {A} (a : A) : M A := fun st => (Ret a, st).

Definition bind {A B} (m : M A) (k : A -> M B) : M B := fun st =>
  match m st with
  | (Ret a, st') => k a st'
  | (Exited c, st') => (Exited c, st')
  | (Failed, st') => (Failed, st')
  | (Undefined, st') => (Undefined, st')
  | (Starved, st') => (Starved, st')
  end.

Declare Scope M_scope.
Delimit Scope M_scope with M.
Notation "x ← y ; z" := (bind y (fun x => z))
  (at level 20, y at level 100, z at level 200, only parsing) : M_scope.
Notation "' x ← y ; z" := (bind y (fun x => z))
  (at level 20, x pattern, y at level 100, z at level 200, only parsing) : M_scope.
Notation "x ;; z" := (bind x (fun _ => z))
  (at level 100, z at level 200, only parsing, right associativity) : M_scope.
Local Open Scope M_scope.

Definition get : M state := fun st => (Ret st, st).
Definition modify (f : state -> state) : M unit := fun st => (Ret tt, f st).
Definition stop {A} (o : outcome A) : M A := fun st => (o, st).

(** Lift a memory access that is out of bounds to undefined behaviour. *)
Definition lift_access {A} (a : access A) : M A :=
  match a with
  | Ok x => ret x
  | OutOfBounds => stop Undefined
  | OutOfFuel => stop Starved
  end.

Definition emit (e : event) : M unit :=
  modify (upd_w (fun x => with_trace (trace x ++ [e]) x)).

(** [exit (status)] *)
Definition exit {A} (status : Z) : M A := stop (Exited status).

(** [fail ()] never returns. *)
Definition fail {A} : M A := stop Failed.

(** [message (is_error, ...)] with the text already formatted. *)
Definition message (is_error : bool) (text : list ascii) : M unit :=
  emit (EvWrite (if is_error then Stderr else Stdout) text).

(** [printf] and [fprintf (stderr, ...)] with the text already formatted. *)
Definition printf (text : list ascii) : M unit := emit (EvWrite Stdout text).
Definition eprintf (text : list ascii) : M unit := emit (EvWrite Stderr text).

(** [%d] and [%ld] of [printf]. *)
Definition decimal (z : Z) : list ascii :=
  cs (NilZero.string_of_int (Z.to_int z)).

(** ** Transport: the buffered send path *)

(** What send(2) returns for [len] bytes when the answer is [r]: -1 for a
    negative [r], else the number of bytes taken, [r] at most and never
    more than [len]. *)
Definition send_result (r : Z) (len : nat) : Z :=
  if bool_decide (r < 0)%Z then (-1)%Z else Z.min r (Z.of_nat len).

(** The answer the next call of send(2) gets, and the script it leaves. *)
Definition send_answer (st : state) : Z * list Z :=
  match send_script (w st) with
  | [] => (os_send_rest (os st), [])
  | r :: rest => (r, rest)
  end.

(** send(2) on socket [s]: a failed call sets [errno]. *)
Definition send (s : Z) (buf : list ascii) : M Z := fun st =>
  let '(r, rest) := send_answer st in
  let sent := send_result r (length buf) in
  (Ret sent,
   upd_w (fun x =>
            with_trace (trace x ++ [EvSend s buf sent])
              (with_send_script rest
                 (if bool_decide (r < 0)%Z then with_errno (- r)%Z x else x)))
         st).

(** One pass of the body of the loop of [send_to_emacs] copies [part] bytes.
    A pass copies nothing only when the buffer was left full; then it calls
    send(2), and the next pass copies something unless send(2) took
    nothing.  So twice the length of the data, and one pass more for every
    scripted answer, are enough passes unless send(2) goes on taking
    nothing from a full buffer: then the loop of the C code does not end,
    and the budget runs out whatever it is. *)
Fixpoint send_loop (fuel : nat) (s : Z) (data : list ascii) : M unit :=
  match fuel with
  | 0 => stop Starved
  | S fuel' =>
      if bool_decide (length data = 0) then ret tt
      else
        st ← get;
        let sblen := length (send_buffer (w st)) in
        let part := Nat.min (length data) (SEND_BUFFER_SIZE - sblen) in
        let buf := send_buffer (w st) ++ take part data in
        modify (upd_w (with_send_buffer buf));;
        (if bool_decide (length buf = SEND_BUFFER_SIZE)
            || (bool_decide (0 < length buf) && bool_decide (last buf = Some LF))
         then
           sent ← send s buf;
           if bool_decide (sent < 0)%Z then
             st' ← get;
             message true
               (progname (opt st') ++ cs ": failed to send "
                ++ decimal (Z.of_nat (length buf))
                ++ cs " bytes to socket: "
                ++ os_strerror (os st') (errno (w st')) ++ [LF]);;
             fail
           else
             modify (upd_w (with_send_buffer (drop (Z.to_nat sent) buf)))
         else ret tt);;
        send_loop fuel' s (drop part data)
  end.

(** [send_to_emacs (s, data)]: [data] is the C string without its NUL. *)
Definition send_to_emacs (s : Z) (data : list ascii) : M unit :=
  st ← get;
  send_loop (S (S (2 * length data + length (send_script (w st))))) s data.

(** [quote_argument (s, str)] *)
Definition quote_argument (s : Z) (str : list ascii) : M unit :=
  send_to_emacs s (Codec.quote_text str).

(** ** Endpoint resolver *)

Definition SLASH : ascii := "/"%char.
Definition BACKSLASH : ascii := "092"%char.
Definition COLON : ascii := ":"%char.
Definition DQUOTE : ascii := "034"%char.
Definition TAB : ascii := "009"%char.

(** [strchr (s, c) != NULL] *)
Definition has_char (c : ascii) (s : list ascii) : bool :=
  existsb (fun d => bool_decide (d = c)) s.

(** The C string held by a NUL-terminated array whose bytes are [b]. *)
Fixpoint until_nul (b : list ascii) : list ascii :=
  match b with
  | [] => []
  | c :: b' => if bool_decide (c = NUL) then [] else c :: until_nul b'
  end.

(** [strchr (s, c)]: the text before the first [c] and the text after it. *)
Fixpoint split_at (c : ascii) (s : list ascii) : option (list ascii * list ascii) :=
  match s with
  | [] => None
  | d :: s' =>
      if bool_decide (d = c) then Some ([], s')
      else match split_at c s' with
           | Some (a, b) => Some (d :: a, b)
           | None => None
           end
  end.

(** The bytes one [fgets] takes from a stream that is not at its end: at
    most [k], through the first newline. *)
Fixpoint read_line (k : nat) (s : list ascii) : list ascii * list ascii :=
  match k, s with
  | 0, _ => ([], s)
  | _, [] => ([], [])
  | S k', c :: s' =>
      if bool_decide (c = LF) then ([c], s')
      else let '(a, b) := read_line k' s' in (c :: a, b)
  end.

(** [fgets (buf, n, stream)]: [None] at end of stream, else the bytes stored
    before the NUL and the rest of the stream. *)
Definition fgets (n : nat) (s : list ascii) : option (list ascii * list ascii) :=
  match s with
  | [] => None
  | _ => Some (read_line (n - 1) s)
  end.

Definition set_errno (e : Z) : M unit := modify (upd_w (with_errno e)).

(** [socket_status (name)]: 2 when stat fails (and sets errno), 1 when the
    file is not owned by the effective user, 0 otherwise. *)
Definition socket_status (name : list ascii) : M Z :=
  st ← get;
  emit (EvStat name);;
  match os_stat (os st) name with
  | StatErr e => set_errno e;; ret 2%Z
  | StatOk uid =>
      if bool_decide (uid ≠ os_geteuid (os st)) then ret 1%Z else ret 0%Z
  end.

(** [stpcpy (.., tmpdir); sprintf (z, "/emacs%ld/", uid); strcpy (z, server_name)] *)
Definition socket_path (tmpdir : list ascii) (uid : Z) (server_name : list ascii)
  : list ascii :=
  tmpdir ++ cs "/emacs" ++ decimal uid ++ cs "/" ++ server_name.

(** [socket (domain, SOCK_STREAM, ..)] *)
Definition socket (d : domain) : M Z :=
  st ← get;
  emit (EvSocket d);;
  match os_socket (os st) d with
  | SysErr e => set_errno e;; ret (-1)%Z
  | SysOk v => ret v
  end.

(** [connect (s, &server, ..)] *)
Definition connect (s : Z) (a : sockaddr) : M Z :=
  st ← get;
  emit (EvConnect s a);;
  match os_connect (os st) a with
  | Some e => set_errno e;; ret (-1)%Z
  | None => ret 0%Z
  end.

(** The second look of [set_local_socket], for a process running under su:
    the socket of the user named by LOGNAME (or USER when LOGNAME is unset).
    It yields the path, the status and the saved errno. *)
Definition user_socket_lookup (tmpdir server_name sun_path : list ascii)
    (sock_status saved_errno : Z) : M (list ascii * Z * Z) :=
  st ← get;
  let user_name :=
    match os_getenv (os st) "LOGNAME" with
    | Some n => Some n
    | None => os_getenv (os st) "USER"
    end in
  match user_name with
  | None => ret (sun_path, sock_status, saved_errno)
  | Some name =>
      emit (EvGetpwnam name);;
      match os_getpwnam (os st) name with
      | Some pw_uid =>
          if bool_decide (pw_uid ≠ os_geteuid (os st)) then
            let user_socket_name := socket_path tmpdir pw_uid server_name in
            if bool_decide (length user_socket_name < os_sun_path_size (os st)) then
              status ← socket_status user_socket_name;
              st' ← get;
              ret (user_socket_name, status, errno (w st'))
            else
              message true (progname (opt st) ++ cs ": socket-name "
                            ++ user_socket_name ++ cs " too long" ++ [LF]);;
              exit EXIT_FAILURE
          else
            set_errno saved_errno;;
            ret (sun_path, sock_status, saved_errno)
      | None =>
          set_errno saved_errno;;
          ret (sun_path, sock_status, saved_errno)
      end
  end.

(** The end of [set_local_socket]: the [switch] on the status, and the
    connection. *)
Definition connect_local_socket (s : Z) (sun_path : list ascii)
    (sock_status saved_errno : Z) : M Z :=
  st ← get;
  if bool_decide (sock_status = 1%Z) then
    message true (progname (opt st) ++ cs ": Invalid socket owner" ++ [LF]);;
    ret INVALID_SOCKET
  else if bool_decide (sock_status = 2%Z) then
    (if bool_decide (saved_errno = ENOENT) then
       message true
         (progname (opt st)
          ++ cs ": can't find socket; have you started the server?" ++ [LF]
          ++ cs "To start the server in Emacs, type " ++ [DQUOTE]
          ++ cs "M-x server-start" ++ [DQUOTE] ++ cs "." ++ [LF])
     else
       message true
         (progname (opt st) ++ cs ": can't stat " ++ sun_path ++ cs ": "
          ++ os_strerror (os st) saved_errno ++ [LF]));;
    ret INVALID_SOCKET
  else
    r ← connect s (sockaddr_un sun_path);
    if bool_decide (r < 0)%Z then
      st2 ← get;
      message true (progname (opt st) ++ cs ": connect: "
                    ++ os_strerror (os st) (errno (w st2)) ++ [LF]);;
      ret INVALID_SOCKET
    else ret s.

(** [set_local_socket (local_socket_name)] *)
Definition set_local_socket (local_socket_name : list ascii) : M Z :=
  st ← get;
  s ← socket AF_UNIX;
  if bool_decide (s < 0)%Z then
    st' ← get;
    message true (progname (opt st) ++ cs ": socket: "
                  ++ os_strerror (os st) (errno (w st')) ++ [LF]);;
    ret INVALID_SOCKET
  else
    let server_name := local_socket_name in
    let tmpdir :=
      if negb (has_char SLASH local_socket_name)
         && negb (has_char BACKSLASH local_socket_name)
      then Some (match os_getenv (os st) "TMPDIR" with
                 | Some t => t
                 | None => cs "/tmp"
                 end)
      else None in
    let local_socket_name :=
      match tmpdir with
      | Some t => socket_path t (os_geteuid (os st)) server_name
      | None => local_socket_name
      end in
    (if bool_decide (length local_socket_name < os_sun_path_size (os st))
     then ret tt
     else
       message true (progname (opt st) ++ cs ": socket-name "
                     ++ local_socket_name ++ cs " too long" ++ [LF]);;
       fail);;
    sock_status ← socket_status local_socket_name;
    st1 ← get;
    let saved_errno := errno (w st1) in
    '(sun_path, sock_status, saved_errno) ←
      match tmpdir with
      | Some t =>
          if bool_decide (sock_status ≠ 0%Z) then
            user_socket_lookup t server_name local_socket_name
              sock_status saved_errno
          else ret (local_socket_name, sock_status, saved_errno)
      | None => ret (local_socket_name, sock_status, saved_errno)
      end;
    connect_local_socket s sun_path sock_status saved_errno.

(** [file_name_absolute_p] (POSIX build) *)
Definition file_name_absolute_p (filename : list ascii) : bool :=
  match filename with
  | c :: _ => bool_decide (c = SLASH)
  | [] => false
  end.

(** [fopen (.., "rb")] *)
Definition fopen (path : list ascii) : M (option (list ascii)) :=
  st ← get;
  emit (EvFopen path);;
  ret (os_fopen (os st) path).

(** The file [get_server_config] opens: [config_file] itself when it is
    absolute, else the one below HOME, if HOME is set. *)
Definition server_file_path (o : OS) (config_file : list ascii)
  : option (list ascii) :=
  if file_name_absolute_p config_file then Some config_file
  else
    match os_getenv o "HOME" with
    | Some home => Some (home ++ cs "/.emacs.d/server/" ++ config_file)
    | None => None
    end.

(** [get_server_config (config_file, &server, authentication)]: [None] is
    the C [false]; otherwise the address and the 64 bytes of the key. *)
Definition get_server_config (config_file : list ascii)
  : M (option (sockaddr * list ascii)) :=
  st ← get;
  config ←
    match server_file_path (os st) config_file with
    | Some path => fopen path
    | None => ret None
    end;
  match config with
  | None => ret None
  | Some content =>
      match fgets 32 content with
      | Some (line, rest) =>
          match split_at COLON (until_nul line) with
          | Some (dotted, port) =>
              let server :=
                sockaddr_in (os_inet_addr (os st) dotted)
                            (os_htons (os st) (os_atoi (os st) port)) in
              if bool_decide (AUTH_KEY_LENGTH <= length rest) then
                ret (Some (server, take AUTH_KEY_LENGTH rest))
              else
                message true (progname (opt st)
                              ++ cs ": cannot read authentication info" ++ [LF]);;
                exit EXIT_FAILURE
          | None =>
              message true (progname (opt st)
                            ++ cs ": invalid configuration info" ++ [LF]);;
              exit EXIT_FAILURE
          end
      | None =>
          message true (progname (opt st)
                        ++ cs ": invalid configuration info" ++ [LF]);;
          exit EXIT_FAILURE
      end
  end.

(** [sock_err_message (function_name)] *)
Definition sock_err_message (function_name : list ascii) : M unit :=
  st ← get;
  message true (progname (opt st) ++ cs ": " ++ function_name ++ cs ": "
                ++ os_strerror (os st) (errno (w st)) ++ [LF]).

Definition sin_addr_of (a : sockaddr) : Z :=
  match a with
  | sockaddr_in addr _ => addr
  | sockaddr_un _ => 0%Z
  end.

(** [set_tcp_socket (local_server_file)] *)
Definition set_tcp_socket (local_server_file : list ascii) : M Z :=
  st ← get;
  cfg ← get_server_config local_server_file;
  match cfg with
  | None => ret INVALID_SOCKET
  | Some (server, auth_string) =>
      (if bool_decide (sin_addr_of server ≠ os_inet_addr (os st) (cs "127.0.0.1"))
          && negb (quiet (opt st))
       then message false (progname (opt st)
                           ++ cs ": connected to remote socket at "
                           ++ os_inet_ntoa (os st) (sin_addr_of server) ++ [LF])
       else ret tt);;
      s ← socket AF_INET;
      if bool_decide (s < 0)%Z then
        sock_err_message (cs "socket");;
        ret INVALID_SOCKET
      else
        r ← connect s server;
        if bool_decide (r < 0)%Z then
          sock_err_message (cs "connect");;
          ret INVALID_SOCKET
        else
          emit (EvLinger s);;
          send_to_emacs s (cs "-auth ");;
          send_to_emacs s (until_nul auth_string);;
          send_to_emacs s (cs " ");;
          ret s
  end.

(** [set_socket (no_exit_if_error)] *)
Definition set_socket (no_exit_if_error : bool) : M Z :=
  st ← get;
  let local_server_file := server_file (opt st) in
  (match socket_name (g st) with
   | None =>
       modify (upd_g (with_socket_name (os_getenv (os st) "EMACS_SOCKET_NAME")))
   | Some _ => ret tt
   end);;
  st1 ← get;
  match socket_name (g st1) with
  | Some name =>
      s ← set_local_socket name;
      if bool_decide (s ≠ INVALID_SOCKET) || no_exit_if_error then ret s
      else
        message true (progname (opt st) ++ cs ": error accessing socket "
                      ++ [DQUOTE] ++ name ++ [DQUOTE; LF]);;
        exit EXIT_FAILURE
  | None =>
      let local_server_file :=
        match local_server_file with
        | Some f => Some f
        | None => os_getenv (os st) "EMACS_SERVER_FILE"
        end in
      match local_server_file with
      | Some f =>
          s ← set_tcp_socket f;
          if bool_decide (s ≠ INVALID_SOCKET) || no_exit_if_error then ret s
          else
            message true (progname (opt st) ++ cs ": error accessing server file "
                          ++ [DQUOTE] ++ f ++ [DQUOTE; LF]);;
            exit EXIT_FAILURE
      | None =>
          s ← set_local_socket (cs "server");
          if bool_decide (s ≠ INVALID_SOCKET) then ret s
          else
            s' ← set_tcp_socket (cs "server");
            if bool_decide (s' ≠ INVALID_SOCKET) || no_exit_if_error then ret s'
            else
              message true
                (progname (opt st)
                 ++ cs ": No socket or alternate editor.  Please use:" ++ [LF; LF]
                 ++ [TAB] ++ cs "--socket-name" ++ [LF]
                 ++ [TAB] ++ cs "--server-file      (or environment variable EMACS_SERVER_FILE)" ++ [LF]
                 ++ [TAB] ++ cs "--alternate-editor (or environment variable ALTERNATE_EDITOR)" ++ [LF]);;
              exit EXIT_FAILURE
      end
  end.

(** ** Session controller *)

(** [strncmp (prefix, string, strlen (prefix)) == 0] on a string that is
    only read. *)
Fixpoint strprefix (prefix s : list ascii) : bool :=
  match prefix, s with
  | [], _ => true
  | c :: prefix', d :: s' => bool_decide (c = d) && strprefix prefix' s'
  | _ :: _, [] => false
  end.

(** [strstr (hay, needle) != NULL] *)
Fixpoint strstr (hay needle : list ascii) : bool :=
  strprefix needle hay
  || match hay with
     | [] => false
     | _ :: hay' => strstr hay' needle
     end.

Definition isdigit (c : ascii) : bool :=
  bool_decide (48 <= nat_of_ascii c <= 57).

(** [find_tty (&tty_type, &tty_name, noabort)]: [None] is the C [false],
    otherwise the type and the name. *)
Inductive tty_probe :=
| NoTtyName
| NoTermType
| InsideEmacsTerm
| UsableTty (type name : list ascii).

(** The three tests of [find_tty], in its order. *)
Definition probe_tty (o : OS) : tty_probe :=
  let type := os_getenv o "TERM" in
  let name := os_ttyname o in
  match name with
  | None => NoTtyName
  | Some name =>
      match type with
      | None => NoTermType
      | Some type =>
          let inside_emacs := os_getenv o "INSIDE_EMACS" in
          if match inside_emacs with
             | Some ie => strstr ie (cs ",term:") && strprefix (cs "eterm") type
             | None => false
             end
          then InsideEmacsTerm
          else UsableTty type name
      end
  end.

Definition find_tty (noabort : bool) : M (option (list ascii * list ascii)) :=
  st ← get;
  match probe_tty (os st) with
  | NoTtyName =>
      if noabort then ret None
      else
        message true (progname (opt st) ++ cs ": could not get terminal name" ++ [LF]);;
        fail
  | NoTermType =>
      if noabort then ret None
      else
        message true
          (progname (opt st)
           ++ cs ": please set the TERM variable to your terminal type" ++ [LF]);;
        fail
  | InsideEmacsTerm =>
      if noabort then ret None
      else
        message true
          (progname (opt st)
           ++ cs ": opening a frame in an Emacs term buffer is not supported"
           ++ [LF]);;
        fail
  | UsableTty type name => ret (Some (type, name))
  end.

Fixpoint for_each {A} (f : A -> M unit) (xs : list A) : M unit :=
  match xs with
  | [] => ret tt
  | x :: xs' => f x;; for_each f xs'
  end.

(** The part of [main] before the label [retry]: the environment and the
    current directory [cwd]. *)
Definition send_environment_and_dir (cwd : list ascii) : M unit :=
  st ← get;
  let s := emacs_socket (g st) in
  (if create_frame (opt st) then
     for_each (fun e =>
                 send_to_emacs s (cs "-env ");;
                 quote_argument s e;;
                 send_to_emacs s (cs " "))
              (os_environ (os st))
   else ret tt);;
  send_to_emacs s (cs "-dir ");;
  (match tramp_prefix (opt st) with
   | Some t => quote_argument s t
   | None => ret tt
   end);;
  quote_argument s cwd;;
  send_to_emacs s (cs "/");;
  send_to_emacs s (cs " ").

(** The body of the loop over [argv[optind..]]. *)
Definition send_argument (s : Z) (arg : list ascii) : M unit :=
  st ← get;
  if eval (opt st) then
    send_to_emacs s (cs "-eval ");;
    quote_argument s arg;;
    send_to_emacs s (cs " ")
  else if match arg with
          | c :: rest =>
              bool_decide (c = "+"%char)
              && forallb (fun d => isdigit d || bool_decide (d = COLON)) rest
          | [] => false
          end
  then
    send_to_emacs s (cs "-position ");;
    quote_argument s arg;;
    send_to_emacs s (cs " ")
  else
    send_to_emacs s (cs "-file ");;
    (match tramp_prefix (opt st) with
     | Some t => if file_name_absolute_p arg then quote_argument s t else ret tt
     | None => ret tt
     end);;
    quote_argument s arg;;
    send_to_emacs s (cs " ").

(** [memcpy (&mem[off], bytes, ..)] *)
Definition blit (mem : list ascii) (off : nat) (bytes : list ascii)
  : access (list ascii) :=
  if decide (off + length bytes <= length mem)
  then Ok (take off mem ++ bytes ++ drop (off + length bytes) mem)
  else OutOfBounds.

Definition set_string_buf (mem : list ascii) : M unit :=
  modify (upd_l (with_string_buf mem)).

(** [while ((str = fgets (string, BUFSIZ, stdin))) ...]: each line read
    shortens standard input unless BUFSIZ is below 2. *)
Fixpoint read_expressions (fuel : nat) (s : Z) : M unit :=
  match fuel with
  | 0 => stop Starved
  | S fuel' =>
      st ← get;
      match fgets (os_BUFSIZ (os st)) (stdin (w st)) with
      | None => ret tt
      | Some (line, rest) =>
          modify (upd_w (with_stdin rest));;
          mem ← lift_access (blit (string_buf (l st)) 0 (line ++ [NUL]));
          set_string_buf mem;;
          send_to_emacs s (cs "-eval ");;
          quote_argument s (until_nul line);;
          read_expressions fuel' s
      end
  end.

(** From the label [retry] to the newline that ends the command. *)
Definition send_attempt : M unit :=
  st ← get;
  let s := emacs_socket (g st) in
  (if nowait (g st) then send_to_emacs s (cs "-nowait ") else ret tt);;
  (if negb (create_frame (opt st)) then send_to_emacs s (cs "-current-frame ")
   else ret tt);;
  (match display (g st) with
   | Some d =>
       send_to_emacs s (cs "-display ");;
       quote_argument s d;;
       send_to_emacs s (cs " ")
   | None => ret tt
   end);;
  (match parent_id (opt st) with
   | Some i =>
       send_to_emacs s (cs "-parent-id ");;
       quote_argument s i;;
       send_to_emacs s (cs " ")
   | None => ret tt
   end);;
  (match frame_parameters (opt st) with
   | Some f =>
       if create_frame (opt st) then
         send_to_emacs s (cs "-frame-parameters ");;
         quote_argument s f;;
         send_to_emacs s (cs " ")
       else ret tt
   | None => ret tt
   end);;
  (if create_frame (opt st) || negb (eval (opt st)) then
     found ← find_tty (negb (tty (g st)));
     match found with
     | Some (tty_type, tty_name) =>
         emit EvInitSignals;;
         send_to_emacs s (cs "-tty ");;
         quote_argument s tty_name;;
         send_to_emacs s (cs " ");;
         quote_argument s tty_type;;
         send_to_emacs s (cs " ")
     | None => ret tt
     end
   else ret tt);;
  (if create_frame (opt st) && negb (tty (g st))
   then send_to_emacs s (cs "-window-system ") else ret tt);;
  (match args (opt st) with
   | _ :: _ => for_each (send_argument s) (args (opt st))
   | [] =>
       if eval (opt st) then
         st' ← get;
         read_expressions (S (length (stdin (w st')))) s;;
         send_to_emacs s (cs " ")
       else ret tt
   end);;
  send_to_emacs s [LF].

(** [do rl = recv (..) while (rl < 0 && errno == EINTR)] over the scripted
    results: the number of calls, the last result and the script left. *)
Fixpoint recv_calls (script : list recv_result) : nat * recv_result * list recv_result :=
  match script with
  | [] => (1, RecvBytes [], [])
  | RecvErr e :: rest =>
      if bool_decide (e = EINTR) then
        let '(n, r, rest') := recv_calls rest in (S n, r, rest')
      else (1, RecvErr e, rest)
  | RecvBytes b :: rest => (1, RecvBytes b, rest)
  end.

(** The [recv] loop of [main]: it sets [rl], and stores what was read at the
    start of [string]. *)
Definition recv_chunk : M unit :=
  st ← get;
  let '(n, r, rest) := recv_calls (recv_script (w st)) in
  modify (upd_w (fun x =>
    with_trace (trace x ++ replicate n (EvRecv (emacs_socket (g st))))
      (with_recv_script rest x)));;
  match r with
  | RecvErr e =>
      set_errno e;;
      modify (upd_l (with_rl (-1)%Z))
  | RecvBytes b =>
      set_errno 0%Z;;
      mem ← lift_access (blit (string_buf (l st)) 0 b);
      set_string_buf mem;;
      modify (upd_l (with_rl (Z.of_nat (length b))))
  end.

(** [strncmp (prefix, p, strlen (prefix)) == 0] on the memory at [p]. *)
Fixpoint strprefix_at (prefix : list ascii) (mem : list ascii) (p : nat) : access bool :=
  match prefix with
  | [] => Ok true
  | c :: prefix' =>
      access_bind (load mem p) (fun d =>
      if bool_decide (d = c) then strprefix_at prefix' mem (S p) else Ok false)
  end.

(** [strchr (p, c)] for a [c] that is not NUL, over the bytes [bytes] that
    start at address [a]. *)
Fixpoint strchr_from (c : ascii) (bytes : list ascii) (a : nat) : access (option nat) :=
  match bytes with
  | [] => OutOfBounds
  | d :: bytes' =>
      if bool_decide (d = c) then Ok (Some a)
      else if bool_decide (d = NUL) then Ok None
      else strchr_from c bytes' (S a)
  end.

Definition strchr (mem : list ascii) (p : nat) (c : ascii) : access (option nat) :=
  strchr_from c (drop p mem) p.

(** The C string at [a], for [printf ("%s")] and [strlen]. *)
Definition read_cstring (mem : list ascii) (a : nat) : access (list ascii) :=
  match cstring_at mem a with
  | Some s => Ok s
  | None => OutOfBounds
  end.

(** How the handling of one message leaves the loops. *)
Inductive flow := Continue | GotoRetry.

(** [if (str[0]) skiplf = str[strlen (str) - 1] == '\n'] *)
Definition note_last_char (str : list ascii) : M unit :=
  match str with
  | [] => ret tt
  | _ :: _ => modify (upd_l (with_skiplf (bool_decide (last str = Some LF))))
  end.

(** [str = unquote_argument (p + n)] in [string]: the decoded C string. *)
Definition unquote_in_string (a : nat) : M (list ascii) :=
  st ← get;
  mem ← lift_access (Codec.unquote_argument (string_buf (l st)) (Some a));
  set_string_buf mem;;
  lift_access (read_cstring mem a).

(** The chain of [strprefix] tests on the message at [p]. *)
Definition dispatch (p : nat) : M flow :=
  st ← get;
  let mem := string_buf (l st) in
  is_pid ← lift_access (strprefix_at (cs "-emacs-pid ") mem p);
  if is_pid then
    str ← lift_access (read_cstring mem (p + length (cs "-emacs-pid")));
    modify (upd_g (with_emacs_pid (to_int (os_strtol (os st) str))));;
    ret Continue
  else
  is_unsupported ← lift_access (strprefix_at (cs "-window-system-unsupported ") mem p);
  if is_unsupported then
    (match alt_display (g st) with
     | Some d =>
         modify (upd_g (with_display (Some d)));;
         modify (upd_g (with_alt_display None))
     | None =>
         modify (upd_g (with_nowait false));;
         modify (upd_g (with_tty true))
     end);;
    ret GotoRetry
  else
  is_print ← lift_access (strprefix_at (cs "-print ") mem p);
  if is_print then
    (if negb (suppress_output (opt st)) then
       str ← unquote_in_string (p + length (cs "-print "));
       printf ((if skiplf (l st) then [] else [LF]) ++ str);;
       note_last_char str
     else ret tt);;
    ret Continue
  else
  is_print_nonl ← lift_access (strprefix_at (cs "-print-nonl ") mem p);
  if is_print_nonl then
    (if negb (suppress_output (opt st)) then
       str ← unquote_in_string (p + length (cs "-print-nonl "));
       printf str;;
       note_last_char str
     else ret tt);;
    ret Continue
  else
  is_error ← lift_access (strprefix_at (cs "-error ") mem p);
  if is_error then
    str ← unquote_in_string (p + length (cs "-error "));
    (if negb (skiplf (l st)) then printf [LF] else ret tt);;
    eprintf (cs "*ERROR*: " ++ str);;
    note_last_char str;;
    modify (upd_l (with_exit_status EXIT_FAILURE));;
    ret Continue
  else
  is_suspend ← lift_access (strprefix_at (cs "-suspend ") mem p);
  if is_suspend then
    (if negb (skiplf (l st)) then printf [LF] else ret tt);;
    modify (upd_l (with_skiplf true));;
    emit (EvKill 0%Z SIGSTOP);;
    ret Continue
  else
    str ← lift_access (read_cstring mem p);
    printf ((if skiplf (l st) then [] else [LF])
            ++ cs "*ERROR*: Unknown message: " ++ str ++ [LF]);;
    modify (upd_l (with_skiplf true));;
    ret Continue.

(** [for (char *end_p = p; end_p && *end_p != '\0'; p = end_p)]: at every
    test of the condition [p] and [end_p] are the same pointer.  Each pass
    moves it forward, so [S (length string)] passes are enough. *)
Fixpoint message_loop (fuel : nat) (end_p : option nat) : M flow :=
  match fuel with
  | 0 => stop Starved
  | S fuel' =>
      match end_p with
      | None => ret Continue
      | Some p =>
          st ← get;
          c ← lift_access (load (string_buf (l st)) p);
          if bool_decide (c = NUL) then ret Continue
          else
            found ← lift_access (strchr (string_buf (l st)) p LF);
            end_p' ←
              match found with
              | Some a =>
                  mem ← lift_access (store (string_buf (l st)) a NUL);
                  set_string_buf mem;;
                  ret (Some (S a))
              | None => ret None
              end;
            r ← dispatch p;
            match r with
            | GotoRetry => ret GotoRetry
            | Continue => message_loop fuel' end_p'
            end
      end
  end.

(** [while (exit_status == EXIT_SUCCESS)]: every pass takes at least one
    scripted result of recv. *)
Fixpoint receive_loop (fuel : nat) : M flow :=
  match fuel with
  | 0 => stop Starved
  | S fuel' =>
      st ← get;
      if bool_decide (exit_status (l st) ≠ EXIT_SUCCESS) then ret Continue
      else
        recv_chunk;;
        st1 ← get;
        if bool_decide (rl (l st1) <= 0)%Z then ret Continue
        else
          mem ← lift_access (store (string_buf (l st1)) (Z.to_nat (rl (l st1))) NUL);
          set_string_buf mem;;
          r ← message_loop (S (length mem)) (Some 0);
          match r with
          | GotoRetry => ret GotoRetry
          | Continue => receive_loop fuel'
          end
  end.

(** [if (!eval && !tty && !nowait && !quiet) printf ("Waiting for Emacs...")] *)
Definition announce_waiting : M unit :=
  st ← get;
  if negb (eval (opt st)) && negb (tty (g st)) && negb (nowait (g st))
     && negb (quiet (opt st))
  then
    printf (cs "Waiting for Emacs...");;
    modify (upd_l (with_skiplf false))
  else ret tt.

(** The rest of [main] once a command is sent: the receive loop, and then
    either [goto retry] ([retry] is what follows the label) or the end of
    [main]. *)
Definition answer (retry : M Z) : M Z :=
  st1 ← get;
  r ← receive_loop (S (length (recv_script (w st1))));
  match r with
  | GotoRetry => retry
  | Continue =>
      st2 ← get;
      (if negb (skiplf (l st2)) then printf [LF] else ret tt);;
      (if bool_decide (rl (l st2) < 0)%Z
       then modify (upd_l (with_exit_status EXIT_FAILURE)) else ret tt);;
      emit (EvClose (emacs_socket (g st2)));;
      st3 ← get;
      ret (exit_status (l st3))
  end.

(** [main] from the label [retry] to its [return]: a jump to [retry] comes
    after at least one scripted result of recv was taken. *)
Fixpoint attempts (fuel : nat) : M Z :=
  match fuel with
  | 0 => stop Starved
  | S fuel' =>
      send_attempt;;
      announce_waiting;;
      answer (attempts fuel')
  end.

(** [main] once the socket is set and the working directory is [cwd]. *)
Definition session (cwd : list ascii) : M Z :=
  send_environment_and_dir cwd;;
  st ← get;
  attempts (S (length (recv_script (w st)))).

(** ** Concrete systems and invocations, for running the model *)

(** A Linux-like system described by the answers that vary between the
    scenarios; the other services answer in a fixed way. *)
Definition make_os (getenv : string -> option (list ascii))
    (stat : list ascii -> stat_result)
    (getpwnam : list ascii -> option Z)
    (file : list ascii -> option (list ascii))
    (ttyname : option (list ascii)) : OS :=
  {| os_getenv := getenv;
     os_environ := [];
     os_geteuid := 1000%Z;
     os_stat := stat;
     os_getpwnam := getpwnam;
     os_fopen := file;
     os_socket := fun _ => SysOk 3%Z;
     os_connect := fun _ => None;
     os_ttyname := ttyname;
     os_strerror := fun e => cs "errno " ++ decimal e;
     os_inet_addr := fun a => if bool_decide (a = cs "127.0.0.1") then 1%Z else 2%Z;
     os_inet_ntoa := fun _ => cs "remote";
     os_atoi := fun _ => 0%Z;
     os_htons := fun p => p;
     os_strtol := fun _ => 0%Z;
     os_sun_path_size := 108;
     os_BUFSIZ := 2 * 4096;
     os_send_rest := (-32)%Z |}.

Definition make_options (create : bool) (files : list (list ascii))
    (sfile : option (list ascii)) : options :=
  {| progname := cs "emacsclient";
     quiet := false;
     suppress_output := false;
     eval := false;
     create_frame := create;
     parent_id := None;
     alternate_editor := None;
     server_file := sfile;
     tramp_prefix := None;
     frame_parameters := None;
     args := files |}.

Definition make_globals (disp : option (list ascii)) (sname : option (list ascii))
  : globals :=
  {| nowait := false;
     display := disp;
     alt_display := None;
     tty := false;
     socket_name := sname;
     emacs_pid := 0%Z;
     emacs_socket := 3%Z |}.

(** [main] starts with [skiplf] set, [exit_status] clear, and [string] of
    BUFSIZ + 1 bytes. *)
Definition initial_locals (o : OS) : locals :=
  {| rl := 0%Z;
     skiplf := true;
     string_buf := replicate (S (os_BUFSIZ o)) NUL;
     exit_status := EXIT_SUCCESS |}.

(** A socket that takes every write whole (and is gone after sixteen of
    them: [make_os] lets send(2) fail with EPIPE then), and a peer that
    sends [input]. *)
Definition initial_io (input : list recv_result) : io :=
  {| send_buffer := [];
     errno := 0%Z;
     trace := [];
     send_script := replicate 16 4096%Z;
     recv_script := input;
     stdin := [] |}.

Definition make_state (o : OS) (op : options) (gl : globals)
    (input : list recv_result) : state :=
  {| os := o; opt := op; g := gl; l := initial_locals o; w := initial_io input |}.

Definition no_env : string -> option (list ascii) := fun _ => None.
Definition no_file : list ascii -> option (list ascii) := fun _ => None.
Definition no_user : list ascii -> option Z := fun _ => None.
Definition no_socket_file : list ascii -> stat_result := fun _ => StatErr ENOENT.

(** No tty, no socket, no server file. *)
Definition plain_os : OS := make_os no_env no_socket_file no_user no_file None.

(** [emacsclient notes.txt] with the socket already set. *)
Definition scenario_A : state :=
  make_state plain_os (make_options false [cs "notes.txt"] None)
    (make_globals None None) [].

(** [string] after a chunk with an [-error] message and one more message
    was received and terminated. *)
Definition error_chunk : state :=
  upd_l (with_string_buf
           (cs "-error bad&ninput" ++ LF :: cs "-print more" ++ [LF; NUL]))
        scenario_A.

(** The server reports an error, and sends a text in a second chunk. *)
Definition error_then_more : state :=
  upd_w (with_recv_script [RecvBytes (cs "-error bad" ++ [LF]);
                           RecvBytes (cs "-print more" ++ [LF])])
        scenario_A.

(** A server file that is in order: host, port and a key of 64 bytes. *)
Definition good_server_file : list ascii :=
  cs "127.0.0.1:5000" ++ [LF] ++ replicate 64 "k"%char.

Definition server_files (path : list ascii) : option (list ascii) :=
  if bool_decide (path = cs "/srv/server") then Some good_server_file
  else if bool_decide (path = cs "/srv/nocolon")
       then Some (cs "localhost 5000" ++ [LF] ++ replicate 64 "k"%char)
  else if bool_decide (path = cs "/srv/short")
       then Some (cs "127.0.0.1:5000" ++ [LF] ++ cs "key")
  else None.

Definition os_with_server_files : OS :=
  make_os no_env no_socket_file no_user server_files None.

(** [emacsclient -s mysock -f /srv/server]; there is no socket, the server
    file is in order. *)
Definition both_configured : state :=
  make_state os_with_server_files
    (make_options false [cs "notes.txt"] (Some (cs "/srv/server")))
    (make_globals None (Some (cs "mysock"))) [].

(** Running under su: LOGNAME is alice, uid 1001, the effective uid is
    1000; alice owns /run/alice/server, there is no other socket. *)
Definition su_os : OS :=
  make_os (fun k => if bool_decide (k = "LOGNAME") then Some (cs "alice") else None)
    (fun p => if bool_decide (p = cs "/run/alice/server") then StatOk 1001%Z
              else StatErr ENOENT)
    (fun n => if bool_decide (n = cs "alice") then Some 1001%Z else None)
    no_file None.

Definition under_su : state :=
  make_state su_os (make_options false [cs "notes.txt"] None)
    (make_globals None None) [].

(** [emacsclient -c -d :0 notes.txt] on a terminal, to a server that has no
    window system. *)
Definition tty_os : OS :=
  make_os (fun k => if bool_decide (k = "TERM") then Some (cs "xterm") else None)
    no_socket_file no_user no_file (Some (cs "/dev/pts/0")).

Definition unsupported_display : state :=
  make_state tty_os (make_options true [cs "notes.txt"] None)
    (make_globals (Some (cs ":0")) None)
    [RecvBytes (cs "-window-system-unsupported " ++ [LF])].

Definition after_preamble : state :=
  snd (send_environment_and_dir (cs "/home/u") unsupported_display).

Definition after_first_attempt : state :=
  snd ((send_attempt;; announce_waiting) after_preamble).

(** The globals after the retry transition, in a fresh process. *)
Definition retried : state :=
  make_state tty_os (make_options true [cs "notes.txt"] None)
    (with_tty true (make_globals (Some (cs ":0")) None)) [].

(** The same program without a terminal; the server is slow to answer
    (recv(2) is interrupted once), sends its pid, and then, in one chunk, a
    text and the news that it has no window system. *)
Definition unsupported_later : state :=
  make_state plain_os (make_options true [cs "notes.txt"] None)
    (make_globals (Some (cs ":0")) None)
    [RecvErr EINTR;
     RecvBytes (cs "-emacs-pid 4242" ++ [LF]);
     RecvBytes (cs "-print-nonl checking" ++ LF
                  :: cs "-window-system-unsupported " ++ [LF])].

(** A system whose send(2) takes nothing, again and again. *)
Definition stalling (o : OS) : OS :=
  {| os_getenv := os_getenv o;
     os_environ := os_environ o;
     os_geteuid := os_geteuid o;
     os_stat := os_stat o;
     os_getpwnam := os_getpwnam o;
     os_fopen := os_fopen o;
     os_socket := os_socket o;
     os_connect := os_connect o;
     os_ttyname := os_ttyname o;
     os_strerror := os_strerror o;
     os_inet_addr := os_inet_addr o;
     os_inet_ntoa := os_inet_ntoa o;
     os_atoi := os_atoi o;
     os_htons := os_htons o;
     os_strtol := os_strtol o;
     os_sun_path_size := os_sun_path_size o;
     os_BUFSIZ := os_BUFSIZ o;
     os_send_rest := 0%Z |}.

(** The send buffer is full, and the peer takes nothing. *)
Definition stalled_peer : state :=
  upd_w (with_send_script [])
    (upd_w (with_send_buffer (replicate SEND_BUFFER_SIZE "x"%char))
       (make_state (stalling plain_os) (make_options false [cs "notes.txt"] None)
          (make_globals None None) [])).

(** The data of the calls of send(2) in a trace, in order. *)
Definition sends_of (tr : list event) : list (list ascii) :=
  omap (fun e => match e with EvSend _ data _ => Some data | _ => None end) tr.

(** The paths of the calls of stat(2) in a trace, in order. *)
Definition stats_of (tr : list event) : list (list ascii) :=
  omap (fun e => match e with EvStat path => Some path | _ => None end) tr.

(** The events only the TCP path of the resolver produces. *)
Definition tcp_event (e : event) : bool :=
  match e with
  | EvFopen _ | EvSocket AF_INET | EvLinger _ | EvSend _ _ _ => true
  | EvConnect _ (sockaddr_in _ _) => true
  | _ => false
  end.

(** ** Notions the statements about the resolver use *)

(** The value [socket_status] returns for [path]. *)
Definition status_of (o : OS) (path : list ascii) : Z :=
  match os_stat o path with
  | StatErr _ => 2%Z
  | StatOk uid => if bool_decide (uid ≠ os_geteuid o) then 1%Z else 0%Z
  end.

(** The socket name is a file-name component: it has no directory
    separator. *)
Definition bare_name (name : list ascii) : bool :=
  negb (has_char SLASH name) && negb (has_char BACKSLASH name).

(** TMPDIR, or /tmp. *)
Definition tmpdir_of (o : OS) : list ascii :=
  match os_getenv o "TMPDIR" with
  | Some t => t
  | None => cs "/tmp"
  end.

(** The path [set_local_socket] looks at first. *)
Definition first_socket_path (o : OS) (name : list ascii) : list ascii :=
  if bare_name name then socket_path (tmpdir_of o) (os_geteuid o) name
  else name.

(** The uid of the account named by LOGNAME (by USER when LOGNAME is not
    set), when there is such an account and its uid is not the effective
    uid. *)
Definition alternate_uid (o : OS) : option Z :=
  match (match os_getenv o "LOGNAME" with
         | Some n => Some n
         | None => os_getenv o "USER"
         end) with
  | Some name =>
      match os_getpwnam o name with
      | Some pw_uid =>
          if bool_decide (pw_uid ≠ os_geteuid o) then Some pw_uid else None
      | None => None
      end
  | None => None
  end.

(** The second path [set_local_socket] looks at, if any: for a bare name
    whose first status is not 0, the socket of the alternate uid, when its
    path fits a socket address. *)
Definition second_stat_paths (o : OS) (name : list ascii) : list (list ascii) :=
  if bare_name name
     && bool_decide (status_of o (first_socket_path o name) ≠ 0%Z)
  then
    match alternate_uid o with
    | Some uid =>
        let p := socket_path (tmpdir_of o) uid name in
        if bool_decide (length p < os_sun_path_size o) then [p] else []
    | None => []
    end
  else [].

(** The path that [set_local_socket] settles on: the first path, or, for a
    bare name whose first status is not 0 and with an alternate uid, the
    socket of that uid.  There is none when that second path does not fit
    a socket address. *)
Definition resolved_socket (o : OS) (name : list ascii)
  : option (list ascii) :=
  let p1 := first_socket_path o name in
  if bare_name name && bool_decide (status_of o p1 ≠ 0%Z) then
    match alternate_uid o with
    | Some uid =>
        let p2 := socket_path (tmpdir_of o) uid name in
        if bool_decide (length p2 < os_sun_path_size o)
        then Some p2 else None
    | None => Some p1
    end
  else Some p1.

(** The local socket at [p] can be used: it is there, it is owned by the
    effective user, and connect(2) succeeds. *)
Definition usable (o : OS) (p : list ascii) : bool :=
  bool_decide (status_of o p = 0%Z)
  && bool_decide (os_connect o (sockaddr_un p) = None).

(** What [set_local_socket] writes about a socket at [p] that cannot be
    used. *)
Definition local_diagnostic (o : OS) (prog p : list ascii) : list ascii :=
  match os_stat o p with
  | StatErr e =>
      if bool_decide (e = ENOENT) then
        prog ++ cs ": can't find socket; have you started the server?" ++ [LF]
        ++ cs "To start the server in Emacs, type " ++ [DQUOTE]
        ++ cs "M-x server-start" ++ [DQUOTE] ++ cs "." ++ [LF]
      else
        prog ++ cs ": can't stat " ++ p ++ cs ": " ++ os_strerror o e ++ [LF]
  | StatOk uid =>
      if bool_decide (uid ≠ os_geteuid o) then
        prog ++ cs ": Invalid socket owner" ++ [LF]
      else
        match os_connect o (sockaddr_un p) with
        | Some e => prog ++ cs ": connect: " ++ os_strerror o e ++ [LF]
        | None => []
        end
  end.

(** The first line of the server file has no colon (or there is no first
    line). *)
Definition lacks_colon (content : list ascii) : Prop :=
  match fgets 32 content with
  | Some (line, _) => split_at COLON (until_nul line) = None
  | None => True
  end.

(** Fewer than 64 bytes follow a first line that has its colon. *)
Definition short_token (content : list ascii) : Prop :=
  match fgets 32 content with
  | Some (line, rest) =>
      split_at COLON (until_nul line) <> None /\ length rest < AUTH_KEY_LENGTH
  | None => False
  end.

(** The ways the server file can fail [get_server_config]. *)
Inductive config_failure := MissingFile | NoColon | ShortToken.

(** The file [fopen] gave (if any) fails in the way [k]. *)
Definition fails_as (k : config_failure) (file : option (list ascii)) : Prop :=
  match k, file with
  | MissingFile, None => True
  | NoColon, Some content => lacks_colon content
  | ShortToken, Some content => short_token content
  | _, _ => False
  end.

(** What [set_tcp_socket] writes for the failure [k], and how it ends. *)
Definition diagnostic_of (k : config_failure) (prog : list ascii) : list event :=
  match k with
  | MissingFile => []
  | NoColon =>
      [EvWrite Stderr (prog ++ cs ": invalid configuration info" ++ [LF])]
  | ShortToken =>
      [EvWrite Stderr (prog ++ cs ": cannot read authentication info" ++ [LF])]
  end.

Definition ending_of (k : config_failure) : outcome Z :=
  match k with
  | MissingFile => Ret INVALID_SOCKET
  | NoColon | ShortToken => Exited EXIT_FAILURE
  end.

(** An outcome the resolver can have: a return, [fail ()], or
    [exit (EXIT_FAILURE)]. *)
Definition clean {A} (o : outcome A) : Prop :=
  match o with
  | Ret _ | Failed => True
  | Exited c => c = EXIT_FAILURE
  | Undefined | Starved => False
  end.

(** [m] ends cleanly, adds only events that satisfy [P] to the trace, and
    leaves the system and the options as they are. *)
Definition emits (P : event -> Prop) {A} (m : M A) : Prop :=
  forall st o st',
    m st = (o, st') ->
    clean o /\ os st' = os st /\ opt st' = opt st
    /\ exists evs, trace (w st') = trace (w st) ++ evs /\ Forall P evs.

Definition not_tcp (e : event) : Prop := tcp_event e = false.

Definition not_stat (e : event) : Prop :=
  match e with EvStat _ => False | _ => True end.

(** The socket name in force: the option, or EMACS_SOCKET_NAME. *)
Definition configured_socket_name (st : state) : option (list ascii) :=
  match socket_name (g st) with
  | Some n => Some n
  | None => os_getenv (os st) "EMACS_SOCKET_NAME"
  end.

(** [m] keeps the invariant [J], however it ends. *)
Definition keeps (J : state -> Prop) {A} (m : M A) : Prop :=
  forall st o st', J st -> m st = (o, st') -> J st'.

(** A failure is recorded, and the results of recv(2) still to come are
    [R]. *)
Definition stopped (R : list recv_result) (st : state) : Prop :=
  exit_status (l st) = EXIT_FAILURE /\ recv_script (w st) = R.

(** *** Notions the statement about the retry uses *)

(** An event that stays with the process and its terminal: something
    written, or a signal; no call on a socket or a file. *)
Definition local_event (e : event) : Prop :=
  match e with
  | EvWrite _ _ | EvKill _ _ => True
  | _ => False
  end.

(** The globals are as they were, [emacs_pid] apart. *)
Definition same_frame (a b : globals) : Prop :=
  nowait b = nowait a /\ display b = display a
  /\ alt_display b = alt_display a /\ tty b = tty a
  /\ socket_name b = socket_name a /\ emacs_socket b = emacs_socket a.

(** What the handling of messages other than
    [-window-system-unsupported] leaves as it was: the system, the
    options, the globals ([emacs_pid] apart), the transport and what the
    peer will send; the exit status stays or becomes EXIT_FAILURE; the
    trace grows by local events only. *)
Definition undisturbed (st st' : state) : Prop :=
  os st' = os st /\ opt st' = opt st /\ same_frame (g st) (g st')
  /\ rl (l st') = rl (l st)
  /\ (exit_status (l st') = exit_status (l st)
      \/ exit_status (l st') = EXIT_FAILURE)
  /\ send_buffer (w st') = send_buffer (w st)
  /\ send_script (w st') = send_script (w st)
  /\ recv_script (w st') = recv_script (w st)
  /\ stdin (w st') = stdin (w st)
  /\ exists evs, trace (w st') = trace (w st) ++ evs /\ Forall local_event evs.

(** [m] relates the state it ends in to the state it starts from by [R],
    however it ends, and returns only values that satisfy [Q]. *)
Definition yields (R : state -> state -> Prop) {A} (Q : A -> Prop) (m : M A)
  : Prop :=
  forall st o st',
    m st = (o, st') -> R st st' /\ forall a, o = Ret a -> Q a.

(** The retry transition on the globals: with an alternate display
    the display becomes that one and the candidate is cleared; without
    one, terminal mode is set and no-wait is cleared.  The socket stays. *)
Definition retry_transition (a b : globals) : Prop :=
  match alt_display a with
  | Some d =>
      display b = Some d /\ alt_display b = None
      /\ tty b = tty a /\ nowait b = nowait a
  | None =>
      tty b = true /\ nowait b = false
      /\ display b = display a /\ alt_display b = None
  end
  /\ socket_name b = socket_name a /\ emacs_socket b = emacs_socket a.

(** Messages as the server sends them, each with its newline. *)
Definition lines (msgs : list (list ascii)) : list ascii :=
  concat (map (fun m => m ++ [LF]) msgs).

(** A message that the loop handles and then goes on: a text without NUL
    and newline, with its escapes closed, that is not a
    [-window-system-unsupported]. *)
Definition passes_on (m : list ascii) : Prop :=
  Forall (fun c => c <> NUL /\ c <> LF) m
  /\ Codec.dangling m = false
  /\ strprefix (cs "-window-system-unsupported ") m = false.

(** A message that the loop handles without a jump and without recording
    a failure: one that passes on and is not an [-error]. *)
Definition harmless (m : list ascii) : Prop :=
  passes_on m /\ strprefix (cs "-error ") m = false.

(** What recv(2) yields in a pass of the receive loop: [p.1] interrupted
    calls, and then the messages [p.2], each with its newline, in one
    chunk. *)
Definition pass_script (p : nat * list (list ascii)) : list recv_result :=
  replicate p.1 (RecvErr EINTR) ++ [RecvBytes (lines p.2)].

(** A pass after which the receive loop goes on: its chunk is not empty,
    fits [string] (of [n] bytes) with its NUL, and holds harmless messages
    only. *)
Definition quiet_pass (n : nat) (p : nat * list (list ascii)) : Prop :=
  p.2 <> [] /\ Forall harmless p.2 /\ length (lines p.2) < n.

(** An event of the receive loop that sends nothing and closes nothing: a
    call of recv(2) on the socket [s], or a local event. *)
Definition quiet_event (s : Z) (e : event) : Prop :=
  match e with
  | EvRecv s' => s' = s
  | _ => local_event e
  end.

(** The exit status is as it was. *)
Definition status_kept (st st' : state) : Prop :=
  exit_status (l st') = exit_status (l st).

(** *** Notions the statement about the socket of [set_socket] uses *)

(** The transport can work: the send buffer is within its capacity, and
    send(2) does not go on answering 0 once its scripted answers are used
    up. *)
Definition transport_ready (st : state) : Prop :=
  length (send_buffer (w st)) <= SEND_BUFFER_SIZE
  /\ os_send_rest (os st) <> 0%Z.

(** [m] ends cleanly, keeps the transport ready, leaves the system as it
    is, and only adds to the trace. *)
Definition adds_events {A} (m : M A) : Prop :=
  forall st o st',
    transport_ready st -> m st = (o, st') ->
    transport_ready st' /\ os st' = os st /\ clean o
    /\ exists evs, trace (w st') = trace (w st) ++ evs.

(** [m] does so too, and a descriptor it returns, unless it is
    INVALID_SOCKET, is one on which it has called connect(2) with
    success. *)
Definition opens (m : M Z) : Prop :=
  forall st o st',
    transport_ready st -> m st = (o, st') ->
    transport_ready st' /\ os st' = os st /\ clean o
    /\ exists evs,
         trace (w st') = trace (w st) ++ evs
         /\ forall s, o = Ret s ->
              s = INVALID_SOCKET
              \/ exists a, EvConnect s a ∈ evs /\ os_connect (os st) a = None.

(** [m] returns nothing but [s]. *)
Definition returns_just {A} (s : A) (m : M A) : Prop :=
  forall st o st' v, m st = (o, st') -> o = Ret v -> v = s.


(** ** Notions the statements about the transport and the session use *)

(** The bytes the peer has taken so far: of every call of send(2) in the
    trace, the part of its data that the call reported as sent. *)
Definition accepted (e : event) : list ascii :=
  match e with
  | EvSend _ data sent => take (Z.to_nat sent) data
  | _ => []
  end.

Definition delivered (tr : list event) : list ascii :=
  concat (map accepted tr).

(** What [send_to_emacs] adds to the trace: calls of send(2) with a buffer
    that is not empty, is within the capacity, and is full or ends in a
    newline; and the diagnostic of a failed call. *)
Definition flush_event (e : event) : Prop :=
  match e with
  | EvSend _ data _ =>
      0 < length data <= SEND_BUFFER_SIZE
      /\ (length data = SEND_BUFFER_SIZE \/ last data = Some LF)
  | EvWrite Stderr _ => True
  | _ => False
  end.

(** An event that is not a connection, or is the connection to a local
    socket that stat(2) reports as owned by the effective user. *)
Definition owned_connect (o : OS) (e : event) : Prop :=
  match e with
  | EvConnect _ (sockaddr_un path) => os_stat o path = StatOk (os_geteuid o)
  | EvConnect _ (sockaddr_in _ _) => False
  | _ => True
  end.

(** [m] changes the state in its input/output part only. *)
Definition only_w {A} (m : M A) : Prop :=
  forall st o st', m st = (o, st') -> exists f, st' = upd_w f st.

(** A result of recv(2) that ends the receive loop: the end of the stream,
    or an error other than an interruption. *)
Definition ends_stream (r : recv_result) : Prop :=
  match r with
  | RecvErr e => e <> EINTR
  | RecvBytes b => b = []
  end.

(** The beginnings of the messages that [main] knows. *)
Definition known_prefixes : list (list ascii) :=
  [cs "-emacs-pid "; cs "-window-system-unsupported "; cs "-print ";
   cs "-print-nonl "; cs "-error "; cs "-suspend "].

(** What [main] sends before a file name: the Tramp prefix, quoted, if
    there is one and the name is absolute. *)
Definition tramp_text (st : state) (arg : list ascii) : list ascii :=
  match tramp_prefix (opt st) with
  | Some t => if file_name_absolute_p arg then Codec.quote_text t else []
  | None => []
  end.

(** In a chunk of messages every [&] has its payload before the message
    ends: it is followed by a character, which is not the newline that ends
    the message.  [pending] tells that the character before was a [&] still
    waiting for its payload. *)
Fixpoint escapes_closed (pending : bool) (s : list ascii) : bool :=
  match s with
  | [] => negb pending
  | c :: t =>
      if pending then negb (bool_decide (c = LF)) && escapes_closed false t
      else if bool_decide (c = AMP) then escapes_closed true t
      else escapes_closed false t
  end.

(** What recv(2) may be scripted to yield for a buffer of [n] bytes: an
    error, or at most [n] bytes of text (no NUL) with its escapes closed. *)
Definition chunk_ok (n : nat) (r : recv_result) : Prop :=
  match r with
  | RecvErr _ => True
  | RecvBytes b =>
      length b <= n /\ Forall (fun c => c <> NUL) b
      /\ escapes_closed false b = true
  end.

(** The state in which the session runs: [string] has its BUFSIZ + 1
    bytes, BUFSIZ is not tiny, send(2) does not go on answering 0 once its
    scripted answers are used up (it takes bytes or fails; with answers 0
    for ever on a full buffer the loop of [send_to_emacs] does not end),
    the send buffer is within its capacity, the peer sends well-formed
    chunks, and the exit status is one of the two. *)
Definition session_inv (st : state) : Prop :=
  length (string_buf (l st)) = S (os_BUFSIZ (os st))
  /\ 2 <= os_BUFSIZ (os st)
  /\ os_send_rest (os st) <> 0%Z
  /\ length (send_buffer (w st)) <= SEND_BUFFER_SIZE
  /\ Forall (chunk_ok (os_BUFSIZ (os st))) (recv_script (w st))
  /\ (exit_status (l st) = EXIT_SUCCESS \/ exit_status (l st) = EXIT_FAILURE).

(** [session_inv], with at most [n] scripted results of recv(2) and at most
    [k] bytes of standard input left. *)
Definition within (n k : nat) (st : state) : Prop :=
  session_inv st
  /\ length (recv_script (w st)) <= n
  /\ length (stdin (w st)) <= k.

(** What the handling of a message leaves as it was. *)
Definition after_dispatch (st st' : state) : Prop :=
  os st' = os st /\ opt st' = opt st /\ rl (l st') = rl (l st)
  /\ (exit_status (l st') = exit_status (l st)
      \/ exit_status (l st') = EXIT_FAILURE)
  /\ send_buffer (w st') = send_buffer (w st)
  /\ send_script (w st') = send_script (w st)
  /\ recv_script (w st') = recv_script (w st)
  /\ stdin (w st') = stdin (w st).

(** A computation ends by a return or by [fail ()]: it does not exit, it
    does not leave its objects, and it does not run out of budget. *)
Definition returns_or_fails {A} (o : outcome A) : Prop :=
  match o with
  | Ret _ | Failed => True
  | Exited _ | Undefined | Starved => False
  end.

(** How [main] ends once it has its socket: it returns one of the two exit
    statuses, or it calls [fail ()]. *)
Definition ends_well (o : outcome Z) : Prop :=
  o = Ret EXIT_SUCCESS \/ o = Ret EXIT_FAILURE \/ o = Failed.

(** [m] keeps [J] and ends by a return or by [fail ()], from every state
    that satisfies [J]. *)
Definition safe (J : state -> Prop) {A} (m : M A) : Prop :=
  forall st o st', J st -> m st = (o, st') -> J st' /\ returns_or_fails o.

(** The state apart from the send buffer, the trace, the script of send(2)
    and [errno]. *)
Definition same_but_transport (st st' : state) : Prop :=
  os st' = os st /\ opt st' = opt st /\ g st' = g st /\ l st' = l st
  /\ recv_script (w st') = recv_script (w st)
  /\ stdin (w st') = stdin (w st).

(** ** The start and the end of the process *)

(** *** [fail]: the alternate editor *)

(** [strspn (s, accept)] *)
Fixpoint strspn (s accept : list ascii) : nat :=
  match s with
  | c :: s' => if bool_decide (c ∈ accept) then S (strspn s' accept) else 0
  | [] => 0
  end.

(** The loop of [fail] that unpacks [alternate_editor] into tokens.  [tok]
    is the text from the pointer [tok] to the end of the copy [s]; each
    token is the text from its start to the separator that the loop
    overwrites with NUL, or to the end of the copy.  Every pass but the
    last one leaves a shorter text, so [S (length s)] passes are enough. *)
Fixpoint unpack_tokens (fuel : nat) (tok : list ascii) : option (list (list ascii)) :=
  match fuel with
  | 0 => None
  | S fuel' =>
      match tok with
      | [] => Some []
      | _ :: _ =>
          let skip := strspn tok [SPC; DQUOTE] in
          let sep :=
            if bool_decide (0 < skip)
               && bool_decide (tok !! (skip - 1) = Some DQUOTE)
            then DQUOTE else SPC in
          match split_at sep (drop skip tok) with
          | Some (token, rest) => (token ::.) <$> unpack_tokens fuel' rest
          | None => Some [drop skip tok]
          end
      end
  end.

(** The tokens of an alternate editor; [None] only if the budget of the
    model ran out. *)
Definition editor_tokens (editor : list ascii) : option (list (list ascii)) :=
  unpack_tokens (S (length editor)) editor.

(** How [fail] ends. *)
Inductive fail_result :=
| RunsEditor (argv : list (list ascii))
    (* execvp replaced the process *)
| ExitsFailure (diagnostic : option (list ascii))
    (* exit (EXIT_FAILURE), after the message if execvp came back *)
| FailStarved.

(** [fail ()], given whether execvp finds the program: the tokens of the
    alternate editor, followed by [argv[optind..]], are the new argument
    vector. *)
Definition fail_result_of (execvp : list (list ascii) -> bool) (st : state)
  : fail_result :=
  match alternate_editor (opt st) with
  | Some editor =>
      match editor_tokens editor with
      | Some tokens =>
          let new_argv := tokens ++ args (opt st) in
          if execvp new_argv then RunsEditor new_argv
          else ExitsFailure
                 (Some (progname (opt st)
                        ++ cs ": error executing alternate editor "
                        ++ [DQUOTE] ++ editor ++ [DQUOTE; LF]))
      | None => FailStarved
      end
  | None => ExitsFailure None
  end.

(** Words joined by single spaces. *)
Fixpoint unwords (ws : list (list ascii)) : list ascii :=
  match ws with
  | [] => []
  | [x] => x
  | x :: ws' => x ++ SPC :: unwords ws'
  end.

(** *** [decode_options] *)

Definition upd_opt (f : options -> options) (st : state) : state :=
  {| os := os st; opt := f (opt st); g := g st; l := l st; w := w st |}.

Definition with_quiet (v : bool) (x : options) : options :=
  {| progname := progname x; quiet := v; suppress_output := suppress_output x;
     eval := eval x; create_frame := create_frame x; parent_id := parent_id x;
     alternate_editor := alternate_editor x; server_file := server_file x;
     tramp_prefix := tramp_prefix x; frame_parameters := frame_parameters x;
     args := args x |}.
Definition with_suppress_output (v : bool) (x : options) : options :=
  {| progname := progname x; quiet := quiet x; suppress_output := v;
     eval := eval x; create_frame := create_frame x; parent_id := parent_id x;
     alternate_editor := alternate_editor x; server_file := server_file x;
     tramp_prefix := tramp_prefix x; frame_parameters := frame_parameters x;
     args := args x |}.
Definition with_eval (v : bool) (x : options) : options :=
  {| progname := progname x; quiet := quiet x;
     suppress_output := suppress_output x;
     eval := v; create_frame := create_frame x; parent_id := parent_id x;
     alternate_editor := alternate_editor x; server_file := server_file x;
     tramp_prefix := tramp_prefix x; frame_parameters := frame_parameters x;
     args := args x |}.
Definition with_create_frame (v : bool) (x : options) : options :=
  {| progname := progname x; quiet := quiet x;
     suppress_output := suppress_output x;
     eval := eval x; create_frame := v; parent_id := parent_id x;
     alternate_editor := alternate_editor x; server_file := server_file x;
     tramp_prefix := tramp_prefix x; frame_parameters := frame_parameters x;
     args := args x |}.
Definition with_parent_id (v : option (list ascii)) (x : options) : options :=
  {| progname := progname x; quiet := quiet x;
     suppress_output := suppress_output x;
     eval := eval x; create_frame := create_frame x; parent_id := v;
     alternate_editor := alternate_editor x; server_file := server_file x;
     tramp_prefix := tramp_prefix x; frame_parameters := frame_parameters x;
     args := args x |}.
Definition with_alternate_editor (v : option (list ascii)) (x : options) : options :=
  {| progname := progname x; quiet := quiet x;
     suppress_output := suppress_output x;
     eval := eval x; create_frame := create_frame x; parent_id := parent_id x;
     alternate_editor := v; server_file := server_file x;
     tramp_prefix := tramp_prefix x; frame_parameters := frame_parameters x;
     args := args x |}.
Definition with_server_file (v : option (list ascii)) (x : options) : options :=
  {| progname := progname x; quiet := quiet x;
     suppress_output := suppress_output x;
     eval := eval x; create_frame := create_frame x; parent_id := parent_id x;
     alternate_editor := alternate_editor x; server_file := v;
     tramp_prefix := tramp_prefix x; frame_parameters := frame_parameters x;
     args := args x |}.
Definition with_tramp_prefix (v : option (list ascii)) (x : options) : options :=
  {| progname := progname x; quiet := quiet x;
     suppress_output := suppress_output x;
     eval := eval x; create_frame := create_frame x; parent_id := parent_id x;
     alternate_editor := alternate_editor x; server_file := server_file x;
     tramp_prefix := v; frame_parameters := frame_parameters x;
     args := args x |}.
Definition with_frame_parameters (v : option (list ascii)) (x : options) : options :=
  {| progname := progname x; quiet := quiet x;
     suppress_output := suppress_output x;
     eval := eval x; create_frame := create_frame x; parent_id := parent_id x;
     alternate_editor := alternate_editor x; server_file := server_file x;
     tramp_prefix := tramp_prefix x; frame_parameters := v;
     args := args x |}.

(** The text of [print_help_and_exit] (sockets in the file system). *)
Definition help_text (progname : list ascii) : list ascii :=
  cs "Usage: " ++ progname ++ cs " [OPTIONS] FILE..." ++ [LF]
  ++ cs "Tell the Emacs server to visit the specified files." ++ [LF]
  ++ cs "Every FILE can be either just a FILENAME or [+LINE[:COLUMN]] FILENAME." ++ [LF]
  ++ [LF]
  ++ cs "The following OPTIONS are accepted:" ++ [LF]
  ++ cs "-V, --version" ++ [TAB; TAB] ++ cs "Just print version info and return" ++ [LF]
  ++ cs "-H, --help    " ++ [TAB; TAB] ++ cs "Print this usage information message" ++ [LF]
  ++ cs "-nw, -t, --tty " ++ [TAB; TAB] ++ cs "Open a new Emacs frame on the current terminal" ++ [LF]
  ++ cs "-c, --create-frame    " ++ [TAB] ++ cs "Create a new frame instead of trying to" ++ [LF]
  ++ [TAB; TAB; TAB] ++ cs "use the current Emacs frame" ++ [LF]
  ++ cs "-F ALIST, --frame-parameters=ALIST" ++ [LF]
  ++ [TAB; TAB; TAB] ++ cs "Set the parameters of a new frame" ++ [LF]
  ++ cs "-e, --eval    " ++ [TAB; TAB] ++ cs "Evaluate the FILE arguments as ELisp expressions" ++ [LF]
  ++ cs "-n, --no-wait" ++ [TAB; TAB] ++ cs "Don't wait for the server to return" ++ [LF]
  ++ cs "-q, --quiet" ++ [TAB; TAB] ++ cs "Don't display messages on success" ++ [LF]
  ++ cs "-u, --suppress-output   Don't display return values from the server" ++ [LF]
  ++ cs "-d DISPLAY, --display=DISPLAY" ++ [LF]
  ++ [TAB; TAB; TAB] ++ cs "Visit the file in the given display" ++ [LF]
  ++ cs "--parent-id=ID          Open in parent window ID, via XEmbed" ++ [LF]
  ++ cs "-s SOCKET, --socket-name=SOCKET" ++ [LF]
  ++ [TAB; TAB; TAB] ++ cs "Set filename of the UNIX socket for communication" ++ [LF]
  ++ cs "-f SERVER, --server-file=SERVER" ++ [LF]
  ++ [TAB; TAB; TAB] ++ cs "Set filename of the TCP authentication file" ++ [LF]
  ++ cs "-a EDITOR, --alternate-editor=EDITOR" ++ [LF]
  ++ [TAB; TAB; TAB] ++ cs "Editor to fallback to if the server is not running" ++ [LF]
  ++ [TAB; TAB; TAB] ++ cs "If EDITOR is the empty string, start Emacs in daemon" ++ [LF]
  ++ [TAB; TAB; TAB] ++ cs "mode and try connecting again" ++ [LF]
  ++ cs "-T PREFIX, --tramp=PREFIX" ++ [LF]
  ++ cs "                        PREFIX to prepend to filenames sent by emacsclient" ++ [LF]
  ++ cs "                        for locating files remotely via Tramp" ++ [LF]
  ++ [LF]
  ++ cs "Report bugs with M-x report-emacs-bug." ++ [LF].

Definition print_help_and_exit {A} : M A :=
  st ← get;
  message false (help_text (progname (opt st)));;
  exit EXIT_SUCCESS.

(** One pass of the loop of [decode_options]: [c] is what
    [getopt_long_only] returned (an option character, 0, or [?] for what it
    rejected) and [optarg] the argument it left, if the option takes one.
    With [?] the second component is the line that [getopt_long_only]
    itself has written to standard error before it returned ([opterr] is
    left set).  [version] is the macro VERSION. *)
Definition decode_option (version : list ascii) (o : ascii * list ascii) : M unit :=
  let '(c, optarg) := o in
  if bool_decide (c = NUL) then ret tt
  else if bool_decide (c = "a"%char) then
    modify (upd_opt (with_alternate_editor (Some optarg)))
  else if bool_decide (c = "s"%char) then
    modify (upd_g (with_socket_name (Some optarg)))
  else if bool_decide (c = "f"%char) then
    modify (upd_opt (with_server_file (Some optarg)))
  else if bool_decide (c = "d"%char) then
    modify (upd_g (with_display (Some optarg)))
  else if bool_decide (c = "n"%char) then
    modify (upd_g (with_nowait true))
  else if bool_decide (c = "e"%char) then
    modify (upd_opt (with_eval true))
  else if bool_decide (c = "q"%char) then
    modify (upd_opt (with_quiet true))
  else if bool_decide (c = "u"%char) then
    modify (upd_opt (with_suppress_output true))
  else if bool_decide (c = "V"%char) then
    message false (cs "emacsclient " ++ version ++ [LF]);;
    exit EXIT_SUCCESS
  else if bool_decide (c = "t"%char) then
    modify (upd_g (with_tty true));;
    modify (upd_opt (with_create_frame true))
  else if bool_decide (c = "c"%char) then
    modify (upd_opt (with_create_frame true))
  else if bool_decide (c = "p"%char) then
    modify (upd_opt (with_parent_id (Some optarg)));;
    modify (upd_opt (with_create_frame true))
  else if bool_decide (c = "H"%char) then
    print_help_and_exit
  else if bool_decide (c = "F"%char) then
    modify (upd_opt (with_frame_parameters (Some optarg)))
  else if bool_decide (c = "T"%char) then
    modify (upd_opt (with_tramp_prefix (Some optarg)))
  else
    st ← get;
    (if bool_decide (c = "?"%char) then eprintf optarg else ret tt);;
    message true (cs "Try '" ++ progname (opt st)
                  ++ cs " --help' for more information" ++ [LF]);;
    exit EXIT_FAILURE.

(** The part of [decode_options] behind its loop: the display and the kind
    of frame.  [platform_display] is the alternate display of the build:
    "ns" with NS_IMPL_COCOA, "w32" with HAVE_NTGUI, none otherwise. *)
Definition settle_display (platform_display : option (list ascii)) : M unit :=
  st1 ← get;
  (if create_frame (opt st1) && negb (tty (g st1))
      && bool_decide (display (g st1) = None)
   then
     (match platform_display with
      | Some d => modify (upd_g (with_alt_display (Some d)))
      | None => ret tt
      end);;
     modify (upd_g (with_display (os_getenv (os st1) "DISPLAY")))
   else ret tt);;
  st2 ← get;
  (if bool_decide (display (g st2) = None) then
     modify (upd_g (with_display (alt_display (g st2))));;
     modify (upd_g (with_alt_display None))
   else ret tt);;
  st3 ← get;
  (match display (g st3) with
   | Some [] => modify (upd_g (with_display None))
   | _ => ret tt
   end);;
  st4 ← get;
  (if create_frame (opt st4) && bool_decide (display (g st4) = None)
   then modify (upd_g (with_tty true))
   else ret tt).

(** [decode_options (argc, argv)]: [parsed] is what the calls of
    [getopt_long_only] yield before EOF, in order. *)
Definition decode_options (version : list ascii)
    (platform_display : option (list ascii))
    (parsed : list (ascii * list ascii)) : M unit :=
  st0 ← get;
  modify (upd_opt (with_alternate_editor (os_getenv (os st0) "ALTERNATE_EDITOR")));;
  modify (upd_opt (with_tramp_prefix (os_getenv (os st0) "EMACSCLIENT_TRAMP")));;
  for_each (decode_option version) parsed;;
  settle_display platform_display.

(** *** The head of [main] *)

Definition SIGTTIN : Z := 21%Z.

(** What the parent sees of the daemon it starts: the child exited with
    status 0; it did not (or waitpid failed); there was no child. *)
Inductive daemon_start := DaemonStarted | DaemonFailed | CannotFork.

(** What [main] asks of the system besides the services of [OS]. *)
Record process := {
  getpgrp : Z;
  tcgetpgrp : Z;
  daemon : daemon_start;
  current_dir_name : option (list ascii)
}.

(** The argument vector of the child of
    [start_daemon_and_retry_set_socket]. *)
Definition daemon_argv (st : state) : list (list ascii) :=
  [cs "emacs";
   match socket_name (g st) with
   | Some name => cs "--daemon=" ++ name
   | None => cs "--daemon"
   end].

(** [start_daemon_and_retry_set_socket], in the parent. *)
Definition start_daemon_and_retry_set_socket (d : daemon_start) : M unit :=
  match d with
  | DaemonStarted =>
      message true
        (cs "Emacs daemon should have started, trying to connect again" ++ [LF]);;
      s ← set_socket true;
      modify (upd_g (with_emacs_socket s));;
      if bool_decide (s = INVALID_SOCKET) then
        message true
          (cs "Error: Cannot connect even after starting the Emacs daemon" ++ [LF]);;
        exit EXIT_FAILURE
      else ret tt
  | DaemonFailed =>
      message true (cs "Error: Could not start the Emacs daemon" ++ [LF]);;
      exit EXIT_FAILURE
  | CannotFork =>
      eprintf (cs "Error: Cannot fork!" ++ [LF]);;
      exit EXIT_FAILURE
  end.

(** [main] after [decode_options]; [args] holds [argv[optind..]]. *)
Definition main_after_options (p : process) : M Z :=
  st ← get;
  if negb (bool_decide (args (opt st) ≠ []) || eval (opt st)
           || create_frame (opt st))
  then
    message true
      (progname (opt st) ++ cs ": file name or argument required" ++ [LF]
       ++ cs "Try '" ++ progname (opt st)
       ++ cs " --help' for more information" ++ [LF]);;
    exit EXIT_FAILURE
  else
    (if tty (g st) then
       if bool_decide (0 <= tcgetpgrp p)%Z
          && bool_decide (tcgetpgrp p ≠ getpgrp p)
       then emit (EvKill (- getpgrp p)%Z SIGTTIN)
       else ret tt
     else ret tt);;
    let start_daemon_if_needed :=
      match alternate_editor (opt st) with
      | Some [] => true
      | _ => false
      end in
    s ← set_socket (bool_decide (alternate_editor (opt st) ≠ None)
                    || start_daemon_if_needed);
    modify (upd_g (with_emacs_socket s));;
    (if bool_decide (s = INVALID_SOCKET) then
       (if negb start_daemon_if_needed then fail else ret tt);;
       start_daemon_and_retry_set_socket (daemon p)
     else ret tt);;
    match current_dir_name p with
    | None =>
        message true (progname (opt st) ++ cs ": "
                      ++ cs "Cannot get current working directory" ++ [LF]);;
        fail
    | Some cwd => session cwd
    end.

(** [main]: the automatic variables get their initial values ([string] is
    not initialised), the options are decoded, and the rest follows. *)
Definition main (version : list ascii) (platform_display : option (list ascii))
    (parsed : list (ascii * list ascii)) (p : process) : M Z :=
  modify (upd_l (with_rl 0%Z));;
  modify (upd_l (with_skiplf true));;
  modify (upd_l (with_exit_status EXIT_SUCCESS));;
  decode_options version platform_display parsed;;
  main_after_options p.

(** A terminal frame is a new frame: [tty] is set only with
    [create_frame]. *)
Definition tty_is_frame (st : state) : Prop :=
  tty (g st) = true -> create_frame (opt st) = true.

(** The options that ask for a new frame. *)
Definition creates_frame (c : ascii) : bool :=
  bool_decide (c ∈ ["t"; "c"; "p"]%char).

(** The options of a command line that make [main] go on without a file
    argument: [-e], and those that ask for a new frame. *)
Definition asks_for_work (c : ascii) : bool :=
  bool_decide (c = "e"%char) || creates_frame c.

(** The options at which [decode_options] leaves the process. *)
Definition leaves_at_once (c : ascii) : bool :=
  negb (bool_decide
          (c ∈ [NUL; "a"; "s"; "f"; "d"; "n"; "e"; "q"; "u"; "t"; "c"; "p";
                "F"; "T"]%char)).

(** *** How the process ends *)

(** The two exit statuses of the client. *)
Definition is_status (c : Z) : Prop := c = EXIT_SUCCESS \/ c = EXIT_FAILURE.

Definition any {A} (a : A) : Prop := True.

(** A computation ends properly: it returns (a value that satisfies [Q]),
    it calls [exit] with one of the two statuses, or it calls [fail ()].
    It does not leave its objects and does not run out of budget. *)
Definition ends_properly {A} (Q : A -> Prop) (o : outcome A) : Prop :=
  match o with
  | Ret a => Q a
  | Exited c => is_status c
  | Failed => True
  | Undefined | Starved => False
  end.

(** [m] keeps [J] and ends properly, from every state that satisfies
    [J]. *)
Definition tame (J : state -> Prop) {A} (Q : A -> Prop) (m : M A) : Prop :=
  forall st o st', J st -> m st = (o, st') -> J st' /\ ends_properly Q o.

(** What [main] finds when it starts: [string] has its BUFSIZ + 1 bytes
    (whatever they hold), BUFSIZ is not tiny, send(2) does not go on
    answering 0 once its scripted answers are used up, the send buffer is
    within its capacity, and the peer will send well-formed chunks. *)
Definition start_inv (st : state) : Prop :=
  length (string_buf (l st)) = S (os_BUFSIZ (os st))
  /\ 2 <= os_BUFSIZ (os st)
  /\ os_send_rest (os st) <> 0%Z
  /\ length (send_buffer (w st)) <= SEND_BUFFER_SIZE
  /\ Forall (chunk_ok (os_BUFSIZ (os st))) (recv_script (w st)).

(** ** Further worlds *)

(** A socket name too long for [sun_path]. *)
Definition long_name : list ascii := replicate 120 "a"%char.

(** A peer that takes three bytes of the first write, and then all. *)
Definition slow_peer : state :=
  upd_w (with_send_script [3%Z; 4096%Z]) scenario_A.

(** [emacsclient -T /ssh:h: ..] *)
Definition over_tramp : state :=
  upd_opt (with_tramp_prefix (Some (cs "/ssh:h:"))) scenario_A.

(** [string] holds a message that [main] does not know, in mid-line. *)
Definition unknown_message : state :=
  upd_l (with_skiplf false)
    (upd_l (with_string_buf (cs "-hello there" ++ [NUL])) scenario_A).

(** [emacsclient -u ..], and [string] holds a [-print] message. *)
Definition quiet_print : state :=
  upd_opt (with_suppress_output true)
    (upd_l (with_string_buf (cs "-print hi" ++ [NUL])) scenario_A).

(** recv(2) is interrupted twice, and then the connection is reset. *)
Definition lost_connection : state :=
  upd_w (with_recv_script [RecvErr EINTR; RecvErr EINTR; RecvErr 104%Z])
    scenario_A.

(** [emacsclient -a 'vi -R' notes.txt] *)
Definition with_vi : state :=
  upd_opt (with_alternate_editor (Some (cs "vi -R"))) scenario_A.

(** [emacsclient] with no file argument. *)
Definition no_arguments : state :=
  make_state plain_os (make_options false [] None) (make_globals None None) [].

(** [emacsclient notes.txt] with a server that listens on the socket of the
    user, answers with its pid and a text, and closes. *)
Definition server_running : state :=
  make_state
    (make_os no_env (fun _ => StatOk 1000%Z) no_user no_file None)
    (make_options false [cs "notes.txt"] None) (make_globals None None)
    [RecvBytes (cs "-emacs-pid 4242" ++ [LF]);
     RecvBytes (cs "-print all&_done" ++ [LF])].

(** A process in the foreground, in /home/u, that cannot start a daemon. *)
Definition a_process : process :=
  {| getpgrp := 100%Z; tcgetpgrp := 100%Z; daemon := DaemonFailed;
     current_dir_name := Some (cs "/home/u") |}.

(** * Properties *)

(** ** Memory accesses *)

Lemma load_middle (mem A R : list ascii) (x : ascii) (n : nat) :
  mem = A ++ x :: R -> n = length A -> load mem n = Ok x.
Proof.
  intros -> ->. unfold load. now rewrite list_lookup_middle.
Qed.

Lemma store_middle (mem A R : list ascii) (x c : ascii) (n : nat) :
  mem = A ++ x :: R -> n = length A -> store mem n c = Ok (A ++ c :: R).
Proof.
  intros -> ->. unfold store.
  destruct (decide (length A < length (A ++ x :: R))) as [_|H].
  - f_equal. replace (length A) with (length A + 0) by lia.
    now rewrite insert_app_r.
  - rewrite length_app in H. simpl in H. lia.
Qed.

Lemma load_end (mem : list ascii) (n : nat) :
  length mem <= n -> load mem n = OutOfBounds.
Proof.
  intros H. unfold load. now rewrite (lookup_ge_None_2 mem n H).
Qed.

Lemma store_length (mem mem' : list ascii) (n : nat) (c : ascii) :
  store mem n c = Ok mem' -> length mem' = length mem.
Proof.
  unfold store. destruct (decide (n < length mem)); [|discriminate].
  intros [= <-]. apply length_insert.
Qed.

Lemma c_str_app (s R : list ascii) :
  Forall (fun c => c <> NUL) s -> c_str (s ++ NUL :: R) = Some s.
Proof.
  induction 1 as [|c s Hc _ IH]; simpl.
  - reflexivity.
  - rewrite bool_decide_eq_false_2 by assumption. now rewrite IH.
Qed.

Lemma cstring_at_middle (mem A s R : list ascii) (n : nat) :
  mem = A ++ s ++ NUL :: R -> n = length A ->
  Forall (fun c => c <> NUL) s -> cstring_at mem n = Some s.
Proof.
  intros -> -> H. unfold cstring_at. rewrite drop_app_length.
  now apply c_str_app.
Qed.

Module CodecProofs.
Import Codec.

(** *** The escaping transform *)

Lemma quote_loop_chars (s : list ascii) :
  forall off, Forall (fun c => c <> SPC /\ c <> LF) (quote_loop off s).
Proof.
  induction s as [|c s IH]; intros off; simpl; [constructor|].
  repeat case_bool_decide; subst; simpl;
    repeat (constructor; [split; congruence || discriminate|]); try apply IH.
Qed.

Lemma quote_loop_no_nul (s : list ascii) :
  forall off, Forall (fun c => c <> NUL) s ->
              Forall (fun c => c <> NUL) (quote_loop off s).
Proof.
  induction s as [|c s IH]; intros off H; simpl; [constructor|].
  inversion H as [|? ? Hc Hs]; subst.
  repeat case_bool_decide; subst; simpl;
    repeat (constructor; [congruence || discriminate|]); now apply IH.
Qed.

Lemma quote_loop_length (s : list ascii) :
  forall off, length (quote_loop off s) <= 2 * length s.
Proof.
  induction s as [|c s IH]; intros off; simpl; [lia|].
  specialize (IH (S off)).
  repeat case_bool_decide; simpl; lia.
Qed.

Lemma unescape_plain (c : ascii) :
  c <> SPC -> c <> LF -> c = AMP \/ c = DASH -> unescape c = c.
Proof.
  intros _ _ [->| ->]; reflexivity.
Qed.

Lemma decode_quote_loop (s : list ascii) :
  forall off, decode_spec (quote_loop off s) = s.
Proof.
  induction s as [|c s IH]; intros off; simpl; [reflexivity|].
  case_bool_decide as Hsp; [subst; simpl; now rewrite IH|].
  case_bool_decide as Hlf; [subst; simpl; now rewrite IH|].
  case_bool_decide as Hamp; simpl.
  - subst. simpl. now rewrite IH.
  - case_bool_decide as Hdash; simpl.
    + subst. case_bool_decide; simpl; now rewrite IH.
    + rewrite bool_decide_eq_false_2 by assumption. now rewrite IH.
Qed.

Lemma dangling_quote_loop (s : list ascii) :
  forall off, dangling (quote_loop off s) = false.
Proof.
  induction s as [|c s IH]; intros off; simpl; [reflexivity|].
  case_bool_decide as Hsp; [subst; simpl; now rewrite IH|].
  case_bool_decide as Hlf; [subst; simpl; now rewrite IH|].
  case_bool_decide as Hamp; simpl.
  - subst. simpl. now rewrite IH.
  - case_bool_decide as Hdash; simpl.
    + subst. case_bool_decide; simpl; now rewrite IH.
    + rewrite bool_decide_eq_false_2 by assumption. now rewrite IH.
Qed.

(** *** The in-place decoder *)

(** The store of the escape branch leaves [unescape d] at the payload. *)
Lemma escape_store (mem A R : list ascii) (d : ascii) (n : nat) :
  mem = A ++ d :: R -> n = length A ->
  (if bool_decide (d = AMP) then store mem n AMP
   else if bool_decide (d = USCORE) then store mem n SPC
   else if bool_decide (d = LOWER_N) then store mem n LF
   else if bool_decide (d = DASH) then store mem n DASH
   else Ok mem) = Ok (A ++ unescape d :: R).
Proof.
  intros Hm Hn. unfold unescape.
  repeat case_bool_decide; try now apply (store_middle mem A R d).
  now subst.
Qed.

(** Writing at [q] while reading behind a gap [junk]: the gap keeps its
    length and moves one place to the right. *)
Lemma store_shift (A junk R : list ascii) (x c : ascii) :
  exists junk', length junk' = length junk /\
    store (A ++ junk ++ x :: R) (length A) c = Ok ((A ++ [c]) ++ junk' ++ R).
Proof.
  destruct junk as [|j js].
  - exists []. split; [reflexivity|].
    simpl. rewrite <- app_assoc. simpl.
    now apply (store_middle _ A R x).
  - exists (js ++ [x]). split; [rewrite length_app; simpl; lia|].
    rewrite <- !app_assoc. simpl.
    now apply (store_middle _ A (js ++ x :: R) j).
Qed.

Lemma load_gap (A junk R : list ascii) (x : ascii) :
  load (A ++ junk ++ x :: R) (length A + length junk) = Ok x.
Proof.
  apply (load_middle _ (A ++ junk) R).
  - now rewrite <- app_assoc.
  - now rewrite length_app.
Qed.

(** The loop invariant: [A] is the decoded text so far, [junk] the gap
    between [q] and [p], [rest] the text still to scan. *)
Lemma unquote_loop_ok (n : nat) :
  forall rest, length rest <= n ->
  forall A junk post fuel,
    Forall (fun c => c <> NUL) rest -> dangling rest = false ->
    length rest < fuel ->
    exists tail,
      length (decode_spec rest) + length tail = length junk + length rest /\
      unquote_loop fuel (A ++ junk ++ rest ++ NUL :: post)
                   (length A + length junk) (length A)
      = Ok (A ++ decode_spec rest ++ NUL :: tail ++ post).
Proof.
  induction n as [n IH] using lt_wf_ind.
  intros rest Hn A junk post fuel Hnul Hd Hfuel.
  destruct fuel as [|fuel]; [lia|].
  destruct rest as [|c rest].
  - (* the terminating NUL *)
    simpl. rewrite load_gap. simpl.
    destruct junk as [|j js]; simpl.
    + exists []. split; [reflexivity|].
      now apply (store_middle _ A post NUL).
    + exists (js ++ [NUL]). split; [rewrite length_app; simpl; lia|].
      rewrite <- app_assoc. simpl.
      now apply (store_middle _ A (js ++ NUL :: post) j).
  - inversion Hnul as [|? ? Hc Hrest]; subst.
    simpl in Hn, Hfuel.
    cbn [unquote_loop]. rewrite <- app_comm_cons, load_gap.
    cbn [access_bind]. rewrite bool_decide_eq_false_2 by assumption.
    simpl in Hd |- *.
    case_bool_decide as Hamp.
    + (* an escape *)
      subst c. destruct rest as [|d rest]; [discriminate|].
      inversion Hrest as [|? ? Hdn Hrest']; subst.
      simpl in Hn, Hfuel.
      rewrite (load_middle _ (A ++ junk ++ [AMP]) (rest ++ NUL :: post) d);
        [|now rewrite <- !app_assoc|rewrite !length_app; simpl; lia].
      cbn [access_bind].
      rewrite (escape_store _ (A ++ junk ++ [AMP]) (rest ++ NUL :: post) d);
        [|now rewrite <- !app_assoc|rewrite !length_app; simpl; lia].
      cbn [access_bind].
      rewrite (load_middle _ (A ++ junk ++ [AMP]) (rest ++ NUL :: post) (unescape d));
        [|reflexivity|rewrite !length_app; simpl; lia].
      cbn [access_bind].
      destruct (store_shift A (junk ++ [AMP]) (rest ++ NUL :: post)
                  (unescape d) (unescape d)) as (junk' & Hlen & Hst).
      replace ((A ++ junk ++ [AMP]) ++ unescape d :: rest ++ NUL :: post)
        with (A ++ (junk ++ [AMP]) ++ unescape d :: rest ++ NUL :: post)
        by now rewrite <- !app_assoc.
      rewrite Hst. cbn [access_bind].
      rewrite length_app in Hlen. simpl in Hlen.
      destruct (IH (length rest) ltac:(lia) rest ltac:(lia)
                  (A ++ [unescape d]) junk' post fuel Hrest' Hd ltac:(lia))
        as (tail & Htl & Hrun).
      exists tail. split; [simpl; lia|].
      replace (S (S (length A + length junk)))
        with (length (A ++ [unescape d]) + length junk')
        by (rewrite length_app; simpl; lia).
      replace (S (length A)) with (length (A ++ [unescape d]))
        by (rewrite length_app; simpl; lia).
      rewrite Hrun. now rewrite <- app_assoc.
    + (* a plain character *)
      destruct (store_shift A junk (rest ++ NUL :: post) c c)
        as (junk' & Hlen & Hst).
      rewrite Hst. cbn [access_bind].
      destruct (IH (length rest) ltac:(lia) rest ltac:(lia)
                  (A ++ [c]) junk' post fuel Hrest Hd ltac:(lia))
        as (tail & Htl & Hrun).
      exists tail. split; [simpl; lia|].
      replace (S (length A + length junk))
        with (length (A ++ [c]) + length junk')
        by (rewrite length_app; simpl; lia).
      replace (S (length A)) with (length (A ++ [c]))
        by (rewrite length_app; simpl; lia).
      rewrite Hrun. now rewrite <- app_assoc.
Qed.

(** A final lone [&] takes the NUL as its payload and the scan goes on
    behind it: in a buffer that ends with the string the next read is
    outside the buffer. *)
Lemma unquote_loop_dangling (n : nat) :
  forall rest, length rest <= n ->
  forall A junk fuel,
    Forall (fun c => c <> NUL) rest -> dangling rest = true ->
    length rest < fuel ->
    unquote_loop fuel (A ++ junk ++ rest ++ [NUL])
                 (length A + length junk) (length A)
    = OutOfBounds.
Proof.
  induction n as [n IH] using lt_wf_ind.
  intros rest Hn A junk fuel Hnul Hd Hfuel.
  destruct fuel as [|fuel]; [lia|].
  destruct rest as [|c rest]; [discriminate|].
  inversion Hnul as [|? ? Hc Hrest]; subst.
  simpl in Hn, Hfuel.
  cbn [unquote_loop]. rewrite <- app_comm_cons, load_gap.
  cbn [access_bind]. rewrite bool_decide_eq_false_2 by assumption.
  simpl in Hd.
  case_bool_decide as Hamp.
  - subst c. destruct rest as [|d rest].
    + (* the lone [&] *)
      simpl.
      rewrite (load_middle _ (A ++ junk ++ [AMP]) [] NUL);
        [|now rewrite <- !app_assoc|rewrite !length_app; simpl; lia].
      cbn [access_bind]. simpl.
      rewrite (load_middle _ (A ++ junk ++ [AMP]) [] NUL);
        [|now rewrite <- !app_assoc|rewrite !length_app; simpl; lia].
      cbn [access_bind].
      destruct (store_shift A (junk ++ [AMP]) [] NUL NUL)
        as (junk' & Hlen & Hst).
      replace (A ++ junk ++ [AMP; NUL]) with (A ++ (junk ++ [AMP]) ++ [NUL])
        by now rewrite <- !app_assoc.
      rewrite Hst. cbn [access_bind].
      rewrite length_app in Hlen. simpl in Hlen.
      destruct fuel as [|fuel]; [lia|].
      cbn [unquote_loop]. rewrite load_end; [reflexivity|].
      rewrite !length_app. simpl. lia.
    + inversion Hrest as [|? ? Hdn Hrest']; subst.
      simpl in Hn, Hfuel.
      rewrite (load_middle _ (A ++ junk ++ [AMP]) (rest ++ [NUL]) d);
        [|now rewrite <- !app_assoc|rewrite !length_app; simpl; lia].
      cbn [access_bind].
      rewrite (escape_store _ (A ++ junk ++ [AMP]) (rest ++ [NUL]) d);
        [|now rewrite <- !app_assoc|rewrite !length_app; simpl; lia].
      cbn [access_bind].
      rewrite (load_middle _ (A ++ junk ++ [AMP]) (rest ++ [NUL]) (unescape d));
        [|reflexivity|rewrite !length_app; simpl; lia].
      cbn [access_bind].
      destruct (store_shift A (junk ++ [AMP]) (rest ++ [NUL])
                  (unescape d) (unescape d)) as (junk' & Hlen & Hst).
      replace ((A ++ junk ++ [AMP]) ++ unescape d :: rest ++ [NUL])
        with (A ++ (junk ++ [AMP]) ++ unescape d :: rest ++ [NUL])
        by now rewrite <- !app_assoc.
      rewrite Hst. cbn [access_bind].
      rewrite length_app in Hlen. simpl in Hlen.
      replace (S (S (length A + length junk)))
        with (length (A ++ [unescape d]) + length junk')
        by (rewrite length_app; simpl; lia).
      replace (S (length A)) with (length (A ++ [unescape d]))
        by (rewrite length_app; simpl; lia).
      apply (IH (length rest)); [lia|lia|assumption|assumption|lia].
  - destruct (store_shift A junk (rest ++ [NUL]) c c)
      as (junk' & Hlen & Hst).
    rewrite Hst. cbn [access_bind].
    replace (S (length A + length junk))
      with (length (A ++ [c]) + length junk')
      by (rewrite length_app; simpl; lia).
    replace (S (length A)) with (length (A ++ [c]))
      by (rewrite length_app; simpl; lia).
    apply (IH (length rest)); [lia|lia|assumption|assumption|lia].
Qed.

(** The budget of [unquote_argument] is never the reason it stops. *)
Lemma unquote_loop_fuel (fuel : nat) :
  forall mem p q, 0 < fuel -> length mem < p + fuel ->
                  unquote_loop fuel mem p q <> OutOfFuel.
Proof.
  induction fuel as [|fuel IH]; intros mem p q Hpos H; [lia|].
  - cbn [unquote_loop]. unfold load at 1.
    destruct (mem !! p) as [c|] eqn:Hp; [|discriminate].
    cbn [access_bind].
    case_bool_decide; [unfold store; case_decide; discriminate|].
    case_bool_decide.
    + unfold load at 1. destruct (mem !! S p) as [d|] eqn:Hp1; [|discriminate].
      cbn [access_bind].
      assert (Hst : forall x, store mem (S p) x = Ok (<[S p := x]> mem)).
      { intros x. unfold store. apply lookup_lt_Some in Hp1.
        now rewrite decide_True. }
      assert (Hmem1 : exists mem1,
                 (if bool_decide (d = AMP) then store mem (S p) AMP
                  else if bool_decide (d = USCORE) then store mem (S p) SPC
                  else if bool_decide (d = LOWER_N) then store mem (S p) LF
                  else if bool_decide (d = DASH) then store mem (S p) DASH
                  else Ok mem) = Ok mem1 /\ length mem1 = length mem).
      { repeat case_bool_decide; rewrite ?Hst;
          eexists; (split; [reflexivity|]); rewrite ?length_insert; reflexivity. }
      destruct Hmem1 as (mem1 & -> & Hl1). cbn [access_bind].
      destruct (load mem1 (S p)) as [e| |] eqn:He; cbn [access_bind];
        try discriminate.
      * destruct (store mem1 q e) as [mem2| |] eqn:Hs; cbn [access_bind];
          try discriminate.
        -- apply lookup_lt_Some in Hp1. apply store_length in Hs.
           apply IH; lia.
        -- unfold store in Hs. case_decide; discriminate.
      * unfold load in He. destruct (mem1 !! S p); discriminate.
    + destruct (store mem q c) as [mem1| |] eqn:Hs; cbn [access_bind];
        try discriminate.
      * apply lookup_lt_Some in Hp. apply store_length in Hs.
        apply IH; lia.
      * unfold store in Hs. case_decide; discriminate.
Qed.

Lemma unquote_argument_fuel (mem : list ascii) (str : option nat) :
  unquote_argument mem str <> OutOfFuel.
Proof.
  destruct str as [a|]; simpl; [|discriminate].
  apply (unquote_loop_fuel (S (length mem))); lia.
Qed.

Lemma unescape_no_nul (d : ascii) : d <> NUL -> unescape d <> NUL.
Proof.
  intros H. unfold unescape. repeat case_bool_decide; try discriminate.
  assumption.
Qed.

Lemma decode_spec_no_nul (n : nat) :
  forall s, length s <= n -> Forall (fun c => c <> NUL) s ->
            Forall (fun c => c <> NUL) (decode_spec s).
Proof.
  induction n as [n IH] using lt_wf_ind. intros s Hn H.
  destruct s as [|c s]; simpl; [constructor|].
  inversion H as [|? ? Hc Hs]; subst. simpl in Hn.
  case_bool_decide.
  - destruct s as [|d s]; [constructor|].
    inversion Hs as [|? ? Hd Hs']; subst. simpl in Hn.
    constructor; [now apply unescape_no_nul|].
    apply (IH (length s)); [lia|lia|assumption].
  - constructor; [assumption|].
    apply (IH (length s)); [lia|lia|assumption].
Qed.

(** [unquote_argument] on a string without a final lone [&]: it stays
    inside the string and leaves the decoded text in its place. *)
Lemma unquote_argument_ok (s pre post : list ascii) :
  Forall (fun c => c <> NUL) s -> dangling s = false ->
  exists tail,
    length (decode_spec s) + length tail = length s /\
    unquote_argument (pre ++ s ++ NUL :: post) (Some (length pre))
    = Ok (pre ++ decode_spec s ++ NUL :: tail ++ post).
Proof.
  intros Hnul Hd. unfold unquote_argument.
  destruct (unquote_loop_ok (length s) s ltac:(lia) pre [] post
              (S (length (pre ++ s ++ NUL :: post))) Hnul Hd)
    as (tail & Hlen & Hrun).
  { rewrite !length_app. simpl. lia. }
  exists tail. split; [simpl in Hlen; lia|].
  simpl in Hrun. rewrite Nat.add_0_r in Hrun. exact Hrun.
Qed.

Lemma printable_no_nul (s : list ascii) :
  Forall (fun c => printable c \/ c = SPC \/ c = LF) s ->
  Forall (fun c => c <> NUL) s.
Proof.
  intros Hs. eapply Forall_impl; [exact Hs|].
  intros c [H|[->| ->]]; try discriminate.
  intros ->. vm_compute in H. lia.
Qed.

(** C10: for every input string the escaped text that [quote_argument]
    produces and hands to [send_to_emacs] contains no space byte and no
    newline byte, so a quoted argument is one token of the space-delimited,
    newline-terminated protocol. *)
Theorem C10_quoted_argument_is_one_token (s : Z) (str : list ascii) :
  exists text,
    quote_argument s str = send_to_emacs s text /\
    text = quote_text str /\
    Forall (fun c => c <> SPC /\ c <> LF) text.
Proof.
  exists (quote_text str). split; [reflexivity|]. split; [reflexivity|].
  apply quote_loop_chars.
Qed.

(** C5: for every string [s] of printable characters, spaces and newlines
    (the empty string included), [unquote_argument] run in place on the
    NUL-terminated output of the escaping transform of [quote_argument]
    leaves exactly [s] as the C string at the same address. *)
Theorem C5_unquote_quote_roundtrip (s pre post : list ascii) :
  Forall (fun c => printable c \/ c = SPC \/ c = LF) s ->
  exists mem',
    unquote_argument (pre ++ quote_text s ++ NUL :: post) (Some (length pre))
    = Ok mem'
    /\ cstring_at mem' (length pre) = Some s.
Proof.
  intros Hs. apply printable_no_nul in Hs.
  destruct (unquote_argument_ok (quote_text s) pre post) as (tail & _ & Hrun).
  - now apply quote_loop_no_nul.
  - apply dangling_quote_loop.
  - unfold quote_text in *. rewrite decode_quote_loop in Hrun.
    eexists. split; [exact Hrun|].
    now apply (cstring_at_middle _ pre s (tail ++ post)).
Qed.

Lemma C5_roundtrip_witness :
  exists mem',
    unquote_argument (quote_text (cs "-x - y & z") ++ [NUL]) (Some 0) = Ok mem'
    /\ cstring_at mem' 0 = Some (cs "-x - y & z").
Proof.
  apply (C5_unquote_quote_roundtrip (cs "-x - y & z") [] []).
  repeat (constructor; [left; vm_compute; lia|]).
  constructor.
Defined.

(** C9: [unquote_argument] always terminates; on a NUL-terminated string
    that does not end in an unescaped [&] it stays inside the string (the
    buffer may end right after the NUL) and leaves the decoded text; on a
    string that ends in an unescaped [&] it takes the NUL as the payload of
    the escape and reads on behind it, which in a buffer that ends with the
    string is an access out of bounds. *)
Theorem C9_unquote_argument_bounds (s : list ascii) :
  Forall (fun c => c <> NUL) s ->
  (forall mem str, unquote_argument mem str <> OutOfFuel)
  /\ (if dangling s
      then
        forall pre,
          unquote_argument (pre ++ s ++ [NUL]) (Some (length pre))
          = OutOfBounds
      else
        forall pre post, exists mem',
          unquote_argument (pre ++ s ++ NUL :: post) (Some (length pre))
          = Ok mem'
          /\ length mem' = length (pre ++ s ++ NUL :: post)
          /\ cstring_at mem' (length pre) = Some (decode_spec s)).
Proof.
  intros Hnul. split; [apply unquote_argument_fuel|].
  destruct (dangling s) eqn:Hd.
  - intros pre. unfold unquote_argument.
    pose proof (unquote_loop_dangling (length s) s ltac:(lia) pre []
                  (S (length (pre ++ s ++ [NUL]))) Hnul Hd) as Hrun.
    simpl in Hrun. rewrite Nat.add_0_r in Hrun. apply Hrun.
    rewrite !length_app. simpl. lia.
  - intros pre post.
    destruct (unquote_argument_ok s pre post Hnul Hd) as (tail & Hlen & Hrun).
    eexists. split; [exact Hrun|]. split.
    + rewrite !length_app. simpl. rewrite !length_app. lia.
    + apply (cstring_at_middle _ pre (decode_spec s) (tail ++ post));
        [reflexivity|reflexivity|].
      now apply (decode_spec_no_nul (length s)).
Qed.

Lemma C9_bounds_witness :
  (forall mem str, unquote_argument mem str <> OutOfFuel)
  /\ (forall pre,
        unquote_argument (pre ++ cs "a&" ++ [NUL]) (Some (length pre))
        = OutOfBounds).
Proof.
  apply (C9_unquote_argument_bounds (cs "a&")).
  repeat (constructor; [discriminate|]). constructor.
Defined.
End CodecProofs.

(** ** Running computations *)

(** Unfold the plumbing of the monad and of the state, nothing else. *)
Ltac msimpl :=
  cbn [bind get modify ret stop emit message printf eprintf exit fail
       set_errno lift_access set_string_buf
       upd_w upd_g upd_l os opt g l w
       with_nowait with_display with_alt_display with_tty with_socket_name
       with_emacs_pid with_emacs_socket
       with_rl with_skiplf with_string_buf with_exit_status
       with_send_buffer with_errno with_trace with_send_script
       with_recv_script with_stdin
       nowait display alt_display tty socket_name emacs_pid emacs_socket
       rl skiplf string_buf exit_status
       send_buffer errno trace send_script recv_script stdin].

(** Two results are the same once the state updates are carried out. *)
Ltac state_eq :=
  unfold stop, ret, upd_w, upd_g, upd_l,
    with_nowait, with_display, with_alt_display, with_tty, with_socket_name,
    with_emacs_pid, with_emacs_socket,
    with_rl, with_skiplf, with_string_buf, with_exit_status,
    with_send_buffer, with_errno, with_trace, with_send_script,
    with_recv_script, with_stdin;
  cbn [os opt g l w
       nowait display alt_display tty socket_name emacs_pid emacs_socket
       rl skiplf string_buf exit_status
       send_buffer errno trace send_script recv_script stdin];
  rewrite <- ?app_assoc; reflexivity.

Lemma bind_ret {A B} (m : M A) (k : A -> M B) (st st' : state) (a : A) :
  m st = (Ret a, st') -> bind m k st = k a st'.
Proof. intros H. unfold bind. now rewrite H. Qed.

Lemma bind_exited {A B} (m : M A) (k : A -> M B) (st st' : state) (c : Z) :
  m st = (Exited c, st') -> bind m k st = (Exited c, st').
Proof. intros H. unfold bind. now rewrite H. Qed.

Lemma bind_failed {A B} (m : M A) (k : A -> M B) (st st' : state) :
  m st = (Failed, st') -> bind m k st = (Failed, st').
Proof. intros H. unfold bind. now rewrite H. Qed.

Lemma bind_get {B} (k : state -> M B) (st : state) :
  bind get k st = k st st.
Proof. reflexivity. Qed.

Lemma bind_modify {B} (f : state -> state) (k : unit -> M B) (st : state) :
  bind (modify f) k st = k tt (f st).
Proof. reflexivity. Qed.

Lemma bind_ret_l {A B} (a : A) (k : A -> M B) (st : state) :
  bind (ret a) k st = k a st.
Proof. reflexivity. Qed.

Lemma bind_emit {B} (e : event) (k : unit -> M B) (st : state) :
  bind (emit e) k st
  = k tt (upd_w (fun x => with_trace (trace x ++ [e]) x) st).
Proof. reflexivity. Qed.

Lemma bind_assoc {A B C} (m : M A) (k : A -> M B) (h : B -> M C) (st : state) :
  bind (bind m k) h st = bind m (fun a => bind (k a) h) st.
Proof. unfold bind. destruct (m st) as [[a| | | |] st']; reflexivity. Qed.

(** Project through the state updates, nothing else. *)
Ltac ssimpl :=
  cbn [upd_w upd_g upd_l os opt g l w
       with_nowait with_display with_alt_display with_tty with_socket_name
       with_emacs_pid with_emacs_socket
       with_rl with_skiplf with_string_buf with_exit_status
       with_send_buffer with_errno with_trace with_send_script
       with_recv_script with_stdin
       nowait display alt_display tty socket_name emacs_pid emacs_socket
       rl skiplf string_buf exit_status
       send_buffer errno trace send_script recv_script stdin].

Ltac ssimpl_in H :=
  cbn [upd_w upd_g upd_l os opt g l w
       with_nowait with_display with_alt_display with_tty with_socket_name
       with_emacs_pid with_emacs_socket
       with_rl with_skiplf with_string_buf with_exit_status
       with_send_buffer with_errno with_trace with_send_script
       with_recv_script with_stdin
       nowait display alt_display tty socket_name emacs_pid emacs_socket
       rl skiplf string_buf exit_status
       send_buffer errno trace send_script recv_script stdin] in H.

(** One step of a computation whose head is plumbing. *)
Ltac mstep :=
  first [ rewrite bind_assoc
        | rewrite bind_get
        | rewrite bind_ret_l
        | rewrite bind_modify
        | rewrite bind_emit ];
  cbv beta; ssimpl.

(** Setting the send buffer to what it is changes nothing. *)
Lemma with_send_buffer_same (st : state) :
  upd_w (with_send_buffer (send_buffer (w st))) st = st.
Proof. destruct st as [? ? ? ? []]. reflexivity. Qed.

Lemma sends_of_app (t1 t2 : list event) :
  sends_of (t1 ++ t2) = sends_of t1 ++ sends_of t2.
Proof. apply omap_app. Qed.

Lemma stats_of_app (t1 t2 : list event) :
  stats_of (t1 ++ t2) = stats_of t1 ++ stats_of t2.
Proof. apply omap_app. Qed.

(** ** Transport *)

Module TransportProofs.

Lemma last_app_nonempty (b d : list ascii) :
  d <> [] -> last (b ++ d) = last d.
Proof.
  intros H. rewrite last_app. destruct (last d) eqn:E; [reflexivity|].
  apply last_None in E. contradiction.
Qed.

Lemma send_loop_nil (fuel : nat) (s : Z) (st : state) :
  send_loop (S fuel) s [] st = (Ret tt, st).
Proof. reflexivity. Qed.

(** One pass that takes the whole of [data] into the buffer. *)
Lemma send_loop_pass (fuel : nat) (s : Z) (data : list ascii) (st : state) :
  data <> [] ->
  length (send_buffer (w st)) + length data <= SEND_BUFFER_SIZE ->
  send_loop (S (S fuel)) s data st
  = (let buf := send_buffer (w st) ++ data in
     bind (if bool_decide (length buf = SEND_BUFFER_SIZE)
              || (bool_decide (0 < length buf) && bool_decide (last buf = Some LF))
           then
             bind (send s buf) (fun sent =>
             if bool_decide (sent < 0)%Z then
               bind get (fun st' =>
               bind (message true
                 (progname (opt st') ++ cs ": failed to send "
                  ++ decimal (Z.of_nat (length buf))
                  ++ cs " bytes to socket: "
                  ++ os_strerror (os st') (errno (w st')) ++ [LF]))
                 (fun _ => fail))
             else
               modify (upd_w (with_send_buffer (drop (Z.to_nat sent) buf))))
           else ret tt)
          (fun _ => ret tt))
      (upd_w (with_send_buffer (send_buffer (w st) ++ data)) st).
Proof.
  intros Hne Hlen.
  assert (Hl : length data <> 0) by (destruct data; simpl; congruence).
  assert (Hpart : Nat.min (length data)
                    (SEND_BUFFER_SIZE - length (send_buffer (w st)))
                  = length data) by lia.
  change (send_loop (S (S fuel)) s data st) with
    ((if bool_decide (length data = 0) then ret tt
      else
        bind get (fun st0 =>
        let sblen := length (send_buffer (w st0)) in
        let part := Nat.min (length data) (SEND_BUFFER_SIZE - sblen) in
        let buf := send_buffer (w st0) ++ take part data in
        bind (modify (upd_w (with_send_buffer buf))) (fun _ =>
        bind (if bool_decide (length buf = SEND_BUFFER_SIZE)
                 || (bool_decide (0 < length buf)
                     && bool_decide (last buf = Some LF))
              then
                bind (send s buf) (fun sent =>
                if bool_decide (sent < 0)%Z then
                  bind get (fun st' =>
                  bind (message true
                    (progname (opt st') ++ cs ": failed to send "
                     ++ decimal (Z.of_nat (length buf))
                     ++ cs " bytes to socket: "
                     ++ os_strerror (os st') (errno (w st')) ++ [LF]))
                    (fun _ => fail))
                else
                  modify (upd_w (with_send_buffer (drop (Z.to_nat sent) buf))))
              else ret tt)
             (fun _ => send_loop (S fuel) s (drop part data))))) st).
  rewrite bool_decide_eq_false_2 by assumption.
  rewrite bind_get. cbv zeta. rewrite Hpart.
  rewrite take_ge by lia. rewrite drop_all.
  rewrite bind_modify.
  change (send_loop (S fuel) s []) with (@ret unit tt).
  reflexivity.
Qed.

(** A fragment that leaves the buffer short of its capacity and does not
    end in a newline is only accumulated. *)
Lemma send_to_emacs_buffered (s : Z) (data : list ascii) (st : state) :
  length (send_buffer (w st)) + length data < SEND_BUFFER_SIZE ->
  last data <> Some LF ->
  send_to_emacs s data st
  = (Ret tt, upd_w (with_send_buffer (send_buffer (w st) ++ data)) st).
Proof.
  intros Hlen Hlast. unfold send_to_emacs. rewrite bind_get.
  destruct data as [|c data'] eqn:Hd.
  - rewrite app_nil_r, with_send_buffer_same. reflexivity.
  - rewrite <- Hd in *.
    assert (Hne : data <> []) by (rewrite Hd; discriminate).
    rewrite send_loop_pass by (assumption || lia).
    cbv zeta.
    rewrite bool_decide_eq_false_2 by (rewrite length_app; lia).
    rewrite (last_app_nonempty _ _ Hne).
    rewrite (bool_decide_eq_false_2 (last data = Some LF)) by assumption.
    rewrite andb_false_r. reflexivity.
Qed.

(** A call of send(2) fails exactly when its answer is negative. *)
Lemma send_sign (r : Z) (len : nat) :
  bool_decide (send_result r len < 0)%Z = bool_decide (r < 0)%Z.
Proof.
  unfold send_result. destruct (bool_decide (r < 0)%Z) eqn:Hr.
  - apply bool_decide_eq_true_2. lia.
  - apply bool_decide_eq_false in Hr. apply bool_decide_eq_false_2. lia.
Qed.

(** A fragment that fits and ends in a newline makes one call of send(2)
    with the whole buffer. *)
Lemma send_to_emacs_flush (s : Z) (data : list ascii) (st : state) :
  last data = Some LF ->
  length (send_buffer (w st)) + length data <= SEND_BUFFER_SIZE ->
  forall o st', send_to_emacs s data st = (o, st') ->
  exists sent,
    trace (w st') = trace (w st)
                    ++ EvSend s (send_buffer (w st) ++ data) sent
                    :: (if bool_decide (sent < 0)%Z
                        then [EvWrite Stderr
                                (progname (opt st) ++ cs ": failed to send "
                                 ++ decimal (Z.of_nat
                                      (length (send_buffer (w st) ++ data)))
                                 ++ cs " bytes to socket: "
                                 ++ os_strerror (os st)
                                      (- fst (send_answer st))%Z ++ [LF])]
                        else [])
    /\ (if bool_decide (sent < 0)%Z then o = Failed
        else o = Ret tt
             /\ send_buffer (w st')
                = drop (Z.to_nat sent) (send_buffer (w st) ++ data))
    /\ sent = send_result (fst (send_answer st))
                (length (send_buffer (w st) ++ data))
    /\ send_script (w st') = snd (send_answer st)
    /\ os st' = os st /\ opt st' = opt st /\ g st' = g st /\ l st' = l st.
Proof.
  intros Hlast Hlen o st'. unfold send_to_emacs. rewrite bind_get.
  assert (Hne : data <> []) by (intros ->; discriminate).
  rewrite send_loop_pass by (assumption || lia).
  cbv zeta.
  rewrite (last_app_nonempty _ _ Hne), Hlast.
  rewrite (bool_decide_eq_true_2 (Some LF = Some LF)) by reflexivity.
  assert (Hpos : 0 < length data)
    by (destruct data; [congruence|cbn [length]; lia]).
  rewrite (bool_decide_eq_true_2 (0 < _)) by (rewrite length_app; lia).
  rewrite orb_true_r.
  unfold bind at 1 2. unfold send.
  replace (send_answer
             (upd_w (with_send_buffer (send_buffer (w st) ++ data)) st))
    with (send_answer st) by reflexivity.
  destruct (send_answer st) as [r rest] eqn:Hans. cbn [fst snd].
  set (sent := send_result r (length (send_buffer (w st) ++ data))).
  assert (Hsign : bool_decide (sent < 0)%Z = bool_decide (r < 0)%Z)
    by apply send_sign.
  cbn [w upd_w send_buffer with_send_buffer]. fold sent.
  rewrite Hsign.
  destruct (bool_decide (r < 0)%Z) eqn:Hneg; msimpl;
    intros [= <- <-]; exists sent; rewrite ?Hsign, ?Hneg; msimpl;
    rewrite <- ?app_assoc; repeat split; reflexivity.
Qed.

(** The loop of [send_to_emacs] ends within its budget, by a return or by
    [fail ()], and keeps the buffer within its capacity, unless send(2)
    goes on taking nothing. *)
Lemma send_loop_total (fuel : nat) :
  forall s data st o st',
    length (send_buffer (w st)) <= SEND_BUFFER_SIZE ->
    os_send_rest (os st) <> 0%Z ->
    2 * length data + length (send_script (w st))
    + (if bool_decide (length (send_buffer (w st)) = SEND_BUFFER_SIZE)
       then 1 else 0) < fuel ->
    send_loop fuel s data st = (o, st') ->
    (o = Ret tt \/ o = Failed)
    /\ length (send_buffer (w st')) <= SEND_BUFFER_SIZE.
Proof.
  induction fuel as [|fuel IH]; intros s data st o st' Hinv Hrest Hfuel; [lia|].
  cbn [send_loop]. destruct (bool_decide (length data = 0)) eqn:Hd.
  { intros [= <- <-]. split; [now left|assumption]. }
  apply bool_decide_eq_false in Hd.
  rewrite bind_get. cbv zeta. rewrite bind_modify.
  set (part := Nat.min (length data)
                 (SEND_BUFFER_SIZE - length (send_buffer (w st)))).
  set (buf := send_buffer (w st) ++ take part data).
  assert (Hbuf : length buf = length (send_buffer (w st)) + part).
  { unfold buf. rewrite length_app, length_take. unfold part. lia. }
  destruct (bool_decide (length buf = SEND_BUFFER_SIZE)
            || bool_decide (0 < length buf) && bool_decide (last buf = Some LF))
    eqn:Hflush.
  - rewrite bind_assoc. unfold send. unfold bind at 1.
    replace (send_answer (upd_w (with_send_buffer buf) st))
      with (send_answer st) by reflexivity.
    destruct (send_answer st) as [r rest] eqn:Hans.
    rewrite (send_sign r (length buf)).
    set (sent := send_result r (length buf)).
    destruct (bool_decide (r < 0)%Z) eqn:Hneg.
    + rewrite bind_assoc, bind_get. unfold message.
      rewrite bind_assoc, bind_emit. intros [= <- <-].
      split; [now right|]. ssimpl. unfold part in Hbuf. lia.
    + apply bool_decide_eq_false in Hneg.
      assert (Hsent : sent = Z.min r (Z.of_nat (length buf))).
      { unfold sent, send_result. now rewrite bool_decide_eq_false_2. }
      rewrite bind_modify. apply IH; ssimpl.
      * rewrite length_drop. unfold part in Hbuf. lia.
      * assumption.
      * rewrite length_drop, length_drop.
        unfold send_answer in Hans.
        destruct (send_script (w st)) as [|r0 rest0] eqn:Hs.
        -- injection Hans as <- <-. cbn [length] in *.
           destruct (decide (part = 0)) as [Hp|Hp].
           ++ assert (Hfull : length (send_buffer (w st)) = SEND_BUFFER_SIZE)
                by (unfold part in Hp; lia).
              assert (Hsize : 0 < SEND_BUFFER_SIZE)
                by (unfold SEND_BUFFER_SIZE; lia).
              rewrite (bool_decide_eq_true_2 _ Hfull) in Hfuel.
              rewrite bool_decide_eq_false_2 by lia. lia.
           ++ assert (part <= length data) by (unfold part; lia).
              clear Hflush.
              destruct (bool_decide (length (send_buffer (w st))
                                     = SEND_BUFFER_SIZE));
                destruct (bool_decide (length buf - _ = SEND_BUFFER_SIZE));
                lia.
        -- injection Hans as <- <-. cbn [length] in *.
           assert (part <= length data) by (unfold part; lia).
           assert (length (send_buffer (w st)) = SEND_BUFFER_SIZE \/ 0 < part)
             by (unfold part; lia).
           clear Hflush.
           destruct (bool_decide (length (send_buffer (w st))
                                  = SEND_BUFFER_SIZE)) eqn:E;
             [apply bool_decide_eq_true in E|apply bool_decide_eq_false in E];
             destruct (bool_decide (length buf - _ = SEND_BUFFER_SIZE)); lia.
  - rewrite bind_ret_l. apply IH; ssimpl.
    + unfold part in Hbuf. lia.
    + assumption.
    + rewrite length_drop.
      apply orb_false_iff in Hflush. destruct Hflush as [Hfull _].
      apply bool_decide_eq_false in Hfull.
      rewrite (bool_decide_eq_false_2 (length buf = _)) by assumption.
      assert (0 < part <= length data) by (unfold part in *; lia).
      destruct (bool_decide (length (send_buffer (w st))
                             = SEND_BUFFER_SIZE)); lia.
Qed.

(** [send_to_emacs] does not exhaust its budget unless send(2) goes on
    taking nothing. *)
Lemma send_to_emacs_total (s : Z) (data : list ascii) (st : state)
    (o : outcome unit) (st' : state) :
  length (send_buffer (w st)) <= SEND_BUFFER_SIZE ->
  os_send_rest (os st) <> 0%Z ->
  send_to_emacs s data st = (o, st') ->
  (o = Ret tt \/ o = Failed)
  /\ length (send_buffer (w st')) <= SEND_BUFFER_SIZE.
Proof.
  intros Hinv Hrest. unfold send_to_emacs. rewrite bind_get.
  apply send_loop_total; [assumption|assumption|].
  case_bool_decide; lia.
Qed.

(** Fragments that are only accumulated, one after the other. *)
Lemma for_each_buffered (s : Z) (ds : list (list ascii)) :
  forall st,
    Forall (fun x => last x <> Some LF) ds ->
    length (send_buffer (w st)) + length (concat ds) < SEND_BUFFER_SIZE ->
    for_each (send_to_emacs s) ds st
    = (Ret tt, upd_w (with_send_buffer (send_buffer (w st) ++ concat ds)) st).
Proof.
  induction ds as [|x ds IH]; intros st Hds Hlen.
  - simpl. rewrite app_nil_r, with_send_buffer_same. reflexivity.
  - inversion Hds as [|? ? Hx Hds']; subst.
    simpl in Hlen. rewrite length_app in Hlen.
    cbn [for_each].
    rewrite (bind_ret _ _ _ _ _ (send_to_emacs_buffered s x st ltac:(lia) Hx)).
    rewrite IH; [|assumption|msimpl; rewrite length_app; lia].
    msimpl. simpl. now rewrite <- app_assoc.
Qed.

(** C6: in the buffered send path, a run of sends whose accumulated bytes
    stay strictly under the 4096 bytes of the buffer and do not end in a
    newline makes no call of send(2); a following send that ends in a
    newline and still fits makes exactly one call, whose content is all the
    bytes buffered before followed by the new fragment. *)
Theorem C6_buffered_send_flush_boundary
    (s : Z) (ds : list (list ascii)) (d : list ascii) (st : state) :
  Forall (fun x => last x <> Some LF) ds ->
  length (send_buffer (w st)) + length (concat ds) < SEND_BUFFER_SIZE ->
  last d = Some LF ->
  length (send_buffer (w st)) + length (concat ds) + length d
  <= SEND_BUFFER_SIZE ->
  exists st1,
    for_each (send_to_emacs s) ds st = (Ret tt, st1)
    /\ trace (w st1) = trace (w st)
    /\ send_buffer (w st1) = send_buffer (w st) ++ concat ds
    /\ forall o st2,
         send_to_emacs s d st1 = (o, st2) ->
         sends_of (trace (w st2))
         = sends_of (trace (w st))
           ++ [send_buffer (w st) ++ concat ds ++ d]
         /\ (o = Ret tt \/ o = Failed).
Proof.
  intros Hds Hlen Hd Hfit.
  eexists. split; [now apply for_each_buffered|].
  split; [reflexivity|]. split; [reflexivity|].
  intros o st2 Hrun.
  apply send_to_emacs_flush in Hrun;
    [|assumption|msimpl; rewrite length_app; lia].
  destruct Hrun as (sent & Htr & Ho & _).
  split.
  - rewrite Htr. msimpl. rewrite sends_of_app. f_equal.
    rewrite <- app_assoc.
    destruct (bool_decide (sent < 0)%Z); reflexivity.
  - destruct (bool_decide (sent < 0)%Z); [now right|left; apply Ho].
Qed.

End TransportProofs.

(** ** Session controller: the command stream *)

Module SessionProofs.
Import TransportProofs.

(** The next action is a [send_to_emacs] that is only accumulated. *)
Ltac send_buffered :=
  erewrite (bind_ret (send_to_emacs _ _));
  [ cbv beta
  | apply send_to_emacs_buffered;
    [ ssimpl; rewrite ?length_app; simpl; lia
    | vm_compute; discriminate ] ].

Lemma find_tty_unusable (st : state) :
  (forall ty nm, probe_tty (os st) <> UsableTty ty nm) ->
  find_tty true st = (Ret None, st).
Proof.
  intros H. unfold find_tty. rewrite bind_get.
  destruct (probe_tty (os st)) as [| | |ty nm]; try reflexivity.
  now destruct (H ty nm).
Qed.

(** C8: with working directory /home/u/proj, the single file-name argument
    notes.txt, no usable tty, no display and no other option, the bytes the
    session controller sends (after an authentication preamble that may
    still be in the buffer) are exactly
    [-dir /home/u/proj/ -current-frame -file notes.txt ] and one newline,
    in one write. *)
Theorem C8_scenario_A_stream (st : state) :
  create_frame (opt st) = false ->
  eval (opt st) = false ->
  tramp_prefix (opt st) = None ->
  parent_id (opt st) = None ->
  args (opt st) = [cs "notes.txt"] ->
  nowait (g st) = false ->
  display (g st) = None ->
  tty (g st) = false ->
  (forall ty nm, probe_tty (os st) <> UsableTty ty nm) ->
  length (send_buffer (w st)) + 51 <= SEND_BUFFER_SIZE ->
  forall o st',
    (send_environment_and_dir (cs "/home/u/proj");; send_attempt) st = (o, st') ->
    sends_of (trace (w st'))
    = sends_of (trace (w st))
      ++ [send_buffer (w st)
          ++ cs "-dir /home/u/proj/ -current-frame -file notes.txt " ++ [LF]]
    /\ (o = Ret tt \/ o = Failed).
Proof.
  intros Hcreate Heval Htramp Hparent Hargs Hnowait Hdisplay Htty Hprobe Hfit o st'.
  unfold send_environment_and_dir, quote_argument.
  change (Codec.quote_text (cs "/home/u/proj")) with (cs "/home/u/proj").
  repeat mstep. rewrite Hcreate, Htramp. repeat mstep.
  do 4 (send_buffered; repeat mstep).
  unfold send_attempt. repeat mstep.
  rewrite Hnowait, Hcreate, Hdisplay, Hparent, Heval. cbn [negb orb andb].
  repeat mstep.
  send_buffered. repeat mstep.
  replace (match frame_parameters (opt st) with
           | Some f => ret tt
           | None => ret tt
           end) with (@ret unit tt)
    by (destruct (frame_parameters (opt st)); reflexivity).
  repeat mstep. rewrite Htty. cbn [negb].
  erewrite (bind_ret (find_tty true)) by (apply find_tty_unusable; exact Hprobe).
  repeat mstep.
  rewrite Hargs. cbn [for_each]. unfold send_argument. repeat mstep.
  rewrite Heval, Htramp.
  change (match cs "notes.txt" with
          | [] => false
          | c :: rest =>
              bool_decide (c = "+"%char)
              && forallb (fun d => isdigit d || bool_decide (d = COLON)) rest
          end) with false.
  cbv iota. unfold quote_argument.
  change (Codec.quote_text (cs "notes.txt")) with (cs "notes.txt").
  repeat mstep.
  do 3 (send_buffered; repeat mstep).
  intros Hrun.
  apply send_to_emacs_flush in Hrun;
    [|reflexivity|ssimpl; rewrite ?length_app; simpl; lia].
  destruct Hrun as (sent & Htr & Ho & _).
  split.
  - rewrite Htr. ssimpl. rewrite sends_of_app. f_equal.
    rewrite <- !app_assoc.
    destruct (bool_decide (sent < 0)%Z); reflexivity.
  - destruct (bool_decide (sent < 0)%Z); [now right|left; apply Ho].
Qed.

End SessionProofs.

(** ** Session controller: the receive/dispatch loop *)

Module DispatchProofs.
Import CodecProofs.

Lemma bind_lift_ok {A B} (a : A) (k : A -> M B) (st : state) :
  bind (lift_access (Ok a)) k st = k a st.
Proof. reflexivity. Qed.

Lemma load_app_r (A R : list ascii) (k : nat) :
  load (A ++ R) (length A + k) = load R k.
Proof.
  unfold load. rewrite lookup_app_r by lia.
  now replace (length A + k - length A) with k by lia.
Qed.

Lemma strprefix_at_app (prefix : list ascii) :
  forall A R k,
    strprefix_at prefix (A ++ R) (length A + k) = strprefix_at prefix R k.
Proof.
  induction prefix as [|c prefix IH]; intros A R k; simpl; [reflexivity|].
  rewrite load_app_r. destruct (load R k) as [d| |]; simpl; try reflexivity.
  case_bool_decide; [|reflexivity].
  replace (S (length A + k)) with (length A + S k) by lia. apply IH.
Qed.

Lemma strprefix_at_base (prefix A R : list ascii) :
  strprefix_at prefix (A ++ R) (length A) = strprefix_at prefix R 0.
Proof.
  rewrite <- (strprefix_at_app prefix A R 0). now rewrite Nat.add_0_r.
Qed.

(** [strchr] finds the newline that ends a message. *)
Lemma strchr_from_found (m post : list ascii) :
  forall a,
    Forall (fun c => c <> NUL /\ c <> LF) m ->
    strchr_from LF (m ++ LF :: post) a = Ok (Some (a + length m)).
Proof.
  induction m as [|c m IH]; intros a H; simpl.
  - now rewrite Nat.add_0_r.
  - inversion H as [|? ? [Hn Hl] Hm]; subst.
    rewrite bool_decide_eq_false_2 by assumption.
    rewrite bool_decide_eq_false_2 by assumption.
    rewrite IH by assumption. do 2 f_equal. lia.
Qed.

Lemma strchr_found (A m post : list ascii) :
  Forall (fun c => c <> NUL /\ c <> LF) m ->
  strchr (A ++ m ++ LF :: post) (length A) LF
  = Ok (Some (length A + length m)).
Proof.
  intros H. unfold strchr. rewrite drop_app_length.
  now apply strchr_from_found.
Qed.

(** Where [strchr] stops it has seen neither kind of end before. *)
Lemma strchr_from_some (bytes : list ascii) :
  forall a r,
    strchr_from LF bytes a = Ok (Some r) ->
    a <= r < a + length bytes
    /\ Forall (fun c => c <> LF) (take (r - a) bytes).
Proof.
  induction bytes as [|d bytes IH]; intros a r; simpl; [discriminate|].
  case_bool_decide as Hlf.
  - intros [= <-]. rewrite Nat.sub_diag. simpl. split; [lia|constructor].
  - case_bool_decide as Hnul; [discriminate|].
    intros Hrun. apply IH in Hrun. destruct Hrun as [Hr Hall]. split; [lia|].
    replace (r - a) with (S (r - S a)) by lia. simpl.
    constructor; assumption.
Qed.

(** In a buffer that holds a NUL, [strchr] stays inside the buffer. *)
Lemma strchr_from_total (bytes : list ascii) :
  forall a, NUL ∈ bytes -> exists r, strchr_from LF bytes a = Ok r.
Proof.
  induction bytes as [|d bytes IH]; intros a H.
  - inversion H.
  - simpl. case_bool_decide; [eauto|]. case_bool_decide; [eauto|].
    apply IH. inversion H; subst; [contradiction|assumption].
Qed.

Lemma note_last_char_run (str : list ascii) (st : state) :
  note_last_char str st
  = (Ret tt,
     match str with
     | [] => st
     | _ :: _ => upd_l (with_skiplf (bool_decide (last str = Some LF))) st
     end).
Proof. destruct str; reflexivity. Qed.

(** The prefix tests on a message that starts with [-error ]. *)
Lemma prefix_tests_error (R : list ascii) :
  strprefix_at (cs "-emacs-pid ") (cs "-error " ++ R) 0 = Ok false
  /\ strprefix_at (cs "-window-system-unsupported ") (cs "-error " ++ R) 0 = Ok false
  /\ strprefix_at (cs "-print ") (cs "-error " ++ R) 0 = Ok false
  /\ strprefix_at (cs "-print-nonl ") (cs "-error " ++ R) 0 = Ok false
  /\ strprefix_at (cs "-error ") (cs "-error " ++ R) 0 = Ok true.
Proof. repeat split; reflexivity. Qed.

(** The prefix tests on a message that starts with
    [-window-system-unsupported ]. *)
Lemma prefix_tests_unsupported (R : list ascii) :
  strprefix_at (cs "-emacs-pid ") (cs "-window-system-unsupported " ++ R) 0
  = Ok false
  /\ strprefix_at (cs "-window-system-unsupported ")
       (cs "-window-system-unsupported " ++ R) 0 = Ok true.
Proof. split; reflexivity. Qed.

(** [unquote_in_string] on a well-formed text. *)
Lemma unquote_in_string_ok (st : state) (A text post : list ascii) :
  string_buf (l st) = A ++ text ++ NUL :: post ->
  Forall (fun c => c <> NUL) text ->
  Codec.dangling text = false ->
  exists tail,
    length (Codec.decode_spec text) + length tail = length text
    /\ unquote_in_string (length A) st
       = (Ret (Codec.decode_spec text),
          upd_l (with_string_buf
                   (A ++ Codec.decode_spec text ++ NUL :: tail ++ post)) st).
Proof.
  intros Hbuf Hnul Hd.
  destruct (unquote_argument_ok text A post Hnul Hd) as (tail & Hlen & Hrun).
  exists tail. split; [assumption|].
  unfold unquote_in_string. rewrite bind_get. rewrite Hbuf, Hrun.
  rewrite bind_lift_ok. unfold set_string_buf. rewrite bind_modify.
  unfold read_cstring.
  rewrite (cstring_at_middle _ A (Codec.decode_spec text) (tail ++ post));
    [reflexivity|reflexivity|reflexivity|].
  now apply (decode_spec_no_nul (length text)).
Qed.

(** Once a failure is recorded the outer loop of [main] reads no more. *)
Lemma receive_loop_after_failure (n : nat) (st : state) :
  exit_status (l st) <> EXIT_SUCCESS ->
  receive_loop (S n) st = (Ret Continue, st).
Proof.
  intros H. cbn [receive_loop]. rewrite bind_get.
  now rewrite bool_decide_eq_true_2.
Qed.

(** *** What the handling of messages keeps *)

Section Keeps.
Context (J : state -> Prop).

Lemma keeps_ret {A} (a : A) : keeps J (ret a).
Proof. now intros st o st' H [= <- <-]. Qed.

Lemma keeps_get : keeps J get.
Proof. now intros st o st' H [= <- <-]. Qed.

Lemma keeps_stop {A} (o : outcome A) : keeps J (stop o).
Proof. now intros st o' st' H [= <- <-]. Qed.

Lemma keeps_lift {A} (a : access A) : keeps J (lift_access a).
Proof. destruct a; [apply keeps_ret|apply keeps_stop|apply keeps_stop]. Qed.

Lemma keeps_modify (f : state -> state) :
  (forall st, J st -> J (f st)) -> keeps J (modify f).
Proof. intros Hf st o st' H [= <- <-]. now apply Hf. Qed.

Lemma keeps_bind {A B} (m : M A) (k : A -> M B) :
  keeps J m -> (forall a, keeps J (k a)) -> keeps J (bind m k).
Proof.
  intros Hm Hk st o st' H. unfold bind.
  destruct (m st) as [o1 st1] eqn:E1. pose proof (Hm _ _ _ H E1) as H1.
  destruct o1 as [a|c| | |]; try (now intros [= <- <-]).
  now apply Hk.
Qed.

End Keeps.

(** Break a computation into its actions; what is left are the changes
    of the state. *)
Ltac keeps_tac :=
  repeat
    match goal with
    | |- keeps _ (bind _ _) => apply keeps_bind; [|intros]
    | |- keeps _ (ret _) => apply keeps_ret
    | |- keeps _ get => apply keeps_get
    | |- keeps _ (stop _) => apply keeps_stop
    | |- keeps _ (lift_access _) => apply keeps_lift
    | |- keeps _ (modify _) => apply keeps_modify; intros ? [? ?]; now split
    | |- keeps _ (if ?b then _ else _) => destruct b
    | |- keeps _ (match ?x with _ => _ end) => destruct x
    end.

(** No message takes back a failure that is recorded, and none touches
    the results of recv(2) still to come. *)
Lemma dispatch_keeps_stopped (R : list recv_result) (p : nat) :
  keeps (stopped R) (dispatch p).
Proof.
  unfold dispatch, unquote_in_string, note_last_char, set_string_buf,
    printf, eprintf, emit.
  keeps_tac.
Qed.

Lemma message_loop_keeps_stopped (R : list recv_result) (fuel : nat) :
  forall end_p, keeps (stopped R) (message_loop fuel end_p).
Proof.
  induction fuel as [|fuel IH]; intros end_p; cbn [message_loop].
  - apply keeps_stop.
  - unfold set_string_buf.
    repeat first [ apply dispatch_keeps_stopped | apply IH
                 | match goal with
                   | |- keeps _ (bind _ _) => apply keeps_bind; [|intros]
                   | |- keeps _ (ret _) => apply keeps_ret
                   | |- keeps _ get => apply keeps_get
                   | |- keeps _ (lift_access _) => apply keeps_lift
                   | |- keeps _ (modify _) =>
                       apply keeps_modify; intros ? [? ?]; now split
                   | |- keeps _ (if ?b then _ else _) => destruct b
                   | |- keeps _ (match ?x with _ => _ end) => destruct x
                   end ].
Qed.

(** C2 (as amended): when the dispatch loop handles a message
    [-error <text>], it decodes the text, writes a newline first if the
    cursor is in mid-line, writes the text to standard error behind the
    marker [*ERROR*: ], sets the exit status to failure, and goes on with
    the messages that remain in the chunk it has received.  It does not
    go on with what the server sends after that chunk: however the rest
    of the chunk is handled, the failure stays recorded, so the receive
    loop ends at its next test and calls recv(2) no more. *)
Theorem C2_error_message_dispatch
    (fuel : nat) (st : state) (pre text post : list ascii) :
  string_buf (l st) = pre ++ cs "-error " ++ text ++ LF :: post ->
  Forall (fun c => c <> NUL /\ c <> LF) text ->
  Codec.dangling text = false ->
  exists st',
    message_loop (S fuel) (Some (length pre)) st
    = message_loop fuel
        (Some (length pre + length (cs "-error " ++ text) + 1)) st'
    /\ trace (w st')
       = trace (w st)
         ++ (if skiplf (l st) then [] else [EvWrite Stdout [LF]])
         ++ [EvWrite Stderr (cs "*ERROR*: " ++ Codec.decode_spec text)]
    /\ exit_status (l st') = EXIT_FAILURE
    /\ skiplf (l st')
       = match Codec.decode_spec text with
         | [] => skiplf (l st)
         | _ :: _ => bool_decide (last (Codec.decode_spec text) = Some LF)
         end
    /\ drop (length pre + length (cs "-error " ++ text) + 1)
            (string_buf (l st')) = post
    /\ os st' = os st /\ opt st' = opt st /\ g st' = g st
    /\ recv_script (w st') = recv_script (w st)
    /\ send_buffer (w st') = send_buffer (w st)
    /\ forall fuel' end_p o st2,
         message_loop fuel' end_p st' = (o, st2) ->
         exit_status (l st2) = EXIT_FAILURE
         /\ recv_script (w st2) = recv_script (w st)
         /\ forall n, receive_loop (S n) st2 = (Ret Continue, st2).
Proof.
  assert (Hstop : forall st1,
             exit_status (l st1) = EXIT_FAILURE ->
             recv_script (w st1) = recv_script (w st) ->
             forall fuel' end_p o st2,
               message_loop fuel' end_p st1 = (o, st2) ->
               exit_status (l st2) = EXIT_FAILURE
               /\ recv_script (w st2) = recv_script (w st)
               /\ forall n, receive_loop (S n) st2 = (Ret Continue, st2)).
  { intros st1 Hfail Hrecv fuel' end_p o st2 Hrun.
    destruct (message_loop_keeps_stopped (recv_script (w st)) fuel' end_p
                st1 o st2 (conj Hfail Hrecv) Hrun) as [Hfail2 Hrecv2].
    split; [assumption|]. split; [assumption|].
    intros n. apply receive_loop_after_failure. rewrite Hfail2. discriminate. }
  intros Hbuf Htext Hd.
  assert (Hnul : Forall (fun c => c <> NUL) text)
    by (eapply Forall_impl; [exact Htext|]; now intros c [? _]).
  assert (Hmsg : Forall (fun c => c <> NUL /\ c <> LF) (cs "-error " ++ text)).
  { apply Forall_app. split; [|assumption].
    repeat (constructor; [split; discriminate|]). constructor. }
  cbn [message_loop]. rewrite bind_get. rewrite Hbuf.
  rewrite (load_middle _ pre (cs "error " ++ text ++ LF :: post) "-"%char)
    by reflexivity.
  rewrite bind_lift_ok.
  rewrite bool_decide_eq_false_2 by discriminate.
  replace (pre ++ cs "-error " ++ text ++ LF :: post)
    with (pre ++ (cs "-error " ++ text) ++ LF :: post)
    by now rewrite <- app_assoc.
  rewrite (strchr_found pre _ post Hmsg). rewrite bind_lift_ok.
  rewrite bind_assoc.
  rewrite (store_middle _ (pre ++ cs "-error " ++ text) post LF NUL);
    [|now rewrite <- !app_assoc|now rewrite !length_app].
  rewrite bind_lift_ok. unfold set_string_buf at 1.
  rewrite bind_assoc, bind_modify, bind_ret_l.
  (* the chain of prefix tests *)
  unfold dispatch. rewrite bind_assoc, bind_get. ssimpl.
  destruct (prefix_tests_error (text ++ NUL :: post))
    as (T1 & T2 & T3 & T4 & T5).
  replace ((pre ++ cs "-error " ++ text) ++ NUL :: post)
    with (pre ++ cs "-error " ++ text ++ NUL :: post)
    by now rewrite <- !app_assoc.
  rewrite !strprefix_at_base, T1, T2, T3, T4, T5.
  repeat (rewrite bind_assoc, bind_lift_ok; cbv iota).
  (* decoding in place *)
  destruct (unquote_in_string_ok
              (upd_l (with_string_buf (pre ++ cs "-error " ++ text ++ NUL :: post)) st)
              (pre ++ cs "-error ") text post)
    as (tail & Hlen & Hun);
    [ssimpl; now rewrite <- app_assoc|assumption|assumption|].
  rewrite length_app in Hun.
  rewrite !bind_assoc.
  rewrite (bind_ret _ _ _ _ _ Hun). ssimpl.
  rewrite Nat.add_1_r.
  assert (Hdrop : drop (S (length pre + length (cs "-error " ++ text)))
                    ((pre ++ cs "-error ")
                     ++ Codec.decode_spec text ++ NUL :: tail ++ post) = post).
  { replace ((pre ++ cs "-error ") ++ Codec.decode_spec text ++ NUL :: tail ++ post)
      with (((pre ++ cs "-error ") ++ Codec.decode_spec text ++ NUL :: tail) ++ post)
      by (rewrite <- !app_assoc; reflexivity).
    apply drop_app_length'. rewrite !length_app. simpl. rewrite ?length_app.
    simpl. lia. }
  destruct (skiplf (l st)) eqn:Hsk;
    destruct (Codec.decode_spec text) as [|c0 str0] eqn:Hdec; cbn [negb];
    repeat (first [ rewrite bind_assoc | rewrite bind_ret_l
                  | unfold printf, eprintf; rewrite bind_emit
                  | rewrite bind_modify
                  | erewrite bind_ret by apply note_last_char_run ];
            cbv beta; ssimpl);
    (eexists; split; [reflexivity|]); ssimpl; rewrite ?Hsk;
    repeat split; try reflexivity; try assumption;
    try (edestruct Hstop as (S1 & S2 & S3); [| |eassumption|];
         [reflexivity|reflexivity|];
         first [exact S1|exact S2|apply S3]);
    now rewrite <- ?app_assoc.
Qed.

(** The retry transition on the globals: the alternate display becomes the
    display and is cleared, or else terminal mode is forced and no-wait is
    cleared. *)
Lemma retry_transition_run {B} (k : unit -> M B) (st : state) :
  bind (match alt_display (g st) with
        | Some d =>
            bind (modify (upd_g (with_display (Some d))))
                 (fun _ => modify (upd_g (with_alt_display None)))
        | None =>
            bind (modify (upd_g (with_nowait false)))
                 (fun _ => modify (upd_g (with_tty true)))
        end) k st
  = k tt (upd_g (fun x =>
            match alt_display (g st) with
            | Some d => with_alt_display None (with_display (Some d) x)
            | None => with_tty true (with_nowait false x)
            end) st).
Proof. destruct (alt_display (g st)); reflexivity. Qed.

(** [strchr] passes over characters that are neither the one it looks for
    nor the end of the string. *)
Lemma strchr_from_skip (c : ascii) (m X : list ascii) :
  forall a,
    Forall (fun d => d <> c /\ d <> NUL) m ->
    strchr_from c (m ++ X) a = strchr_from c X (a + length m).
Proof.
  induction m as [|d m IH]; intros a H; simpl.
  - now rewrite Nat.add_0_r.
  - inversion H as [|? ? [Hc Hn] Hm]; subst.
    rewrite !bool_decide_eq_false_2 by assumption.
    rewrite IH by assumption. f_equal. lia.
Qed.

(** The handling of a message [-window-system-unsupported ], wherever it
    stands in [string]. *)
Lemma dispatch_unsupported (st : state) (A X : list ascii) :
  string_buf (l st) = A ++ cs "-window-system-unsupported " ++ X ->
  dispatch (length A) st
  = (Ret GotoRetry,
     upd_g (fun x =>
              match alt_display (g st) with
              | Some d => with_alt_display None (with_display (Some d) x)
              | None => with_tty true (with_nowait false x)
              end) st).
Proof.
  intros Hbuf. unfold dispatch. rewrite bind_get, Hbuf.
  destruct (prefix_tests_unsupported X) as [U1 U2].
  rewrite strprefix_at_base, U1, bind_lift_ok. cbv iota.
  rewrite strprefix_at_base, U2, bind_lift_ok. cbv iota.
  rewrite retry_transition_run. reflexivity.
Qed.

(** The pass of the message loop over a message
    [-window-system-unsupported ] leaves by the jump to [retry], whether or
    not the message has its newline in the chunk. *)
Lemma message_loop_unsupported (fuel : nat) (st : state) (A X : list ascii) :
  string_buf (l st) = A ++ cs "-window-system-unsupported " ++ X ->
  NUL ∈ X ->
  exists mem,
    message_loop (S fuel) (Some (length A)) st
    = (Ret GotoRetry,
       upd_g (fun x =>
                match alt_display (g st) with
                | Some d => with_alt_display None (with_display (Some d) x)
                | None => with_tty true (with_nowait false x)
                end)
             (upd_l (with_string_buf mem) st)).
Proof.
  intros Hbuf HX.
  cbn [message_loop]. rewrite bind_get, Hbuf.
  rewrite (load_middle _ A (cs "window-system-unsupported " ++ X) "-"%char)
    by reflexivity.
  rewrite bind_lift_ok, bool_decide_eq_false_2 by discriminate.
  unfold strchr. rewrite drop_app_length.
  rewrite strchr_from_skip
    by (repeat (constructor; [split; discriminate|]); constructor).
  destruct (strchr_from_total X
              (length A + length (cs "-window-system-unsupported ")) HX)
    as [[a|] Hr]; rewrite Hr, bind_lift_ok.
  - apply strchr_from_some in Hr. destruct Hr as [Ha _].
    assert (Hst : store (A ++ cs "-window-system-unsupported " ++ X) a NUL
                  = Ok (A ++ cs "-window-system-unsupported "
                          ++ <[a - length A
                                 - length (cs "-window-system-unsupported ")
                               := NUL]> X)).
    { unfold store. rewrite decide_True by (rewrite !length_app; lia).
      f_equal. rewrite insert_app_r_alt by lia. f_equal.
      rewrite insert_app_r_alt by lia. reflexivity. }
    rewrite Hst. rewrite !bind_assoc, bind_lift_ok.
    unfold set_string_buf. rewrite bind_assoc, bind_modify, bind_ret_l.
    erewrite bind_ret by (eapply dispatch_unsupported; reflexivity).
    ssimpl. eexists. reflexivity.
  - rewrite bind_ret_l.
    erewrite bind_ret by (apply (dispatch_unsupported st A X); exact Hbuf).
    exists (string_buf (l st)).
    replace (upd_l (with_string_buf (string_buf (l st))) st) with st
      by (destruct st as [? ? ? [] ?]; reflexivity).
    reflexivity.
Qed.

End DispatchProofs.

(** ** Endpoint resolver *)

Module ResolverProofs.

Lemma fopen_run (path : list ascii) (st : state) :
  fopen path st
  = (Ret (os_fopen (os st) path),
     upd_w (fun x => with_trace (trace x ++ [EvFopen path]) x) st).
Proof. reflexivity. Qed.

(** [get_server_config] when the file cannot be opened: the C [false]. *)
Lemma get_server_config_missing (f path : list ascii) (st : state) :
  server_file_path (os st) f = Some path ->
  os_fopen (os st) path = None ->
  get_server_config f st
  = (Ret None, upd_w (fun x => with_trace (trace x ++ [EvFopen path]) x) st).
Proof.
  intros Hpath Hopen. unfold get_server_config.
  rewrite bind_get, Hpath. rewrite (bind_ret _ _ _ _ _ (fopen_run path st)).
  rewrite Hopen. reflexivity.
Qed.

Lemma get_server_config_lacks_colon (f path content : list ascii) (st : state) :
  server_file_path (os st) f = Some path ->
  os_fopen (os st) path = Some content ->
  lacks_colon content ->
  get_server_config f st
  = (Exited EXIT_FAILURE,
     upd_w (fun x =>
              with_trace
                (trace x
                 ++ [EvFopen path;
                     EvWrite Stderr
                       (progname (opt st)
                        ++ cs ": invalid configuration info" ++ [LF])]) x) st).
Proof.
  intros Hpath Hopen Hbad. unfold get_server_config.
  rewrite bind_get, Hpath. rewrite (bind_ret _ _ _ _ _ (fopen_run path st)).
  rewrite Hopen. unfold lacks_colon in Hbad.
  destruct (fgets 32 content) as [[line rest]|].
  - rewrite Hbad. unfold message, exit. rewrite bind_emit. ssimpl.
    state_eq.
  - unfold message, exit. rewrite bind_emit. ssimpl.
    state_eq.
Qed.

Lemma get_server_config_short_token (f path content : list ascii) (st : state) :
  server_file_path (os st) f = Some path ->
  os_fopen (os st) path = Some content ->
  short_token content ->
  get_server_config f st
  = (Exited EXIT_FAILURE,
     upd_w (fun x =>
              with_trace
                (trace x
                 ++ [EvFopen path;
                     EvWrite Stderr
                       (progname (opt st)
                        ++ cs ": cannot read authentication info" ++ [LF])]) x) st).
Proof.
  intros Hpath Hopen Hbad. unfold get_server_config.
  rewrite bind_get, Hpath. rewrite (bind_ret _ _ _ _ _ (fopen_run path st)).
  rewrite Hopen. unfold short_token in Hbad.
  destruct (fgets 32 content) as [[line rest]|]; [|contradiction].
  destruct Hbad as [Hcolon Hshort].
  destruct (split_at COLON (until_nul line)) as [[dotted port]|]; [|congruence].
  rewrite bool_decide_eq_false_2 by lia.
  unfold message, exit. rewrite bind_emit. ssimpl.
  state_eq.
Qed.

(** C3 (as amended): in the TCP resolution a server file that cannot be
    opened is not fatal: [set_tcp_socket] returns INVALID_SOCKET without a
    diagnostic and leaves the decision to its caller.  A first line without
    a colon and a token shorter than 64 bytes are fatal: the process exits
    at once with status EXIT_FAILURE after one diagnostic on standard
    error, and nothing else is tried. *)
Theorem C3_server_file_failures
    (st : state) (f path : list ascii) (k : config_failure) :
  server_file_path (os st) f = Some path ->
  fails_as k (os_fopen (os st) path) ->
  set_tcp_socket f st
  = (ending_of k,
     upd_w (fun x =>
              with_trace
                (trace x ++ EvFopen path :: diagnostic_of k (progname (opt st)))
                x) st)
  /\ (ending_of k = Exited EXIT_FAILURE <-> k <> MissingFile).
Proof.
  intros Hpath Hfail. split.
  - unfold set_tcp_socket. rewrite bind_get.
    destruct k, (os_fopen (os st) path) as [content|] eqn:Hopen;
      try contradiction.
    + now rewrite (bind_ret _ _ _ _ _
                     (get_server_config_missing f path st Hpath Hopen)).
    + now rewrite (bind_exited _ _ _ _ _
                     (get_server_config_lacks_colon f path content st
                        Hpath Hopen Hfail)).
    + now rewrite (bind_exited _ _ _ _ _
                     (get_server_config_short_token f path content st
                        Hpath Hopen Hfail)).
  - destruct k; simpl; split; congruence.
Qed.

(** *** The local socket *)

Lemma socket_status_run (path : list ascii) (st : state) :
  socket_status path st
  = (Ret (status_of (os st) path),
     match os_stat (os st) path with
     | StatErr e =>
         upd_w (with_errno e)
           (upd_w (fun x => with_trace (trace x ++ [EvStat path]) x) st)
     | StatOk _ => upd_w (fun x => with_trace (trace x ++ [EvStat path]) x) st
     end).
Proof.
  unfold socket_status, status_of. rewrite bind_get, bind_emit.
  destruct (os_stat (os st) path) as [e|uid]; [reflexivity|].
  destruct (bool_decide (uid ≠ os_geteuid (os st))); reflexivity.
Qed.

(** [socket_status] changes the state in the trace and in errno only. *)
Lemma socket_status_frame (path : list ascii) (st : state) :
  exists e,
    socket_status path st
    = (Ret (status_of (os st) path),
       upd_w (fun x => with_errno e (with_trace (trace x ++ [EvStat path]) x)) st).
Proof.
  rewrite socket_status_run.
  destruct (os_stat (os st) path) as [e|uid].
  - exists e. reflexivity.
  - exists (errno (w st)). reflexivity.
Qed.

(** *** What a computation adds to the trace *)

Section Emits.
Context (P : event -> Prop).

Ltac silent :=
  intros st o st' [= <- <-]; repeat split; exists [];
  split; [now rewrite app_nil_r|constructor].

Lemma emits_ret {A} (a : A) : emits P (ret a).
Proof. silent. Qed.

Lemma emits_get : emits P get.
Proof. silent. Qed.

Lemma emits_fail {A} : emits P (@fail A).
Proof. silent. Qed.

Lemma emits_exit {A} : emits P (@exit A EXIT_FAILURE).
Proof. silent. Qed.

Lemma emits_set_errno (e : Z) : emits P (set_errno e).
Proof. silent. Qed.

Lemma emits_modify_g (f : globals -> globals) : emits P (modify (upd_g f)).
Proof. silent. Qed.

Lemma emits_emit (e : event) : P e -> emits P (emit e).
Proof.
  intros He st o st' [= <- <-]. repeat split. exists [e].
  split; [reflexivity|now constructor].
Qed.

Lemma emits_bind {A B} (m : M A) (k : A -> M B) :
  emits P m -> (forall a, emits P (k a)) -> emits P (bind m k).
Proof.
  intros Hm Hk st o st'. unfold bind.
  destruct (m st) as [o1 st1] eqn:E1.
  destruct (Hm _ _ _ E1) as (Hc1 & Hos1 & Hopt1 & evs1 & Ht1 & Hp1).
  destruct o1 as [a|c| | |]; try (now destruct Hc1).
  - intros E2.
    destruct (Hk a _ _ _ E2) as (Hc2 & Hos2 & Hopt2 & evs2 & Ht2 & Hp2).
    split; [assumption|]. split; [congruence|]. split; [congruence|].
    exists (evs1 ++ evs2). split.
    + rewrite Ht2, Ht1. now rewrite <- app_assoc.
    + apply Forall_app. now split.
  - intros [= <- <-]. repeat split; try assumption. now exists evs1.
  - intros [= <- <-]. repeat split; try assumption. now exists evs1.
Qed.

End Emits.

(** Break a computation of the resolver into its actions. *)
Ltac emits_tac :=
  repeat
    match goal with
    | |- emits _ (bind _ _) => apply emits_bind; [|intros]
    | |- emits _ (ret _) => apply emits_ret
    | |- emits _ get => apply emits_get
    | |- emits _ fail => apply emits_fail
    | |- emits _ (exit _) => apply emits_exit
    | |- emits _ (set_errno _) => apply emits_set_errno
    | |- emits _ (modify (upd_g _)) => apply emits_modify_g
    | |- emits _ (message _ _) => apply emits_emit; reflexivity
    | |- emits _ (emit _) => apply emits_emit; reflexivity
    | |- emits _ (if ?b then _ else _) => destruct b
    | |- emits _ (match ?x with _ => _ end) => destruct x
    | |- emits _ (let '(_, _) := ?x in _) => destruct x
    end.

Lemma stats_of_not_stat (evs : list event) :
  Forall not_stat evs -> stats_of evs = [].
Proof.
  induction 1 as [|e evs He _ IH]; [reflexivity|].
  destruct e; try contradiction; exact IH.
Qed.

Lemma stats_of_snoc_stat (tr : list event) (p : list ascii) :
  stats_of (tr ++ [EvStat p]) = stats_of tr ++ [p].
Proof. now rewrite stats_of_app. Qed.

Lemma stats_of_snoc_other (tr : list event) (e : event) :
  not_stat e -> stats_of (tr ++ [e]) = stats_of tr.
Proof.
  intros H. rewrite stats_of_app.
  rewrite (stats_of_not_stat [e]) by now repeat constructor.
  apply app_nil_r.
Qed.

(** Read the stats off a trace that is given event by event. *)
Ltac stats_eq :=
  ssimpl;
  repeat first [ rewrite stats_of_snoc_stat
               | rewrite stats_of_snoc_other by exact I ];
  rewrite ?app_nil_r; try reflexivity.

Lemma connect_local_socket_not_stat (s : Z) (p : list ascii) (a b : Z) :
  emits not_stat (connect_local_socket s p a b).
Proof.
  unfold connect_local_socket, connect, message. emits_tac; exact I.
Qed.

Lemma set_local_socket_not_tcp (name : list ascii) :
  emits not_tcp (set_local_socket name).
Proof.
  unfold set_local_socket, connect_local_socket, user_socket_lookup,
    socket_status, socket, connect, message.
  emits_tac.
Qed.

(** [set_local_socket] begins with socket(2) in the local domain and does
    nothing of the TCP path. *)
Lemma set_local_socket_trace (name : list ascii) (st : state)
    (o : outcome Z) (st' : state) :
  set_local_socket name st = (o, st') ->
  clean o /\ os st' = os st /\ opt st' = opt st
  /\ exists evs,
       trace (w st') = trace (w st) ++ EvSocket AF_UNIX :: evs
       /\ Forall not_tcp evs.
Proof.
  unfold set_local_socket. rewrite bind_get. unfold socket at 1.
  repeat mstep.
  match goal with
  | |- ?m ?s = _ -> _ => assert (Hem : emits not_tcp m)
  end.
  { unfold connect_local_socket, user_socket_lookup, socket_status, connect,
      message.
    emits_tac. }
  intros Hrun. apply Hem in Hrun.
  destruct Hrun as (Hc & Hos & Hopt & evs & Htr & Hp).
  repeat split; try assumption.
  exists evs. split; [|assumption].
  rewrite Htr. ssimpl. now rewrite <- app_assoc.
Qed.

(** The end of [set_local_socket]: the socket is returned exactly when it
    can be used; otherwise the last thing done is the diagnostic. *)
Lemma connect_local_socket_outcome (s : Z) (p : list ascii) (sts err : Z)
    (st : state) (o : outcome Z) (st' : state) :
  sts = status_of (os st) p ->
  (forall e, os_stat (os st) p = StatErr e -> err = e) ->
  connect_local_socket s p sts err st = (o, st') ->
  os st' = os st /\ opt st' = opt st
  /\ if usable (os st) p
     then o = Ret s
          /\ last (trace (w st')) = Some (EvConnect s (sockaddr_un p))
     else o = Ret INVALID_SOCKET
          /\ last (trace (w st'))
             = Some (EvWrite Stderr
                       (local_diagnostic (os st) (progname (opt st)) p)).
Proof.
  intros -> Herr. unfold connect_local_socket, usable, local_diagnostic, status_of.
  rewrite bind_get.
  destruct (os_stat (os st) p) as [e|uid] eqn:Hstat.
  - rewrite (Herr e eq_refl).
    rewrite (bool_decide_eq_false_2 (2 = 1)%Z) by lia.
    rewrite (bool_decide_eq_true_2 (2 = 2)%Z) by lia.
    rewrite (bool_decide_eq_false_2 (2 = 0)%Z) by lia. cbn [andb].
    unfold message.
    destruct (bool_decide (e = ENOENT)); rewrite bind_emit;
      intros [= <- <-]; ssimpl; rewrite last_snoc; auto.
  - destruct (bool_decide (uid ≠ os_geteuid (os st))).
    + rewrite (bool_decide_eq_true_2 (1 = 1)%Z) by lia.
      rewrite (bool_decide_eq_false_2 (1 = 0)%Z) by lia. cbn [andb].
      unfold message. rewrite bind_emit.
      intros [= <- <-]; ssimpl; rewrite last_snoc; auto.
    + rewrite (bool_decide_eq_false_2 (0 = 1)%Z) by lia.
      rewrite (bool_decide_eq_false_2 (0 = 2)%Z) by lia.
      rewrite (bool_decide_eq_true_2 (0 = 0)%Z) by lia. cbn [andb].
      unfold connect. repeat mstep.
      destruct (os_connect (os st) (sockaddr_un p)) as [e|] eqn:Hconn.
      * rewrite bool_decide_eq_false_2 by discriminate.
        unfold set_errno, message. repeat mstep.
        rewrite (bool_decide_eq_true_2 (-1 < 0)%Z) by lia. repeat mstep.
        intros [= <- <-]; ssimpl; rewrite last_snoc; auto.
      * rewrite bool_decide_eq_true_2 by reflexivity. repeat mstep.
        rewrite (bool_decide_eq_false_2 (0 < 0)%Z) by lia.
        intros [= <- <-]; ssimpl; rewrite last_snoc; auto.
Qed.


(** The second look: the socket of the alternate uid and its status, when
    there is such a uid. *)
Lemma user_socket_lookup_outcome (t name p : list ascii) (sts err : Z)
    (st : state) (o : outcome (list ascii * Z * Z)) (st' : state) :
  user_socket_lookup t name p sts err st = (o, st') ->
  os st' = os st /\ opt st' = opt st
  /\ match alternate_uid (os st) with
     | Some uid =>
         let p2 := socket_path t uid name in
         if bool_decide (length p2 < os_sun_path_size (os st)) then
           exists e,
             o = Ret (p2, status_of (os st) p2, e)
             /\ (forall e', os_stat (os st) p2 = StatErr e' -> e = e')
         else
           o = Exited EXIT_FAILURE
           /\ last (trace (w st'))
              = Some (EvWrite Stderr
                        (progname (opt st) ++ cs ": socket-name " ++ p2
                         ++ cs " too long" ++ [LF]))
     | None => o = Ret (p, sts, err)
     end.
Proof.
  unfold user_socket_lookup, alternate_uid. rewrite bind_get.
  destruct (match os_getenv (os st) "LOGNAME" with
            | Some n => Some n
            | None => os_getenv (os st) "USER"
            end) as [user|].
  2:{ intros [= <- <-]. auto. }
  rewrite bind_emit.
  destruct (os_getpwnam (os st) user) as [pw_uid|]; ssimpl.
  2:{ unfold set_errno. rewrite bind_modify. intros [= <- <-]. auto. }
  destruct (bool_decide (pw_uid ≠ os_geteuid (os st))).
  2:{ unfold set_errno. rewrite bind_modify. intros [= <- <-]. auto. }
  cbv zeta.
  destruct (bool_decide (length (socket_path t pw_uid name)
                         < os_sun_path_size (os st))).
  - match goal with
    | |- bind (socket_status ?q) _ ?s0 = _ -> _ =>
        rewrite (bind_ret _ _ _ _ _ (socket_status_run q s0))
    end.
    rewrite bind_get. ssimpl.
    destruct (os_stat (os st) (socket_path t pw_uid name)) as [e|uid] eqn:Hstat;
      intros [= <- <-]; ssimpl; (split; [reflexivity|]);
      (split; [reflexivity|]); eexists; (split; [reflexivity|]);
      intros e' [= <-]; reflexivity.
  - unfold message, exit. rewrite bind_emit. intros [= <- <-]. ssimpl.
    rewrite last_snoc. auto.
Qed.


(** [set_local_socket], given a descriptor and a first path that fits:
    it returns the descriptor exactly when the socket it settles on can be
    used. *)
Lemma set_local_socket_outcome (name : list ascii) (st : state) (s : Z)
    (o : outcome Z) (st' : state) :
  os_socket (os st) AF_UNIX = SysOk s -> (0 <= s)%Z ->
  length (first_socket_path (os st) name) < os_sun_path_size (os st) ->
  set_local_socket name st = (o, st') ->
  match resolved_socket (os st) name with
  | Some p =>
      if usable (os st) p
      then o = Ret s
           /\ last (trace (w st')) = Some (EvConnect s (sockaddr_un p))
      else o = Ret INVALID_SOCKET
           /\ last (trace (w st'))
              = Some (EvWrite Stderr
                        (local_diagnostic (os st) (progname (opt st)) p))
  | None =>
      o = Exited EXIT_FAILURE
      /\ exists text, last (trace (w st')) = Some (EvWrite Stderr text)
  end.
Proof.
  intros Hsock Hs Hfit.
  unfold set_local_socket, socket.
  repeat mstep. rewrite Hsock. repeat mstep.
  rewrite bool_decide_eq_false_2 by lia.
  change (negb (has_char SLASH name) && negb (has_char BACKSLASH name))
    with (bare_name name).
  unfold resolved_socket, first_socket_path in *.
  fold (tmpdir_of (os st)).
  destruct (bare_name name) eqn:Hbare.
  - rewrite bool_decide_eq_true_2 by assumption.
    rewrite bind_ret_l.
    set (p1 := socket_path (tmpdir_of (os st)) (os_geteuid (os st)) name) in *.
    match goal with
    | |- bind (socket_status ?q) _ ?s0 = _ -> _ =>
        rewrite (bind_ret _ _ _ _ _ (socket_status_run q s0))
    end.
    rewrite bind_get. ssimpl. cbn [andb].
    unfold bind at 1.
    destruct (bool_decide (status_of (os st) p1 ≠ 0%Z)) eqn:Hsts.
    + match goal with
      | |- context [user_socket_lookup ?a ?b ?c ?d ?e ?s0] =>
          destruct (user_socket_lookup a b c d e s0) as [o2 st2] eqn:Hlook
      end.
      apply user_socket_lookup_outcome in Hlook.
      destruct Hlook as (Hos2 & Hopt2 & Hlook).
      assert (Hos : os st2 = os st)
        by (rewrite Hos2; destruct (os_stat (os st) p1); reflexivity).
      assert (Hopt : opt st2 = opt st)
        by (rewrite Hopt2; destruct (os_stat (os st) p1); reflexivity).
      replace (alternate_uid (os _)) with (alternate_uid (os st)) in Hlook
        by (destruct (os_stat (os st) p1); reflexivity).
      replace (os_sun_path_size (os _)) with (os_sun_path_size (os st)) in Hlook
        by (destruct (os_stat (os st) p1); reflexivity).
      destruct (alternate_uid (os st)) as [uid|].
      * cbv zeta in Hlook.
        destruct (bool_decide (length (socket_path (tmpdir_of (os st)) uid name)
                               < os_sun_path_size (os st))).
        -- destruct Hlook as (e & -> & He).
           replace (os _) with (os st) in He
             by (destruct (os_stat (os st) p1); reflexivity).
           intros Hrun.
           apply connect_local_socket_outcome in Hrun;
             [|rewrite Hos; destruct (os_stat (os st) p1); reflexivity
              |rewrite Hos; exact He].
           rewrite Hos, Hopt in Hrun. apply Hrun.
        -- destruct Hlook as (-> & Hlast). intros [= <- <-].
           split; [reflexivity|]. eexists. exact Hlast.
      * rewrite Hlook. intros Hrun.
        apply connect_local_socket_outcome in Hrun;
          [|rewrite Hos; reflexivity
           |rewrite Hos; intros e He; rewrite He; reflexivity].
        rewrite Hos, Hopt in Hrun. apply Hrun.
    + intros Hrun. cbn [ret] in Hrun.
      apply connect_local_socket_outcome in Hrun.
      * destruct (os_stat (os st) p1); ssimpl_in Hrun; apply Hrun.
      * destruct (os_stat (os st) p1); reflexivity.
      * destruct (os_stat (os st) p1) eqn:E; ssimpl; rewrite E;
          intros e' [= <-]; reflexivity.
  - rewrite bool_decide_eq_true_2 by assumption.
    rewrite bind_ret_l.
    match goal with
    | |- bind (socket_status ?q) _ ?s0 = _ -> _ =>
        rewrite (bind_ret _ _ _ _ _ (socket_status_run q s0))
    end.
    rewrite bind_get. ssimpl. rewrite bind_ret_l. cbn [andb].
    intros Hrun.
    apply connect_local_socket_outcome in Hrun.
    + destruct (os_stat (os st) name); ssimpl_in Hrun; apply Hrun.
    + destruct (os_stat (os st) name); reflexivity.
    + destruct (os_stat (os st) name) eqn:E; ssimpl; rewrite E;
        intros e' [= <-]; reflexivity.
Qed.


(** Given a descriptor and a first path that fits, [set_local_socket]
    begins with socket(2) and the stat of the first path, and does nothing
    of the TCP path. *)
Lemma set_local_socket_begins (name : list ascii) (st : state) (s : Z)
    (o : outcome Z) (st' : state) :
  os_socket (os st) AF_UNIX = SysOk s -> (0 <= s)%Z ->
  length (first_socket_path (os st) name) < os_sun_path_size (os st) ->
  set_local_socket name st = (o, st') ->
  exists evs,
    trace (w st')
    = trace (w st)
      ++ EvSocket AF_UNIX :: EvStat (first_socket_path (os st) name) :: evs
    /\ Forall not_tcp evs.
Proof.
  intros Hsock Hs Hfit.
  unfold set_local_socket, socket.
  repeat mstep. rewrite Hsock. repeat mstep.
  rewrite bool_decide_eq_false_2 by lia.
  change (negb (has_char SLASH name) && negb (has_char BACKSLASH name))
    with (bare_name name).
  unfold first_socket_path in *. fold (tmpdir_of (os st)).
  assert (Hfit' : length (if bare_name name
                           then socket_path (tmpdir_of (os st))
                                  (os_geteuid (os st)) name
                           else name) < os_sun_path_size (os st))
    by exact Hfit.
  clear Hfit.
  destruct (bare_name name);
    rewrite bool_decide_eq_true_2 by assumption; rewrite bind_ret_l;
    match goal with
    | |- bind (socket_status ?q) _ ?s0 = _ -> _ =>
        rewrite (bind_ret _ _ _ _ _ (socket_status_run q s0))
    end;
    match goal with
    | |- ?m ?s0 = _ -> _ => assert (Hem : emits not_tcp m)
    end;
    try (unfold connect_local_socket, user_socket_lookup, socket_status,
           connect, message; emits_tac);
    intros Hrun; apply Hem in Hrun;
    destruct Hrun as (_ & _ & _ & evs & Htr & Hp);
    exists evs; (split; [|assumption]);
    rewrite Htr;
    match goal with
    | |- context [os_stat ?o ?q] => destruct (os_stat o q)
    end; ssimpl; now rewrite <- !app_assoc.
Qed.


(** C1 (as amended): when a local-socket name is configured, by the option
    or by EMACS_SOCKET_NAME, [set_socket] tries the local socket and
    nothing else, whether or not a server file is configured too.  Given a
    descriptor from socket(2) and a first path that fits a socket address,
    it begins with socket(2) and the stat of that path and takes no step of
    the TCP path (no server file opened, no AF_INET socket, no
    authentication).  It returns the descriptor exactly when the socket it
    settles on is there, is owned by the effective user and accepts the
    connection, and then the connection is the last thing it did.
    Otherwise it returns INVALID_SOCKET when [no_exit_if_error] is set,
    after the diagnostic of [set_local_socket], and else it writes
    [error accessing socket] and exits with EXIT_FAILURE.  (When the path
    of the second look does not fit, it exits with EXIT_FAILURE after a
    diagnostic in either case.) *)
Theorem C1_socket_name_precludes_server_file
    (no_exit_if_error : bool) (st : state) (name : list ascii) (s : Z)
    (o : outcome Z) (st' : state) :
  configured_socket_name st = Some name ->
  os_socket (os st) AF_UNIX = SysOk s -> (0 <= s)%Z ->
  length (first_socket_path (os st) name) < os_sun_path_size (os st) ->
  set_socket no_exit_if_error st = (o, st') ->
  (exists evs,
     trace (w st')
     = trace (w st)
       ++ EvSocket AF_UNIX :: EvStat (first_socket_path (os st) name) :: evs
     /\ Forall not_tcp evs)
  /\ match resolved_socket (os st) name with
     | Some p =>
         if usable (os st) p then
           o = Ret s
           /\ last (trace (w st')) = Some (EvConnect s (sockaddr_un p))
         else
           o = (if no_exit_if_error then Ret INVALID_SOCKET
                else Exited EXIT_FAILURE)
           /\ last (trace (w st'))
              = Some (EvWrite Stderr
                        (if no_exit_if_error
                         then local_diagnostic (os st) (progname (opt st)) p
                         else progname (opt st)
                              ++ cs ": error accessing socket "
                              ++ [DQUOTE] ++ name ++ [DQUOTE; LF]))
     | None =>
         o = Exited EXIT_FAILURE
         /\ exists text, last (trace (w st')) = Some (EvWrite Stderr text)
     end.
Proof.
  intros Hname Hsock Hs Hfit. unfold set_socket. rewrite bind_get.
  assert (Hstep : exists st1,
             (match socket_name (g st) with
              | Some _ => ret tt
              | None =>
                  modify (upd_g (with_socket_name
                                   (os_getenv (os st) "EMACS_SOCKET_NAME")))
              end) st = (Ret tt, st1)
             /\ socket_name (g st1) = Some name
             /\ trace (w st1) = trace (w st)
             /\ os st1 = os st /\ opt st1 = opt st).
  { unfold configured_socket_name in Hname.
    destruct (socket_name (g st)) as [n|] eqn:Hn.
    - exists st. repeat split; congruence.
    - eexists. split; [reflexivity|]. split; [exact Hname|].
      repeat split. }
  destruct Hstep as (st1 & Hrun1 & Hname1 & Htr1 & Hos1 & Hopt1).
  rewrite (bind_ret _ _ _ _ _ Hrun1). rewrite bind_get, Hname1.
  unfold bind at 1.
  destruct (set_local_socket name st1) as [o1 st2] eqn:Hlocal.
  rewrite <- Hos1 in Hsock, Hfit.
  pose proof (set_local_socket_begins name st1 s o1 st2 Hsock Hs Hfit Hlocal)
    as (evs & Htr & Hp).
  pose proof (set_local_socket_outcome name st1 s o1 st2 Hsock Hs Hfit Hlocal)
    as Hout.
  rewrite Hos1, Hopt1 in Hout. rewrite Hos1, Htr1 in Htr.
  destruct (resolved_socket (os st) name) as [p|].
  - destruct (usable (os st) p).
    + destruct Hout as [-> Hlast].
      rewrite (bool_decide_eq_true_2 (s ≠ INVALID_SOCKET))
        by (unfold INVALID_SOCKET; lia).
      cbn [orb]. intros [= <- <-].
      split; [now exists evs|]. now split.
    + destruct Hout as [-> Hlast].
      rewrite (bool_decide_eq_false_2 (INVALID_SOCKET ≠ INVALID_SOCKET))
        by (intros H; now apply H).
      cbn [orb]. destruct no_exit_if_error.
      * intros [= <- <-]. split; [now exists evs|]. now split.
      * unfold message, exit. rewrite bind_emit. intros [= <- <-].
        split.
        -- eexists. split.
           ++ ssimpl. rewrite Htr, <- app_assoc. reflexivity.
           ++ apply Forall_app. split; [assumption|]. now repeat constructor.
        -- split; [reflexivity|]. ssimpl. now rewrite last_snoc.
  - destruct Hout as [-> Hlast]. intros [= <- <-].
    split; [now exists evs|]. now split.
Qed.

(** The second look adds the stat of the alternate socket, when there is
    an alternate uid and the path fits. *)
Lemma user_socket_lookup_stats (t name p : list ascii) (sts err : Z)
    (st : state) (o : outcome (list ascii * Z * Z)) (st' : state) :
  user_socket_lookup t name p sts err st = (o, st') ->
  stats_of (trace (w st'))
  = stats_of (trace (w st))
    ++ match alternate_uid (os st) with
       | Some uid =>
           if bool_decide (length (socket_path t uid name)
                           < os_sun_path_size (os st))
           then [socket_path t uid name] else []
       | None => []
       end.
Proof.
  unfold user_socket_lookup, alternate_uid. rewrite bind_get.
  destruct (match os_getenv (os st) "LOGNAME" with
            | Some n => Some n
            | None => os_getenv (os st) "USER"
            end) as [user|].
  2:{ intros [= <- <-]. now rewrite app_nil_r. }
  rewrite bind_emit.
  destruct (os_getpwnam (os st) user) as [pw_uid|]; ssimpl.
  2:{ unfold set_errno. rewrite bind_modify. intros [= <- <-]. stats_eq. }
  destruct (bool_decide (pw_uid ≠ os_geteuid (os st))).
  2:{ unfold set_errno. rewrite bind_modify. intros [= <- <-]. stats_eq. }
  destruct (bool_decide (length (socket_path t pw_uid name)
                         < os_sun_path_size (os st))).
  - match goal with
    | |- bind (socket_status ?q) _ ?s = _ -> _ =>
        destruct (socket_status_frame q s) as [e Hst]
    end.
    rewrite (bind_ret _ _ _ _ _ Hst). rewrite bind_get.
    intros [= <- <-]. stats_eq.
  - unfold message, exit. rewrite bind_emit. intros [= <- <-]. stats_eq.
Qed.

(** C4 (as amended): in the resolution of a local socket the second look
    -- the uid of LOGNAME (or USER) from the account database, and the
    stat of that uid's socket -- is taken whenever the first status is not
    0, that is both when the first stat failed and when it found a file of
    another owner, provided the socket name is a bare file name, the
    account exists with a uid other than the effective uid, and the path
    fits; it is taken before the failure is reported, and in no other
    case. *)
Theorem C4_secondary_lookup (st : state) (name : list ascii) (s : Z)
    (o : outcome Z) (st' : state) :
  os_socket (os st) AF_UNIX = SysOk s -> (0 <= s)%Z ->
  length (first_socket_path (os st) name) < os_sun_path_size (os st) ->
  set_local_socket name st = (o, st') ->
  stats_of (trace (w st'))
  = stats_of (trace (w st))
    ++ first_socket_path (os st) name :: second_stat_paths (os st) name
  /\ clean o.
Proof.
  intros Hsock Hs Hfit Hrun.
  split; [|now apply set_local_socket_trace in Hrun].
  revert Hrun.
  unfold set_local_socket, socket.
  repeat mstep. rewrite Hsock. repeat mstep.
  rewrite bool_decide_eq_false_2 by lia.
  change (negb (has_char SLASH name) && negb (has_char BACKSLASH name))
    with (bare_name name).
  unfold second_stat_paths, first_socket_path in *.
  fold (tmpdir_of (os st)).
  destruct (bare_name name) eqn:Hbare.
  - rewrite bool_decide_eq_true_2 by assumption.
    rewrite bind_ret_l.
    match goal with
    | |- bind (socket_status ?q) _ ?s0 = _ -> _ =>
        destruct (socket_status_frame q s0) as [e1 Hst1]
    end.
    rewrite (bind_ret _ _ _ _ _ Hst1). ssimpl.
    rewrite bind_get. ssimpl. cbn [andb].
    set (p1 := socket_path (tmpdir_of (os st)) (os_geteuid (os st)) name) in *.
    unfold bind at 1.
    destruct (bool_decide (status_of (os st) p1 ≠ 0%Z)).
    + match goal with
      | |- context [user_socket_lookup ?a ?b ?c ?d ?e ?s0] =>
          destruct (user_socket_lookup a b c d e s0) as [o2 st2] eqn:Hlook
      end.
      pose proof (user_socket_lookup_stats _ _ _ _ _ _ _ _ Hlook) as Hstats.
      ssimpl_in Hstats.
      rewrite stats_of_snoc_stat, stats_of_snoc_other in Hstats by exact I.
      destruct o2 as [[[sp sts] err]|c| | |].
      * intros Hrun.
        apply connect_local_socket_not_stat in Hrun.
        destruct Hrun as (_ & _ & _ & evs & Htr & Hp).
        rewrite Htr, stats_of_app, (stats_of_not_stat _ Hp), app_nil_r.
        rewrite Hstats. now rewrite <- app_assoc.
      * intros [= <- <-]. rewrite Hstats. now rewrite <- app_assoc.
      * intros [= <- <-]. rewrite Hstats. now rewrite <- app_assoc.
      * intros [= <- <-]. rewrite Hstats. now rewrite <- app_assoc.
      * intros [= <- <-]. rewrite Hstats. now rewrite <- app_assoc.
    + intros Hrun. cbn [ret] in Hrun.
      apply connect_local_socket_not_stat in Hrun.
      destruct Hrun as (_ & _ & _ & evs & Htr & Hp).
      rewrite Htr, stats_of_app, (stats_of_not_stat _ Hp), app_nil_r.
      stats_eq.
  - rewrite bool_decide_eq_true_2 by assumption.
    rewrite bind_ret_l.
    match goal with
    | |- bind (socket_status ?q) _ ?s0 = _ -> _ =>
        destruct (socket_status_frame q s0) as [e1 Hst1]
    end.
    rewrite (bind_ret _ _ _ _ _ Hst1). ssimpl.
    rewrite bind_get. ssimpl. rewrite bind_ret_l. cbn [andb].
    intros Hrun.
    apply connect_local_socket_not_stat in Hrun.
    destruct Hrun as (_ & _ & _ & evs & Htr & Hp).
    rewrite Htr, stats_of_app, (stats_of_not_stat _ Hp), app_nil_r.
    stats_eq.
Qed.

End ResolverProofs.

(** ** The statements at concrete inputs *)

Module Scenarios.
Import Codec CodecProofs TransportProofs SessionProofs DispatchProofs
  ResolverProofs.

(** Both a socket name and a server file are configured, the socket is
    absent and the server file alone would give a connection: [set_socket]
    does not fall back to the server file.  It exits, or returns
    INVALID_SOCKET when [no_exit_if_error] is set, and no step of the TCP
    path is in the trace. *)
Lemma C1_no_fallback_counterexample :
  fst (set_tcp_socket (cs "/srv/server") both_configured) = Ret 3%Z
  /\ status_of (os both_configured) (cs "/tmp/emacs1000/mysock") = 2%Z
  /\ fst (set_socket false both_configured) = Exited EXIT_FAILURE
  /\ fst (set_socket true both_configured) = Ret INVALID_SOCKET
  /\ existsb tcp_event (trace (w (snd (set_socket false both_configured))))
     = false
  /\ existsb tcp_event (trace (w (snd (set_socket true both_configured))))
     = false.
Proof. vm_compute. repeat split; reflexivity. Qed.

(** With [-s mysock -f /srv/server] and no socket, [set_socket] exits
    after [error accessing socket]; with [-s server] and a server that
    listens, it returns the descriptor, and the connection is the last
    thing it did. *)
Lemma C1_socket_name_witness :
  ((exists evs,
      trace (w (snd (set_socket false both_configured)))
      = trace (w both_configured)
        ++ EvSocket AF_UNIX :: EvStat (cs "/tmp/emacs1000/mysock") :: evs
      /\ Forall not_tcp evs)
   /\ fst (set_socket false both_configured) = Exited EXIT_FAILURE
   /\ last (trace (w (snd (set_socket false both_configured))))
      = Some (EvWrite Stderr
                (cs "emacsclient: error accessing socket "
                 ++ [DQUOTE] ++ cs "mysock" ++ [DQUOTE; LF])))
  /\ ((exists evs,
         trace (w (snd (set_socket true
                          (upd_g (with_socket_name (Some (cs "server")))
                             server_running))))
         = trace (w server_running)
           ++ EvSocket AF_UNIX :: EvStat (cs "/tmp/emacs1000/server") :: evs
         /\ Forall not_tcp evs)
      /\ fst (set_socket true
                (upd_g (with_socket_name (Some (cs "server"))) server_running))
         = Ret 3%Z
      /\ last (trace (w (snd (set_socket true
                                (upd_g (with_socket_name (Some (cs "server")))
                                   server_running)))))
         = Some (EvConnect 3%Z (sockaddr_un (cs "/tmp/emacs1000/server")))).
Proof.
  split.
  - apply (C1_socket_name_precludes_server_file false both_configured
             (cs "mysock") 3%Z).
    + reflexivity.
    + reflexivity.
    + lia.
    + vm_compute. lia.
    + apply surjective_pairing.
  - apply (C1_socket_name_precludes_server_file true
             (upd_g (with_socket_name (Some (cs "server"))) server_running)
             (cs "server") 3%Z).
    + reflexivity.
    + reflexivity.
    + lia.
    + vm_compute. lia.
    + apply surjective_pairing.
Defined.

(** The server reports an error and sends a text in a second chunk: the
    second chunk is not read and its text is not written; [main] ends the
    line, closes the socket and returns EXIT_FAILURE. *)
Lemma C2_later_chunk_counterexample :
  recv_script (w error_then_more)
  = [RecvBytes (cs "-error bad" ++ [LF]); RecvBytes (cs "-print more" ++ [LF])]
  /\ fst (answer (ret 0%Z) error_then_more) = Ret EXIT_FAILURE
  /\ recv_script (w (snd (answer (ret 0%Z) error_then_more)))
     = [RecvBytes (cs "-print more" ++ [LF])]
  /\ trace (w (snd (answer (ret 0%Z) error_then_more)))
     = [EvRecv 3%Z; EvWrite Stderr (cs "*ERROR*: bad"); EvWrite Stdout [LF];
        EvClose 3%Z].
Proof. vm_compute. repeat split; reflexivity. Qed.

Lemma C2_error_message_witness :
  exists st',
    message_loop 3 (Some 0) error_chunk
    = message_loop 2 (Some (0 + length (cs "-error " ++ cs "bad&ninput") + 1)) st'
    /\ trace (w st')
       = trace (w error_chunk)
         ++ (if skiplf (l error_chunk) then [] else [EvWrite Stdout [LF]])
         ++ [EvWrite Stderr (cs "*ERROR*: " ++ decode_spec (cs "bad&ninput"))]
    /\ exit_status (l st') = EXIT_FAILURE
    /\ skiplf (l st')
       = match decode_spec (cs "bad&ninput") with
         | [] => skiplf (l error_chunk)
         | _ :: _ => bool_decide (last (decode_spec (cs "bad&ninput")) = Some LF)
         end
    /\ drop (0 + length (cs "-error " ++ cs "bad&ninput") + 1)
            (string_buf (l st')) = cs "-print more" ++ [LF; NUL]
    /\ os st' = os error_chunk /\ opt st' = opt error_chunk
    /\ g st' = g error_chunk
    /\ recv_script (w st') = recv_script (w error_chunk)
    /\ send_buffer (w st') = send_buffer (w error_chunk)
    /\ forall fuel' end_p o st2,
         message_loop fuel' end_p st' = (o, st2) ->
         exit_status (l st2) = EXIT_FAILURE
         /\ recv_script (w st2) = recv_script (w error_chunk)
         /\ forall n, receive_loop (S n) st2 = (Ret Continue, st2).
Proof.
  apply (C2_error_message_dispatch 2 error_chunk [] (cs "bad&ninput")
           (cs "-print more" ++ [LF; NUL])).
  - reflexivity.
  - repeat (constructor; [split; discriminate|]). constructor.
  - reflexivity.
Defined.

(** A server file that cannot be opened is not fatal: [set_tcp_socket]
    returns INVALID_SOCKET with no diagnostic, and so does [set_socket] when
    [no_exit_if_error] is set. *)
Lemma C3_missing_file_counterexample :
  os_fopen (os both_configured) (cs "/srv/missing") = None
  /\ set_tcp_socket (cs "/srv/missing") both_configured
     = (Ret INVALID_SOCKET,
        upd_w (with_trace [EvFopen (cs "/srv/missing")]) both_configured)
  /\ fst (set_socket true
            (upd_g (with_socket_name None)
               (make_state os_with_server_files
                  (make_options false [] (Some (cs "/srv/missing")))
                  (make_globals None None) [])))
     = Ret INVALID_SOCKET.
Proof. vm_compute. repeat split; reflexivity. Qed.

Lemma C3_server_file_witness :
  set_tcp_socket (cs "/srv/nocolon") both_configured
  = (ending_of NoColon,
     upd_w (fun x =>
              with_trace
                (trace x ++ EvFopen (cs "/srv/nocolon")
                 :: diagnostic_of NoColon (progname (opt both_configured)))
                x) both_configured)
  /\ (ending_of NoColon = Exited EXIT_FAILURE <-> NoColon <> MissingFile).
Proof.
  apply (C3_server_file_failures both_configured (cs "/srv/nocolon")
           (cs "/srv/nocolon") NoColon).
  - reflexivity.
  - vm_compute. reflexivity.
Defined.

(** The first stat fails (the status is 2, not "wrong owner") and the
    second look is taken all the same; and a socket with a directory in its
    name that has the wrong owner gets no second look although LOGNAME
    gives another uid. *)
Lemma C4_secondary_lookup_counterexample :
  status_of (os under_su) (cs "/tmp/emacs1000/server") = 2%Z
  /\ stats_of (trace (w (snd (set_local_socket (cs "server") under_su))))
     = [cs "/tmp/emacs1000/server"; cs "/tmp/emacs1001/server"]
  /\ status_of (os under_su) (cs "/run/alice/server") = 1%Z
  /\ alternate_uid (os under_su) = Some 1001%Z
  /\ stats_of (trace (w (snd (set_local_socket (cs "/run/alice/server") under_su))))
     = [cs "/run/alice/server"].
Proof. vm_compute. repeat split; reflexivity. Qed.

Lemma C4_secondary_lookup_witness :
  stats_of (trace (w (snd (set_local_socket (cs "server") under_su))))
  = stats_of (trace (w under_su))
    ++ first_socket_path (os under_su) (cs "server")
    :: second_stat_paths (os under_su) (cs "server")
  /\ clean (fst (set_local_socket (cs "server") under_su)).
Proof.
  apply (C4_secondary_lookup under_su (cs "server") 3%Z).
  - reflexivity.
  - lia.
  - vm_compute. lia.
  - apply surjective_pairing.
Defined.

Lemma C6_flush_boundary_witness :
  exists st1,
    for_each (send_to_emacs 3%Z) [cs "-dir "; cs "/tmp"; cs "/ "] scenario_A
    = (Ret tt, st1)
    /\ trace (w st1) = trace (w scenario_A)
    /\ send_buffer (w st1)
       = send_buffer (w scenario_A) ++ concat [cs "-dir "; cs "/tmp"; cs "/ "]
    /\ forall o st2,
         send_to_emacs 3%Z (cs "-file x " ++ [LF]) st1 = (o, st2) ->
         sends_of (trace (w st2))
         = sends_of (trace (w scenario_A))
           ++ [send_buffer (w scenario_A)
               ++ concat [cs "-dir "; cs "/tmp"; cs "/ "]
               ++ cs "-file x " ++ [LF]]
         /\ (o = Ret tt \/ o = Failed).
Proof.
  apply (C6_buffered_send_flush_boundary 3%Z [cs "-dir "; cs "/tmp"; cs "/ "]
           (cs "-file x " ++ [LF]) scenario_A).
  - repeat (constructor; [vm_compute; discriminate|]). constructor.
  - vm_compute. lia.
  - reflexivity.
  - vm_compute. lia.
Defined.

(** After the retry the client sends the part of the command that follows
    the directory, not the whole command: the second write has no [-dir],
    while the whole command for the state after the transition has one. *)
Lemma C7_partial_resend_counterexample :
  sends_of (trace (w (snd (session (cs "/home/u") unsupported_display))))
  = [cs "-dir /home/u/ -display :0 -tty /dev/pts/0 xterm -window-system -file notes.txt "
     ++ [LF];
     cs "-display :0 -tty /dev/pts/0 xterm -file notes.txt " ++ [LF]]
  /\ sends_of (trace (w (snd ((send_environment_and_dir (cs "/home/u");;
                               send_attempt) retried))))
     = [cs "-dir /home/u/ -display :0 -tty /dev/pts/0 xterm -file notes.txt "
        ++ [LF]].
Proof. vm_compute. split; reflexivity. Qed.

Lemma C8_scenario_A_witness :
  sends_of (trace (w (snd ((send_environment_and_dir (cs "/home/u/proj");;
                            send_attempt) scenario_A))))
  = sends_of (trace (w scenario_A))
    ++ [send_buffer (w scenario_A)
        ++ cs "-dir /home/u/proj/ -current-frame -file notes.txt " ++ [LF]]
  /\ (fst ((send_environment_and_dir (cs "/home/u/proj");; send_attempt)
             scenario_A) = Ret tt
      \/ fst ((send_environment_and_dir (cs "/home/u/proj");; send_attempt)
                scenario_A) = Failed).
Proof.
  apply (C8_scenario_A_stream scenario_A
           eq_refl eq_refl eq_refl eq_refl eq_refl eq_refl eq_refl eq_refl).
  - intros ty nm. vm_compute. discriminate.
  - vm_compute. lia.
  - apply surjective_pairing.
Defined.

End Scenarios.

(** * Further properties *)

(** ** Wire codec *)

Module CodecMore.
Import Codec CodecProofs.

Lemma quote_loop_at_least (s : list ascii) :
  forall off, length s <= length (quote_loop off s).
Proof.
  induction s as [|c s IH]; intros off; simpl; [lia|].
  specialize (IH (S off)).
  repeat case_bool_decide; simpl; lia.
Qed.

(** X1: the text [quote_argument] builds is at least as long as its
    argument and at most twice as long, so with its NUL it fits the
    [strlen (str) * 2 + 1] bytes allocated for it. *)
Theorem X1_quoted_text_fits_its_allocation (str : list ascii) :
  length str <= length (quote_text str) <= 2 * length str.
Proof.
  split; [apply quote_loop_at_least|apply quote_loop_length].
Qed.

(** X2: the quoting of [quote_argument] is injective: two arguments that
    are sent as the same text are the same argument. *)
Theorem X2_quoting_is_injective (a b : list ascii) :
  quote_text a = quote_text b -> a = b.
Proof.
  intros H. apply (f_equal decode_spec) in H.
  unfold quote_text in H. now rewrite !decode_quote_loop in H.
Qed.

Lemma X2_quoting_witness : cs "a b" = cs "a b".
Proof. apply (X2_quoting_is_injective (cs "a b") (cs "a b")). reflexivity. Defined.

Lemma decode_spec_plain (s : list ascii) :
  Forall (fun c => c <> AMP) s -> decode_spec s = s.
Proof.
  induction 1 as [|c s Hc _ IH]; simpl; [reflexivity|].
  rewrite bool_decide_eq_false_2 by assumption. now rewrite IH.
Qed.

Lemma dangling_plain (s : list ascii) :
  Forall (fun c => c <> AMP) s -> dangling s = false.
Proof.
  induction 1 as [|c s Hc _ IH]; simpl; [reflexivity|].
  now rewrite bool_decide_eq_false_2 by assumption.
Qed.

(** X3: on a string without [&], [unquote_argument] changes nothing: every
    byte of the memory is as it was, the string and its NUL included. *)
Theorem X3_unquote_leaves_plain_text (s pre post : list ascii) :
  Forall (fun c => c <> NUL /\ c <> AMP) s ->
  unquote_argument (pre ++ s ++ NUL :: post) (Some (length pre))
  = Ok (pre ++ s ++ NUL :: post).
Proof.
  intros Hs.
  assert (Hnul : Forall (fun c => c <> NUL) s)
    by (eapply Forall_impl; [exact Hs|]; now intros c [? _]).
  assert (Hamp : Forall (fun c => c <> AMP) s)
    by (eapply Forall_impl; [exact Hs|]; now intros c [_ ?]).
  destruct (unquote_argument_ok s pre post Hnul (dangling_plain s Hamp))
    as (tail & Hlen & Hrun).
  rewrite decode_spec_plain in Hlen, Hrun by assumption.
  destruct tail; [exact Hrun|simpl in Hlen; lia].
Qed.

Lemma X3_plain_text_witness :
  unquote_argument (cs "-print " ++ cs "done" ++ NUL :: cs "rest")
    (Some (length (cs "-print ")))
  = Ok (cs "-print " ++ cs "done" ++ NUL :: cs "rest").
Proof.
  apply (X3_unquote_leaves_plain_text (cs "done") (cs "-print ") (cs "rest")).
  repeat (constructor; [split; discriminate|]). constructor.
Defined.

End CodecMore.

(** ** Transport: what the buffered send path guarantees *)

Module TransportMore.
Import TransportProofs.

Lemma delivered_app (t1 t2 : list event) :
  delivered (t1 ++ t2) = delivered t1 ++ delivered t2.
Proof. unfold delivered. now rewrite map_app, concat_app. Qed.

Lemma same_but_transport_refl (st : state) : same_but_transport st st.
Proof. repeat split. Qed.

Lemma same_but_transport_trans (st1 st2 st3 : state) :
  same_but_transport st1 st2 -> same_but_transport st2 st3 ->
  same_but_transport st1 st3.
Proof.
  intros (A1 & A2 & A3 & A4 & A5 & A6) (B1 & B2 & B3 & B4 & B5 & B6).
  repeat split; congruence.
Qed.

(** The condition under which the loop calls send(2) makes the call one
    that [flush_event] admits. *)
Lemma flush_condition (s : Z) (buf : list ascii) (sent : Z) :
  length buf <= SEND_BUFFER_SIZE ->
  bool_decide (length buf = SEND_BUFFER_SIZE)
  || bool_decide (0 < length buf) && bool_decide (last buf = Some LF) = true ->
  flush_event (EvSend s buf sent).
Proof.
  intros Hle H. apply orb_true_iff in H. destruct H as [H|H].
  - apply bool_decide_eq_true in H. simpl. rewrite H.
    unfold SEND_BUFFER_SIZE. split; [lia|now left].
  - apply andb_true_iff in H. destruct H as [H1 H2].
    apply bool_decide_eq_true in H1. apply bool_decide_eq_true in H2.
    simpl. split; [lia|now right].
Qed.

(** The loop of [send_to_emacs], however it ends: it keeps the buffer
    within its capacity, touches nothing but the transport, and loses no
    byte: what the peer took, what is still buffered and what was not yet
    copied make up the old buffer and the data, in order. *)
Lemma send_loop_spec (fuel : nat) :
  forall s data st o st',
    length (send_buffer (w st)) <= SEND_BUFFER_SIZE ->
    send_loop fuel s data st = (o, st') ->
    (o = Ret tt \/ o = Failed \/ o = Starved)
    /\ length (send_buffer (w st')) <= SEND_BUFFER_SIZE
    /\ same_but_transport st st'
    /\ exists evs rest,
         trace (w st') = trace (w st) ++ evs
         /\ Forall flush_event evs
         /\ (o = Ret tt -> rest = [])
         /\ delivered evs ++ send_buffer (w st') ++ rest
            = send_buffer (w st) ++ data.
Proof.
  induction fuel as [|fuel IH]; intros s data st o st' Hinv.
  { intros [= <- <-]. split; [now right; right|]. split; [assumption|].
    split; [apply same_but_transport_refl|].
    exists [], data. rewrite app_nil_r. repeat split; [constructor|discriminate]. }
  cbn [send_loop]. case_bool_decide as Hd.
  { intros [= <- <-]. split; [now left|]. split; [assumption|].
    split; [apply same_but_transport_refl|].
    exists [], []. rewrite !app_nil_r. repeat split; [constructor|].
    destruct data; [now rewrite app_nil_r|discriminate]. }
  rewrite bind_get. cbv zeta. rewrite bind_modify.
  set (part := Nat.min (length data)
                 (SEND_BUFFER_SIZE - length (send_buffer (w st)))).
  set (buf := send_buffer (w st) ++ take part data).
  assert (Hbuf : length buf = length (send_buffer (w st)) + part).
  { unfold buf. rewrite length_app, length_take. unfold part. lia. }
  assert (Hle : length buf <= SEND_BUFFER_SIZE) by (unfold part in Hbuf; lia).
  assert (Hsplit : buf ++ drop part data = send_buffer (w st) ++ data).
  { unfold buf. now rewrite <- app_assoc, take_drop. }
  destruct (bool_decide (length buf = SEND_BUFFER_SIZE)
            || bool_decide (0 < length buf) && bool_decide (last buf = Some LF))
    eqn:Hflush.
  - rewrite bind_assoc. unfold send. unfold bind at 1.
    replace (send_answer (upd_w (with_send_buffer buf) st))
      with (send_answer st) by reflexivity.
    destruct (send_answer st) as [r script] eqn:Hans.
    rewrite (send_sign r (length buf)).
    set (sent := send_result r (length buf)).
    destruct (bool_decide (r < 0)%Z) eqn:Hneg.
    + rewrite bind_assoc, bind_get. unfold message.
      rewrite bind_assoc, bind_emit. intros [= <- <-].
      split; [right; now left|]. ssimpl. split; [assumption|].
      split; [repeat split|].
      eexists [_; _], (drop part data). ssimpl.
      split; [now rewrite <- app_assoc|].
      split; [constructor; [now apply flush_condition|repeat constructor]|].
      split; [discriminate|].
      assert (Hsent : sent = (-1)%Z)
        by (unfold sent, send_result; now rewrite Hneg).
      unfold delivered. simpl. rewrite Hsent. simpl.
      exact Hsplit.
    + rewrite bind_modify. intros Hrun.
      apply IH in Hrun; ssimpl.
      * destruct Hrun as (Ho & Hcap & Hsame & evs & rest & Htr & Hev & Hrest & Hcons).
        ssimpl_in Htr. ssimpl_in Hcons.
        split; [assumption|]. split; [assumption|].
        split.
        { destruct Hsame as (A1 & A2 & A3 & A4 & A5 & A6).
          repeat split; assumption. }
        exists (EvSend s buf sent :: evs), rest.
        split; [rewrite Htr; now rewrite <- app_assoc|].
        split; [constructor; [now apply flush_condition|assumption]|].
        split; [assumption|].
        change (delivered (EvSend s buf sent :: evs))
          with (take (Z.to_nat sent) buf ++ delivered evs).
        rewrite <- app_assoc, Hcons, app_assoc, take_drop. exact Hsplit.
      * rewrite length_drop. lia.
  - rewrite bind_ret_l. intros Hrun. apply IH in Hrun; ssimpl.
    + destruct Hrun as (Ho & Hcap & Hsame & evs & rest & Htr & Hev & Hrest & Hcons).
      ssimpl_in Htr. ssimpl_in Hcons.
      split; [assumption|]. split; [assumption|].
      split.
      { destruct Hsame as (A1 & A2 & A3 & A4 & A5 & A6).
        repeat split; assumption. }
      exists evs, rest. repeat split; try assumption.
      rewrite Hcons. exact Hsplit.
    + assumption.
Qed.

Lemma send_to_emacs_spec (s : Z) (data : list ascii) (st : state)
    (o : outcome unit) (st' : state) :
  length (send_buffer (w st)) <= SEND_BUFFER_SIZE ->
  send_to_emacs s data st = (o, st') ->
  (o = Ret tt \/ o = Failed \/ o = Starved)
  /\ length (send_buffer (w st')) <= SEND_BUFFER_SIZE
  /\ same_but_transport st st'
  /\ exists evs rest,
       trace (w st') = trace (w st) ++ evs
       /\ Forall flush_event evs
       /\ (o = Ret tt -> rest = [])
       /\ delivered evs ++ send_buffer (w st') ++ rest
          = send_buffer (w st) ++ data.
Proof.
  intros Hinv. unfold send_to_emacs. rewrite bind_get.
  now apply send_loop_spec.
Qed.

(** When send(2) goes on taking nothing from a full buffer, no budget is
    enough: the loop of the C code does not end. *)
Lemma send_loop_spins (fuel : nat) :
  forall s data st,
    os_send_rest (os st) = 0%Z -> send_script (w st) = [] ->
    length (send_buffer (w st)) = SEND_BUFFER_SIZE -> data <> [] ->
    fst (send_loop fuel s data st) = Starved.
Proof.
  induction fuel as [|fuel IH]; intros s data st Hrest Hscript Hfull Hdata;
    [reflexivity|].
  cbn [send_loop]. rewrite bool_decide_eq_false_2
    by (destruct data; [congruence|discriminate]).
  rewrite bind_get. cbv zeta. rewrite bind_modify.
  rewrite Hfull, Nat.sub_diag, Nat.min_0_r, take_0, app_nil_r, drop_0.
  rewrite Hfull, bool_decide_eq_true_2 by reflexivity. cbn [orb].
  rewrite bind_assoc. unfold send, send_answer. unfold bind at 1. ssimpl.
  rewrite Hscript, Hrest. unfold send_result.
  rewrite (bool_decide_eq_false_2 (0 < 0)%Z) by lia.
  rewrite Z.min_l by lia.
  rewrite (bool_decide_eq_false_2 (0 < 0)%Z) by lia.
  rewrite bind_modify. apply IH; ssimpl; assumption || reflexivity.
Qed.

(** X4: unless send(2) goes on taking nothing (the answers that follow
    the scripted ones are not 0), [send_to_emacs] comes to an end, by a
    return or by [fail ()]; it keeps the send buffer within its 4096 bytes,
    and it changes nothing of the process but the buffer, the trace, the
    answers of send(2) still to come and [errno].  When send(2) does go on
    taking nothing from a full buffer, the loop never ends, whatever the
    budget. *)
Theorem X4_send_to_emacs_ends_within_capacity
    (s : Z) (data : list ascii) (st : state) :
  length (send_buffer (w st)) <= SEND_BUFFER_SIZE ->
  (os_send_rest (os st) <> 0%Z ->
   fst (send_to_emacs s data st) = Ret tt
   \/ fst (send_to_emacs s data st) = Failed)
  /\ length (send_buffer (w (snd (send_to_emacs s data st)))) <= SEND_BUFFER_SIZE
  /\ same_but_transport st (snd (send_to_emacs s data st))
  /\ (os_send_rest (os st) = 0%Z -> send_script (w st) = [] ->
      length (send_buffer (w st)) = SEND_BUFFER_SIZE -> data <> [] ->
      forall fuel, fst (send_loop fuel s data st) = Starved).
Proof.
  intros Hinv. destruct (send_to_emacs s data st) as [o st'] eqn:Hrun.
  destruct (send_to_emacs_spec s data st o st' Hinv Hrun) as (_ & Hcap & Hsame & _).
  split; [|split; [assumption|split; [assumption|]]].
  - intros Hrest.
    now destruct (send_to_emacs_total s data st o st' Hinv Hrest Hrun).
  - intros Hrest Hscript Hfull Hdata fuel. now apply send_loop_spins.
Qed.

(** X5: every call of send(2) that [send_to_emacs] makes carries a buffer
    that is not empty, has at most 4096 bytes, and is either full or ends in
    a newline; besides these calls it adds to the trace only the diagnostic
    of a failed call. *)
Theorem X5_send_only_full_or_finished_lines
    (s : Z) (data : list ascii) (st : state) :
  length (send_buffer (w st)) <= SEND_BUFFER_SIZE ->
  exists evs,
    trace (w (snd (send_to_emacs s data st))) = trace (w st) ++ evs
    /\ Forall flush_event evs.
Proof.
  intros Hinv. destruct (send_to_emacs s data st) as [o st'] eqn:Hrun.
  destruct (send_to_emacs_spec s data st o st' Hinv Hrun)
    as (_ & _ & _ & evs & rest & Htr & Hev & _).
  now exists evs.
Qed.

(** X6: [send_to_emacs] loses, repeats and reorders nothing, also when
    send(2) takes only a part of what it is given: when the call returns,
    the bytes the peer has taken followed by the bytes still in the buffer
    are the bytes it had taken before, the bytes that were in the buffer,
    and the data, in this order. *)
Theorem X6_send_conserves_the_stream
    (s : Z) (data : list ascii) (st st' : state) :
  length (send_buffer (w st)) <= SEND_BUFFER_SIZE ->
  send_to_emacs s data st = (Ret tt, st') ->
  delivered (trace (w st')) ++ send_buffer (w st')
  = delivered (trace (w st)) ++ send_buffer (w st) ++ data.
Proof.
  intros Hinv Hrun.
  destruct (send_to_emacs_spec s data st _ st' Hinv Hrun)
    as (_ & _ & _ & evs & rest & Htr & _ & Hrest & Hcons).
  rewrite (Hrest eq_refl), app_nil_r in Hcons.
  rewrite Htr, delivered_app, <- app_assoc. now rewrite Hcons.
Qed.

End TransportMore.

(** ** Endpoint resolver: further properties *)

Module ResolverMore.
Import TransportProofs TransportMore ResolverProofs.

(** *** Computations that touch the input/output part of the state only *)

Lemma upd_w_id (st : state) : st = upd_w (fun x => x) st.
Proof. now destruct st. Qed.

Lemma only_w_ret {A} (a : A) : only_w (ret a).
Proof. intros st o st' [= <- <-]. eexists. apply upd_w_id. Qed.

Lemma only_w_get : only_w get.
Proof. intros st o st' [= <- <-]. eexists. apply upd_w_id. Qed.

Lemma only_w_stop {A} (o : outcome A) : only_w (stop o).
Proof. intros st o' st' [= <- <-]. eexists. apply upd_w_id. Qed.

Lemma only_w_modify (f : io -> io) : only_w (modify (upd_w f)).
Proof. intros st o st' [= <- <-]. now exists f. Qed.

Lemma only_w_emit (e : event) : only_w (emit e).
Proof. apply only_w_modify. Qed.

Lemma only_w_bind {A B} (m : M A) (k : A -> M B) :
  only_w m -> (forall a, only_w (k a)) -> only_w (bind m k).
Proof.
  intros Hm Hk st o st'. unfold bind.
  destruct (m st) as [o1 st1] eqn:E1.
  destruct (Hm _ _ _ E1) as [f ->].
  destruct o1 as [a|c| | |]; try (intros [= <- <-]; now exists f).
  intros E2. destruct (Hk a _ _ _ E2) as [f' ->].
  now exists (fun x => f' (f x)).
Qed.

Lemma only_w_send (s : Z) (buf : list ascii) : only_w (send s buf).
Proof.
  intros st o st'. unfold send.
  destruct (send_answer st) as [r rest]. intros [= <- <-].
  eexists. reflexivity.
Qed.

(** Break a computation into its actions. *)
Ltac only_w_tac :=
  repeat
    match goal with
    | |- only_w (bind _ _) => apply only_w_bind; [|intros]
    | |- only_w (ret _) => apply only_w_ret
    | |- only_w get => apply only_w_get
    | |- only_w fail => apply only_w_stop
    | |- only_w (exit _) => apply only_w_stop
    | |- only_w (stop _) => apply only_w_stop
    | |- only_w (set_errno _) => apply only_w_modify
    | |- only_w (modify (upd_w _)) => apply only_w_modify
    | |- only_w (message _ _) => apply only_w_emit
    | |- only_w (printf _) => apply only_w_emit
    | |- only_w (eprintf _) => apply only_w_emit
    | |- only_w (emit _) => apply only_w_emit
    | |- only_w (send _ _) => apply only_w_send
    | |- only_w (if ?b then _ else _) => destruct b
    | |- only_w (match ?x with _ => _ end) => destruct x
    | |- only_w (let '(_, _) := ?x in _) => destruct x
    end.

Lemma only_w_send_loop (fuel : nat) :
  forall s data, only_w (send_loop fuel s data).
Proof.
  induction fuel as [|fuel IH]; intros s data; cbn [send_loop].
  - apply only_w_stop.
  - only_w_tac. apply IH.
Qed.

Lemma only_w_send_to_emacs (s : Z) (data : list ascii) :
  only_w (send_to_emacs s data).
Proof.
  unfold send_to_emacs. apply only_w_bind; [apply only_w_get|intros].
  apply only_w_send_loop.
Qed.

Lemma only_w_set_local_socket (name : list ascii) :
  only_w (set_local_socket name).
Proof.
  unfold set_local_socket, connect_local_socket, user_socket_lookup,
    socket_status, socket, connect.
  only_w_tac.
Qed.

Lemma only_w_set_tcp_socket (f : list ascii) : only_w (set_tcp_socket f).
Proof.
  unfold set_tcp_socket, get_server_config, fopen, sock_err_message,
    socket, connect.
  only_w_tac; apply only_w_send_to_emacs.
Qed.

(** The first step of [set_socket]: the socket name becomes the one in
    force. *)
Lemma adopt_socket_name (st : state) :
  (match socket_name (g st) with
   | None =>
       modify (upd_g (with_socket_name (os_getenv (os st) "EMACS_SOCKET_NAME")))
   | Some _ => ret tt
   end) st
  = (Ret tt, upd_g (with_socket_name (configured_socket_name st)) st).
Proof.
  unfold configured_socket_name.
  destruct st as [o op [nw d ad t sn pid es] lo io]. simpl.
  destruct sn; reflexivity.
Qed.

Lemma bind_never {A B} (m : M A) (k : A -> M B) (bad : outcome B) (st : state) :
  bad <> Failed -> bad <> Undefined -> bad <> Starved ->
  (forall c, bad <> Exited c) ->
  (forall a st1, fst (k a st1) <> bad) ->
  fst (bind m k st) <> bad.
Proof.
  intros H1 H2 H3 H4 Hk. unfold bind.
  destruct (m st) as [[a|c| | |] st1]; simpl; auto.
Qed.

Lemma exit_after_message {A} (text : list ascii) (c : Z) (st : state) :
  bind (message true text) (fun _ => @exit A c) st
  = (Exited c, upd_w (fun x => with_trace (trace x ++ [EvWrite Stderr text]) x) st).
Proof. reflexivity. Qed.

(** With [no_exit_if_error] unset, [set_socket] never returns
    INVALID_SOCKET. *)
Lemma set_socket_never_invalid (st : state) :
  fst (set_socket false st) <> Ret INVALID_SOCKET.
Proof.
  assert (Hguard : forall (fallback : M Z) s st1,
             (forall st2, fst (fallback st2) <> Ret INVALID_SOCKET) ->
             fst ((if bool_decide (s ≠ INVALID_SOCKET) || false
                   then ret s else fallback) st1) <> Ret INVALID_SOCKET).
  { intros fallback s st1 Hf. rewrite orb_false_r.
    case_bool_decide as Hs; [|apply Hf].
    simpl. congruence. }
  assert (Hexit : forall text st2,
             fst (bind (message true text) (fun _ => @exit Z EXIT_FAILURE) st2)
             <> Ret INVALID_SOCKET).
  { intros text st2. rewrite exit_after_message. discriminate. }
  unfold set_socket. rewrite bind_get.
  rewrite (bind_ret _ _ _ _ _ (adopt_socket_name st)). rewrite bind_get.
  destruct (socket_name (g (upd_g (with_socket_name (configured_socket_name st)) st)))
    as [name|].
  - apply bind_never; try discriminate. intros s st1.
    apply Hguard. apply Hexit.
  - destruct (match server_file (opt st) with
              | Some f => Some f
              | None => os_getenv (os st) "EMACS_SERVER_FILE"
              end) as [f|].
    + apply bind_never; try discriminate. intros s st1.
      apply Hguard. apply Hexit.
    + apply bind_never; try discriminate. intros s st1.
      case_bool_decide as Hs; [simpl; congruence|].
      apply bind_never; try discriminate. intros s' st2.
      apply Hguard. apply Hexit.
Qed.

(** X12: whatever [set_socket] does and however it ends, it leaves in
    [socket_name] the name that was in force: the one of the option, or else
    the value of EMACS_SOCKET_NAME (which is how the daemon started later
    gets the same name). *)
Theorem X12_set_socket_adopts_environment_name (b : bool) (st : state) :
  socket_name (g (snd (set_socket b st))) = configured_socket_name st.
Proof.
  unfold set_socket. rewrite bind_get.
  rewrite (bind_ret _ _ _ _ _ (adopt_socket_name st)).
  match goal with
  | |- context [snd (?m ?s)] =>
      assert (Hw : only_w m);
      [|destruct (m s) as [o st'] eqn:Hrun;
        destruct (Hw _ _ _ Hrun) as [f ->]; reflexivity]
  end.
  unfold message. only_w_tac;
    first [apply only_w_set_local_socket | apply only_w_set_tcp_socket].
Qed.

(** *** The owner of the local socket *)

Lemma status_of_zero (o : OS) (p : list ascii) :
  status_of o p <> 1%Z -> status_of o p <> 2%Z ->
  os_stat o p = StatOk (os_geteuid o).
Proof.
  unfold status_of. destruct (os_stat o p) as [e|uid]; [congruence|].
  case_bool_decide as H; [congruence|]. intros _ _.
  f_equal. destruct (decide (uid = os_geteuid o)); [assumption|contradiction].
Qed.

(** The second look yields the status of the path it yields. *)
Lemma user_socket_lookup_owned (t name p : list ascii) (sts err : Z)
    (st : state) (o : outcome (list ascii * Z * Z)) (st' : state) :
  sts = status_of (os st) p ->
  user_socket_lookup t name p sts err st = (o, st') ->
  os st' = os st
  /\ (exists evs, trace (w st') = trace (w st) ++ evs
                  /\ Forall (owned_connect (os st)) evs)
  /\ match o with
     | Ret (p', sts', _) => sts' = status_of (os st) p'
     | _ => True
     end.
Proof.
  intros Hsts. unfold user_socket_lookup. rewrite bind_get.
  destruct (match os_getenv (os st) "LOGNAME" with
            | Some n => Some n
            | None => os_getenv (os st) "USER"
            end) as [user|].
  2:{ intros [= <- <-]. split; [reflexivity|]. split; [|assumption].
      exists []. now rewrite app_nil_r. }
  rewrite bind_emit.
  destruct (os_getpwnam (os st) user) as [pw_uid|]; ssimpl.
  2:{ unfold set_errno. rewrite bind_modify. intros [= <- <-].
      split; [reflexivity|]. split; [|assumption].
      eexists [_]. ssimpl. split; [reflexivity|]. now repeat constructor. }
  destruct (bool_decide (pw_uid ≠ os_geteuid (os st))).
  2:{ unfold set_errno. rewrite bind_modify. intros [= <- <-].
      split; [reflexivity|]. split; [|assumption].
      eexists [_]. ssimpl. split; [reflexivity|]. now repeat constructor. }
  destruct (bool_decide (length (socket_path t pw_uid name)
                         < os_sun_path_size (os st))).
  - match goal with
    | |- bind (socket_status ?q) _ ?s = _ -> _ =>
        destruct (socket_status_frame q s) as [e Hst]
    end.
    rewrite (bind_ret _ _ _ _ _ Hst). rewrite bind_get.
    intros [= <- <-]. ssimpl. split; [reflexivity|]. split; [|reflexivity].
    eexists [_; _]. split; [now rewrite <- app_assoc|]. now repeat constructor.
  - unfold message, exit. rewrite bind_emit. intros [= <- <-]. ssimpl.
    split; [reflexivity|]. split; [|exact I].
    eexists [_; _]. split; [now rewrite <- app_assoc|]. now repeat constructor.
Qed.

(** The end of [set_local_socket] connects only when the status is 0. *)
Lemma connect_local_socket_owned (s : Z) (p : list ascii) (sts err : Z)
    (st : state) (o : outcome Z) (st' : state) :
  sts = status_of (os st) p ->
  connect_local_socket s p sts err st = (o, st') ->
  exists evs, trace (w st') = trace (w st) ++ evs
              /\ Forall (owned_connect (os st)) evs.
Proof.
  intros Hsts. unfold connect_local_socket. rewrite bind_get.
  case_bool_decide as H1.
  { unfold message. rewrite bind_emit. intros [= <- <-]. ssimpl.
    eexists [_]. split; [reflexivity|]. now repeat constructor. }
  case_bool_decide as H2.
  { destruct (bool_decide (err = ENOENT)); unfold message;
      rewrite bind_emit; intros [= <- <-]; ssimpl;
      eexists [_]; (split; [reflexivity|]); now repeat constructor. }
  assert (Hown : owned_connect (os st) (EvConnect s (sockaddr_un p))).
  { simpl. apply status_of_zero; congruence. }
  unfold connect. rewrite bind_assoc, bind_get, bind_assoc, bind_emit.
  destruct (os_connect (os st) (sockaddr_un p)) as [e|].
  - unfold set_errno. rewrite !bind_assoc, bind_modify, bind_ret_l.
    rewrite (bool_decide_eq_true_2 (-1 < 0)%Z) by lia.
    rewrite bind_get. unfold message. rewrite bind_emit.
    intros [= <- <-]. ssimpl.
    eexists [_; _]. split; [now rewrite <- app_assoc|].
    constructor; [exact Hown|]. now repeat constructor.
  - rewrite bind_ret_l.
    rewrite (bool_decide_eq_false_2 (0 < 0)%Z) by lia.
    intros [= <- <-]. ssimpl.
    eexists [_]. split; [reflexivity|]. now repeat constructor.
Qed.

(** X7: [set_local_socket] connects to no socket but one that stat(2) has
    just reported as owned by the effective user: every connection it makes
    is to a local path with that owner, whichever of the two candidate paths
    it is. *)
Theorem X7_local_socket_is_owned (name : list ascii) (st : state) :
  exists evs,
    trace (w (snd (set_local_socket name st))) = trace (w st) ++ evs
    /\ Forall (owned_connect (os st)) evs.
Proof.
  destruct (set_local_socket name st) as [o st'] eqn:Hrun. simpl.
  revert Hrun. unfold set_local_socket, socket. repeat mstep.
  assert (Hsock : owned_connect (os st) (EvSocket AF_UNIX)) by exact I.
  assert (Hwrite : forall text, owned_connect (os st) (EvWrite Stderr text))
    by (intros; exact I).
  assert (Hstat : forall q, owned_connect (os st) (EvStat q))
    by (intros; exact I).
  destruct (os_socket (os st) AF_UNIX) as [e|s].
  { unfold set_errno. repeat mstep.
    rewrite (bool_decide_eq_true_2 (-1 < 0)%Z) by lia.
    unfold message. repeat mstep. intros [= <- <-]. ssimpl.
    eexists [_; _]. split; [now rewrite <- app_assoc|]. now repeat constructor. }
  repeat mstep. case_bool_decide as Hs.
  { unfold message. repeat mstep. intros [= <- <-]. ssimpl.
    eexists [_; _]. split; [now rewrite <- app_assoc|]. now repeat constructor. }
  set (tmp := if negb (has_char SLASH name) && negb (has_char BACKSLASH name)
              then Some match os_getenv (os st) "TMPDIR" with
                        | Some t => t
                        | None => cs "/tmp"
                        end
              else None).
  set (path := match tmp with
               | Some t => socket_path t (os_geteuid (os st)) name
               | None => name
               end).
  case_bool_decide as Hfit.
  2:{ unfold message, fail. repeat mstep. intros [= <- <-]. ssimpl.
      eexists [_; _]. split; [now rewrite <- app_assoc|]. now repeat constructor. }
  rewrite bind_ret_l.
  match goal with
  | |- bind (socket_status ?q) _ ?s0 = _ -> _ =>
      destruct (socket_status_frame q s0) as [e1 Hst1]
  end.
  rewrite (bind_ret _ _ _ _ _ Hst1). ssimpl. rewrite bind_get. ssimpl.
  assert (Hlast : forall s0 p sts err,
             os s0 = os st ->
             trace (w s0) = trace (w st) ++ [EvSocket AF_UNIX; EvStat path] ->
             sts = status_of (os st) p ->
             connect_local_socket s p sts err s0 = (o, st') ->
             exists evs, trace (w st') = trace (w st) ++ evs
                         /\ Forall (owned_connect (os st)) evs).
  { intros s0 p sts err Hos Htr Hsts Hrun.
    apply connect_local_socket_owned in Hrun; [|now rewrite Hos].
    destruct Hrun as (evs & Htr' & Hev). rewrite Hos in Hev.
    exists ([EvSocket AF_UNIX; EvStat path] ++ evs).
    split; [rewrite Htr', Htr; now rewrite <- app_assoc|].
    apply Forall_app. split; [now repeat constructor|assumption]. }
  destruct tmp as [t|].
  - destruct (bool_decide (status_of (os st) path ≠ 0%Z)).
    + unfold bind at 1.
      match goal with
      | |- context [user_socket_lookup ?a ?b ?c ?d ?e ?s0] =>
          destruct (user_socket_lookup a b c d e s0) as [o2 st2] eqn:Hlook
      end.
      apply user_socket_lookup_owned in Hlook; [|reflexivity].
      ssimpl_in Hlook. destruct Hlook as (Hos2 & (evs2 & Htr2 & Hev2) & Ho2).
      assert (Hdone : (o2 = o2) -> exists evs,
                 trace (w st2) = trace (w st) ++ evs
                 /\ Forall (owned_connect (os st)) evs).
      { intros _. exists ([EvSocket AF_UNIX; EvStat path] ++ evs2).
        split; [rewrite Htr2; now rewrite <- !app_assoc|].
        apply Forall_app. split; [now repeat constructor|assumption]. }
      destruct o2 as [[[p' sts'] err']|c| | |];
        try (intros [= <- <-]; now apply Hdone).
      intros Hrun.
      apply connect_local_socket_owned in Hrun; [|now rewrite Hos2].
      destruct Hrun as (evs & Htr' & Hev). rewrite Hos2 in Hev.
      exists (([EvSocket AF_UNIX; EvStat path] ++ evs2) ++ evs).
      split; [rewrite Htr', Htr2; now rewrite <- !app_assoc|].
      repeat (apply Forall_app; split); try assumption.
      now repeat constructor.
    + rewrite bind_ret_l. apply Hlast; ssimpl;
        [reflexivity|now rewrite <- app_assoc|reflexivity].
  - rewrite bind_ret_l. apply Hlast; ssimpl;
      [reflexivity|now rewrite <- app_assoc|reflexivity].
Qed.

(** X9: a socket path that does not fit [sun_path] (its length is not
    below the size of the field) stops [set_local_socket] right after
    socket(2): it writes the diagnostic and calls [fail ()] -- so the
    alternate editor, if any, is run -- and it neither looks at the file
    system nor connects. *)
Theorem X9_socket_name_too_long (name : list ascii) (st : state) (s : Z) :
  os_socket (os st) AF_UNIX = SysOk s -> (0 <= s)%Z ->
  os_sun_path_size (os st) <= length (first_socket_path (os st) name) ->
  set_local_socket name st
  = (Failed,
     upd_w (fun x =>
              with_trace
                (trace x
                 ++ [EvSocket AF_UNIX;
                     EvWrite Stderr
                       (progname (opt st) ++ cs ": socket-name "
                        ++ first_socket_path (os st) name
                        ++ cs " too long" ++ [LF])]) x) st).
Proof.
  intros Hsock Hs Hlong.
  unfold set_local_socket, socket. repeat mstep. rewrite Hsock.
  repeat mstep. rewrite bool_decide_eq_false_2 by lia.
  unfold first_socket_path, bare_name, tmpdir_of in *.
  destruct (negb (has_char SLASH name) && negb (has_char BACKSLASH name));
    rewrite bool_decide_eq_false_2 by lia;
    unfold message, fail; repeat mstep; state_eq.
Qed.

(** X10: a server file given by a relative name is looked for below HOME
    only: when HOME is not set, [set_tcp_socket] returns INVALID_SOCKET
    without opening any file and without a diagnostic, and leaves the state
    as it was. *)
Theorem X10_relative_server_file_needs_home (f : list ascii) (st : state) :
  file_name_absolute_p f = false ->
  os_getenv (os st) "HOME" = None ->
  set_tcp_socket f st = (Ret INVALID_SOCKET, st).
Proof.
  intros Hrel Hhome.
  unfold set_tcp_socket, get_server_config, server_file_path.
  repeat mstep. rewrite Hrel, Hhome. reflexivity.
Qed.

Lemma length_until_nul (b : list ascii) : length (until_nul b) <= length b.
Proof.
  induction b as [|c b IH]; simpl; [lia|].
  case_bool_decide; simpl; lia.
Qed.

(** X11: let the server file be in order (a first line with a colon, and
    64 bytes behind it), let socket(2) and connect(2) succeed, let KEY, the
    64 bytes of the key up to their first NUL byte if there is one, not end
    in a newline, and let the send buffer have room for more than the 71
    bytes that [-auth KEY ] can take.  Then [set_tcp_socket] returns the
    socket and does not call send(2): the authentication [-auth KEY ] is
    left in the send buffer, behind what was there, to travel with the
    first command; the trace gets the opening of the file, the notice for a
    remote address, socket(2), connect(2) and the linger option, in this
    order.  (A key that ends in a newline, or a buffer that gets full, makes
    [send_to_emacs] call send(2) here: the statement does not cover these
    runs.) *)
Theorem X11_tcp_authentication_is_buffered
    (f path content line rest dotted port : list ascii) (st : state) (s : Z) :
  server_file_path (os st) f = Some path ->
  os_fopen (os st) path = Some content ->
  fgets 32 content = Some (line, rest) ->
  split_at COLON (until_nul line) = Some (dotted, port) ->
  AUTH_KEY_LENGTH <= length rest ->
  last (until_nul (take AUTH_KEY_LENGTH rest)) <> Some LF ->
  os_socket (os st) AF_INET = SysOk s -> (0 <= s)%Z ->
  os_connect (os st)
    (sockaddr_in (os_inet_addr (os st) dotted)
                 (os_htons (os st) (os_atoi (os st) port))) = None ->
  length (send_buffer (w st)) + 71 < SEND_BUFFER_SIZE ->
  exists st',
    set_tcp_socket f st = (Ret s, st')
    /\ send_buffer (w st')
       = send_buffer (w st)
         ++ cs "-auth " ++ until_nul (take AUTH_KEY_LENGTH rest) ++ cs " "
    /\ trace (w st')
       = trace (w st)
         ++ [EvFopen path]
         ++ (if bool_decide (os_inet_addr (os st) dotted
                             ≠ os_inet_addr (os st) (cs "127.0.0.1"))
                && negb (quiet (opt st))
             then [EvWrite Stdout
                     (progname (opt st) ++ cs ": connected to remote socket at "
                      ++ os_inet_ntoa (os st) (os_inet_addr (os st) dotted)
                      ++ [LF])]
             else [])
         ++ [EvSocket AF_INET;
             EvConnect s (sockaddr_in (os_inet_addr (os st) dotted)
                            (os_htons (os st) (os_atoi (os st) port)));
             EvLinger s].
Proof.
  intros Hpath Hopen Hline Hcolon Hkey Hlast Hsock Hs Hconn Hroom.
  pose proof (length_until_nul (take AUTH_KEY_LENGTH rest)) as Hlen.
  rewrite length_take in Hlen. unfold AUTH_KEY_LENGTH in *.
  unfold set_tcp_socket, get_server_config. repeat mstep.
  rewrite Hpath. unfold fopen. repeat mstep. rewrite Hopen, Hline, Hcolon.
  rewrite bool_decide_eq_true_2 by assumption.
  repeat mstep. cbn [sin_addr_of].
  set (remote := bool_decide (os_inet_addr (os st) dotted
                              ≠ os_inet_addr (os st) (cs "127.0.0.1"))
                 && negb (quiet (opt st))).
  assert (Hgo : forall st0,
             os st0 = os st -> opt st0 = opt st ->
             send_buffer (w st0) = send_buffer (w st) ->
             exists st',
               bind (socket AF_INET) (fun s0 =>
                 if bool_decide (s0 < 0)%Z
                 then bind (sock_err_message (cs "socket"))
                           (fun _ => ret INVALID_SOCKET)
                 else
                   bind (connect s0
                           (sockaddr_in (os_inet_addr (os st) dotted)
                              (os_htons (os st) (os_atoi (os st) port))))
                     (fun r =>
                        if bool_decide (r < 0)%Z
                        then bind (sock_err_message (cs "connect"))
                                  (fun _ => ret INVALID_SOCKET)
                        else
                          bind (emit (EvLinger s0)) (fun _ =>
                          bind (send_to_emacs s0 (cs "-auth ")) (fun _ =>
                          bind (send_to_emacs s0
                                  (until_nul (take 64 rest))) (fun _ =>
                          bind (send_to_emacs s0 (cs " ")) (fun _ =>
                          ret s0)))))) st0
               = (Ret s, st')
               /\ send_buffer (w st')
                  = send_buffer (w st)
                    ++ cs "-auth " ++ until_nul (take 64 rest) ++ cs " "
               /\ trace (w st')
                  = trace (w st0)
                    ++ [EvSocket AF_INET;
                        EvConnect s (sockaddr_in (os_inet_addr (os st) dotted)
                                       (os_htons (os st) (os_atoi (os st) port)));
                        EvLinger s]).
  { intros st0 Hos Hopt Hbuf. unfold socket, connect. repeat mstep.
    rewrite Hos, Hsock. repeat mstep.
    rewrite bool_decide_eq_false_2 by lia. repeat mstep.
    rewrite Hos, Hconn. repeat mstep.
    rewrite (bool_decide_eq_false_2 (0 < 0)%Z) by lia. repeat mstep.
    erewrite (bind_ret (send_to_emacs _ _));
      [|apply send_to_emacs_buffered; ssimpl;
        [rewrite Hbuf; simpl; lia|discriminate]].
    cbv beta.
    erewrite (bind_ret (send_to_emacs _ _));
      [|apply send_to_emacs_buffered; ssimpl;
        [rewrite Hbuf, length_app; simpl; lia|assumption]].
    cbv beta.
    erewrite (bind_ret (send_to_emacs _ _));
      [|apply send_to_emacs_buffered; ssimpl;
        [rewrite Hbuf, !length_app; simpl; lia|discriminate]].
    cbv beta.
    eexists. split; [reflexivity|]. ssimpl.
    split; [rewrite Hbuf; now rewrite <- !app_assoc|].
    now rewrite <- !app_assoc. }
  destruct remote.
  - unfold message. repeat mstep.
    match goal with
    | |- context [bind (socket AF_INET) _ ?s0] =>
        destruct (Hgo s0) as (st' & Hrun & Hb & Ht); [reflexivity..|]
    end.
    exists st'. split; [exact Hrun|]. split; [exact Hb|].
    rewrite Ht. ssimpl. now rewrite <- !app_assoc.
  - repeat mstep.
    match goal with
    | |- context [bind (socket AF_INET) _ ?s0] =>
        destruct (Hgo s0) as (st' & Hrun & Hb & Ht); [reflexivity..|]
    end.
    exists st'. split; [exact Hrun|]. split; [exact Hb|].
    rewrite Ht. ssimpl. now rewrite <- !app_assoc.
Qed.

End ResolverMore.

(** ** Endpoint resolver: the socket that [set_socket] returns *)

Module SocketMore.
Import TransportProofs TransportMore ResolverMore.

Lemma adds_ret {A} (a : A) : adds_events (ret a).
Proof.
  intros st o st' H [= <- <-]. repeat split; try apply H.
  exists []. now rewrite app_nil_r.
Qed.

Lemma adds_get : adds_events get.
Proof.
  intros st o st' H [= <- <-]. repeat split; try apply H.
  exists []. now rewrite app_nil_r.
Qed.

Lemma adds_stop {A} (o : outcome A) : clean o -> adds_events (stop o).
Proof.
  intros Ho st o' st' H [= <- <-]. repeat split; try apply H; [assumption|].
  exists []. now rewrite app_nil_r.
Qed.

Lemma adds_emit (e : event) : adds_events (emit e).
Proof.
  intros st o st' H [= <- <-]. repeat split; try apply H.
  now exists [e].
Qed.

Lemma adds_set_errno (e : Z) : adds_events (set_errno e).
Proof.
  intros st o st' H [= <- <-]. repeat split; try apply H.
  exists []. ssimpl. now rewrite app_nil_r.
Qed.

Lemma adds_modify_g (f : globals -> globals) : adds_events (modify (upd_g f)).
Proof.
  intros st o st' H [= <- <-]. repeat split; try apply H.
  exists []. ssimpl. now rewrite app_nil_r.
Qed.

Lemma adds_bind {A B} (m : M A) (k : A -> M B) :
  adds_events m -> (forall a, adds_events (k a)) -> adds_events (bind m k).
Proof.
  intros Hm Hk st o st' H. unfold bind.
  destruct (m st) as [o1 st1] eqn:E1.
  destruct (Hm _ _ _ H E1) as (H1 & Hos1 & Hc1 & evs1 & Htr1).
  destruct o1 as [a|c| | |]; try contradiction;
    try (intros [= <- <-]; repeat split; try apply H1; try assumption;
         now exists evs1).
  intros E2. destruct (Hk a _ _ _ H1 E2) as (H2 & Hos2 & Hc2 & evs2 & Htr2).
  repeat split; try apply H2; [congruence|assumption|].
  exists (evs1 ++ evs2). rewrite Htr2, Htr1. now rewrite app_assoc.
Qed.

Lemma adds_send_to_emacs (s : Z) (data : list ascii) :
  adds_events (send_to_emacs s data).
Proof.
  intros st o st' [H1 H2] Hrun.
  destruct (send_to_emacs_total _ _ _ _ _ H1 H2 Hrun) as [Ho Hlen].
  destruct (send_to_emacs_spec _ _ _ _ _ H1 Hrun)
    as (_ & _ & (Hos & _) & evs & rest & Htr & _).
  split; [split; [assumption|now rewrite Hos]|].
  split; [assumption|].
  split; [destruct Ho as [-> | ->]; exact I|].
  now exists evs.
Qed.

(** Break a computation into its actions. *)
Ltac adds_tac :=
  repeat
    match goal with
    | |- adds_events (bind _ _) => apply adds_bind; [|intros]
    | |- adds_events (ret _) => apply adds_ret
    | |- adds_events get => apply adds_get
    | |- adds_events fail => apply adds_stop; exact I
    | |- adds_events (exit EXIT_FAILURE) => apply adds_stop; reflexivity
    | |- adds_events (set_errno _) => apply adds_set_errno
    | |- adds_events (message _ _) => apply adds_emit
    | |- adds_events (emit _) => apply adds_emit
    | |- adds_events (modify (upd_g _)) => apply adds_modify_g
    | |- adds_events (send_to_emacs _ _) => apply adds_send_to_emacs
    | |- adds_events (if ?b then _ else _) => destruct b
    | |- adds_events (match ?x with _ => _ end) => destruct x
    | |- adds_events (let '(_, _) := ?x in _) => destruct x
    end.

Lemma returns_just_ret {A} (s : A) : returns_just s (ret s).
Proof. intros st o st' v [= <- <-] [= <-]. reflexivity. Qed.

Lemma returns_just_bind {A B} (s : B) (m : M A) (k : A -> M B) :
  (forall a, returns_just s (k a)) -> returns_just s (bind m k).
Proof.
  intros Hk st o st' v. unfold bind.
  destruct (m st) as [[a|c| | |] st1]; try (intros [= <- <-]; discriminate).
  apply Hk.
Qed.

Lemma opens_ret_invalid : opens (ret INVALID_SOCKET).
Proof.
  intros st o st' H [= <- <-]. repeat split; try apply H.
  exists []. split; [now rewrite app_nil_r|]. intros s [= <-]. now left.
Qed.

Lemma opens_stop (o : outcome Z) :
  clean o -> (forall s, o <> Ret s) -> opens (stop o).
Proof.
  intros Hc Ho st o' st' H [= <- <-]. repeat split; try apply H; [assumption|].
  exists []. split; [now rewrite app_nil_r|]. intros s Hs. now destruct (Ho s).
Qed.

Lemma opens_bind {A} (m : M A) (k : A -> M Z) :
  adds_events m -> (forall a, opens (k a)) -> opens (bind m k).
Proof.
  intros Hm Hk st o st' H. unfold bind.
  destruct (m st) as [o1 st1] eqn:E1.
  destruct (Hm _ _ _ H E1) as (H1 & Hos1 & Hc1 & evs1 & Htr1).
  destruct o1 as [a|c| | |]; try contradiction;
    try (intros [= <- <-]; repeat split; try apply H1; try assumption;
         exists evs1; split; [assumption|discriminate]).
  intros E2.
  destruct (Hk a _ _ _ H1 E2) as (H2 & Hos2 & Hc2 & evs2 & Htr2 & Hret).
  repeat split; try apply H2; [congruence|assumption|].
  exists (evs1 ++ evs2). split; [rewrite Htr2, Htr1; now rewrite app_assoc|].
  intros s Hs. destruct (Hret s Hs) as [->|(a' & Hin & Hconn)]; [now left|].
  right. exists a'. split; [apply elem_of_app; now right|].
  now rewrite <- Hos1.
Qed.

(** The call of connect(2), and what follows it: on a failure [bad], on a
    success [tail], which returns the descriptor. *)
Lemma opens_connect (s : Z) (a : sockaddr) (bad tail : M Z) :
  opens bad -> adds_events tail -> returns_just s tail ->
  opens (bind (connect s a)
           (fun r => if bool_decide (r < 0)%Z then bad else tail)).
Proof.
  intros Hbad Htail Hjust st o st' H.
  unfold connect. rewrite !bind_assoc, bind_get.
  unfold emit. rewrite !bind_assoc, bind_modify.
  assert (H0 : transport_ready
                 (upd_w (fun x => with_trace (trace x ++ [EvConnect s a]) x) st))
    by exact H.
  destruct (os_connect (os st) a) as [e|] eqn:Hconn.
  - unfold set_errno. rewrite bind_assoc, bind_modify, bind_ret_l.
    rewrite bool_decide_eq_true_2 by lia. intros Hrun.
    assert (H0' : transport_ready
                    (upd_w (with_errno e)
                       (upd_w (fun x => with_trace (trace x ++ [EvConnect s a]) x)
                          st)))
      by exact H.
    destruct (Hbad _ _ _ H0' Hrun) as (H2 & Hos2 & Hc2 & evs2 & Htr2 & Hret).
    ssimpl_in Hos2. ssimpl_in Htr2. ssimpl_in Hret.
    repeat split; try apply H2; [assumption|assumption|].
    exists ([EvConnect s a] ++ evs2).
    split; [rewrite Htr2; now rewrite <- app_assoc|].
    intros s' Hs'. destruct (Hret s' Hs') as [->|(a' & Hin & Hc')]; [now left|].
    right. exists a'. split; [apply elem_of_app; now right|assumption].
  - rewrite bind_ret_l. rewrite bool_decide_eq_false_2 by lia. intros Hrun.
    destruct (Htail _ _ _ H0 Hrun) as (H2 & Hos2 & Hc2 & evs2 & Htr2).
    ssimpl_in Hos2. ssimpl_in Htr2.
    repeat split; try apply H2; [assumption|assumption|].
    exists ([EvConnect s a] ++ evs2).
    split; [rewrite Htr2; now rewrite <- app_assoc|].
    intros s' Hs'. rewrite (Hjust _ _ _ s' Hrun Hs').
    right. exists a. split; [|assumption].
    apply elem_of_app. left. apply elem_of_cons. now left.
Qed.

(** A first resolver, and a second one that is tried when the first
    returns INVALID_SOCKET. *)
Lemma opens_or_else (m : M Z) (fallback : Z -> M Z) :
  opens m -> (forall s, opens (fallback s)) ->
  opens (bind m (fun s => if bool_decide (s ≠ INVALID_SOCKET)
                          then ret s else fallback s)).
Proof.
  intros Hm Hf st o st' H. unfold bind.
  destruct (m st) as [o1 st1] eqn:E1.
  destruct (Hm _ _ _ H E1) as (H1 & Hos1 & Hc1 & evs1 & Htr1 & Hret1).
  destruct o1 as [s|c| | |]; try contradiction;
    try (intros [= <- <-]; repeat split; try apply H1; try assumption;
         exists evs1; split; [assumption|discriminate]).
  case_bool_decide as Hs.
  - intros [= <- <-]. repeat split; try apply H1; [assumption|].
    exists evs1. split; [assumption|]. intros s' [= <-].
    destruct (Hret1 s eq_refl) as [?|?]; [contradiction|now right].
  - intros E2.
    destruct (Hf s _ _ _ H1 E2) as (H2 & Hos2 & Hc2 & evs2 & Htr2 & Hret2).
    repeat split; try apply H2; [congruence|assumption|].
    exists (evs1 ++ evs2). split; [rewrite Htr2, Htr1; now rewrite app_assoc|].
    intros s' Hs'. destruct (Hret2 s' Hs') as [->|(a' & Hin & Hconn)];
      [now left|].
    right. exists a'. split; [apply elem_of_app; now right|].
    now rewrite <- Hos1.
Qed.

Lemma opens_connect_local_socket (s : Z) (sun_path : list ascii)
    (sock_status saved_errno : Z) :
  opens (connect_local_socket s sun_path sock_status saved_errno).
Proof.
  unfold connect_local_socket.
  apply opens_bind; [apply adds_get|intros st0].
  destruct (bool_decide (sock_status = 1%Z)).
  { apply opens_bind; [adds_tac|intros; apply opens_ret_invalid]. }
  destruct (bool_decide (sock_status = 2%Z)).
  { apply opens_bind; [adds_tac|intros; apply opens_ret_invalid]. }
  apply opens_connect.
  - apply opens_bind; [apply adds_get|intros].
    apply opens_bind; [adds_tac|intros; apply opens_ret_invalid].
  - apply adds_ret.
  - apply returns_just_ret.
Qed.

Lemma adds_socket_status (name : list ascii) :
  adds_events (socket_status name).
Proof. unfold socket_status. adds_tac. Qed.

Lemma adds_socket (d : domain) : adds_events (socket d).
Proof. unfold socket. adds_tac. Qed.

Lemma adds_user_socket_lookup (tmpdir server_name sun_path : list ascii)
    (sock_status saved_errno : Z) :
  adds_events
    (user_socket_lookup tmpdir server_name sun_path sock_status saved_errno).
Proof.
  unfold user_socket_lookup. adds_tac; try apply adds_socket_status.
Qed.

Lemma opens_set_local_socket (name : list ascii) :
  opens (set_local_socket name).
Proof.
  unfold set_local_socket.
  apply opens_bind; [apply adds_get|intros st0].
  apply opens_bind; [apply adds_socket|intros s].
  destruct (bool_decide (s < 0)%Z).
  { apply opens_bind; [apply adds_get|intros].
    apply opens_bind; [adds_tac|intros; apply opens_ret_invalid]. }
  cbv zeta.
  apply opens_bind; [adds_tac|intros].
  apply opens_bind; [apply adds_socket_status|intros].
  apply opens_bind; [apply adds_get|intros].
  apply opens_bind;
    [adds_tac; apply adds_user_socket_lookup|intros [[p sts] err]].
  apply opens_connect_local_socket.
Qed.

Lemma adds_get_server_config (f : list ascii) :
  adds_events (get_server_config f).
Proof. unfold get_server_config, fopen. adds_tac. Qed.

Lemma opens_set_tcp_socket (f : list ascii) : opens (set_tcp_socket f).
Proof.
  unfold set_tcp_socket.
  apply opens_bind; [apply adds_get|intros st0].
  apply opens_bind; [apply adds_get_server_config|intros [[server key]|]];
    [|apply opens_ret_invalid].
  apply opens_bind; [adds_tac|intros].
  apply opens_bind; [apply adds_socket|intros s].
  destruct (bool_decide (s < 0)%Z).
  { apply opens_bind; [unfold sock_err_message; adds_tac
                      |intros; apply opens_ret_invalid]. }
  apply opens_connect.
  - apply opens_bind; [unfold sock_err_message; adds_tac
                      |intros; apply opens_ret_invalid].
  - adds_tac.
  - repeat (apply returns_just_bind; intros). apply returns_just_ret.
Qed.

(** The end of a branch of [set_socket]: the descriptor is returned, or
    there is none and the process is told to go on, or it exits. *)
Lemma opens_or_exit (m : M Z) (b : bool) (text : list ascii) :
  opens m ->
  opens (bind m (fun s => if bool_decide (s ≠ INVALID_SOCKET) || b
                          then ret s
                          else message true text;; exit EXIT_FAILURE)).
Proof.
  intros Hm. destruct b.
  - intros st o st' H Hrun. apply (Hm st o st' H). revert Hrun. unfold bind.
    destruct (m st) as [[s|c| | |] st1]; try (intros [= <- <-]; reflexivity).
    now rewrite orb_true_r.
  - intros st o st' H Hrun.
    apply (opens_or_else m (fun _ => message true text;; exit EXIT_FAILURE));
      [assumption| |assumption|].
    + intros _. apply opens_bind; [adds_tac|intros].
      apply opens_stop; [reflexivity|discriminate].
    + rewrite <- Hrun. unfold bind.
      destruct (m st) as [[s|c| | |] st1]; try reflexivity.
      now rewrite orb_false_r.
Qed.

Lemma opens_set_socket (b : bool) : opens (set_socket b).
Proof.
  unfold set_socket.
  apply opens_bind; [apply adds_get|intros st0].
  apply opens_bind; [adds_tac|intros].
  apply opens_bind; [apply adds_get|intros st1].
  destruct (socket_name (g st1)) as [name|].
  { apply opens_or_exit, opens_set_local_socket. }
  cbv zeta.
  destruct (match server_file (opt st0) with
            | Some f => Some f
            | None => os_getenv (os st0) "EMACS_SERVER_FILE"
            end) as [f|].
  { apply opens_or_exit, opens_set_tcp_socket. }
  apply opens_or_else; [apply opens_set_local_socket|intros _].
  apply opens_or_exit, opens_set_tcp_socket.
Qed.

(** X8: with [no_exit_if_error] unset, and a transport that can work,
    [set_socket] ends in one of three ways.  It returns a descriptor: then
    this is not INVALID_SOCKET, and it is one on which [set_socket] has
    called connect(2) with success.  Or it exits with EXIT_FAILURE.  Or it
    calls [fail ()].  It does nothing else: it does not leave its objects,
    and it does not go on for ever. *)
Theorem X8_set_socket_returns_a_socket
    (st : state) (o : outcome Z) (st' : state) :
  transport_ready st ->
  set_socket false st = (o, st') ->
  match o with
  | Ret s =>
      s <> INVALID_SOCKET
      /\ exists evs a,
           trace (w st') = trace (w st) ++ evs
           /\ EvConnect s a ∈ evs /\ os_connect (os st) a = None
  | Exited c => c = EXIT_FAILURE
  | Failed => True
  | Undefined | Starved => False
  end.
Proof.
  intros H Hrun.
  destruct (opens_set_socket false st o st' H Hrun)
    as (_ & _ & Hc & evs & Htr & Hret).
  pose proof (set_socket_never_invalid st) as Hnever.
  rewrite Hrun in Hnever. simpl in Hnever.
  destruct o as [s|c| | |]; try exact Hc.
  assert (Hs : s <> INVALID_SOCKET) by congruence.
  split; [assumption|].
  destruct (Hret s eq_refl) as [?|(a & Hin & Hconn)]; [contradiction|].
  now exists evs, a.
Qed.

End SocketMore.

(** ** Session controller: the handling of any message *)

Module SessionMore.
Import Codec CodecProofs CodecMore TransportProofs TransportMore DispatchProofs.

(** A literal has no NUL in it. *)
Ltac literal_no_nul := repeat (constructor; [discriminate|]); constructor.

(** [strprefix] on the C string at [p] is [strprefix] on its text. *)
Lemma strprefix_at_cstring (prefix : list ascii) :
  Forall (fun c => c <> NUL) prefix ->
  forall A m R,
    strprefix_at prefix (A ++ m ++ NUL :: R) (length A)
    = Ok (strprefix prefix m).
Proof.
  induction 1 as [|c prefix Hc _ IH]; intros A m R; [reflexivity|].
  cbn [strprefix_at]. destruct m as [|d m].
  - rewrite (load_middle _ A R NUL) by reflexivity. cbn [access_bind].
    rewrite bool_decide_eq_false_2 by congruence. reflexivity.
  - rewrite (load_middle _ A (m ++ NUL :: R) d) by reflexivity.
    cbn [access_bind strprefix].
    case_bool_decide as Hd.
    + subst d. rewrite bool_decide_eq_true_2 by reflexivity. cbn [andb].
      specialize (IH (A ++ [c]) m R).
      rewrite length_app, <- app_assoc in IH. simpl in IH.
      rewrite Nat.add_1_r in IH. exact IH.
    + rewrite bool_decide_eq_false_2 by congruence. reflexivity.
Qed.

Lemma strprefix_split (prefix : list ascii) :
  forall m, strprefix prefix m = true -> exists t, m = prefix ++ t.
Proof.
  induction prefix as [|c prefix IH]; intros m; [now exists m|].
  destruct m as [|d m]; simpl; [discriminate|].
  intros H. apply andb_true_iff in H. destruct H as [H1 H2].
  apply bool_decide_eq_true in H1. subst d.
  destruct (IH m H2) as [t ->]. now exists t.
Qed.

Lemma dangling_skip_plain (p t : list ascii) :
  Forall (fun c => c <> AMP) p -> dangling (p ++ t) = dangling t.
Proof.
  induction 1 as [|c p Hc _ IH]; simpl; [reflexivity|].
  now rewrite bool_decide_eq_false_2 by assumption.
Qed.

Lemma strchr_from_absent (m R : list ascii) :
  forall a,
    Forall (fun c => c <> NUL) m -> Forall (fun c => c <> LF) m ->
    strchr_from LF (m ++ NUL :: R) a = Ok None.
Proof.
  induction m as [|c m IH]; intros a Hn Hl; simpl.
  - reflexivity.
  - inversion Hn; inversion Hl; subst.
    rewrite bool_decide_eq_false_2 by assumption.
    rewrite bool_decide_eq_false_2 by assumption.
    now apply IH.
Qed.

Lemma strchr_absent (A m R : list ascii) :
  Forall (fun c => c <> NUL) m -> Forall (fun c => c <> LF) m ->
  strchr (A ++ m ++ NUL :: R) (length A) LF = Ok None.
Proof.
  intros Hn Hl. unfold strchr. rewrite drop_app_length.
  now apply strchr_from_absent.
Qed.

(** A text has no newline, or it has a first line. *)
Lemma first_line (body : list ascii) :
  Forall (fun c => c <> LF) body
  \/ exists m body', body = m ++ LF :: body' /\ Forall (fun c => c <> LF) m.
Proof.
  induction body as [|c body IH]; [left; constructor|].
  destruct (decide (c = LF)) as [->|Hc].
  - right. exists [], body. split; [reflexivity|constructor].
  - destruct IH as [IH|(m & body' & -> & Hm)].
    + left. now constructor.
    + right. exists (c :: m), body'. split; [reflexivity|now constructor].
Qed.

(** What [escapes_closed] says of a last message without its newline. *)
Lemma escapes_closed_last (m : list ascii) :
  forall pending,
    escapes_closed pending m = true ->
    (if pending then match m with [] => true | _ :: t => dangling t end
     else dangling m) = false.
Proof.
  induction m as [|c m IH]; intros pending; simpl.
  - now destruct pending.
  - destruct pending.
    + intros H. apply andb_true_iff in H. destruct H as [_ H].
      exact (IH false H).
    + case_bool_decide as Hamp; intros H.
      * exact (IH true H).
      * exact (IH false H).
Qed.

(** What [escapes_closed] says of a first message and of the rest. *)
Lemma escapes_closed_line (m rest : list ascii) :
  forall pending,
    escapes_closed pending (m ++ LF :: rest) = true ->
    (if pending then match m with [] => true | _ :: t => dangling t end
     else dangling m) = false
    /\ escapes_closed false rest = true.
Proof.
  induction m as [|c m IH]; intros pending; simpl.
  - destruct pending.
    + discriminate.
    + now split.
  - destruct pending.
    + intros H. apply andb_true_iff in H. destruct H as [_ H].
      exact (IH false H).
    + case_bool_decide as Hamp; intros H.
      * exact (IH true H).
      * exact (IH false H).
Qed.

Lemma after_dispatch_refl (st : state) : after_dispatch st st.
Proof. repeat split; auto. Qed.

Lemma after_dispatch_trans (st1 st2 st3 : state) :
  after_dispatch st1 st2 -> after_dispatch st2 st3 -> after_dispatch st1 st3.
Proof.
  intros (A1 & A2 & A3 & A4 & A5 & A6 & A7 & A8)
         (B1 & B2 & B3 & B4 & B5 & B6 & B7 & B8).
  repeat split; try congruence.
  destruct B4 as [B4|B4]; [|now right].
  rewrite B4. exact A4.
Qed.

Lemma forall_app_r {A} (P : A -> Prop) (x y : list A) :
  Forall P (x ++ y) -> Forall P y.
Proof. intros H. now apply Forall_app in H. Qed.

(** [unquote_in_string] behind a prefix that a message starts with. *)
Lemma unquote_after_prefix (st : state) (A pfx t R : list ascii) :
  string_buf (l st) = A ++ (pfx ++ t) ++ NUL :: R ->
  Forall (fun c => c <> NUL) (pfx ++ t) ->
  Forall (fun c => c <> AMP) pfx ->
  dangling (pfx ++ t) = false ->
  exists X,
    unquote_in_string (length A + length pfx) st
    = (Ret (decode_spec t), upd_l (with_string_buf (A ++ X ++ R)) st)
    /\ length X = S (length (pfx ++ t)).
Proof.
  intros Hbuf Hnul Hpfx Hd.
  rewrite dangling_skip_plain in Hd by assumption.
  destruct (unquote_in_string_ok st (A ++ pfx) t R) as (tail & Hlen & Hrun).
  - rewrite Hbuf. now rewrite <- !app_assoc.
  - now apply forall_app_r in Hnul.
  - assumption.
  - rewrite length_app in Hrun.
    exists (pfx ++ decode_spec t ++ NUL :: tail). split.
    + rewrite Hrun. do 3 f_equal. now rewrite <- !app_assoc.
    + rewrite !length_app. simpl. rewrite ?length_app. simpl. lia.
Qed.

(** Whatever message stands at [p], as long as its escapes are closed:
    [dispatch] handles it and returns, inside the bytes of the message and
    its NUL, and leaves everything behind them as it was. *)
Lemma dispatch_safe (st : state) (A m R : list ascii) :
  string_buf (l st) = A ++ m ++ NUL :: R ->
  Forall (fun c => c <> NUL) m -> dangling m = false ->
  exists r st' X,
    dispatch (length A) st = (Ret r, st')
    /\ string_buf (l st') = A ++ X ++ R /\ length X = S (length m)
    /\ after_dispatch st st'.
Proof.
  intros Hbuf Hnul Hd.
  assert (Hsame : string_buf (l st) = A ++ (m ++ [NUL]) ++ R
                  /\ length (m ++ [NUL]) = S (length m)).
  { split; [rewrite Hbuf; now rewrite <- app_assoc|].
    rewrite length_app. simpl. lia. }
  destruct Hsame as [Hsame Hlen].
  unfold dispatch. rewrite bind_get, Hbuf.
  rewrite strprefix_at_cstring by literal_no_nul. rewrite bind_lift_ok.
  destruct (strprefix (cs "-emacs-pid ") m) eqn:E1.
  { apply strprefix_split in E1. destruct E1 as [t ->].
    unfold read_cstring.
    rewrite (cstring_at_middle _ (A ++ cs "-emacs-pid") (SPC :: t) R);
      [|now rewrite <- !app_assoc|now rewrite length_app
       |now apply (forall_app_r _ (cs "-emacs-pid"))].
    rewrite bind_lift_ok, bind_modify.
    eexists _, _, _. split; [reflexivity|]. ssimpl.
    split; [exact Hsame|]. split; [exact Hlen|]. repeat split; auto. }
  rewrite strprefix_at_cstring by literal_no_nul. rewrite bind_lift_ok.
  destruct (strprefix (cs "-window-system-unsupported ") m) eqn:E2.
  { rewrite retry_transition_run.
    eexists _, _, _. split; [reflexivity|]. ssimpl.
    split; [exact Hsame|]. split; [exact Hlen|]. repeat split; auto. }
  rewrite strprefix_at_cstring by literal_no_nul. rewrite bind_lift_ok.
  destruct (strprefix (cs "-print ") m) eqn:E3.
  { destruct (suppress_output (opt st)); cbn [negb].
    - repeat mstep.
      eexists _, _, _. split; [reflexivity|].
      split; [exact Hsame|]. split; [exact Hlen|]. apply after_dispatch_refl.
    - apply strprefix_split in E3. destruct E3 as [t ->].
      destruct (unquote_after_prefix st A (cs "-print ") t R Hbuf Hnul)
        as (X & Hrun & HX); [literal_no_nul|assumption|].
      rewrite !bind_assoc. rewrite (bind_ret _ _ _ _ _ Hrun).
      unfold printf. rewrite ?bind_assoc, bind_emit.
      rewrite ?bind_assoc. erewrite bind_ret by apply note_last_char_run.
      cbv beta.
      eexists _, _, X. split; [reflexivity|].
      destruct (decode_spec t); ssimpl;
        (split; [reflexivity|]); (split; [exact HX|]); repeat split; auto. }
  rewrite strprefix_at_cstring by literal_no_nul. rewrite bind_lift_ok.
  destruct (strprefix (cs "-print-nonl ") m) eqn:E4.
  { destruct (suppress_output (opt st)); cbn [negb].
    - repeat mstep.
      eexists _, _, _. split; [reflexivity|].
      split; [exact Hsame|]. split; [exact Hlen|]. apply after_dispatch_refl.
    - apply strprefix_split in E4. destruct E4 as [t ->].
      destruct (unquote_after_prefix st A (cs "-print-nonl ") t R Hbuf Hnul)
        as (X & Hrun & HX); [literal_no_nul|assumption|].
      rewrite !bind_assoc. rewrite (bind_ret _ _ _ _ _ Hrun).
      unfold printf. rewrite ?bind_assoc, bind_emit.
      rewrite ?bind_assoc. erewrite bind_ret by apply note_last_char_run.
      cbv beta.
      eexists _, _, X. split; [reflexivity|].
      destruct (decode_spec t); ssimpl;
        (split; [reflexivity|]); (split; [exact HX|]); repeat split; auto. }
  rewrite strprefix_at_cstring by literal_no_nul. rewrite bind_lift_ok.
  destruct (strprefix (cs "-error ") m) eqn:E5.
  { apply strprefix_split in E5. destruct E5 as [t ->].
    destruct (unquote_after_prefix st A (cs "-error ") t R Hbuf Hnul)
      as (X & Hrun & HX); [literal_no_nul|assumption|].
    rewrite (bind_ret _ _ _ _ _ Hrun).
    unfold printf, eprintf.
    destruct (skiplf (l st)); cbn [negb];
      repeat (first [ rewrite bind_assoc | rewrite bind_ret_l
                    | rewrite bind_emit | rewrite bind_modify
                    | erewrite bind_ret by apply note_last_char_run ];
              cbv beta);
      (eexists _, _, X; split; [reflexivity|]);
      destruct (decode_spec t); ssimpl;
        (split; [reflexivity|]); (split; [exact HX|]);
        repeat split; auto. }
  rewrite strprefix_at_cstring by literal_no_nul. rewrite bind_lift_ok.
  destruct (strprefix (cs "-suspend ") m) eqn:E6.
  { unfold printf.
    destruct (skiplf (l st)); cbn [negb]; repeat mstep;
      (eexists _, _, _; split; [reflexivity|]); ssimpl;
      (split; [exact Hsame|]); (split; [exact Hlen|]); repeat split; auto. }
  unfold read_cstring.
  rewrite (cstring_at_middle _ A m R) by (reflexivity || assumption).
  rewrite bind_lift_ok. unfold printf. repeat mstep.
  eexists _, _, _. split; [reflexivity|]. ssimpl.
  split; [exact Hsame|]. split; [exact Hlen|]. repeat split; auto.
Qed.

(** The loop over the messages of a chunk whose escapes are closed: it
    handles every message inside the chunk and returns. *)
Lemma message_loop_safe (n : nat) :
  forall body, length body <= n ->
  forall A R st fuel,
    string_buf (l st) = A ++ body ++ NUL :: R ->
    Forall (fun c => c <> NUL) body ->
    escapes_closed false body = true ->
    length body < fuel ->
    exists r st',
      message_loop fuel (Some (length A)) st = (Ret r, st')
      /\ length (string_buf (l st')) = length (string_buf (l st))
      /\ after_dispatch st st'.
Proof.
  induction n as [n IH] using lt_wf_ind.
  intros body Hn A R st fuel Hbuf Hnul Hesc Hfuel.
  destruct fuel as [|fuel]; [lia|].
  remember (length (string_buf (l st))) as len0 eqn:Hlen0.
  cbn [message_loop]. rewrite bind_get, Hbuf.
  destruct body as [|c b].
  { rewrite (load_middle _ A R NUL) by reflexivity.
    rewrite bind_lift_ok, bool_decide_eq_true_2 by reflexivity.
    eexists _, _. split; [reflexivity|]. split; [now symmetry|].
    apply after_dispatch_refl. }
  rewrite (load_middle _ A (b ++ NUL :: R) c) by reflexivity.
  rewrite bind_lift_ok.
  rewrite bool_decide_eq_false_2 by (inversion Hnul; assumption).
  destruct (first_line (c :: b)) as [Hline|(m & body' & Hsplit & Hm)].
  - (* the last message of the chunk has no newline *)
    rewrite (strchr_absent A (c :: b) R Hnul Hline).
    rewrite bind_lift_ok, bind_ret_l.
    destruct (dispatch_safe st A (c :: b) R Hbuf Hnul
                (escapes_closed_last _ false Hesc))
      as (r & st1 & X & Hrun & Hbuf1 & HX & Hframe).
    rewrite (bind_ret _ _ _ _ _ Hrun).
    assert (Hlen : length (string_buf (l st1)) = length (string_buf (l st))).
    { rewrite Hbuf1, Hbuf, ?length_app. cbn [length] in HX |- *.
      rewrite ?length_app. cbn [length]. lia. }
    rewrite <- Hlen0 in Hlen.
    destruct r.
    + simpl in Hfuel. destruct fuel as [|fuel]; [lia|].
      eexists _, _. split; [reflexivity|]. now split.
    + eexists _, _. split; [reflexivity|]. now split.
  - (* a message and its newline *)
    rewrite Hsplit in *.
    assert (Hnul_m : Forall (fun c => c <> NUL) m)
      by (apply Forall_app in Hnul; tauto).
    assert (Hnul' : Forall (fun c => c <> NUL) body').
    { apply Forall_app in Hnul. destruct Hnul as [_ H].
      now inversion H. }
    assert (Hboth : Forall (fun c => c <> NUL /\ c <> LF) m).
    { clear -Hnul_m Hm. induction m; [constructor|].
      inversion Hnul_m; inversion Hm; subst. constructor; auto. }
    destruct (escapes_closed_line m body' false Hesc) as [Hdm Hesc'].
    replace (A ++ (m ++ LF :: body') ++ NUL :: R)
      with (A ++ m ++ LF :: body' ++ NUL :: R)
      by (rewrite <- !app_assoc; reflexivity).
    rewrite (strchr_found A m (body' ++ NUL :: R) Hboth).
    rewrite bind_lift_ok, bind_assoc.
    rewrite (store_middle _ (A ++ m) (body' ++ NUL :: R) LF NUL);
      [|now rewrite <- !app_assoc|now rewrite length_app].
    rewrite bind_lift_ok. unfold set_string_buf at 1.
    rewrite bind_assoc, bind_modify, bind_ret_l.
    match goal with
    | |- context [bind (dispatch _) _ ?s1] =>
        destruct (dispatch_safe s1 A m (body' ++ NUL :: R))
          as (r & st2 & X & Hrun & Hbuf2 & HX & Hframe);
        [ssimpl; now rewrite <- app_assoc|assumption|assumption|]
    end.
    rewrite (bind_ret _ _ _ _ _ Hrun).
    assert (Hlen2 : length (string_buf (l st2)) = length (string_buf (l st))).
    { rewrite Hbuf2, Hbuf, ?length_app. cbn [length].
      rewrite ?length_app. cbn [length]. rewrite ?length_app. cbn [length].
      lia. }
    assert (Hframe2 : after_dispatch st st2).
    { destruct Hframe as (F1 & F2 & F3 & F4 & F5 & F6 & F7 & F8).
      ssimpl_in F1. ssimpl_in F2. ssimpl_in F3. ssimpl_in F4.
      ssimpl_in F5. ssimpl_in F6. ssimpl_in F7. ssimpl_in F8.
      repeat split; assumption. }
    rewrite <- Hlen0 in Hlen2.
    destruct r.
    + rewrite length_app in Hn, Hfuel. simpl in Hn, Hfuel.
      destruct (IH (length body') ltac:(lia) body' ltac:(lia)
                  (A ++ X) R st2 fuel) as (r' & st3 & Hrun3 & Hlen3 & Hframe3);
        [now rewrite <- app_assoc|assumption|assumption|lia|].
      rewrite length_app, HX in Hrun3.
      replace (S (length A + length m)) with (length A + S (length m)) by lia.
      eexists _, _. split; [exact Hrun3|]. split; [congruence|].
      now apply (after_dispatch_trans _ st2).
    + eexists _, _. split; [reflexivity|]. now split.
Qed.

(** *** Computations that keep an invariant and end well *)

Section Safe.
Context (J : state -> Prop).

Lemma safe_ret {A} (a : A) : safe J (ret a).
Proof. intros st o st' H [= <- <-]. now split. Qed.

Lemma safe_get : safe J get.
Proof. intros st o st' H [= <- <-]. now split. Qed.

Lemma safe_fail {A} : safe J (@fail A).
Proof. intros st o st' H [= <- <-]. now split. Qed.

Lemma safe_modify (f : state -> state) :
  (forall st, J st -> J (f st)) -> safe J (modify f).
Proof. intros Hf st o st' H [= <- <-]. split; [now apply Hf|exact I]. Qed.

Lemma safe_bind {A B} (m : M A) (k : A -> M B) :
  safe J m -> (forall a, safe J (k a)) -> safe J (bind m k).
Proof.
  intros Hm Hk st o st' H. unfold bind.
  destruct (m st) as [o1 st1] eqn:E1.
  destruct (Hm _ _ _ H E1) as [H1 Ho1].
  destruct o1 as [a|c| | |]; try contradiction.
  - now apply Hk.
  - intros [= <- <-]. now split.
Qed.

Lemma safe_for_each {A} (f : A -> M unit) (xs : list A) :
  (forall x, safe J (f x)) -> safe J (for_each f xs).
Proof.
  intros Hf. induction xs as [|x xs IH]; cbn [for_each].
  - apply safe_ret.
  - apply safe_bind; [apply Hf|intros _; apply IH].
Qed.

End Safe.

(** What [within] depends on. *)
Lemma within_same (n k : nat) (st st' : state) :
  os st' = os st ->
  length (string_buf (l st')) = length (string_buf (l st)) ->
  exit_status (l st') = exit_status (l st) ->
  length (send_buffer (w st')) <= SEND_BUFFER_SIZE ->
  recv_script (w st') = recv_script (w st) ->
  length (stdin (w st')) <= k ->
  within n k st -> within n k st'.
Proof.
  intros Hos Hbuf Hexit Hsend Hrecv Hin ((I1 & I2 & I0 & I3 & I4 & I5) & Hn & Hk).
  unfold within, session_inv.
  rewrite Hos, Hbuf, Hexit, Hrecv. auto 10.
Qed.

Lemma safe_emit (n k : nat) (e : event) : safe (within n k) (emit e).
Proof.
  apply safe_modify. intros st H.
  apply (within_same n k st); try reflexivity; apply H.
Qed.

Lemma safe_modify_g (n k : nat) (f : globals -> globals) :
  safe (within n k) (modify (upd_g f)).
Proof.
  apply safe_modify. intros st H.
  apply (within_same n k st); try reflexivity; apply H.
Qed.

Lemma safe_modify_skiplf (n k : nat) (b : bool) :
  safe (within n k) (modify (upd_l (with_skiplf b))).
Proof.
  apply safe_modify. intros st H.
  apply (within_same n k st); try reflexivity; apply H.
Qed.

Lemma safe_send_to_emacs (n k : nat) (s : Z) (data : list ascii) :
  safe (within n k) (send_to_emacs s data).
Proof.
  intros st o st' H Hrun.
  destruct (send_to_emacs_spec s data st o st') as (_ & Hcap & Hsame & _);
    [apply H|assumption|].
  destruct (send_to_emacs_total s data st o st') as (Ho & _);
    [apply H|apply H|assumption|].
  destruct Hsame as (A1 & A2 & A3 & A4 & A5 & A6).
  split.
  - apply (within_same n k st); try congruence.
    rewrite A6. apply H.
  - destruct Ho as [-> | ->]; exact I.
Qed.

Lemma safe_find_tty (n k : nat) (noabort : bool) :
  safe (within n k) (find_tty noabort).
Proof.
  unfold find_tty, message.
  apply safe_bind; [apply safe_get|intros st0].
  destruct (probe_tty (os st0)); try destruct noabort;
    repeat first [ apply safe_ret | apply safe_fail | apply safe_emit
                 | apply safe_bind; [|intros] ].
Qed.

(** Break a computation into its actions. *)
Ltac safe_step :=
    match goal with
    | |- safe _ (bind _ _) => apply safe_bind; [|intros]
    | |- safe _ (ret _) => apply safe_ret
    | |- safe _ get => apply safe_get
    | |- safe _ fail => apply safe_fail
    | |- safe _ (message _ _) => apply safe_emit
    | |- safe _ (printf _) => apply safe_emit
    | |- safe _ (eprintf _) => apply safe_emit
    | |- safe _ (emit _) => apply safe_emit
    | |- safe _ (modify (upd_g _)) => apply safe_modify_g
    | |- safe _ (modify (upd_l (with_skiplf _))) => apply safe_modify_skiplf
    | |- safe _ (send_to_emacs _ _) => apply safe_send_to_emacs
    | |- safe _ (quote_argument _ _) => apply safe_send_to_emacs
    | |- safe _ (find_tty _) => apply safe_find_tty
    | |- safe _ (for_each _ _) => apply safe_for_each; intros
    | |- safe _ (if ?b then _ else _) => destruct b
    | |- safe _ (match ?x with _ => _ end) => destruct x
    | |- safe _ (let '(_, _) := ?x in _) => destruct x
    end.

Ltac safe_tac := repeat safe_step.

Lemma safe_send_argument (n k : nat) (s : Z) (arg : list ascii) :
  safe (within n k) (send_argument s arg).
Proof. unfold send_argument. safe_tac. Qed.

Lemma safe_send_environment_and_dir (n k : nat) (cwd : list ascii) :
  safe (within n k) (send_environment_and_dir cwd).
Proof. unfold send_environment_and_dir. safe_tac. Qed.

Lemma safe_announce_waiting (n k : nat) : safe (within n k) announce_waiting.
Proof. unfold announce_waiting. safe_tac. Qed.

Lemma within_mono (n k n' k' : nat) (st : state) :
  n <= n' -> k <= k' -> within n k st -> within n' k' st.
Proof. intros Hn Hk (HI & H1 & H2). split; [assumption|split; lia]. Qed.

(** *** Expressions from standard input *)

Lemma read_line_spec (k : nat) :
  forall s a b,
    read_line k s = (a, b) ->
    length a <= k /\ length a + length b = length s
    /\ (0 < k -> s <> [] -> 0 < length a).
Proof.
  induction k as [|k IH]; intros s a b; simpl.
  - intros [= <- <-]. simpl. repeat split; lia.
  - destruct s as [|c s].
    { intros [= <- <-]. simpl. repeat split; try lia. congruence. }
    case_bool_decide.
    + intros [= <- <-]. simpl. repeat split; lia.
    + destruct (read_line k s) as [a' b'] eqn:E. intros [= <- <-].
      destruct (IH _ _ _ E) as (H1 & H2 & _). simpl. repeat split; lia.
Qed.

Lemma blit_length (mem bytes mem' : list ascii) (off : nat) :
  blit mem off bytes = Ok mem' -> length mem' = length mem.
Proof.
  unfold blit. case_decide as H; [|discriminate]. intros [= <-].
  rewrite !length_app, length_take, length_drop. lia.
Qed.

Lemma read_expressions_safe (fuel : nat) :
  forall n k s, k < fuel -> safe (within n k) (read_expressions fuel s).
Proof.
  induction fuel as [|fuel IH]; intros n k s Hfuel st o st' H; [lia|].
  cbn [read_expressions]. rewrite bind_get.
  destruct H as ((I1 & I2 & I0 & I3 & I4 & I5) & Hn & Hk).
  destruct (fgets (os_BUFSIZ (os st)) (stdin (w st))) as [[line rest]|] eqn:Hf.
  2:{ intros [= <- <-]. split; [|exact I]. now repeat split. }
  unfold fgets in Hf. destruct (stdin (w st)) as [|c input] eqn:Hin;
    [discriminate|].
  injection Hf as Hf. apply read_line_spec in Hf.
  destruct Hf as (Hline & Hsum & Hpos).
  specialize (Hpos ltac:(lia) ltac:(discriminate)).
  rewrite bind_modify. unfold blit.
  rewrite decide_True by (rewrite length_app; simpl; lia).
  rewrite bind_lift_ok. unfold set_string_buf. rewrite bind_modify.
  intros Hrun.
  assert (Hsafe : safe (within n (length rest))
                    (bind (send_to_emacs s (cs "-eval "))
                       (fun _ => bind (quote_argument s (until_nul line))
                                   (fun _ => read_expressions fuel s)))).
  { safe_tac. apply IH. simpl in Hsum, Hk. lia. }
  apply Hsafe in Hrun.
  - destruct Hrun as [Hin' Ho]. split; [|exact Ho].
    apply (within_mono n (length rest)); [lia| |assumption].
    simpl in Hsum, Hk. lia.
  - unfold within, session_inv. ssimpl.
    rewrite !length_app, length_take, length_drop. cbn [length Nat.add].
    repeat split; try assumption; lia.
Qed.

(** The reading of standard input in [main], with its budget. *)
Lemma safe_read_stdin (n k : nat) (s : Z) (after : M unit) :
  (forall k', safe (within n k') after) ->
  safe (within n k)
    (bind get (fun st' =>
       bind (read_expressions (S (length (stdin (w st')))) s)
            (fun _ => after))).
Proof.
  intros Hafter st o st' H. rewrite bind_get. intros Hrun.
  assert (Hsafe : safe (within n (length (stdin (w st))))
                    (bind (read_expressions (S (length (stdin (w st)))) s)
                          (fun _ => after)))
    by (apply safe_bind; [apply read_expressions_safe; lia|intros _; apply Hafter]).
  destruct H as (HI & Hn & Hk).
  apply Hsafe in Hrun; [|split; [assumption|split; [assumption|lia]]].
  destruct Hrun as [Hin Ho]. split; [|exact Ho].
  now apply (within_mono n (length (stdin (w st)))).
Qed.

Lemma safe_send_attempt (n k : nat) : safe (within n k) send_attempt.
Proof.
  unfold send_attempt.
  repeat first [ apply safe_read_stdin; intros
               | apply safe_send_argument
               | safe_step ].
Qed.

(** *** The receive loop *)

Lemma recv_calls_spec (P : recv_result -> Prop) (script : list recv_result) :
  forall cnt r rest,
    recv_calls script = (cnt, r, rest) ->
    Forall P script -> P (RecvBytes []) ->
    P r /\ Forall P rest /\ length rest <= length script
    /\ (script <> [] -> length rest < length script)
    /\ (script = [] -> r = RecvBytes []).
Proof.
  induction script as [|x script IH]; intros cnt r rest; simpl.
  - intros [= <- <- <-] _ H0. repeat split; auto. congruence.
  - intros Hrun Hall H0. inversion Hall as [|? ? Hx Hall']; subst.
    destruct x as [e|b].
    + case_bool_decide as He.
      * destruct (recv_calls script) as [[n' r'] rest'] eqn:E.
        injection Hrun as <- <- <-.
        destruct (IH _ _ _ eq_refl Hall' H0) as (H1 & H2 & H3 & _).
        repeat split; auto; try lia. discriminate.
      * injection Hrun as <- <- <-.
        repeat split; auto; try lia. discriminate.
    + injection Hrun as <- <- <-.
      repeat split; auto; try lia. discriminate.
Qed.

Lemma chunk_ok_eof (n : nat) : chunk_ok n (RecvBytes []).
Proof. simpl. repeat split; [lia|constructor]. Qed.

(** The receive loop of [main] over well-formed chunks: every pass stays
    inside [string], and the loop ends by leaving to the end of [main] or
    to [retry]; it leaves to [retry] only after a result of recv(2) was
    taken. *)
Lemma receive_loop_safe (fuel : nat) :
  forall n k st o st',
    within n k st -> n < fuel ->
    receive_loop fuel st = (o, st') ->
    (exists r, o = Ret r) /\ within n k st'
    /\ (o = Ret GotoRetry -> exists n', n = S n' /\ within n' k st').
Proof.
  induction fuel as [|fuel IH]; intros n k st o st' H Hfuel; [lia|].
  cbn [receive_loop]. rewrite bind_get.
  case_bool_decide as Hexit.
  { intros [= <- <-]. split; [now eexists|]. split; [assumption|discriminate]. }
  assert (Hok : exit_status (l st) = EXIT_SUCCESS)
    by (destruct (decide (exit_status (l st) = EXIT_SUCCESS)); tauto).
  destruct H as ((I1 & I2 & I0 & I3 & I4 & I5) & Hn & Hk).
  unfold recv_chunk. rewrite !bind_assoc, bind_get.
  destruct (recv_calls (recv_script (w st))) as [[cnt r] rest] eqn:Hcalls.
  destruct (recv_calls_spec (chunk_ok (os_BUFSIZ (os st))) _ _ _ _
              Hcalls I4 (chunk_ok_eof _)) as (Hr & Hrest & Hle & Hlt & Heof).
  rewrite !bind_assoc, bind_modify.
  destruct r as [e|b].
  - (* recv failed *)
    unfold set_errno. rewrite !bind_assoc, bind_modify, bind_modify, bind_get.
    ssimpl. rewrite (bool_decide_eq_true_2 (-1 <= 0)%Z) by lia.
    intros [= <- <-]. split; [now eexists|]. split; [|discriminate].
    unfold within, session_inv. ssimpl.
    repeat split; try assumption; lia.
  - destruct Hr as (Hb & Hbnul & Hbesc).
    unfold set_errno. rewrite !bind_assoc, bind_modify.
    unfold blit. ssimpl. rewrite decide_True by lia.
    rewrite !bind_assoc, bind_lift_ok. unfold set_string_buf at 1.
    rewrite ?bind_assoc, bind_modify, bind_modify, bind_get. ssimpl.
    rewrite take_0, Nat.add_0_l, app_nil_l.
    case_bool_decide as Hrl.
    { intros [= <- <-]. split; [now eexists|]. split; [|discriminate].
      unfold within, session_inv. ssimpl.
      rewrite length_app, length_drop.
      repeat split; try assumption; lia. }
    rewrite Nat2Z.id.
    destruct (drop (length b) (string_buf (l st))) as [|x R] eqn:Hdrop.
    { apply (f_equal length) in Hdrop. rewrite length_drop in Hdrop.
      simpl in Hdrop. lia. }
    assert (HR : length b + S (length R) = S (os_BUFSIZ (os st))).
    { apply (f_equal length) in Hdrop. rewrite length_drop in Hdrop.
      simpl in Hdrop. lia. }
    rewrite (store_middle _ b R x NUL) by reflexivity.
    rewrite bind_lift_ok. unfold set_string_buf.
    rewrite ?bind_assoc, bind_modify. ssimpl.
    match goal with
    | |- bind (message_loop ?f (Some 0)) _ ?s1 = _ -> _ =>
        destruct (message_loop_safe (length b) b (le_n _) [] R s1 f)
          as (r & st2 & Hloop & Hlen & Hframe);
        [reflexivity|assumption|assumption
        |ssimpl; rewrite length_app; simpl; lia|]
    end.
    change (length (@nil ascii)) with 0 in Hloop.
    rewrite (bind_ret _ _ _ _ _ Hloop).
    destruct Hframe as (F1 & F2 & F3 & F4 & F5 & F6 & F7 & F8).
    ssimpl_in Hlen. ssimpl_in F1. ssimpl_in F2. ssimpl_in F3. ssimpl_in F4.
    ssimpl_in F5. ssimpl_in F6. ssimpl_in F7. ssimpl_in F8.
    rewrite length_app in Hlen. simpl in Hlen.
    assert (Hnonempty : recv_script (w st) <> []).
    { intros Hnil. specialize (Heof Hnil). injection Heof as ->.
      simpl in Hrl. lia. }
    specialize (Hlt Hnonempty).
    assert (Hin2 : within (length rest) k st2).
    { unfold within, session_inv. rewrite F1, F7, F8, F5, Hlen.
      repeat split; try assumption; try lia.
      all: destruct F4 as [F4|F4]; rewrite F4; [now left|now right]. }
    destruct r.
    + intros Hrun.
      destruct (IH (length rest) k st2 o st' Hin2 ltac:(lia) Hrun)
        as (Ho & Hin' & Hretry).
      split; [assumption|].
      split; [apply (within_mono (length rest) k); [lia|lia|assumption]|].
      intros Hgo. destruct (Hretry Hgo) as (n' & Hn' & Hin'').
      destruct n as [|n0]; [lia|]. exists n0. split; [reflexivity|].
      apply (within_mono n' k); [lia|lia|assumption].
    + intros [= <- <-]. split; [now eexists|].
      split; [apply (within_mono (length rest) k); [lia|lia|assumption]|].
      intros _. destruct n as [|n0]; [lia|]. exists n0. split; [reflexivity|].
      apply (within_mono (length rest) k); [lia|lia|assumption].
Qed.

(** [main] from the label [retry] on. *)
Lemma attempts_safe (fuel : nat) :
  forall n k st o st',
    within n k st -> n < fuel ->
    attempts fuel st = (o, st') ->
    ends_well o /\ session_inv st'.
Proof.
  induction fuel as [|fuel IH]; intros n k st o st' H Hfuel; [lia|].
  cbn [attempts]. unfold bind at 1.
  destruct (send_attempt st) as [o1 st1] eqn:Hsend.
  destruct (safe_send_attempt n k _ _ _ H Hsend) as [H1 Ho1].
  destruct o1 as [[]|c| | |]; try contradiction.
  2:{ intros [= <- <-]. split; [right; now right|apply H1]. }
  unfold bind at 1.
  destruct (announce_waiting st1) as [o2 st2] eqn:Hwait.
  destruct (safe_announce_waiting n k _ _ _ H1 Hwait) as [H2 Ho2].
  destruct o2 as [[]|c| | |]; try contradiction.
  2:{ intros [= <- <-]. split; [right; now right|apply H2]. }
  unfold answer. rewrite bind_get. unfold bind at 1.
  destruct (receive_loop (S (length (recv_script (w st2)))) st2)
    as [o3 st3] eqn:Hloop.
  destruct H2 as (HI2 & Hn2 & Hk2).
  destruct (receive_loop_safe (S (length (recv_script (w st2))))
              (length (recv_script (w st2))) k st2 o3 st3)
    as ([r ->] & H3 & Hretry);
    [split; [assumption|split; [lia|assumption]]|lia|assumption|].
  destruct r.
  - rewrite bind_get. unfold printf.
    destruct H3 as ((J1 & J2 & J0 & J3 & J4 & J5) & _ & _).
    destruct (skiplf (l st3)); cbn [negb];
      case_bool_decide as Hrl; repeat mstep; intros [= <- <-];
      unfold ends_well, session_inv; ssimpl;
      (split; [|repeat split; auto]);
      try (right; now left);
      destruct J5 as [-> | ->]; auto.
  - destruct (Hretry eq_refl) as (n' & Hn' & H3').
    intros Hrun. apply (IH n' k st3 o st' H3'); [lia|assumption].
Qed.

Lemma session_safe (cwd : list ascii) (st : state) (o : outcome Z) (st' : state) :
  session_inv st -> session cwd st = (o, st') ->
  ends_well o /\ session_inv st'.
Proof.
  intros HI. unfold session. unfold bind at 1.
  destruct (send_environment_and_dir cwd st) as [o1 st1] eqn:Hsend.
  assert (H : within (length (recv_script (w st))) (length (stdin (w st))) st)
    by (split; [assumption|split; lia]).
  destruct (safe_send_environment_and_dir _ _ cwd _ _ _ H Hsend) as [H1 Ho1].
  destruct o1 as [[]|c| | |]; try contradiction.
  2:{ intros [= <- <-]. split; [right; now right|apply H1]. }
  rewrite bind_get. destruct H1 as (HI1 & Hn1 & Hk1).
  apply (attempts_safe _ (length (recv_script (w st1)))
           (length (stdin (w st1)))); [|lia].
  split; [assumption|split; lia].
Qed.

(** X21: once [main] has its socket, the session as this development
    models it comes to an end in one of three ways: [main] returns
    EXIT_SUCCESS, it returns EXIT_FAILURE, or [fail ()] is called.  It
    never exits otherwise, it never reads or writes outside [string] or the
    send buffer, and none of its loops goes on for ever: not the loop of
    [send_to_emacs], not the loop over standard input, not the loop over
    the messages of a chunk, not the receive loop, and not the jumps back
    to [retry], of which there are at most as many as there are chunks.
    This is under the assumptions of [session_inv] and of the model:
    send(2) takes bytes or fails once its scripted answers are used up (if
    it answered 0 for ever on a full buffer, the loop of [send_to_emacs]
    would not end); recv(2) yields a finite sequence of results and then
    the end of the stream, each an error or a chunk of text (no NUL byte)
    in which every [&] has its payload before the end of its message and
    of the chunk; standard input is finite; signal handlers and the
    flushing of standard output, with its repeated fdatasync, are not part
    of the model. *)
Theorem X21_session_ends_well (cwd : list ascii) (st : state) :
  session_inv st ->
  ends_well (fst (session cwd st)) /\ session_inv (snd (session cwd st)).
Proof.
  intros HI. destruct (session cwd st) as [o st'] eqn:Hrun. simpl.
  now apply (session_safe cwd st).
Qed.

(** *** Single messages *)

(** X17: a message that begins in none of the ways [main] knows is
    reported on standard output (not on standard error), behind a newline
    if the cursor is in mid-line, as [*ERROR*: Unknown message: ] and the
    message; the exit status stays as it is, and the loop goes on. *)
Theorem X17_unknown_message_is_reported
    (st : state) (A m R : list ascii) :
  string_buf (l st) = A ++ m ++ NUL :: R ->
  Forall (fun c => c <> NUL) m ->
  Forall (fun p => strprefix p m = false) known_prefixes ->
  dispatch (length A) st
  = (Ret Continue,
     upd_l (with_skiplf true)
       (upd_w (fun x =>
                 with_trace
                   (trace x
                    ++ [EvWrite Stdout
                          ((if skiplf (l st) then [] else [LF])
                           ++ cs "*ERROR*: Unknown message: " ++ m ++ [LF])])
                   x) st)).
Proof.
  intros Hbuf Hnul Hknown.
  unfold known_prefixes in Hknown.
  repeat match goal with
         | H : Forall _ (_ :: _) |- _ =>
             let H1 := fresh "E" in
             let H2 := fresh "Hk" in
             apply Forall_cons in H; destruct H as [H1 H2]
         end.
  unfold dispatch. rewrite bind_get, Hbuf.
  rewrite strprefix_at_cstring by literal_no_nul. rewrite bind_lift_ok, E.
  rewrite strprefix_at_cstring by literal_no_nul. rewrite bind_lift_ok, E0.
  rewrite strprefix_at_cstring by literal_no_nul. rewrite bind_lift_ok, E1.
  rewrite strprefix_at_cstring by literal_no_nul. rewrite bind_lift_ok, E2.
  rewrite strprefix_at_cstring by literal_no_nul. rewrite bind_lift_ok, E3.
  rewrite strprefix_at_cstring by literal_no_nul. rewrite bind_lift_ok, E4.
  unfold read_cstring.
  rewrite (cstring_at_middle _ A m R) by (reflexivity || assumption).
  rewrite bind_lift_ok. unfold printf. repeat mstep. reflexivity.
Qed.

(** X18: with [--suppress-output] the messages [-print] and [-print-nonl]
    are dropped: nothing is written, the text is not even decoded, and the
    state stays as it was. *)
Theorem X18_suppressed_output_is_dropped
    (st : state) (A pfx t R : list ascii) :
  suppress_output (opt st) = true ->
  pfx = cs "-print " \/ pfx = cs "-print-nonl " ->
  string_buf (l st) = A ++ (pfx ++ t) ++ NUL :: R ->
  dispatch (length A) st = (Ret Continue, st).
Proof.
  intros Hquiet Hpfx Hbuf.
  unfold dispatch. rewrite bind_get, Hbuf, Hquiet.
  destruct Hpfx as [-> | ->];
    repeat (rewrite strprefix_at_cstring by literal_no_nul;
            rewrite bind_lift_ok;
            match goal with
            | |- context [strprefix ?p (?q ++ t)] =>
                let b := eval vm_compute in (strprefix p q) in
                change (strprefix p (q ++ t)) with b
            end; cbv iota);
    reflexivity.
Qed.

(** *** The arguments of the command line *)

Lemma quoted_last (x : list ascii) : last (quote_text x) <> Some LF.
Proof.
  intros H. apply last_Some in H. destruct H as [pre H].
  pose proof (quote_loop_chars x 0) as Hall. unfold quote_text in H.
  rewrite H in Hall. apply Forall_app in Hall. destruct Hall as [_ Hall].
  inversion Hall as [|? ? [_ Hlf] _]. now apply Hlf.
Qed.

(** The next action is a [send_to_emacs] that is only accumulated. *)
Ltac send_piece :=
  erewrite (bind_ret (send_to_emacs _ _));
  [ cbv beta
  | apply send_to_emacs_buffered;
    [ ssimpl; rewrite ?length_app; simpl; lia
    | first [ apply quoted_last | discriminate ] ] ].

(** X15: an argument that does not start with [+] is sent as a file name
    when [--eval] is not given: [-file ], the name quoted, and a space; the
    Tramp prefix, quoted on its own, comes before the name if and only if
    there is a prefix and the name is absolute. *)
Theorem X15_file_argument (s : Z) (arg : list ascii) (st : state) :
  eval (opt st) = false ->
  head arg <> Some "+"%char ->
  length (send_buffer (w st)) + length (tramp_text st arg)
  + length (quote_text arg) + 7 < SEND_BUFFER_SIZE ->
  send_argument s arg st
  = (Ret tt,
     upd_w (with_send_buffer
              (send_buffer (w st) ++ cs "-file " ++ tramp_text st arg
               ++ quote_text arg ++ cs " ")) st).
Proof.
  intros Heval Hplus Hroom. unfold send_argument.
  rewrite bind_get, Heval.
  replace (match arg with
           | [] => false
           | c :: rest =>
               bool_decide (c = "+"%char)
               && forallb (fun d => isdigit d || bool_decide (d = COLON)) rest
           end) with false.
  2:{ destruct arg as [|c rest]; [reflexivity|].
      rewrite bool_decide_eq_false_2; [reflexivity|].
      intros ->. now apply Hplus. }
  unfold tramp_text in *. unfold quote_argument.
  send_piece.
  destruct (tramp_prefix (opt st)) as [t|];
    [destruct (file_name_absolute_p arg)|].
  - send_piece. send_piece.
    rewrite send_to_emacs_buffered;
      [|ssimpl; rewrite ?length_app; simpl; lia|discriminate].
    ssimpl. now rewrite <- !app_assoc.
  - rewrite bind_ret_l. send_piece.
    rewrite send_to_emacs_buffered;
      [|ssimpl; rewrite ?length_app; simpl; lia|discriminate].
    ssimpl. now rewrite <- !app_assoc.
  - rewrite bind_ret_l. send_piece.
    rewrite send_to_emacs_buffered;
      [|ssimpl; rewrite ?length_app; simpl; lia|discriminate].
    ssimpl. now rewrite <- !app_assoc.
Qed.

Lemma quote_loop_plain (x : list ascii) :
  forall off,
    Forall (fun c => c <> SPC /\ c <> LF /\ c <> AMP /\ c <> DASH) x ->
    quote_loop off x = x.
Proof.
  induction x as [|c x IH]; intros off H; simpl; [reflexivity|].
  inversion H as [|? ? (H1 & H2 & H3 & H4) Hx]; subst.
  rewrite !bool_decide_eq_false_2 by assumption.
  cbn [orb andb app]. now rewrite IH.
Qed.

Lemma digit_is_plain (d : ascii) :
  isdigit d = true \/ d = COLON ->
  d <> SPC /\ d <> LF /\ d <> AMP /\ d <> DASH.
Proof.
  intros [H| ->]; [|repeat split; discriminate].
  unfold isdigit in H. apply bool_decide_eq_true in H.
  repeat split; intros ->; vm_compute in H; lia.
Qed.

(** X16: an argument that is [+] followed by digits and colons only (a
    line, or a line and a column; a lone [+] too) is sent as a position
    when [--eval] is not given: [-position ], the argument as it is, and a
    space.  The Tramp prefix is not put before it. *)
Theorem X16_position_argument (s : Z) (rest : list ascii) (st : state) :
  eval (opt st) = false ->
  Forall (fun d => isdigit d = true \/ d = COLON) rest ->
  length (send_buffer (w st)) + length rest + 12 < SEND_BUFFER_SIZE ->
  send_argument s ("+"%char :: rest) st
  = (Ret tt,
     upd_w (with_send_buffer
              (send_buffer (w st) ++ cs "-position " ++ "+"%char :: rest
               ++ cs " ")) st).
Proof.
  intros Heval Hrest Hroom. unfold send_argument.
  rewrite bind_get, Heval.
  rewrite (bool_decide_eq_true_2 ("+"%char = "+"%char)) by reflexivity.
  replace (forallb (fun d => isdigit d || bool_decide (d = COLON)) rest)
    with true.
  2:{ symmetry. apply forallb_forall. intros d Hd.
      apply list_elem_of_In in Hd.
      apply (proj1 (Forall_forall _ _) Hrest) in Hd.
      destruct Hd as [Hd | ->]; [now rewrite Hd|].
      rewrite bool_decide_eq_true_2 by reflexivity. apply orb_true_r. }
  cbn [andb]. unfold quote_argument.
  assert (Hq : quote_text ("+"%char :: rest) = "+"%char :: rest).
  { unfold quote_text. apply quote_loop_plain.
    constructor; [repeat split; discriminate|].
    eapply Forall_impl; [exact Hrest|]. apply digit_is_plain. }
  rewrite Hq.
  send_piece.
  erewrite (bind_ret (send_to_emacs _ _));
    [cbv beta
    |apply send_to_emacs_buffered;
     [ssimpl; rewrite ?length_app; simpl; lia
     |rewrite <- Hq; apply quoted_last]].
  rewrite send_to_emacs_buffered;
    [|ssimpl; rewrite ?length_app; simpl; rewrite ?length_app; simpl; lia
     |discriminate].
  ssimpl. now rewrite <- !app_assoc.
Qed.

(** *** The end of the stream *)

(** Results EINTR in front of the results to come change nothing but the
    number of calls. *)
Lemma recv_calls_interrupted (j : nat) (script : list recv_result) :
  recv_calls (replicate j (RecvErr EINTR) ++ script)
  = (j + fst (fst (recv_calls script)), snd (fst (recv_calls script)),
     snd (recv_calls script)).
Proof.
  induction j as [|j IH]; simpl.
  - now destruct (recv_calls script) as [[n r] rest].
  - now rewrite IH.
Qed.

(** X19: a recv(2) that a signal interrupts is called again, any number of
    times.  When recv(2) then reports the end of the stream, [main] returns
    the exit status it has (here EXIT_SUCCESS: no [-error] came before);
    when it fails with an error other than EINTR, [main] returns
    EXIT_FAILURE.  Either way it first ends the line on standard output if
    the cursor is in mid-line, and closes the socket. *)
Theorem X19_end_of_stream
    (retry : M Z) (st : state) (j : nat) (r : recv_result)
    (rest : list recv_result) :
  exit_status (l st) = EXIT_SUCCESS ->
  recv_script (w st) = replicate j (RecvErr EINTR) ++ r :: rest ->
  ends_stream r ->
  exists st',
    answer retry st
    = (Ret (match r with
            | RecvErr _ => EXIT_FAILURE
            | RecvBytes _ => EXIT_SUCCESS
            end), st')
    /\ trace (w st')
       = trace (w st)
         ++ replicate (j + 1) (EvRecv (emacs_socket (g st)))
         ++ (if skiplf (l st) then [] else [EvWrite Stdout [LF]])
         ++ [EvClose (emacs_socket (g st))]
    /\ recv_script (w st') = rest.
Proof.
  intros Hexit Hscript Hend. unfold answer. rewrite bind_get.
  cbn [receive_loop]. rewrite !bind_assoc, bind_get.
  rewrite bool_decide_eq_false_2 by (intros H; now apply H).
  unfold recv_chunk. rewrite !bind_assoc, bind_get, Hscript.
  rewrite recv_calls_interrupted.
  destruct r as [e|b]; simpl in Hend.
  - cbn [recv_calls]. rewrite bool_decide_eq_false_2 by assumption.
    cbn [fst snd].
    unfold set_errno, printf. repeat mstep.
    rewrite (bool_decide_eq_true_2 (-1 <= 0)%Z) by lia. repeat mstep.
    rewrite (bool_decide_eq_true_2 (-1 < 0)%Z) by lia.
    destruct (skiplf (l st)); cbn [negb]; repeat mstep;
      (eexists; split; [reflexivity|]); ssimpl;
      (split; [now rewrite <- !app_assoc|reflexivity]).
  - subst b. cbn [recv_calls fst snd]. unfold set_errno, printf, blit.
    rewrite decide_True by (simpl; lia).
    unfold set_string_buf. repeat mstep.
    rewrite bind_lift_ok. cbn [length Z.of_nat]. repeat mstep.
    rewrite (bool_decide_eq_true_2 (0 <= 0)%Z) by lia. repeat mstep.
    rewrite (bool_decide_eq_false_2 (0 < 0)%Z) by lia.
    destruct (skiplf (l st)); cbn [negb]; repeat mstep;
      (eexists; split; [rewrite Hexit; reflexivity|]); ssimpl;
      (split; [now rewrite <- !app_assoc|reflexivity]).
Qed.

End SessionMore.

(** ** Session controller: the retry *)

Module RetryProofs.
Import Codec CodecProofs TransportProofs TransportMore DispatchProofs
  ResolverMore SessionMore.

Lemma same_frame_refl (a : globals) : same_frame a a.
Proof. repeat split. Qed.

Lemma same_frame_trans (a b c : globals) :
  same_frame a b -> same_frame b c -> same_frame a c.
Proof.
  intros (A1 & A2 & A3 & A4 & A5 & A6) (B1 & B2 & B3 & B4 & B5 & B6).
  repeat split; congruence.
Qed.

Lemma undisturbed_refl (st : state) : undisturbed st st.
Proof.
  repeat split; auto. exists []. split; [now rewrite app_nil_r|constructor].
Qed.

Lemma undisturbed_trans (st1 st2 st3 : state) :
  undisturbed st1 st2 -> undisturbed st2 st3 -> undisturbed st1 st3.
Proof.
  intros (A1 & A2 & A3 & A4 & A5 & A6 & A7 & A8 & A9 & ea & Atr & Aev)
         (B1 & B2 & B3 & B4 & B5 & B6 & B7 & B8 & B9 & eb & Btr & Bev).
  split; [congruence|]. split; [congruence|].
  split; [now apply (same_frame_trans _ (g st2))|].
  split; [congruence|].
  split; [destruct B5 as [B5|B5]; [rewrite B5; exact A5|now right]|].
  split; [congruence|]. split; [congruence|]. split; [congruence|].
  split; [congruence|].
  exists (ea ++ eb). split; [rewrite Btr, Atr; now rewrite app_assoc|].
  apply Forall_app. now split.
Qed.

Section Yields.
Context (R : state -> state -> Prop).
Hypothesis R_refl : forall st, R st st.
Hypothesis R_trans : forall a b c, R a b -> R b c -> R a c.

Lemma yields_ret {A} (Q : A -> Prop) (a : A) : Q a -> yields R Q (ret a).
Proof. intros Ha st o st' [= <- <-]. split; [apply R_refl|]. now intros ? [= <-]. Qed.

Lemma yields_get : yields R any get.
Proof. intros st o st' [= <- <-]. split; [apply R_refl|]. now intros. Qed.

Lemma yields_stop {A} (Q : A -> Prop) (o : outcome A) :
  (forall a, o <> Ret a) -> yields R Q (stop o).
Proof.
  intros Ho st o' st' [= <- <-]. split; [apply R_refl|].
  intros a Ha. now destruct (Ho a).
Qed.

Lemma yields_lift {A} (a : access A) : yields R any (lift_access a).
Proof.
  intros st o st' Hrun. destruct a; injection Hrun as <- <-;
    (split; [apply R_refl|]); now intros.
Qed.

Lemma yields_modify (f : state -> state) :
  (forall st, R st (f st)) -> yields R any (modify f).
Proof. intros Hf st o st' [= <- <-]. split; [apply Hf|]. now intros. Qed.

Lemma yields_bind {A B} (Q : B -> Prop) (m : M A) (k : A -> M B) :
  yields R any m -> (forall a, yields R Q (k a)) -> yields R Q (bind m k).
Proof.
  intros Hm Hk st o st'. unfold bind.
  destruct (m st) as [o1 st1] eqn:E1.
  destruct (Hm _ _ _ E1) as [H1 _].
  destruct o1 as [a|c| | |]; try (intros [= <- <-]; split; [assumption|];
                                  intros; discriminate).
  intros E2. destruct (Hk a _ _ _ E2) as [H2 HQ].
  split; [now apply (R_trans _ st1)|assumption].
Qed.

End Yields.


(** The changes of the state that leave it undisturbed. *)
Lemma undisturbed_upd_l (f : locals -> locals) (st : state) :
  (forall x, rl (f x) = rl x) ->
  (forall x, exit_status (f x) = exit_status x
             \/ exit_status (f x) = EXIT_FAILURE) ->
  undisturbed st (upd_l f st).
Proof.
  intros Hrl Hex. unfold undisturbed. ssimpl.
  split; [reflexivity|]. split; [reflexivity|].
  split; [apply same_frame_refl|]. split; [apply Hrl|].
  split; [apply Hex|]. repeat (split; [reflexivity|]).
  exists []. split; [now rewrite app_nil_r|constructor].
Qed.

Lemma undisturbed_pid (v : Z) (st : state) :
  undisturbed st (upd_g (with_emacs_pid v) st).
Proof.
  unfold undisturbed. ssimpl. repeat (split; [reflexivity|]).
  split; [repeat split|]. repeat (split; [auto|]).
  exists []. split; [now rewrite app_nil_r|constructor].
Qed.

Lemma undisturbed_emit (e : event) (st : state) :
  local_event e ->
  undisturbed st (upd_w (fun x => with_trace (trace x ++ [e]) x) st).
Proof.
  intros He. unfold undisturbed. ssimpl. repeat (split; [reflexivity|]).
  split; [apply same_frame_refl|]. repeat (split; [auto|]).
  exists [e]. split; [reflexivity|]. now constructor.
Qed.

(** Break the handling of a message into its actions. *)
Ltac yields_step :=
  match goal with
  | |- yields _ _ (bind _ _) =>
      apply (yields_bind undisturbed undisturbed_trans);
      [|intros]
  | |- yields _ _ (ret _) =>
      apply (yields_ret undisturbed undisturbed_refl); first [exact I|reflexivity]
  | |- yields _ _ get => apply (yields_get undisturbed undisturbed_refl)
  | |- yields _ _ (lift_access _) =>
      apply (yields_lift undisturbed undisturbed_refl)
  | |- yields _ _ (modify (upd_g (with_emacs_pid _))) =>
      apply yields_modify; intros; apply undisturbed_pid
  | |- yields _ _ (modify (upd_l _)) =>
      apply yields_modify; intros; apply undisturbed_upd_l; intros;
      first [reflexivity | now left | now right]
  | |- yields _ _ (modify (upd_w _)) =>
      apply yields_modify; intros; apply undisturbed_emit; exact I
  | |- yields _ _ (if ?b then _ else _) => destruct b
  | |- yields _ _ (match ?x with _ => _ end) => destruct x
  end.

Ltac yields_tac := repeat yields_step.

(** A message that is not a [-window-system-unsupported] is handled
    without a jump, and leaves the state undisturbed, however its handling
    ends. *)
Lemma dispatch_passes (st : state) (A m R : list ascii) :
  string_buf (l st) = A ++ m ++ NUL :: R ->
  Forall (fun c => c <> NUL) m ->
  strprefix (cs "-window-system-unsupported ") m = false ->
  forall o st',
    dispatch (length A) st = (o, st') ->
    undisturbed st st' /\ forall r, o = Ret r -> r = Continue.
Proof.
  intros Hbuf Hnul Hnot o st'.
  unfold dispatch. rewrite bind_get, Hbuf.
  rewrite strprefix_at_cstring by literal_no_nul. rewrite bind_lift_ok.
  destruct (strprefix (cs "-emacs-pid ") m) eqn:E1.
  { intros Hrun.
    match type of Hrun with
    | ?c st = _ =>
        assert (Hy : yields undisturbed (fun r => r = Continue) c)
    end.
    { yields_tac. }
    exact (Hy _ _ _ Hrun). }
  rewrite strprefix_at_cstring by literal_no_nul. rewrite bind_lift_ok, Hnot.
  intros Hrun.
  match type of Hrun with
  | ?c st = _ =>
      assert (Hy : yields undisturbed (fun r => r = Continue) c)
  end.
  { unfold unquote_in_string, note_last_char, printf, eprintf, emit,
      set_string_buf.
    yields_tac. }
  exact (Hy _ _ _ Hrun).
Qed.

(** The message loop over messages that pass on and then a
    [-window-system-unsupported ]: the messages before are handled, which
    leaves the state undisturbed, and the loop is left by the jump. *)
Lemma message_loop_walk (msgs : list (list ascii)) :
  forall A X st fuel,
    string_buf (l st)
    = A ++ lines msgs ++ cs "-window-system-unsupported " ++ X ->
    NUL ∈ X -> Forall passes_on msgs -> length msgs < fuel ->
    exists st1 mem,
      undisturbed st st1
      /\ message_loop fuel (Some (length A)) st
         = (Ret GotoRetry,
            upd_g (fun x =>
                     match alt_display (g st1) with
                     | Some d => with_alt_display None (with_display (Some d) x)
                     | None => with_tty true (with_nowait false x)
                     end)
                  (upd_l (with_string_buf mem) st1)).
Proof.
  induction msgs as [|m ms IH]; intros A X st fuel Hbuf HX Hall Hfuel.
  - destruct fuel as [|fuel]; [simpl in Hfuel; lia|].
    destruct (message_loop_unsupported fuel st A X Hbuf HX) as [mem Hrun].
    exists st, mem. split; [apply undisturbed_refl|exact Hrun].
  - destruct fuel as [|fuel]; [simpl in Hfuel; lia|].
    inversion Hall as [|? ? (Hm & Hd & Hnot) Hms]; subst.
    set (post := lines ms ++ cs "-window-system-unsupported " ++ X).
    assert (Hbuf' : string_buf (l st) = A ++ m ++ LF :: post).
    { rewrite Hbuf. unfold post, lines. cbn [map concat].
      now rewrite <- !app_assoc. }
    assert (Hnul : Forall (fun c => c <> NUL) m).
    { clear -Hm. induction Hm as [|? ? [? ?]]; constructor; auto. }
    assert (Hload : exists c,
               load (string_buf (l st)) (length A) = Ok c /\ c <> NUL).
    { rewrite Hbuf'. destruct m as [|c m'].
      - exists LF. split; [now apply (load_middle _ A post)|discriminate].
      - exists c. split; [now apply (load_middle _ A (m' ++ LF :: post))|].
        now inversion Hnul. }
    destruct Hload as (c & Hload & Hc).
    cbn [message_loop]. rewrite bind_get, Hload.
    rewrite bind_lift_ok, bool_decide_eq_false_2 by assumption.
    rewrite Hbuf', (strchr_found A m post Hm), bind_lift_ok, bind_assoc.
    rewrite (store_middle _ (A ++ m) post LF NUL);
      [|now rewrite <- !app_assoc|now rewrite length_app].
    rewrite bind_lift_ok. unfold set_string_buf at 1.
    rewrite bind_assoc, bind_modify, bind_ret_l.
    match goal with
    | |- context [bind (dispatch _) _ ?s1] =>
        destruct (dispatch_safe s1 A m post)
          as (r & st2 & Xm & Hrun & Hbuf2 & HXm & Hframe);
        [ssimpl; now rewrite <- app_assoc|assumption|assumption|];
        destruct (dispatch_passes s1 A m post) with (o := Ret r) (st' := st2)
          as [Hu Hr];
        [ssimpl; now rewrite <- app_assoc|assumption|assumption|exact Hrun|];
        assert (Hu1 : undisturbed st s1)
          by (apply undisturbed_upd_l; intros; now left || reflexivity)
    end.
    rewrite (Hr r eq_refl) in Hrun.
    rewrite (bind_ret _ _ _ _ _ Hrun).
    destruct (IH (A ++ Xm) X st2 fuel) as (st3 & mem & Hu3 & Hrun3);
      [rewrite Hbuf2; unfold post; now rewrite <- !app_assoc
      |assumption|assumption|simpl in Hfuel; lia|].
    rewrite length_app, HXm in Hrun3.
    replace (S (length A + length m)) with (length A + S (length m)) by lia.
    exists st3, mem. split; [|exact Hrun3].
    eapply undisturbed_trans; [exact Hu1|].
    eapply undisturbed_trans; [exact Hu|exact Hu3].
Qed.

Lemma lines_length (msgs : list (list ascii)) :
  length msgs <= length (lines msgs).
Proof.
  unfold lines. induction msgs as [|m ms IH]; [reflexivity|].
  cbn [map concat]. rewrite !length_app. simpl. lia.
Qed.

(** The retry transition, taken after messages that left the frame as it
    was. *)
Lemma retry_after_undisturbed (a b : globals) :
  same_frame a b ->
  retry_transition a
    match alt_display b with
    | Some d => with_alt_display None (with_display (Some d) b)
    | None => with_tty true (with_nowait false b)
    end.
Proof.
  intros (F1 & F2 & F3 & F4 & F5 & F6). unfold retry_transition.
  rewrite <- F3. destruct (alt_display b) eqn:E; simpl; rewrite ?E;
    repeat split; congruence.
Qed.

(** What follows a computation that touches the input/output part only,
    when it cannot return from any state that differs in that part. *)
Lemma bind_cannot_return {A B} (m : M A) (k : A -> M B) (st : state) :
  only_w m ->
  (forall a f b, fst (k a (upd_w f st)) <> Ret b) ->
  forall b, fst (bind m k st) <> Ret b.
Proof.
  intros Hm Hk b. unfold bind. destruct (m st) as [o st1] eqn:E.
  destruct (Hm _ _ _ E) as [f ->].
  destruct o; try discriminate. apply Hk.
Qed.

(** With terminal mode set, a frame or a file to show, and no usable
    terminal, an attempt does not get to its end: [find_tty] calls
    [fail ()], if nothing before did. *)
Lemma send_attempt_needs_tty (st : state) :
  tty (g st) = true ->
  create_frame (opt st) || negb (eval (opt st)) = true ->
  (forall ty nm, probe_tty (os st) <> UsableTty ty nm) ->
  forall b, fst (send_attempt st) <> Ret b.
Proof.
  intros Ht Hc Hp. unfold send_attempt. rewrite bind_get.
  do 5 (apply bind_cannot_return;
        [unfold quote_argument; only_w_tac; apply only_w_send_to_emacs
        |intros ? ?]).
  rewrite Hc, Ht. cbn [negb]. intros b. rewrite !bind_assoc.
  unfold find_tty at 1. rewrite !bind_assoc, bind_get. ssimpl.
  destruct (probe_tty (os st)) as [| | |ty nm] eqn:E;
    try (unfold message, emit; rewrite !bind_assoc, bind_modify;
         simpl; discriminate).
  now destruct (Hp ty nm).
Qed.

Lemma local_is_quiet (s : Z) (e : event) : local_event e -> quiet_event s e.
Proof. destruct e; simpl; tauto. Qed.

Lemma status_kept_refl (st : state) : status_kept st st.
Proof. reflexivity. Qed.

Lemma status_kept_trans (a b c : state) :
  status_kept a b -> status_kept b c -> status_kept a c.
Proof. unfold status_kept. congruence. Qed.

(** Break the handling of a message into its actions. *)
Ltac status_step :=
  match goal with
  | |- yields _ _ (bind _ _) =>
      apply (yields_bind status_kept status_kept_trans); [|intros]
  | |- yields _ _ (ret _) =>
      apply (yields_ret status_kept status_kept_refl); exact I
  | |- yields _ _ get => apply (yields_get status_kept status_kept_refl)
  | |- yields _ _ (lift_access _) =>
      apply (yields_lift status_kept status_kept_refl)
  | |- yields _ _ (modify _) => apply yields_modify; intros; reflexivity
  | |- yields _ _ (if ?b then _ else _) => destruct b
  | |- yields _ _ (match ?x with _ => _ end) => destruct x
  end.

(** A message that is neither an [-error] nor a
    [-window-system-unsupported] leaves the exit status as it is. *)
Lemma dispatch_keeps_status (st : state) (A m R : list ascii) :
  string_buf (l st) = A ++ m ++ NUL :: R ->
  strprefix (cs "-window-system-unsupported ") m = false ->
  strprefix (cs "-error ") m = false ->
  forall o st', dispatch (length A) st = (o, st') -> status_kept st st'.
Proof.
  intros Hbuf Hnot Herr o st'.
  unfold dispatch. rewrite bind_get, Hbuf.
  assert (Hrest : forall c : M flow,
             yields status_kept any c -> c st = (o, st') -> status_kept st st').
  { intros c Hc Hrun. exact (proj1 (Hc _ _ _ Hrun)). }
  unfold unquote_in_string, note_last_char, printf, eprintf, emit,
    set_string_buf.
  rewrite strprefix_at_cstring by literal_no_nul. rewrite bind_lift_ok.
  destruct (strprefix (cs "-emacs-pid ") m);
    [apply Hrest; repeat status_step|].
  rewrite strprefix_at_cstring by literal_no_nul. rewrite bind_lift_ok, Hnot.
  rewrite strprefix_at_cstring by literal_no_nul. rewrite bind_lift_ok.
  destruct (strprefix (cs "-print ") m);
    [apply Hrest; repeat status_step|].
  rewrite strprefix_at_cstring by literal_no_nul. rewrite bind_lift_ok.
  destruct (strprefix (cs "-print-nonl ") m);
    [apply Hrest; repeat status_step|].
  rewrite strprefix_at_cstring by literal_no_nul. rewrite bind_lift_ok, Herr.
  apply Hrest; repeat status_step.
Qed.

(** The message loop over a chunk of harmless messages: all are handled,
    the state is left undisturbed, and the exit status is as it was. *)
Lemma message_loop_through (msgs : list (list ascii)) :
  forall A R st fuel,
    string_buf (l st) = A ++ lines msgs ++ NUL :: R ->
    Forall harmless msgs -> length msgs < fuel ->
    exists st1,
      message_loop fuel (Some (length A)) st = (Ret Continue, st1)
      /\ undisturbed st st1 /\ status_kept st st1
      /\ length (string_buf (l st1)) = length (string_buf (l st)).
Proof.
  induction msgs as [|m ms IH]; intros A R st fuel Hbuf Hall Hfuel.
  - destruct fuel as [|fuel]; [simpl in Hfuel; lia|].
    cbn [message_loop]. rewrite bind_get.
    rewrite (load_middle _ A R NUL (length A) Hbuf eq_refl).
    rewrite bind_lift_ok, bool_decide_eq_true_2 by reflexivity.
    exists st. split; [reflexivity|]. split; [apply undisturbed_refl|].
    split; reflexivity.
  - destruct fuel as [|fuel]; [simpl in Hfuel; lia|].
    inversion Hall as [|? ? ((Hm & Hd & Hnot) & Herr) Hms]; subst.
    set (post := lines ms ++ NUL :: R).
    assert (Hbuf' : string_buf (l st) = A ++ m ++ LF :: post).
    { rewrite Hbuf. unfold post, lines. cbn [map concat].
      now rewrite <- !app_assoc. }
    assert (Hnul : Forall (fun c => c <> NUL) m).
    { clear -Hm. induction Hm as [|? ? [? ?]]; constructor; auto. }
    assert (Hload : exists c,
               load (string_buf (l st)) (length A) = Ok c /\ c <> NUL).
    { rewrite Hbuf'. destruct m as [|c m'].
      - exists LF. split; [now apply (load_middle _ A post)|discriminate].
      - exists c. split; [now apply (load_middle _ A (m' ++ LF :: post))|].
        now inversion Hnul. }
    destruct Hload as (c & Hload & Hc).
    cbn [message_loop]. rewrite bind_get, Hload.
    rewrite bind_lift_ok, bool_decide_eq_false_2 by assumption.
    rewrite Hbuf', (strchr_found A m post Hm), bind_lift_ok, bind_assoc.
    rewrite (store_middle _ (A ++ m) post LF NUL);
      [|now rewrite <- !app_assoc|now rewrite length_app].
    rewrite bind_lift_ok. unfold set_string_buf at 1.
    rewrite bind_assoc, bind_modify, bind_ret_l.
    match goal with
    | |- context [bind (dispatch _) _ ?s1] =>
        destruct (dispatch_safe s1 A m post)
          as (r & st2 & Xm & Hrun & Hbuf2 & HXm & Hframe);
        [ssimpl; now rewrite <- app_assoc|assumption|assumption|];
        destruct (dispatch_passes s1 A m post) with (o := Ret r) (st' := st2)
          as [Hu Hr];
        [ssimpl; now rewrite <- app_assoc|assumption|assumption|exact Hrun|];
        assert (Hk : status_kept s1 st2)
          by (apply (dispatch_keeps_status s1 A m post) with (o := Ret r);
              [ssimpl; now rewrite <- app_assoc|assumption|assumption
              |exact Hrun]);
        assert (Hu1 : undisturbed st s1)
          by (apply undisturbed_upd_l; intros; now left || reflexivity)
    end.
    rewrite (Hr r eq_refl) in Hrun.
    rewrite (bind_ret _ _ _ _ _ Hrun).
    destruct (IH (A ++ Xm) R st2 fuel) as (st3 & Hrun3 & Hu3 & Hk3 & Hlen3);
      [rewrite Hbuf2; unfold post; now rewrite <- !app_assoc
      |assumption|simpl in Hfuel; lia|].
    rewrite length_app, HXm in Hrun3.
    replace (S (length A + length m)) with (length A + S (length m)) by lia.
    exists st3. split; [exact Hrun3|].
    split.
    { eapply undisturbed_trans; [exact Hu1|].
      eapply undisturbed_trans; [exact Hu|exact Hu3]. }
    split.
    { unfold status_kept in *. rewrite Hk3, Hk. reflexivity. }
    rewrite Hlen3, Hbuf2. rewrite !length_app. cbn [length].
    rewrite HXm. lia.
Qed.

(** What a pass of the receive loop that reads a chunk does before the
    message loop. *)
Lemma receive_loop_reads
    (st : state) (j : nat) (chunk R : list ascii) (x : ascii)
    (rest : list recv_result) (n : nat) :
  exit_status (l st) = EXIT_SUCCESS ->
  recv_script (w st) = replicate j (RecvErr EINTR) ++ RecvBytes chunk :: rest ->
  0 < length chunk ->
  drop (length chunk) (string_buf (l st)) = x :: R ->
  receive_loop (S n) st
  = bind (message_loop (S (length (chunk ++ NUL :: R))) (Some 0))
      (fun r => match r with
                | GotoRetry => ret GotoRetry
                | Continue => receive_loop n
                end)
      (upd_l (with_string_buf (chunk ++ NUL :: R))
         (upd_l (with_rl (Z.of_nat (length chunk)))
            (upd_l (with_string_buf (chunk ++ x :: R))
               (upd_w (with_errno 0)
                  (upd_w (fun y =>
                            with_trace
                              (trace y
                               ++ replicate (j + 1)
                                    (EvRecv (emacs_socket (g st))))
                              (with_recv_script rest y))
                     st))))).
Proof.
  intros Hexit Hscript Hlong Hdrop.
  assert (Hroom : length chunk < length (string_buf (l st))).
  { apply (f_equal length) in Hdrop. rewrite length_drop in Hdrop.
    simpl in Hdrop. lia. }
  cbn [receive_loop]. rewrite bind_get.
  rewrite bool_decide_eq_false_2 by (intros H; now apply H).
  unfold recv_chunk. rewrite !bind_assoc, bind_get, Hscript.
  rewrite recv_calls_interrupted. cbn [recv_calls fst snd].
  rewrite !bind_assoc, bind_modify.
  unfold set_errno. rewrite !bind_assoc, bind_modify.
  unfold blit. rewrite decide_True by lia.
  rewrite !bind_assoc, bind_lift_ok. unfold set_string_buf at 1.
  rewrite !bind_assoc, bind_modify, bind_modify, bind_get. ssimpl.
  rewrite bool_decide_eq_false_2 by lia.
  rewrite Nat2Z.id, Nat.add_0_l, take_0, Hdrop, app_nil_l.
  rewrite (store_middle _ chunk R x NUL) by reflexivity.
  rewrite ?bind_assoc, bind_lift_ok. unfold set_string_buf.
  rewrite ?bind_assoc, bind_modify. ssimpl. reflexivity.
Qed.

Lemma drop_in_room (chunk mem : list ascii) :
  length chunk < length mem -> exists x R, drop (length chunk) mem = x :: R.
Proof.
  intros H. destruct (drop (length chunk) mem) as [|x R] eqn:Hdrop; [|eauto].
  apply (f_equal length) in Hdrop. rewrite length_drop in Hdrop.
  simpl in Hdrop. lia.
Qed.

(** What a pass of the receive loop leaves of the state when it does not
    end the loop, and what the whole loop leaves when it ends by the
    jump. *)
Lemma quiet_events_recv (s : Z) (n : nat) (evs : list event) :
  Forall local_event evs ->
  Forall (quiet_event s) (replicate n (EvRecv s) ++ evs).
Proof.
  intros H. apply Forall_app. split.
  - apply Forall_replicate. reflexivity.
  - eapply Forall_impl; [exact H|]. apply local_is_quiet.
Qed.

(** A quiet pass: the receive loop goes on with its next pass. *)
Lemma receive_loop_quiet_pass
    (st : state) (p : nat * list (list ascii)) (rest : list recv_result) :
  exit_status (l st) = EXIT_SUCCESS ->
  recv_script (w st) = pass_script p ++ rest ->
  quiet_pass (length (string_buf (l st))) p ->
  exists st1,
    (forall n, receive_loop (S n) st = receive_loop n st1)
    /\ exit_status (l st1) = EXIT_SUCCESS
    /\ length (string_buf (l st1)) = length (string_buf (l st))
    /\ same_frame (g st) (g st1)
    /\ (exists evs,
          trace (w st1) = trace (w st) ++ evs
          /\ Forall (quiet_event (emacs_socket (g st))) evs)
    /\ send_buffer (w st1) = send_buffer (w st)
    /\ send_script (w st1) = send_script (w st)
    /\ recv_script (w st1) = rest
    /\ stdin (w st1) = stdin (w st)
    /\ os st1 = os st /\ opt st1 = opt st.
Proof.
  destruct p as [j ms]. unfold pass_script, quiet_pass. cbn [fst snd].
  intros Hexit Hscript (Hne & Hall & Hroom).
  rewrite <- app_assoc in Hscript. cbn [app] in Hscript.
  assert (Hlong : 0 < length (lines ms)).
  { pose proof (lines_length ms). destruct ms; [congruence|simpl in *; lia]. }
  destruct (drop_in_room _ _ Hroom) as (x & R & Hdrop).
  pose proof (fun n => receive_loop_reads st j (lines ms) R x rest n
                         Hexit Hscript Hlong Hdrop) as Hpass.
  match type of Hpass with
  | forall n, _ = bind (message_loop ?f _) _ ?s0 =>
      destruct (message_loop_through ms [] R s0 f)
        as (st1 & Hrun & Hu & Hk & Hlen)
  end.
  { ssimpl. reflexivity. }
  { assumption. }
  { pose proof (lines_length ms). rewrite !length_app. cbn [length]. lia. }
  change (length (@nil ascii)) with 0 in Hrun.
  destruct Hu as (U1 & U2 & U3 & U4 & U5 & U6 & U7 & U8 & U9 & evs & Utr & Uev).
  unfold status_kept in Hk.
  ssimpl_in U1. ssimpl_in U2. ssimpl_in U3. ssimpl_in U6.
  ssimpl_in U7. ssimpl_in U8. ssimpl_in U9. ssimpl_in Utr. ssimpl_in Hk.
  ssimpl_in Hlen.
  exists st1.
  split.
  { intros n. rewrite Hpass. rewrite (bind_ret _ _ _ _ _ Hrun). reflexivity. }
  split; [congruence|].
  split.
  { rewrite Hlen, !length_app. cbn [length].
    apply (f_equal length) in Hdrop. rewrite length_drop in Hdrop.
    simpl in Hdrop. lia. }
  split; [assumption|].
  split.
  { exists (replicate (j + 1) (EvRecv (emacs_socket (g st))) ++ evs).
    split; [rewrite Utr; now rewrite <- app_assoc|].
    now apply quiet_events_recv. }
  repeat (split; [assumption|]). assumption.
Qed.

(** The pass that reads the [-window-system-unsupported]: the receive
    loop is left by the jump. *)
Lemma receive_loop_retry_pass
    (st : state) (j : nat) (msgs : list (list ascii)) (more : list ascii)
    (rest : list recv_result) :
  exit_status (l st) = EXIT_SUCCESS ->
  recv_script (w st)
  = replicate j (RecvErr EINTR)
    ++ RecvBytes (lines msgs ++ cs "-window-system-unsupported " ++ more)
       :: rest ->
  Forall passes_on msgs ->
  length (lines msgs ++ cs "-window-system-unsupported " ++ more)
  < length (string_buf (l st)) ->
  exists st',
    (forall n, receive_loop (S n) st = (Ret GotoRetry, st'))
    /\ retry_transition (g st) (g st')
    /\ (exists evs,
          trace (w st') = trace (w st) ++ evs
          /\ Forall (quiet_event (emacs_socket (g st))) evs)
    /\ send_buffer (w st') = send_buffer (w st)
    /\ send_script (w st') = send_script (w st)
    /\ recv_script (w st') = rest
    /\ stdin (w st') = stdin (w st)
    /\ os st' = os st /\ opt st' = opt st
    /\ (exit_status (l st') = EXIT_SUCCESS
        \/ exit_status (l st') = EXIT_FAILURE).
Proof.
  intros Hexit Hscript Hall Hroom.
  set (chunk := lines msgs ++ cs "-window-system-unsupported " ++ more) in *.
  assert (Hlong : 0 < length chunk).
  { unfold chunk. rewrite !length_app. simpl. lia. }
  destruct (drop_in_room _ _ Hroom) as (x & R & Hdrop).
  pose proof (fun n => receive_loop_reads st j chunk R x rest n
                         Hexit Hscript Hlong Hdrop) as Hpass.
  match type of Hpass with
  | forall n, _ = bind (message_loop ?f _) _ ?s0 =>
      destruct (message_loop_walk msgs [] (more ++ NUL :: R) s0 f)
        as (st1 & mem & Hu & Hrun)
  end.
  { ssimpl. unfold chunk. now rewrite <- !app_assoc. }
  { apply elem_of_app. right. apply elem_of_cons. now left. }
  { assumption. }
  { pose proof (lines_length msgs). unfold chunk. rewrite !length_app.
    cbn [length]. lia. }
  change (length (@nil ascii)) with 0 in Hrun.
  destruct Hu as (U1 & U2 & U3 & U4 & U5 & U6 & U7 & U8 & U9 & evs & Utr & Uev).
  ssimpl_in U1. ssimpl_in U2. ssimpl_in U3. ssimpl_in U5. ssimpl_in U6.
  ssimpl_in U7. ssimpl_in U8. ssimpl_in U9. ssimpl_in Utr.
  match type of Hrun with
  | _ = (_, ?s') => exists s'
  end.
  split.
  { intros n. rewrite Hpass. rewrite (bind_ret _ _ _ _ _ Hrun). reflexivity. }
  ssimpl.
  split; [now apply retry_after_undisturbed|].
  split.
  { exists (replicate (j + 1) (EvRecv (emacs_socket (g st))) ++ evs).
    split; [rewrite Utr; now rewrite <- app_assoc|].
    now apply quiet_events_recv. }
  repeat (split; [assumption|]).
  destruct U5 as [U5|U5]; rewrite U5; auto.
Qed.

Lemma retry_transition_later (a b c : globals) :
  same_frame a b -> retry_transition b c -> retry_transition a c.
Proof.
  intros (F1 & F2 & F3 & F4 & F5 & F6). unfold retry_transition.
  rewrite F1, F2, F3, F4, F5, F6. trivial.
Qed.

(** The receive loop over quiet passes and then the pass that reads the
    [-window-system-unsupported]. *)
Lemma receive_loop_retry (earlier : list (nat * list (list ascii))) :
  forall (st : state) (j : nat) (msgs : list (list ascii))
         (more : list ascii) (rest : list recv_result),
    exit_status (l st) = EXIT_SUCCESS ->
    recv_script (w st)
    = concat (map pass_script earlier)
      ++ replicate j (RecvErr EINTR)
      ++ RecvBytes (lines msgs ++ cs "-window-system-unsupported " ++ more)
         :: rest ->
    Forall (quiet_pass (length (string_buf (l st)))) earlier ->
    Forall passes_on msgs ->
    length (lines msgs ++ cs "-window-system-unsupported " ++ more)
    < length (string_buf (l st)) ->
    exists st',
      (forall n, length earlier <= n ->
                 receive_loop (S n) st = (Ret GotoRetry, st'))
      /\ retry_transition (g st) (g st')
      /\ (exists evs,
            trace (w st') = trace (w st) ++ evs
            /\ Forall (quiet_event (emacs_socket (g st))) evs)
      /\ send_buffer (w st') = send_buffer (w st)
      /\ send_script (w st') = send_script (w st)
      /\ recv_script (w st') = rest
      /\ stdin (w st') = stdin (w st)
      /\ os st' = os st /\ opt st' = opt st
      /\ (exit_status (l st') = EXIT_SUCCESS
          \/ exit_status (l st') = EXIT_FAILURE).
Proof.
  induction earlier as [|p earlier IH];
    intros st j msgs more rest Hexit Hscript Hquiet Hall Hroom.
  - destruct (receive_loop_retry_pass st j msgs more rest Hexit Hscript Hall
                Hroom) as (st' & Hloop & Hrest).
    exists st'. split; [intros n _; apply Hloop|exact Hrest].
  - inversion Hquiet as [|? ? Hp Hq]; subst.
    cbn [map concat] in Hscript. rewrite <- app_assoc in Hscript.
    destruct (receive_loop_quiet_pass st p _ Hexit Hscript Hp)
      as (st1 & Hpass & Hexit1 & Hlen1 & Hframe1 & (evs1 & Htr1 & Hev1)
          & Hsb1 & Hss1 & Hrs1 & Hin1 & Hos1 & Hopt1).
    destruct (IH st1 j msgs more rest Hexit1 Hrs1) as
      (st' & Hloop & Htrans & (evs2 & Htr2 & Hev2) & Hsb2 & Hss2 & Hrs2
       & Hin2 & Hos2 & Hopt2 & Hexit2);
      [now rewrite Hlen1|assumption|now rewrite Hlen1|].
    exists st'.
    split.
    { intros n Hn. simpl in Hn. destruct n as [|n]; [lia|].
      rewrite Hpass. apply Hloop. lia. }
    split; [now apply (retry_transition_later _ (g st1))|].
    split.
    { exists (evs1 ++ evs2).
      split; [rewrite Htr2, Htr1; now rewrite app_assoc|].
      apply Forall_app. split; [assumption|].
      destruct Hframe1 as (_ & _ & _ & _ & _ & Hsock). now rewrite <- Hsock. }
    repeat (split; [congruence|]). assumption.
Qed.

Lemma passes_length (earlier : list (nat * list (list ascii))) :
  length earlier <= length (concat (map pass_script earlier)).
Proof.
  induction earlier as [|p e IH]; [reflexivity|].
  cbn [map concat length]. rewrite length_app. unfold pass_script at 1.
  rewrite length_app. cbn [length]. lia.
Qed.

(** C7 (as amended): a message [-window-system-unsupported ], in whatever
    pass of the receive loop it is read and wherever it stands in its
    chunk, makes the retry transition: with an alternate display the
    display becomes that one and the candidate is cleared, without one
    terminal mode is set and no-wait is cleared.  Before it the peer may
    have sent any number of chunks of harmless messages, recv(2) may have
    been interrupted any number of times, and the chunk itself may hold
    any number of messages that are handled without a jump.  The receive
    loop is left by the jump; until then nothing is sent and nothing is
    closed: the trace grows by calls of recv(2) and by what the messages
    before have written, and the send buffer and the socket are as they
    were.  [main] then goes on from the label [retry] in the new state:
    what is left of [main] after the command was sent is [send_attempt],
    the announcement and the answer again, so the part of the command
    from [-nowait] or [-current-frame] to the newline is built by the same
    code from the new state, and the part before the label ([-env],
    [-dir]) is not run again.  The new attempt need not get to its end:
    with terminal mode set, something to show, and no usable terminal, it
    ends in [fail ()]. *)
Theorem C7_unsupported_goes_back_to_retry
    (st : state) (earlier : list (nat * list (list ascii))) (j : nat)
    (msgs : list (list ascii)) (more : list ascii)
    (rest : list recv_result) :
  exit_status (l st) = EXIT_SUCCESS ->
  recv_script (w st)
  = concat (map pass_script earlier)
    ++ replicate j (RecvErr EINTR)
    ++ RecvBytes (lines msgs ++ cs "-window-system-unsupported " ++ more)
       :: rest ->
  Forall (quiet_pass (length (string_buf (l st)))) earlier ->
  Forall passes_on msgs ->
  length (lines msgs ++ cs "-window-system-unsupported " ++ more)
  < length (string_buf (l st)) ->
  exists st',
    (forall n, length earlier <= n ->
               receive_loop (S n) st = (Ret GotoRetry, st'))
    /\ (forall k,
          answer (attempts (S k)) st
          = (send_attempt;; announce_waiting;; answer (attempts k)) st')
    /\ retry_transition (g st) (g st')
    /\ (exists evs,
          trace (w st') = trace (w st) ++ evs
          /\ Forall (quiet_event (emacs_socket (g st))) evs)
    /\ send_buffer (w st') = send_buffer (w st)
    /\ send_script (w st') = send_script (w st)
    /\ recv_script (w st') = rest
    /\ stdin (w st') = stdin (w st)
    /\ os st' = os st /\ opt st' = opt st
    /\ (exit_status (l st') = EXIT_SUCCESS
        \/ exit_status (l st') = EXIT_FAILURE)
    /\ (session_inv st ->
        tty (g st') = true ->
        create_frame (opt st) || negb (eval (opt st)) = true ->
        (forall ty nm, probe_tty (os st) <> UsableTty ty nm) ->
        fst (send_attempt st') = Failed).
Proof.
  intros Hexit Hscript Hquiet Hall Hroom.
  destruct (receive_loop_retry earlier st j msgs more rest Hexit Hscript
              Hquiet Hall Hroom)
    as (st' & Hloop & Htrans & Htrace & Hsb & Hss & Hrs & Hin & Hos & Hopt
        & Hstatus).
  assert (Hlen : length earlier <= length (recv_script (w st))).
  { rewrite Hscript, length_app. pose proof (passes_length earlier). lia. }
  exists st'.
  split; [exact Hloop|].
  split.
  { intros k. unfold answer at 1. rewrite bind_get.
    rewrite (bind_ret _ _ _ _ _ (Hloop _ Hlen)). reflexivity. }
  repeat (split; [assumption|]).
  intros Hinv Htty Hc Hp.
  assert (Hw : within (length (recv_script (w st))) (length (stdin (w st))) st)
    by (split; [assumption|split; lia]).
  destruct (receive_loop_safe _ _ _ _ _ _ Hw (Nat.lt_succ_diag_r _)
              (Hloop _ Hlen)) as (_ & Hw' & _).
  destruct (safe_send_attempt _ _ st' (fst (send_attempt st'))
              (snd (send_attempt st')) Hw' (surjective_pairing _))
    as [_ Hrf].
  assert (Hnever : forall b, fst (send_attempt st') <> Ret b)
    by (apply send_attempt_needs_tty; rewrite ?Hos, ?Hopt; assumption).
  destruct (fst (send_attempt st')) as [[]| | | |]; simpl in Hrf;
    try contradiction; [|reflexivity].
  now destruct (Hnever tt).
Qed.

End RetryProofs.

(** ** The alternate editor *)

Module FallbackProofs.

Lemma split_at_found (c : ascii) (x r : list ascii) :
  Forall (fun d => d <> c) x -> split_at c (x ++ c :: r) = Some (x, r).
Proof.
  induction 1 as [|d x Hd _ IH]; simpl.
  - now rewrite bool_decide_eq_true_2.
  - rewrite bool_decide_eq_false_2 by assumption. now rewrite IH.
Qed.

Lemma split_at_absent (c : ascii) (x : list ascii) :
  Forall (fun d => d <> c) x -> split_at c x = None.
Proof.
  induction 1 as [|d x Hd _ IH]; simpl; [reflexivity|].
  rewrite bool_decide_eq_false_2 by assumption. now rewrite IH.
Qed.

Lemma split_at_length (c : ascii) (s a b : list ascii) :
  split_at c s = Some (a, b) -> length s = S (length a + length b).
Proof.
  revert a b. induction s as [|d s IH]; intros a b; simpl; [discriminate|].
  case_bool_decide.
  - intros [= <- <-]. reflexivity.
  - destruct (split_at c s) as [[a' b']|]; [|discriminate].
    intros [= <- <-]. simpl. now rewrite (IH a' b' eq_refl).
Qed.

(** The budget of [editor_tokens] is never the reason it stops: any budget
    above the length of the text gives the same tokens. *)
Lemma unpack_tokens_budget (n : nat) :
  forall tok fuel1 fuel2,
    length tok <= n -> length tok < fuel1 -> length tok < fuel2 ->
    unpack_tokens fuel1 tok = unpack_tokens fuel2 tok
    /\ unpack_tokens fuel1 tok <> None.
Proof.
  induction n as [n IH] using lt_wf_ind.
  intros tok fuel1 fuel2 Hn H1 H2.
  destruct fuel1 as [|fuel1]; [lia|]. destruct fuel2 as [|fuel2]; [lia|].
  destruct tok as [|c tok]; [split; [reflexivity|discriminate]|].
  cbn [unpack_tokens].
  set (skip := strspn (c :: tok) [SPC; DQUOTE]).
  set (sep := if bool_decide (0 < skip)
                 && bool_decide ((c :: tok) !! (skip - 1) = Some DQUOTE)
              then DQUOTE else SPC).
  destruct (split_at sep (drop skip (c :: tok))) as [[token rest]|] eqn:Hsplit;
    [|split; [reflexivity|discriminate]].
  apply split_at_length in Hsplit. rewrite length_drop in Hsplit.
  simpl in Hn, H1, H2, Hsplit.
  destruct (IH (length rest) ltac:(lia) rest fuel1 fuel2) as [Heq Hsome];
    [lia..|].
  rewrite Heq. split; [reflexivity|].
  destruct (unpack_tokens fuel2 rest); [discriminate|].
  now rewrite <- Heq in Hsome.
Qed.

Lemma unpack_tokens_enough (tok : list ascii) (fuel : nat) :
  length tok < fuel -> unpack_tokens fuel tok = editor_tokens tok.
Proof.
  intros H. unfold editor_tokens.
  apply (unpack_tokens_budget (length tok)); lia.
Qed.

Lemma strspn_none (c : ascii) (s accept : list ascii) :
  c ∉ accept -> strspn (c :: s) accept = 0.
Proof. intros H. simpl. now rewrite bool_decide_eq_false_2. Qed.

Lemma not_a_delimiter (c : ascii) :
  c <> SPC -> c <> DQUOTE -> c ∉ [SPC; DQUOTE].
Proof.
  intros H1 H2 H. apply elem_of_cons in H. destruct H as [H|H]; [contradiction|].
  apply elem_of_cons in H. destruct H as [H|H]; [contradiction|].
  inversion H.
Qed.

(** One pass over a text that starts with its token. *)
Lemma unpack_tokens_plain (fuel : nat) (c : ascii) (tok : list ascii) :
  c <> SPC -> c <> DQUOTE ->
  unpack_tokens (S fuel) (c :: tok)
  = match split_at SPC (c :: tok) with
    | Some (token, rest) => (token ::.) <$> unpack_tokens fuel rest
    | None => Some [c :: tok]
    end.
Proof.
  intros H1 H2. cbn [unpack_tokens].
  rewrite strspn_none by now apply not_a_delimiter.
  rewrite (bool_decide_eq_false_2 (0 < 0)) by lia. reflexivity.
Qed.


(** An editor given as words with single spaces between them unpacks into
    these words. *)
Lemma editor_tokens_words (ws : list (list ascii)) :
  Forall (fun x => x <> [] /\ Forall (fun c => c <> SPC /\ c <> DQUOTE) x) ws ->
  editor_tokens (unwords ws) = Some ws.
Proof.
  induction 1 as [|x ws [Hne Hx] Hws IH]; [reflexivity|].
  assert (Hsp : Forall (fun d => d <> SPC) x)
    by (eapply Forall_impl; [exact Hx|]; now intros c [? _]).
  destruct x as [|c x]; [congruence|].
  inversion Hx as [|? ? [Hc1 Hc2] Hx']; subst.
  unfold editor_tokens.
  destruct ws as [|y ws].
  - cbn [unwords]. rewrite unpack_tokens_plain by assumption.
    now rewrite split_at_absent.
  - change (unwords ((c :: x) :: y :: ws))
      with (c :: x ++ SPC :: unwords (y :: ws)).
    rewrite unpack_tokens_plain by assumption.
    change (c :: x ++ SPC :: unwords (y :: ws))
      with ((c :: x) ++ SPC :: unwords (y :: ws)).
    rewrite split_at_found by assumption.
    rewrite unpack_tokens_enough by (rewrite length_app; simpl; lia).
    now rewrite IH.
Qed.

(** X23: when the alternate editor is a command of words separated by
    single spaces (no word empty, none with a space or a double quote) and
    execvp finds the program, [fail] runs these words followed by the
    arguments of emacsclient that are not options. *)
Theorem X23_fail_runs_the_editor_words
    (execvp : list (list ascii) -> bool) (st : state) (ws : list (list ascii)) :
  alternate_editor (opt st) = Some (unwords ws) ->
  Forall (fun x => x <> [] /\ Forall (fun c => c <> SPC /\ c <> DQUOTE) x) ws ->
  execvp (ws ++ args (opt st)) = true ->
  fail_result_of execvp st = RunsEditor (ws ++ args (opt st)).
Proof.
  intros Hed Hws Hexec. unfold fail_result_of.
  rewrite Hed, (editor_tokens_words ws Hws). cbv zeta. now rewrite Hexec.
Qed.


End FallbackProofs.

(** ** The options *)

Module OptionsProofs.

(** What [settle_display] leaves in the globals. *)
Lemma settle_display_run (pd : option (list ascii)) (st : state) :
  exists gl,
    settle_display pd st = (Ret tt, upd_g (fun _ => gl) st)
    /\ display gl <> Some []
    /\ (create_frame (opt st) = true -> display gl = None -> tty gl = true)
    /\ (tty gl = true -> tty (g st) = true \/ create_frame (opt st) = true)
    /\ (pd = None -> alt_display (g st) = None -> alt_display gl = None)
    /\ (create_frame (opt st) = false -> display (g st) = None ->
        alt_display (g st) = None -> display gl = None /\ tty gl = tty (g st))
    /\ nowait gl = nowait (g st) /\ socket_name gl = socket_name (g st)
    /\ emacs_pid gl = emacs_pid (g st) /\ emacs_socket gl = emacs_socket (g st).
Proof.
  destruct st as [o op [nw d ad t sn pid es] lo io].
  unfold settle_display. rewrite bind_get. cbn [os opt g tty display].
  destruct (create_frame op) eqn:Hcf, t,
    d as [[|c d]|], ad as [[|c' ad]|], pd as [[|c2 pd]|],
    (os_getenv o "DISPLAY") as [[|c3 e]|];
    cbn; unfold upd_g; cbn; rewrite ?Hcf; cbn;
    (eexists; split; [reflexivity|]); cbn;
    repeat split; try discriminate; try congruence; auto.
Qed.

Lemma elem_of_chars (c : ascii) (cs : list ascii) :
  c ∈ cs -> existsb (fun d => bool_decide (c = d)) cs = true.
Proof.
  induction 1 as [c cs|c d cs _ IH]; simpl.
  - now rewrite bool_decide_eq_true_2.
  - rewrite IH. apply orb_true_r.
Qed.

(** One option: it changes the options and the globals only, or it leaves
    the process after one message. *)
Lemma decode_option_cases (version : list ascii) (c : ascii) (a : list ascii)
    (st : state) :
  (exists st',
     decode_option version (c, a) st = (Ret tt, st')
     /\ leaves_at_once c = false
     /\ os st' = os st /\ l st' = l st /\ w st' = w st
     /\ progname (opt st') = progname (opt st)
     /\ args (opt st') = args (opt st)
     /\ alt_display (g st') = alt_display (g st)
     /\ (create_frame (opt st) = true -> create_frame (opt st') = true)
     /\ (tty (g st') = true ->
         create_frame (opt st') = true
         \/ (tty (g st) = true
             /\ create_frame (opt st') = create_frame (opt st)))
     /\ (c <> "e"%char -> eval (opt st') = eval (opt st))
     /\ (creates_frame c = false ->
         create_frame (opt st') = create_frame (opt st)
         /\ tty (g st') = tty (g st))
     /\ (c <> "d"%char -> display (g st') = display (g st)))
  \/ (exists status st',
        decode_option version (c, a) st = (Exited status, st')
        /\ leaves_at_once c = true
        /\ os st' = os st /\ opt st' = opt st /\ g st' = g st
        /\ l st' = l st).
Proof.
  destruct st as [o op gl lo io]. unfold decode_option.
  repeat case_bool_decide; subst;
    try (left; eexists; split; [reflexivity|];
         cbn; repeat split; auto; try discriminate; congruence);
    right; eexists _, _; (split; [reflexivity|]);
    (split; [|repeat split]);
    try reflexivity.
  unfold leaves_at_once. apply negb_true_iff. apply bool_decide_eq_false.
  intros Hin. apply elem_of_chars in Hin. cbn in Hin.
  repeat (apply orb_true_iff in Hin; destruct Hin as [Hin|Hin];
          [apply bool_decide_eq_true in Hin; congruence|]).
  discriminate.
Qed.

(** The loop of [decode_options]. *)
Lemma options_loop (version : list ascii) (parsed : list (ascii * list ascii)) :
  forall st o st',
    for_each (decode_option version) parsed st = (o, st') ->
    os st' = os st /\ l st' = l st
    /\ progname (opt st') = progname (opt st)
    /\ args (opt st') = args (opt st)
    /\ alt_display (g st') = alt_display (g st)
    /\ (create_frame (opt st) = true -> create_frame (opt st') = true)
    /\ (tty_is_frame st -> tty_is_frame st')
    /\ (Forall (fun x => fst x <> "e"%char) parsed ->
        eval (opt st') = eval (opt st))
    /\ (Forall (fun x => creates_frame (fst x) = false) parsed ->
        create_frame (opt st') = create_frame (opt st)
        /\ tty (g st') = tty (g st))
    /\ (Forall (fun x => fst x <> "d"%char) parsed ->
        display (g st') = display (g st))
    /\ (Forall (fun x => leaves_at_once (fst x) = false) parsed ->
        o = Ret tt /\ w st' = w st)
    /\ (o = Ret tt \/ exists c, o = Exited c).
Proof.
  induction parsed as [|[c a] parsed IH]; intros st o st'; cbn [for_each].
  { intros [= <- <-]. unfold tty_is_frame. repeat split; auto. }
  destruct (decode_option_cases version c a st)
    as [(st1 & Hrun & Hstay & Hos & Hl & Hw & Hprog & Hargs & Halt & Hcf
         & Htty & Heval & Hframe & Hdisp)
       |(status & st1 & Hrun & Hleave & Hos1 & Hopt1 & Hg1 & Hl1)].
  - rewrite (bind_ret _ _ _ _ _ Hrun). intros Hrest.
    destruct (IH _ _ _ Hrest)
      as (Hos2 & Hl2 & Hprog2 & Hargs2 & Halt2 & Hcf2 & Htty2 & Heval2
          & Hframe2 & Hdisp2 & Hret2 & Ho2).
    assert (Hinv1 : tty_is_frame st -> tty_is_frame st1).
    { unfold tty_is_frame. intros HJ Ht.
      destruct (Htty Ht) as [?|[Ht0 Hsame]]; [assumption|].
      apply Hcf. now apply HJ. }
    repeat split; try congruence; auto.
    + intros Hall. inversion Hall as [|? ? Hc Hall']; subst.
      rewrite (Heval2 Hall'). now apply Heval.
    + inversion H as [|? ? Hc Hall']; subst.
      destruct (Hframe2 Hall') as [-> _]. now apply Hframe.
    + inversion H as [|? ? Hc Hall']; subst.
      destruct (Hframe2 Hall') as [_ ->]. now apply Hframe.
    + intros Hall. inversion Hall as [|? ? Hc Hall']; subst.
      rewrite (Hdisp2 Hall'). now apply Hdisp.
    + inversion H as [|? ? Hc Hall']; subst. now apply Hret2.
    + inversion H as [|? ? Hc Hall']; subst.
      destruct (Hret2 Hall') as [_ ->]. exact Hw.
  - rewrite (bind_exited _ _ _ _ _ Hrun). intros [= <- <-].
    unfold tty_is_frame. rewrite Hos1, Hopt1, Hg1, Hl1.
    repeat split; auto;
      try (intros Hall; inversion Hall as [|? ? Hc Hall']; subst;
           simpl in Hc; congruence);
      try (inversion H as [|? ? Hc Hall']; subst; simpl in Hc; congruence).
    right. now exists status.
Qed.

(** [decode_options] is its loop, from the state with the two defaults of
    the environment, followed by [settle_display]. *)
Lemma decode_options_run (version : list ascii) (pd : option (list ascii))
    (parsed : list (ascii * list ascii)) (st : state) :
  decode_options version pd parsed st
  = bind (for_each (decode_option version) parsed)
         (fun _ => settle_display pd)
         (upd_opt (with_tramp_prefix (os_getenv (os st) "EMACSCLIENT_TRAMP"))
            (upd_opt (with_alternate_editor
                        (os_getenv (os st) "ALTERNATE_EDITOR")) st)).
Proof. reflexivity. Qed.

(** X20: when [decode_options] returns, the display and the kind of frame
    are settled: the display is not the empty string; a terminal frame is
    asked for only together with a new frame; and a new frame that is not a
    terminal frame has a display, which is not empty.  (So [-c] without any
    display makes a terminal frame, and [-window-system] is never sent
    without a [-display].) *)
Theorem X20_options_settle_the_frame
    (version : list ascii) (pd : option (list ascii))
    (parsed : list (ascii * list ascii)) (st st' : state) :
  tty_is_frame st ->
  decode_options version pd parsed st = (Ret tt, st') ->
  display (g st') <> Some []
  /\ tty_is_frame st'
  /\ (create_frame (opt st') = true -> tty (g st') = false ->
      exists d, display (g st') = Some d /\ d <> []).
Proof.
  intros HJ. rewrite decode_options_run. unfold bind.
  destruct (for_each _ _ _) as [o1 st1] eqn:Hloop.
  apply options_loop in Hloop.
  destruct Hloop as (_ & _ & _ & _ & _ & _ & Hinv & _).
  specialize (Hinv HJ).
  destruct o1 as [[]|c| | |]; try discriminate.
  destruct (settle_display_run pd st1)
    as (gl & Hrun & Hd & Hnone & Htty & _).
  rewrite Hrun. intros [= <-]. unfold tty_is_frame in *. ssimpl.
  split; [assumption|]. split.
  - intros Ht. destruct (Htty Ht); auto.
  - intros Hcf Ht. destruct (display gl) as [d|] eqn:Hdisp.
    + exists d. split; [reflexivity|]. intros ->. now apply Hd.
    + rewrite (Hnone Hcf eq_refl) in Ht. discriminate.
Qed.

(** X14: the variable DISPLAY is looked at only for a new frame: when no
    option asks for a new frame and none names a display, [decode_options]
    leaves the client without a display, whatever the environment, and
    without a terminal frame. *)
Theorem X14_display_only_for_a_new_frame
    (version : list ascii) (pd : option (list ascii))
    (parsed : list (ascii * list ascii)) (st st' : state) :
  create_frame (opt st) = false ->
  display (g st) = None -> alt_display (g st) = None ->
  Forall (fun x => creates_frame (fst x) = false) parsed ->
  Forall (fun x => fst x <> "d"%char) parsed ->
  decode_options version pd parsed st = (Ret tt, st') ->
  display (g st') = None /\ tty (g st') = tty (g st)
  /\ create_frame (opt st') = false.
Proof.
  intros Hcf Hdisp Halt Hnoframe Hnod. rewrite decode_options_run. unfold bind.
  destruct (for_each _ _ _) as [o1 st1] eqn:Hloop.
  apply options_loop in Hloop.
  destruct Hloop as (_ & _ & _ & _ & Halt1 & _ & _ & _ & Hframe & Hd1 & _).
  destruct (Hframe Hnoframe) as [Hcf1 Htty1]. specialize (Hd1 Hnod).
  ssimpl_in Halt1. ssimpl_in Hcf1. ssimpl_in Htty1. ssimpl_in Hd1.
  cbn [upd_opt opt g with_tramp_prefix with_alternate_editor create_frame]
    in Halt1, Hcf1, Htty1, Hd1.
  destruct o1 as [[]|c| | |]; try discriminate.
  destruct (settle_display_run pd st1)
    as (gl & Hrun & _ & _ & _ & _ & Hkeep & _).
  rewrite Hrun. intros [= <-]. ssimpl.
  destruct Hkeep as [-> ->]; try congruence.
  repeat split; congruence.
Qed.

End OptionsProofs.

(** ** The head of [main] *)

Module MainProofs.
Import OptionsProofs.

Lemma asks_for_work_false (c : ascii) :
  asks_for_work c = false -> c <> "e"%char /\ creates_frame c = false.
Proof.
  unfold asks_for_work. intros H. apply orb_false_iff in H.
  destruct H as [H1 H2]. apply bool_decide_eq_false in H1. now split.
Qed.

(** X13: a command line without a file argument and without an option that
    gives the client something to do ([-e], or one that asks for a new
    frame) is refused: [main] writes the two lines of its diagnostic and
    exits with EXIT_FAILURE, before it looks for a server. *)
Theorem X13_nothing_to_do_is_refused
    (version : list ascii) (pd : option (list ascii))
    (parsed : list (ascii * list ascii)) (p : process) (st : state) :
  args (opt st) = [] -> eval (opt st) = false -> create_frame (opt st) = false ->
  Forall (fun x => leaves_at_once (fst x) = false) parsed ->
  Forall (fun x => asks_for_work (fst x) = false) parsed ->
  exists st',
    main version pd parsed p st = (Exited EXIT_FAILURE, st')
    /\ trace (w st')
       = trace (w st)
         ++ [EvWrite Stderr
               (progname (opt st) ++ cs ": file name or argument required"
                ++ [LF] ++ cs "Try '" ++ progname (opt st)
                ++ cs " --help' for more information" ++ [LF])].
Proof.
  intros Hargs Heval Hcf Hstay Hidle.
  assert (Hnoe : Forall (fun x : ascii * list ascii => fst x <> "e"%char) parsed)
    by (eapply Forall_impl; [exact Hidle|];
        intros x Hx; now apply asks_for_work_false in Hx).
  assert (Hnof : Forall (fun x : ascii * list ascii =>
                           creates_frame (fst x) = false) parsed)
    by (eapply Forall_impl; [exact Hidle|];
        intros x Hx; now apply asks_for_work_false in Hx).
  unfold main. repeat mstep. unfold bind at 1.
  rewrite decode_options_run. unfold bind at 1.
  destruct (for_each _ _ _) as [o1 st1] eqn:Hloop.
  apply options_loop in Hloop.
  destruct Hloop as (_ & _ & Hprog & Hargs1 & _ & _ & _ & Heval1 & Hframe
                     & _ & Hret & _).
  destruct (Hret Hstay) as [-> Hw]. specialize (Heval1 Hnoe).
  destruct (Hframe Hnof) as [Hcf1 _].
  cbn [upd_opt upd_l opt g l w with_tramp_prefix with_alternate_editor
       create_frame eval args progname] in Hprog, Hargs1, Heval1, Hcf1, Hw.
  destruct (settle_display_run pd st1) as (gl & Hrun & _).
  rewrite Hrun. unfold main_after_options. rewrite bind_get. ssimpl.
  rewrite Hargs1, Hargs, Heval1, Heval, Hcf1, Hcf.
  rewrite bool_decide_eq_false_2 by (intros H; now apply H).
  cbn [orb negb]. unfold message, exit. rewrite bind_emit.
  eexists. split; [reflexivity|]. ssimpl. rewrite Hw, Hprog. reflexivity.
Qed.

End MainProofs.

(** ** The whole run of [main] *)

Module WholeProgram.
Import TransportMore SessionMore OptionsProofs.

Create HintDb tame.

Section Tame.
Context (J : state -> Prop).

Lemma tame_ret {A} (Q : A -> Prop) (a : A) : Q a -> tame J Q (ret a).
Proof. intros Ha st o st' H [= <- <-]. now split. Qed.

Lemma tame_unit : tame J any (ret tt).
Proof. now apply tame_ret. Qed.

Lemma tame_get : tame J any get.
Proof. intros st o st' H [= <- <-]. now split. Qed.

Lemma tame_fail {A} (Q : A -> Prop) : tame J Q fail.
Proof. intros st o st' H [= <- <-]. now split. Qed.

Lemma tame_exit_failure {A} (Q : A -> Prop) : tame J Q (exit EXIT_FAILURE).
Proof. intros st o st' H [= <- <-]. split; [assumption|now right]. Qed.

Lemma tame_exit_success {A} (Q : A -> Prop) : tame J Q (exit EXIT_SUCCESS).
Proof. intros st o st' H [= <- <-]. split; [assumption|now left]. Qed.

Lemma tame_modify (f : state -> state) :
  (forall st, J st -> J (f st)) -> tame J any (modify f).
Proof. intros Hf st o st' H [= <- <-]. split; [now apply Hf|exact I]. Qed.

Lemma tame_bind {A B} (Q : B -> Prop) (m : M A) (k : A -> M B) :
  tame J any m -> (forall a, tame J Q (k a)) -> tame J Q (bind m k).
Proof.
  intros Hm Hk st o st' H. unfold bind.
  destruct (m st) as [o1 st1] eqn:E1.
  destruct (Hm _ _ _ H E1) as [H1 Ho1].
  destruct o1 as [a|c| | |]; try contradiction.
  - now apply Hk.
  - intros [= <- <-]. now split.
  - intros [= <- <-]. now split.
Qed.

Lemma tame_any {A} (Q : A -> Prop) (m : M A) : tame J Q m -> tame J any m.
Proof.
  intros Hm st o st' H Hrun. destruct (Hm _ _ _ H Hrun) as [H1 Ho].
  split; [assumption|]. now destruct o.
Qed.

Lemma tame_for_each {A} (f : A -> M unit) (xs : list A) :
  (forall x, tame J any (f x)) -> tame J any (for_each f xs).
Proof.
  intros Hf. induction xs as [|x xs IH]; cbn [for_each].
  - apply tame_unit.
  - apply tame_bind; [apply Hf|intros _; apply IH].
Qed.

Lemma safe_tame {A} (m : M A) : safe J m -> tame J any m.
Proof.
  intros Hm st o st' H Hrun. destruct (Hm _ _ _ H Hrun) as [H1 Ho].
  split; [assumption|]. now destruct o.
Qed.

End Tame.

(** What [session_inv] depends on. *)
Lemma session_inv_same (st st' : state) :
  os st' = os st ->
  length (string_buf (l st')) = length (string_buf (l st)) ->
  exit_status (l st') = exit_status (l st) ->
  length (send_buffer (w st')) <= SEND_BUFFER_SIZE ->
  recv_script (w st') = recv_script (w st) ->
  session_inv st -> session_inv st'.
Proof.
  intros Hos Hbuf Hexit Hsend Hrecv (I1 & I2 & I0 & I3 & I4 & I5).
  unfold session_inv. rewrite Hos, Hbuf, Hexit, Hrecv. auto 10.
Qed.

Ltac same_inv :=
  apply tame_modify; intros st H;
  apply (session_inv_same st); try reflexivity; apply H.

Lemma tame_emit (e : event) : tame session_inv any (emit e).
Proof. same_inv. Qed.

Lemma tame_message (b : bool) (text : list ascii) :
  tame session_inv any (message b text).
Proof. apply tame_emit. Qed.

Lemma tame_eprintf (text : list ascii) : tame session_inv any (eprintf text).
Proof. apply tame_emit. Qed.

Lemma tame_modify_g (f : globals -> globals) :
  tame session_inv any (modify (upd_g f)).
Proof. same_inv. Qed.

Lemma tame_modify_opt (f : options -> options) :
  tame session_inv any (modify (upd_opt f)).
Proof. same_inv. Qed.

Lemma tame_set_errno (e : Z) : tame session_inv any (set_errno e).
Proof. same_inv. Qed.

Lemma tame_send_to_emacs (s : Z) (data : list ascii) :
  tame session_inv any (send_to_emacs s data).
Proof.
  apply safe_tame. intros st o st' H Hrun.
  destruct (safe_send_to_emacs (length (recv_script (w st)))
              (length (stdin (w st))) s data st o st') as [H1 Ho];
    [split; [assumption|split; lia]|assumption|].
  split; [apply H1|assumption].
Qed.

Lemma tame_session (cwd : list ascii) :
  tame session_inv is_status (session cwd).
Proof.
  intros st o st' H Hrun.
  destruct (session_safe cwd st o st' H Hrun) as [Ho H1].
  split; [assumption|].
  destruct Ho as [-> | [-> | ->]]; simpl; unfold is_status; auto.
Qed.

#[local] Hint Resolve tame_unit tame_get tame_fail tame_exit_failure
  tame_exit_success tame_emit tame_message tame_eprintf tame_modify_g
  tame_modify_opt tame_set_errno tame_send_to_emacs tame_session : tame.

(** Break a computation into its actions. *)
Ltac tame_step :=
  match goal with
  | |- tame _ _ (bind _ _) => apply tame_bind; [|intros]
  | |- tame _ _ (for_each _ _) => apply tame_for_each; intros
  | |- tame _ any (ret _) => apply tame_ret; exact I
  | |- tame _ _ (if ?b then _ else _) => destruct b
  | |- tame _ _ (match ?x with _ => _ end) => destruct x
  end.

Ltac tame_tac := repeat first [ solve [auto with tame nocore] | tame_step ].

Lemma tame_socket_status (name : list ascii) :
  tame session_inv any (socket_status name).
Proof. unfold socket_status. tame_tac. Qed.

Lemma tame_socket (d : domain) : tame session_inv any (socket d).
Proof. unfold socket. tame_tac. Qed.

Lemma tame_connect (s : Z) (a : sockaddr) : tame session_inv any (connect s a).
Proof. unfold connect. tame_tac. Qed.

Lemma tame_fopen (path : list ascii) : tame session_inv any (fopen path).
Proof. unfold fopen. tame_tac. Qed.

#[local] Hint Resolve tame_socket_status tame_socket tame_connect tame_fopen
  : tame.

Lemma tame_user_socket_lookup (tmpdir server_name sun_path : list ascii)
    (sock_status saved_errno : Z) :
  tame session_inv any
    (user_socket_lookup tmpdir server_name sun_path sock_status saved_errno).
Proof. unfold user_socket_lookup. tame_tac. Qed.

Lemma tame_connect_local_socket (s : Z) (sun_path : list ascii)
    (sock_status saved_errno : Z) :
  tame session_inv any
    (connect_local_socket s sun_path sock_status saved_errno).
Proof. unfold connect_local_socket. tame_tac. Qed.

#[local] Hint Resolve tame_user_socket_lookup tame_connect_local_socket : tame.

Lemma tame_set_local_socket (name : list ascii) :
  tame session_inv any (set_local_socket name).
Proof. unfold set_local_socket. tame_tac. Qed.

Lemma tame_get_server_config (config_file : list ascii) :
  tame session_inv any (get_server_config config_file).
Proof. unfold get_server_config. tame_tac. Qed.

Lemma tame_sock_err_message (f : list ascii) :
  tame session_inv any (sock_err_message f).
Proof. unfold sock_err_message. tame_tac. Qed.

#[local] Hint Resolve tame_set_local_socket tame_get_server_config
  tame_sock_err_message : tame.

Lemma tame_set_tcp_socket (f : list ascii) :
  tame session_inv any (set_tcp_socket f).
Proof. unfold set_tcp_socket. tame_tac. Qed.

#[local] Hint Resolve tame_set_tcp_socket : tame.

Lemma tame_set_socket (b : bool) : tame session_inv any (set_socket b).
Proof. unfold set_socket. tame_tac. Qed.

#[local] Hint Resolve tame_set_socket : tame.

Lemma tame_start_daemon (d : daemon_start) :
  tame session_inv any (start_daemon_and_retry_set_socket d).
Proof. unfold start_daemon_and_retry_set_socket. tame_tac. Qed.

Lemma tame_decode_option (version : list ascii) (o : ascii * list ascii) :
  tame session_inv any (decode_option version o).
Proof. unfold decode_option, print_help_and_exit. tame_tac. Qed.

Lemma tame_settle_display (pd : option (list ascii)) :
  tame session_inv any (settle_display pd).
Proof. unfold settle_display. tame_tac. Qed.

#[local] Hint Resolve tame_start_daemon tame_decode_option tame_settle_display
  : tame.

Lemma tame_decode_options (version : list ascii) (pd : option (list ascii))
    (parsed : list (ascii * list ascii)) :
  tame session_inv any (decode_options version pd parsed).
Proof. unfold decode_options. tame_tac. Qed.

Lemma tame_main_after_options (p : process) :
  tame session_inv is_status (main_after_options p).
Proof. unfold main_after_options. tame_tac. Qed.

(** X22: the run of [main] as this development models it ends in one of
    three ways: it returns EXIT_SUCCESS or EXIT_FAILURE, it calls [exit]
    with one of the two, or it calls [fail ()]; on no path through the
    options, the choice of the socket, the start of the daemon and the
    session does it read or write outside [string] or the send buffer, or
    go on for ever.  This is under the assumptions of [start_inv] and of
    the model, not for every behaviour of the system: the command line is
    given as getopt_long_only has decoded it ([parsed]); send(2) takes
    bytes or fails once its scripted answers are used up (if it answered 0
    for ever on a full buffer, the loop of [send_to_emacs] would not end);
    recv(2) yields a finite sequence of results and then the end of the
    stream, each an error or a chunk of text (no NUL byte) in which every
    [&] has its payload before the end of its message and of the chunk;
    standard input is finite; the daemon is what its parent sees of it;
    signal handlers and the flushing of standard output, with its repeated
    fdatasync, are not part of the model. *)
Theorem X22_main_ends_properly
    (version : list ascii) (pd : option (list ascii))
    (parsed : list (ascii * list ascii)) (p : process) (st : state) :
  start_inv st ->
  ends_properly is_status (fst (main version pd parsed p st)).
Proof.
  intros (I1 & I2 & I0 & I3 & I4).
  destruct (main version pd parsed p st) as [o st'] eqn:Hrun. simpl.
  revert Hrun. unfold main. repeat mstep. intros Hrun.
  refine (proj2 (tame_bind session_inv is_status _ _
                   (tame_decode_options version pd parsed)
                   (fun _ => tame_main_after_options p) _ o st' _ Hrun)).
  unfold session_inv. ssimpl. repeat split; auto.
Qed.

End WholeProgram.

(** ** The further statements at concrete inputs *)

Module MoreScenarios.
Import Codec CodecMore TransportMore ResolverMore SocketMore SessionMore
  RetryProofs FallbackProofs OptionsProofs MainProofs WholeProgram.

(** A peer that is slow takes the line in the end; a peer that takes
    nothing from a full buffer keeps the loop going, whatever the budget. *)
Lemma X4_slow_peer_witness :
  (fst (send_to_emacs 3%Z (cs "hello" ++ [LF]) slow_peer) = Ret tt
   \/ fst (send_to_emacs 3%Z (cs "hello" ++ [LF]) slow_peer) = Failed)
  /\ length (send_buffer (w (snd (send_to_emacs 3%Z (cs "hello" ++ [LF])
                                    slow_peer)))) <= SEND_BUFFER_SIZE
  /\ same_but_transport slow_peer
       (snd (send_to_emacs 3%Z (cs "hello" ++ [LF]) slow_peer))
  /\ forall fuel,
       fst (send_loop fuel 3%Z (cs "hello" ++ [LF]) stalled_peer) = Starved.
Proof.
  destruct (X4_send_to_emacs_ends_within_capacity 3%Z (cs "hello" ++ [LF])
              slow_peer) as (H1 & H2 & H3 & _); [simpl; lia|].
  destruct (X4_send_to_emacs_ends_within_capacity 3%Z (cs "hello" ++ [LF])
              stalled_peer) as (_ & _ & _ & H4);
    [vm_compute; lia|].
  split; [apply H1; simpl; lia|]. split; [exact H2|]. split; [exact H3|].
  apply H4; [reflexivity|reflexivity|vm_compute; reflexivity|discriminate].
Defined.

(** [emacsclient notes.txt] with a server that listens on the socket of the
    user: [set_socket] returns the descriptor it has connected. *)
Lemma X8_server_running_witness :
  3%Z <> INVALID_SOCKET
  /\ exists evs a,
       trace (w (snd (set_socket false server_running)))
       = trace (w server_running) ++ evs
       /\ EvConnect 3%Z a ∈ evs
       /\ os_connect (os server_running) a = None.
Proof.
  apply (X8_set_socket_returns_a_socket server_running (Ret 3%Z)
           (snd (set_socket false server_running))).
  - split; [vm_compute; lia|simpl; lia].
  - vm_compute. reflexivity.
Defined.

(** [emacsclient -c -d :0 notes.txt] without a terminal, to a server that
    has no window system and says so in its second chunk, behind a text:
    the second attempt ends in [fail ()]. *)
Lemma C7_later_message_witness :
  exists st',
    (forall n, length [(1, [cs "-emacs-pid 4242"])] <= n ->
               receive_loop (S n) unsupported_later = (Ret GotoRetry, st'))
    /\ (forall k,
          answer (attempts (S k)) unsupported_later
          = (send_attempt;; announce_waiting;; answer (attempts k)) st')
    /\ retry_transition (g unsupported_later) (g st')
    /\ (exists evs,
          trace (w st') = trace (w unsupported_later) ++ evs
          /\ Forall (quiet_event (emacs_socket (g unsupported_later))) evs)
    /\ send_buffer (w st') = send_buffer (w unsupported_later)
    /\ send_script (w st') = send_script (w unsupported_later)
    /\ recv_script (w st') = []
    /\ stdin (w st') = stdin (w unsupported_later)
    /\ os st' = os unsupported_later /\ opt st' = opt unsupported_later
    /\ (exit_status (l st') = EXIT_SUCCESS
        \/ exit_status (l st') = EXIT_FAILURE)
    /\ (session_inv unsupported_later ->
        tty (g st') = true ->
        create_frame (opt unsupported_later)
        || negb (eval (opt unsupported_later)) = true ->
        (forall ty nm,
           probe_tty (os unsupported_later) <> UsableTty ty nm) ->
        fst (send_attempt st') = Failed).
Proof.
  apply (C7_unsupported_goes_back_to_retry unsupported_later
           [(1, [cs "-emacs-pid 4242"])] 0 [cs "-print-nonl checking"]
           [LF] []).
  - reflexivity.
  - reflexivity.
  - constructor; [|constructor].
    split; [discriminate|]. split; [|vm_compute; lia].
    constructor; [|constructor].
    split; [|reflexivity].
    split; [repeat (constructor; [split; discriminate|]); constructor|].
    split; reflexivity.
  - constructor; [|constructor].
    split; [repeat (constructor; [split; discriminate|]); constructor|].
    split; reflexivity.
  - vm_compute. lia.
Defined.

(** The same run as a whole: one write, and then [fail ()]. *)
Lemma retry_without_terminal :
  fst (session (cs "/home/u") unsupported_later) = Failed
  /\ sends_of (trace (w (snd (session (cs "/home/u") unsupported_later))))
     = [cs "-dir /home/u/ -display :0 -window-system -file notes.txt " ++ [LF]].
Proof. vm_compute. split; reflexivity. Qed.

Lemma X5_slow_peer_witness :
  exists evs,
    trace (w (snd (send_to_emacs 3%Z (cs "hello" ++ [LF]) slow_peer)))
    = trace (w slow_peer) ++ evs
    /\ Forall flush_event evs.
Proof.
  apply (X5_send_only_full_or_finished_lines 3%Z (cs "hello" ++ [LF])
           slow_peer).
  simpl. lia.
Defined.

(** The peer took [hel]; [lo] and the newline are still in the buffer. *)
Lemma X6_slow_peer_witness :
  delivered (trace (w (snd (send_to_emacs 3%Z (cs "hello" ++ [LF]) slow_peer))))
  ++ send_buffer (w (snd (send_to_emacs 3%Z (cs "hello" ++ [LF]) slow_peer)))
  = delivered (trace (w slow_peer)) ++ send_buffer (w slow_peer)
    ++ cs "hello" ++ [LF].
Proof.
  apply (X6_send_conserves_the_stream 3%Z (cs "hello" ++ [LF]) slow_peer).
  - simpl. lia.
  - vm_compute. reflexivity.
Defined.

Lemma X9_long_name_witness :
  set_local_socket long_name scenario_A
  = (Failed,
     upd_w (fun x =>
              with_trace
                (trace x
                 ++ [EvSocket AF_UNIX;
                     EvWrite Stderr
                       (progname (opt scenario_A) ++ cs ": socket-name "
                        ++ first_socket_path (os scenario_A) long_name
                        ++ cs " too long" ++ [LF])]) x) scenario_A).
Proof.
  apply (X9_socket_name_too_long long_name scenario_A 3%Z).
  - reflexivity.
  - lia.
  - vm_compute. lia.
Defined.

Lemma X10_no_home_witness :
  set_tcp_socket (cs "server") scenario_A = (Ret INVALID_SOCKET, scenario_A).
Proof.
  apply (X10_relative_server_file_needs_home (cs "server") scenario_A);
    reflexivity.
Defined.

Lemma X11_good_server_file_witness :
  exists st',
    set_tcp_socket (cs "/srv/server") both_configured = (Ret 3%Z, st')
    /\ send_buffer (w st')
       = send_buffer (w both_configured)
         ++ cs "-auth "
         ++ until_nul (take AUTH_KEY_LENGTH (replicate 64 "k"%char))
         ++ cs " "
    /\ trace (w st')
       = trace (w both_configured)
         ++ [EvFopen (cs "/srv/server")]
         ++ (if bool_decide (os_inet_addr (os both_configured) (cs "127.0.0.1")
                             ≠ os_inet_addr (os both_configured) (cs "127.0.0.1"))
                && negb (quiet (opt both_configured))
             then [EvWrite Stdout
                     (progname (opt both_configured)
                      ++ cs ": connected to remote socket at "
                      ++ os_inet_ntoa (os both_configured)
                           (os_inet_addr (os both_configured) (cs "127.0.0.1"))
                      ++ [LF])]
             else [])
         ++ [EvSocket AF_INET;
             EvConnect 3%Z
               (sockaddr_in
                  (os_inet_addr (os both_configured) (cs "127.0.0.1"))
                  (os_htons (os both_configured)
                     (os_atoi (os both_configured) (cs "5000" ++ [LF]))));
             EvLinger 3%Z].
Proof.
  apply (X11_tcp_authentication_is_buffered (cs "/srv/server") (cs "/srv/server")
           good_server_file (cs "127.0.0.1:5000" ++ [LF])
           (replicate 64 "k"%char) (cs "127.0.0.1") (cs "5000" ++ [LF])
           both_configured 3%Z).
  - reflexivity.
  - reflexivity.
  - reflexivity.
  - reflexivity.
  - vm_compute. lia.
  - vm_compute. discriminate.
  - reflexivity.
  - lia.
  - reflexivity.
  - vm_compute. lia.
Defined.

Lemma X15_tramp_file_witness :
  send_argument 3%Z (cs "/etc/my file") over_tramp
  = (Ret tt,
     upd_w (with_send_buffer
              (send_buffer (w over_tramp) ++ cs "-file "
               ++ tramp_text over_tramp (cs "/etc/my file")
               ++ quote_text (cs "/etc/my file") ++ cs " ")) over_tramp).
Proof.
  apply (X15_file_argument 3%Z (cs "/etc/my file") over_tramp).
  - reflexivity.
  - discriminate.
  - vm_compute. lia.
Defined.

Lemma X16_line_and_column_witness :
  send_argument 3%Z ("+"%char :: cs "12:3") scenario_A
  = (Ret tt,
     upd_w (with_send_buffer
              (send_buffer (w scenario_A) ++ cs "-position "
               ++ "+"%char :: cs "12:3" ++ cs " ")) scenario_A).
Proof.
  apply (X16_position_argument 3%Z (cs "12:3") scenario_A).
  - reflexivity.
  - repeat constructor; (left; reflexivity) || (right; reflexivity).
  - vm_compute. lia.
Defined.

Lemma X17_unknown_message_witness :
  dispatch (length (@nil ascii)) unknown_message
  = (Ret Continue,
     upd_l (with_skiplf true)
       (upd_w (fun x =>
                 with_trace
                   (trace x
                    ++ [EvWrite Stdout
                          ((if skiplf (l unknown_message) then [] else [LF])
                           ++ cs "*ERROR*: Unknown message: "
                           ++ cs "-hello there" ++ [LF])])
                   x) unknown_message)).
Proof.
  apply (X17_unknown_message_is_reported unknown_message [] (cs "-hello there")
           []).
  - reflexivity.
  - repeat (constructor; [discriminate|]). constructor.
  - repeat (constructor; [reflexivity|]). constructor.
Defined.

Lemma X18_quiet_print_witness :
  dispatch (length (@nil ascii)) quiet_print = (Ret Continue, quiet_print).
Proof.
  apply (X18_suppressed_output_is_dropped quiet_print [] (cs "-print ")
           (cs "hi") []).
  - reflexivity.
  - left. reflexivity.
  - reflexivity.
Defined.

Lemma X19_lost_connection_witness :
  exists st',
    answer (ret 0%Z) lost_connection = (Ret EXIT_FAILURE, st')
    /\ trace (w st')
       = trace (w lost_connection)
         ++ replicate (2 + 1) (EvRecv (emacs_socket (g lost_connection)))
         ++ (if skiplf (l lost_connection) then [] else [EvWrite Stdout [LF]])
         ++ [EvClose (emacs_socket (g lost_connection))]
    /\ recv_script (w st') = [].
Proof.
  apply (X19_end_of_stream (ret 0%Z) lost_connection 2 (RecvErr 104%Z) []).
  - reflexivity.
  - reflexivity.
  - simpl. discriminate.
Defined.

Lemma X21_unsupported_display_witness :
  ends_well (fst (session (cs "/home/u") unsupported_display))
  /\ session_inv (snd (session (cs "/home/u") unsupported_display)).
Proof.
  apply (X21_session_ends_well (cs "/home/u") unsupported_display).
  unfold session_inv. split; [vm_compute; reflexivity|].
  split; [vm_compute; lia|]. split; [simpl; lia|]. split; [vm_compute; lia|].
  split; [|left; reflexivity].
  constructor; [|constructor].
  split; [vm_compute; lia|].
  split; [repeat (constructor; [discriminate|]); constructor|reflexivity].
Defined.

(** [emacsclient -q notes.txt] with a server running: [main] returns
    EXIT_SUCCESS. *)
Lemma X22_server_running_witness :
  ends_properly is_status
    (fst (main (cs "27.1") None [("q"%char, [])] a_process server_running))
  /\ fst (main (cs "27.1") None [("q"%char, [])] a_process server_running)
     = Ret EXIT_SUCCESS.
Proof.
  split; [|vm_compute; reflexivity].
  apply (X22_main_ends_properly (cs "27.1") None [("q"%char, [])] a_process
           server_running).
  unfold start_inv. split; [vm_compute; reflexivity|].
  split; [vm_compute; lia|]. split; [simpl; lia|]. split; [vm_compute; lia|].
  repeat (constructor;
          [split; [vm_compute; lia|];
           split; [repeat (constructor; [discriminate|]); constructor
                  |reflexivity]|]).
  constructor.
Defined.

Lemma X23_vi_witness :
  fail_result_of (fun _ => true) with_vi
  = RunsEditor ([cs "vi"; cs "-R"] ++ args (opt with_vi)).
Proof.
  apply (X23_fail_runs_the_editor_words (fun _ => true) with_vi
           [cs "vi"; cs "-R"]).
  - reflexivity.
  - repeat (constructor;
            [split; [discriminate
                    |repeat (constructor; [split; discriminate|]); constructor]
            |]).
    constructor.
  - reflexivity.
Defined.


Lemma X20_create_frame_witness :
  display (g (snd (decode_options (cs "27.1") None [("c"%char, [])] scenario_A)))
  <> Some []
  /\ tty_is_frame
       (snd (decode_options (cs "27.1") None [("c"%char, [])] scenario_A))
  /\ (create_frame
        (opt (snd (decode_options (cs "27.1") None [("c"%char, [])]
                     scenario_A))) = true ->
      tty (g (snd (decode_options (cs "27.1") None [("c"%char, [])]
                     scenario_A))) = false ->
      exists d,
        display (g (snd (decode_options (cs "27.1") None [("c"%char, [])]
                           scenario_A))) = Some d
        /\ d <> []).
Proof.
  apply (X20_options_settle_the_frame (cs "27.1") None [("c"%char, [])]
           scenario_A).
  - unfold tty_is_frame. simpl. discriminate.
  - vm_compute. reflexivity.
Defined.

Lemma X14_no_frame_witness :
  display (g (snd (decode_options (cs "27.1") None [("n"%char, [])] scenario_A)))
  = None
  /\ tty (g (snd (decode_options (cs "27.1") None [("n"%char, [])] scenario_A)))
     = tty (g scenario_A)
  /\ create_frame
       (opt (snd (decode_options (cs "27.1") None [("n"%char, [])] scenario_A)))
     = false.
Proof.
  apply (X14_display_only_for_a_new_frame (cs "27.1") None [("n"%char, [])]
           scenario_A).
  - reflexivity.
  - reflexivity.
  - reflexivity.
  - repeat constructor.
  - constructor; [simpl; discriminate|constructor].
  - vm_compute. reflexivity.
Defined.

Lemma X13_no_arguments_witness :
  exists st',
    main (cs "27.1") None [("q"%char, [])] a_process no_arguments
    = (Exited EXIT_FAILURE, st')
    /\ trace (w st')
       = trace (w no_arguments)
         ++ [EvWrite Stderr
               (progname (opt no_arguments)
                ++ cs ": file name or argument required"
                ++ [LF] ++ cs "Try '" ++ progname (opt no_arguments)
                ++ cs " --help' for more information" ++ [LF])].
Proof.
  apply (X13_nothing_to_do_is_refused (cs "27.1") None [("q"%char, [])]
           a_process no_arguments).
  - reflexivity.
  - reflexivity.
  - reflexivity.
  - repeat constructor.
  - repeat constructor.
Defined.

End MoreScenarios.
